(** * SokoSolve: a shallow embedding of the BFS / A* Sokoban solver

    The development follows [solver.c], [bitset.h] and [test.c] of the
    repository.  Machine integers are integers of [Z] whose wrap-around is
    written out where the C code truncates ([pos_t], [cost_t] and [count_t]
    are 16-bit, [len_t] is 8-bit, [bits_t] is 64-bit).  A bitset is the list
    of its 64-bit words.  Loops become recursive functions; the [while]
    loops whose bound is not syntactic take a fuel argument, and the
    theorems show that the fuel given by the entry points is never used up. *)

From Stdlib Require Import ZArith Lia Bool Ascii String List.
From stdpp Require Import base list.

Local Open Scope Z_scope.

(** ** Machine integers *)

(** [pos_t], [cost_t], [count_t]: unsigned short. *)
Definition wrap16 (z : Z) : Z := z mod 65536.
(** [len_t]: unsigned char. *)
Definition wrap8 (z : Z) : Z := z mod 256.
(** [size_t] on the 64-bit targets the solver is built for. *)
Definition wrap64 (z : Z) : Z := z mod 18446744073709551616.

(** ** bitset.h *)

Definition BITS_CNT : Z := 64.

(** [bitset[i]]; the model reads a zero word outside the buffer. *)
Definition word (bitset : list Z) (i : Z) : Z :=
  default 0 (bitset !! Z.to_nat i).

Definition set_bit (bitset : list Z) (pos : Z) : list Z :=
  alter (fun w => Z.lor w (Z.shiftl 1 (pos mod BITS_CNT)))
        (Z.to_nat (pos / BITS_CNT)) bitset.

Definition clear_bit (bitset : list Z) (pos : Z) : list Z :=
  alter (fun w => Z.land w (Z.lxor (Z.ones 64) (Z.shiftl 1 (pos mod BITS_CNT))))
        (Z.to_nat (pos / BITS_CNT)) bitset.

Definition get_bit (bitset : list Z) (pos : Z) : bool :=
  negb (Z.land (word bitset (pos / BITS_CNT)) (Z.shiftl 1 (pos mod BITS_CNT)) =? 0).

(** The word indices [0 .. size-1] a [for] loop over a bitset visits. *)
Definition indices (size : Z) : list Z := map Z.of_nat (seq 0 (Z.to_nat size)).

Definition bitset_covers_all (under cover : list Z) (size : Z) : bool :=
  forallb (fun index =>
             Z.land (word under index) (Z.lxor (Z.ones 64) (word cover index)) =? 0)
          (indices size).

Definition bitset_covers_any (under cover : list Z) (size : Z) : bool :=
  existsb (fun index => negb (Z.land (word under index) (word cover index) =? 0))
          (indices size).

Definition bitset_equals (first second : list Z) (size : Z) : bool :=
  forallb (fun index => word first index =? word second index) (indices size).

Fixpoint bitset_cmp_loop (first second : list Z) (idx : list Z) : Z :=
  match idx with
  | [] => 0
  | index :: rest =>
      let f := word first index in
      let s := word second index in
      if f <? s then 1
      else if s <? f then -1
      else bitset_cmp_loop first second rest
  end.

Definition bitset_cmp (first second : list Z) (size : Z) : Z :=
  bitset_cmp_loop first second (indices size).

Definition bitset_xor (first second : list Z) (size : Z) : list Z :=
  map (fun index => Z.lxor (word first index) (word second index)) (indices size).

Definition bitset_copy (src : list Z) (size : Z) : list Z :=
  map (fun index => word src index) (indices size).

(** [memset(bitset, 0, stride)] and [memset(bitset, ~0, stride)]. *)
Definition bitset_zero (size : Z) : list Z := replicate (Z.to_nat size) 0.
Definition bitset_ones (size : Z) : list Z := replicate (Z.to_nat size) (Z.ones 64).

(** ** solver_types.h *)

Record context_t := {
  width : Z;
  height : Z;
  area : Z;
  bitset_size : Z;
  bitset_stride : Z;
  state_count : Z
}.

Record problem_t := {
  goal_count : Z;
  player : Z;
  walls : list Z;
  goals : list Z;
  crates : list Z;
  deadlocks : list Z;
  heuristics : list Z;
  compilable : bool;
  potentially_solvable : bool
}.

Record result_t := {
  solved : bool;
  actions : option string;
  iterations : Z;
  limit_exceeded : bool
}.

(** ** solver.c: context and problem *)

Definition create_context (w h capacity : Z) : context_t :=
  let width := wrap8 (w + 2) in
  let height := wrap8 (h + 2) in
  let bitset_size := ((w + 2) * (h + 2) + BITS_CNT - 1) / BITS_CNT in
  {| width := width;
     height := height;
     area := wrap16 (width * height);
     bitset_size := bitset_size;
     bitset_stride := bitset_size * 8;
     state_count := wrap64 (capacity + 1) |}.

(** [malloc] gives buffers of the requested size with unspecified content;
    the model fills them with zeros. *)
Definition allocate_problem (context : context_t) : problem_t :=
  {| goal_count := 0;
     player := 0;
     walls := bitset_zero (bitset_size context);
     goals := bitset_zero (bitset_size context);
     crates := bitset_zero (bitset_size context);
     deadlocks := bitset_zero (bitset_size context);
     heuristics := replicate (Z.to_nat (width context * height context)) 0;
     compilable := false;
     potentially_solvable := false |}.

(** The four offsets [{-1, 1, width, -width}]. *)
Definition directions (context : context_t) : list Z :=
  [-1; 1; width context; - width context].

(** [heuristics[position]] *)
Definition cost_at (heuristics : list Z) (position : Z) : Z :=
  default 0 (heuristics !! Z.to_nat position).

(** *** check_reachability

    The stack is a list whose head is [stack[top-1]]; the size [end] of the
    buffer that holds it is not part of the model. *)

Fixpoint push_neighbours (walls reach : list Z) (current : Z)
    (dirs : list Z) (stack : list Z) : list Z :=
  match dirs with
  | [] => stack
  | direction :: rest =>
      let next := wrap16 (current + direction) in
      if get_bit walls next || get_bit reach next
      then push_neighbours walls reach current rest stack
      else push_neighbours walls reach current rest (next :: stack)
  end.

Fixpoint flood (fuel : nat) (dirs : list Z) (walls reach : list Z)
    (stack : list Z) : option (list Z) :=
  match stack with
  | [] => Some reach
  | current :: stack' =>
      match fuel with
      | O => None
      | S fuel' =>
          let reach' := set_bit reach current in
          flood fuel' dirs walls reach'
                (push_neighbours walls reach' current dirs stack')
      end
  end.

Definition flood_fuel (context : context_t) : nat :=
  Z.to_nat (5 * area context + 2).

Definition check_reachability (context : context_t)
    (crates goals walls : list Z) (player : Z) : option bool :=
  reach ← flood (flood_fuel context) (directions context) walls
                (bitset_zero (bitset_size context)) [player];
  let free_objects := bitset_xor crates goals (bitset_size context) in
  Some (bitset_covers_all free_objects reach (bitset_size context)).

(** *** generate_deadlock_map

    The queue is the list [queue[front .. back-1]]. *)

Fixpoint relax (walls : list Z) (current cost : Z) (dirs : list Z)
    (deadlocks heuristics queue : list Z) : list Z * list Z * list Z :=
  match dirs with
  | [] => (deadlocks, heuristics, queue)
  | direction :: rest =>
      let next := wrap16 (current + direction) in
      if get_bit walls next
      then relax walls current cost rest deadlocks heuristics queue
      else if negb (get_bit deadlocks next) && (cost_at heuristics next <=? cost)
      then relax walls current cost rest deadlocks heuristics queue
      else
        let beyond := wrap16 (next + direction) in
        if get_bit walls beyond
        then relax walls current cost rest deadlocks heuristics queue
        else relax walls current cost rest
                   (clear_bit deadlocks next)
                   (<[Z.to_nat next := cost]> heuristics)
                   (queue ++ [next])
  end.

Fixpoint drain (fuel : nat) (walls dirs : list Z)
    (deadlocks heuristics queue : list Z) : option (list Z * list Z) :=
  match queue with
  | [] => Some (deadlocks, heuristics)
  | current :: queue' =>
      match fuel with
      | O => None
      | S fuel' =>
          let cost := wrap16 (cost_at heuristics current + 1) in
          let '(deadlocks', heuristics', queue'') :=
            relax walls current cost dirs deadlocks heuristics queue' in
          drain fuel' walls dirs deadlocks' heuristics' queue''
      end
  end.

Fixpoint seed_goals (fuel : nat) (walls goals dirs : list Z)
    (positions : list Z) (deadlocks heuristics : list Z)
    : option (list Z * list Z) :=
  match positions with
  | [] => Some (deadlocks, heuristics)
  | position :: rest =>
      if get_bit goals position
      then
        '(deadlocks', heuristics') ←
          drain fuel walls dirs (clear_bit deadlocks position)
                (<[Z.to_nat position := 0]> heuristics) [position];
        seed_goals fuel walls goals dirs rest deadlocks' heuristics'
      else seed_goals fuel walls goals dirs rest deadlocks heuristics
  end.

Definition drain_fuel (context : context_t) : nat :=
  Z.to_nat (area context * (area context + 1) + 1).

(** The loop [heuristics[position] = area] runs over the whole buffer of
    [width * height = area] costs. *)
Definition generate_deadlock_map (context : context_t) (problem : problem_t)
    : option (list Z * list Z) :=
  seed_goals (drain_fuel context) (walls problem) (goals problem)
             (directions context) (indices (area context))
             (bitset_ones (bitset_size context))
             (replicate (Z.to_nat (area context)) (area context)).

(** *** check_single_2x2_deadlock *)

Definition ortho_deadlock (problem : problem_t) (crates : list Z)
    (position p10 unsafe ortho : Z) : bool :=
  let p01 := wrap16 (position + ortho) in
  let c01 := get_bit crates p01 in
  let w01 := get_bit (walls problem) p01 in
  if negb (c01 || w01) then false
  else
    let unsafe_internal :=
      if c01 && negb (get_bit (goals problem) p01) then wrap16 (unsafe + 1) else unsafe in
    let p11 := wrap16 (p10 + ortho) in
    let c11 := get_bit crates p11 in
    let w11 := get_bit (walls problem) p11 in
    if negb (c11 || w11) then false
    else
      let unsafe_internal :=
        if c11 && negb (get_bit (goals problem) p11)
        then wrap16 (unsafe_internal + 1) else unsafe_internal in
      negb (unsafe_internal =? 0).

Definition check_single_2x2_deadlock (context : context_t) (problem : problem_t)
    (crates : list Z) (position direction : Z) : bool :=
  let ortho0 := width context + 1 - Z.abs direction in
  let orthos := [ortho0; - ortho0] in
  let unsafe := if get_bit (goals problem) position then 0 else 1 in
  let p10 := wrap16 (position + direction) in
  let c10 := get_bit crates p10 in
  let w10 := get_bit (walls problem) p10 in
  if negb (c10 || w10) then false
  else
    let unsafe :=
      if c10 && negb (get_bit (goals problem) p10) then wrap16 (unsafe + 1) else unsafe in
    existsb (ortho_deadlock problem crates position p10 unsafe) orthos.

(** *** check_all_2x2_deadlock *)

Fixpoint window_unsafe (problem : problem_t) (position : Z)
    (neighborhood : list Z) (unsafe : Z) : Z :=
  match neighborhood with
  | [] => unsafe
  | offset :: rest =>
      let neighbor := wrap16 (position + offset) in
      let has_crate := get_bit (crates problem) neighbor in
      let has_wall := get_bit (walls problem) neighbor in
      if negb (has_crate || has_wall) then 0
      else window_unsafe problem position rest
             (if has_crate && negb (get_bit (goals problem) neighbor)
              then wrap16 (unsafe + 1) else unsafe)
  end.

Definition neighborhood (context : context_t) : list Z :=
  [0; 1; width context; width context + 1].

(** One row of windows: [(true, _)] when the scan returned [true]. *)
Fixpoint scan_row (context : context_t) (problem : problem_t)
    (x_count : nat) (position : Z) : bool * Z :=
  match x_count with
  | O => (false, position)
  | S x_count' =>
      if negb (window_unsafe problem position (neighborhood context) 0 =? 0)
      then (true, position)
      else scan_row context problem x_count' (wrap16 (position + 1))
  end.

Fixpoint scan_rows (context : context_t) (problem : problem_t)
    (y_count x_count : nat) (position : Z) : bool :=
  match y_count with
  | O => false
  | S y_count' =>
      let '(found, position') := scan_row context problem x_count position in
      if found then true
      else scan_rows context problem y_count' x_count (wrap16 (position' + 1))
  end.

Definition check_all_2x2_deadlock (context : context_t) (problem : problem_t) : bool :=
  let y_end := wrap16 (height context - 1) in
  let x_end := wrap16 (width context - 1) in
  scan_rows context problem (Z.to_nat y_end) (Z.to_nat x_end) 0.

(** *** parse_problem *)

(** The variables the parsing loops update. *)
Record parser := {
  p_walls : list Z;
  p_goals : list Z;
  p_crates : list Z;
  p_player : Z;
  p_goal_count : Z;
  p_crate_count : Z;
  p_player_count : Z;
  p_position : Z
}.

Definition is_char (c : ascii) (s : string) : bool :=
  match s with
  | String c' EmptyString => Ascii.eqb c c'
  | _ => false
  end.

(** The [switch] on a level character: [None] is the [default] branch
    ([failed = true]). *)
Definition parse_tile (level_char : ascii) (st : parser) : option parser :=
  let position := p_position st in
  if is_char level_char "W" || is_char level_char "w" then
    Some st
  else if is_char level_char "." then
    Some {| p_walls := clear_bit (p_walls st) position;
            p_goals := p_goals st; p_crates := p_crates st;
            p_player := p_player st;
            p_goal_count := p_goal_count st;
            p_crate_count := p_crate_count st;
            p_player_count := p_player_count st;
            p_position := position |}
  else if is_char level_char "0" then
    Some {| p_walls := clear_bit (p_walls st) position;
            p_goals := set_bit (p_goals st) position;
            p_crates := p_crates st;
            p_player := p_player st;
            p_goal_count := wrap16 (p_goal_count st + 1);
            p_crate_count := p_crate_count st;
            p_player_count := p_player_count st;
            p_position := position |}
  else if is_char level_char "1" then
    Some {| p_walls := clear_bit (p_walls st) position;
            p_goals := p_goals st;
            p_crates := set_bit (p_crates st) position;
            p_player := p_player st;
            p_goal_count := p_goal_count st;
            p_crate_count := wrap16 (p_crate_count st + 1);
            p_player_count := p_player_count st;
            p_position := position |}
  else if is_char level_char "A" || is_char level_char "a" then
    Some {| p_walls := clear_bit (p_walls st) position;
            p_goals := p_goals st; p_crates := p_crates st;
            p_player := position;
            p_goal_count := p_goal_count st;
            p_crate_count := p_crate_count st;
            p_player_count := wrap16 (p_player_count st + 1);
            p_position := position |}
  else if is_char level_char "g" || is_char level_char "G" then
    Some {| p_walls := clear_bit (p_walls st) position;
            p_goals := set_bit (p_goals st) position;
            p_crates := set_bit (p_crates st) position;
            p_player := p_player st;
            p_goal_count := wrap16 (p_goal_count st + 1);
            p_crate_count := wrap16 (p_crate_count st + 1);
            p_player_count := p_player_count st;
            p_position := position |}
  else if is_char level_char "+" then
    Some {| p_walls := clear_bit (p_walls st) position;
            p_goals := set_bit (p_goals st) position;
            p_crates := p_crates st;
            p_player := position;
            p_goal_count := wrap16 (p_goal_count st + 1);
            p_crate_count := p_crate_count st;
            p_player_count := wrap16 (p_player_count st + 1);
            p_position := position |}
  else None.

Definition advance (st : parser) (n : Z) : parser :=
  {| p_walls := p_walls st; p_goals := p_goals st; p_crates := p_crates st;
     p_player := p_player st;
     p_goal_count := p_goal_count st;
     p_crate_count := p_crate_count st;
     p_player_count := p_player_count st;
     p_position := wrap16 (p_position st + n) |}.

(** The [do ... while(failed)] loop on the rest of the level string
    [level_str + index].  The end of the Rocq string is the terminating NUL
    of the C string; a NUL inside it ends the level the same way.  [None] as
    the rest of the input is the jump to [loop_end]. *)
Fixpoint parse_cell (level_str : string) (st : parser) : parser * option string :=
  match level_str with
  | EmptyString => (st, None)
  | String level_char rest =>
      if Ascii.eqb level_char Ascii.zero then (st, None)
      else
        match parse_tile level_char st with
        | Some st' => (st', Some rest)
        | None => parse_cell rest st
        end
  end.

(** The loop [for (i = 2; i < width; ++i)]. *)
Fixpoint parse_row (cells : nat) (level_str : string) (st : parser)
    : parser * option string :=
  match cells with
  | O => (st, Some level_str)
  | S cells' =>
      match parse_cell level_str st with
      | (st', Some rest) => parse_row cells' rest (advance st' 1)
      | (st', None) => (st', None)
      end
  end.

(** The loop [for (j = 2; j < height; ++j)]. *)
Fixpoint parse_rows (rows cells : nat) (level_str : string) (st : parser) : parser :=
  match rows with
  | O => st
  | S rows' =>
      match parse_row cells level_str st with
      | (st', Some rest) => parse_rows rows' cells rest (advance st' 2)
      | (st', None) => st'
      end
  end.

Definition parse_level (context : context_t) (problem : problem_t)
    (level_str : string) : parser :=
  parse_rows (Z.to_nat (height context - 2)) (Z.to_nat (width context - 2)) level_str
    {| p_walls := bitset_ones (bitset_size context);
       p_goals := bitset_zero (bitset_size context);
       p_crates := bitset_zero (bitset_size context);
       p_player := player problem;
       p_goal_count := 0; p_crate_count := 0; p_player_count := 0;
       p_position := wrap16 (width context + 1) |}.

(** [parse_problem] updates [problem] and returns [compilable]; [None] when
    one of the inner [while] loops used up its fuel. *)
Definition parse_problem (context : context_t) (problem : problem_t)
    (level_str : string) : option (problem_t * bool) :=
  let st := parse_level context problem level_str in
  let valid :=
    (p_player_count st =? 1) && (p_goal_count st =? p_crate_count st)
    && negb (bitset_equals (p_crates st) (p_goals st) (bitset_size context)) in
  let problem1 :=
    {| goal_count := p_goal_count st;
       player := p_player st;
       walls := p_walls st;
       goals := p_goals st;
       crates := p_crates st;
       deadlocks := deadlocks problem;
       heuristics := heuristics problem;
       compilable := valid;
       potentially_solvable := potentially_solvable problem |} in
  let valid2 := if valid then negb (check_all_2x2_deadlock context problem1) else valid in
  match (if valid2
         then match generate_deadlock_map context problem1 with
              | Some (d, h) =>
                  Some (d, h, negb (bitset_covers_any (crates problem1) d
                                                      (bitset_size context)))
              | None => None
              end
         else Some (deadlocks problem1, heuristics problem1, valid2)) with
  | None => None
  | Some (deadlocks2, heuristics2, valid3) =>
      match (if valid3 : bool
             then check_reachability context (crates problem1) (goals problem1)
                                     (walls problem1) (player problem1)
             else Some valid3) with
      | None => None
      | Some valid4 =>
          let problem' :=
            {| goal_count := goal_count problem1;
               player := player problem1;
               walls := walls problem1;
               goals := goals problem1;
               crates := crates problem1;
               deadlocks := deadlocks2;
               heuristics := heuristics2;
               compilable := valid;
               potentially_solvable := valid4 |} in
          Some (problem', compilable problem')
      end
  end.

(** [const action_t* ACTIONS = "lrduLRDU"] *)
Definition ACTIONS : list ascii :=
  ["l"%char; "r"%char; "d"%char; "u"%char; "L"%char; "R"%char; "D"%char; "U"%char].

(** ** solver.c: search states

    A [state_t*] is the index of the state in [state_cache]; the [parent] of
    the root is [NULL], here [None].  The type [P] stands for the [float]
    priorities: the solvers only compare them with [<] and compute them from
    a cost and a heuristic.  The crates of a state are kept by value: a
    bitset taken from [bitset_cache] is written once, before the state that
    owns it is stored, and only a bitset whose child was discarded is given
    back. *)

Record state_t (P : Type) := {
  priority : P;
  heuristic : Z;
  cost : Z;
  parent : option nat;
  heap_index : Z;
  action : ascii;
  state_player : Z;
  state_crates : list Z
}.
Arguments priority {P} _.
Arguments heuristic {P} _.
Arguments cost {P} _.
Arguments parent {P} _.
Arguments heap_index {P} _.
Arguments action {P} _.
Arguments state_player {P} _.
Arguments state_crates {P} _.

(** What a solver call ends with: the [result_t] it returns, an access
    outside [state_cache] or [bitset_cache] or through a [NULL] parent
    (undefined behaviour in C), or a loop of the model out of fuel. *)
Inductive outcome :=
| Returned (result : result_t)
| Fault
| OutOfFuel.

Definition create_result (solved : bool) (actions : option string)
    (iterations : Z) (limit_exceeded : bool) : result_t :=
  {| solved := solved; actions := actions;
     iterations := iterations; limit_exceeded := limit_exceeded |}.

(** [state_compare] on two states. *)
Definition state_compare {P} (context : context_t) (sa sb : state_t P) : Z :=
  let player_difference := state_player sa - state_player sb in
  if player_difference =? 0
  then bitset_cmp (state_crates sa) (state_crates sb) (bitset_size context)
  else player_difference.

(** Modelled from the spec: [hashmap.c] is not among the sources.  The hash
    set of state pointers (spec, 4.3) is the list of the stored pointers;
    [hashmap_get] returns a stored pointer whose state compares equal to the
    key under [state_compare], [hashmap_set] stores one more pointer and
    [hashmap_clear] empties the set. *)
Definition hashmap_get {P} (context : context_t) (cache : list (state_t P))
    (map : list nat) (key : state_t P) : option nat :=
  find (fun i => match cache !! i with
                 | Some s => state_compare context s key =? 0
                 | None => false
                 end) map.

Definition hashmap_set (map : list nat) (item : nat) : list nat := map ++ [item].

(** The part of the loop body over the four directions that [solve_bfs] and
    [solve_astar] share: the new player position and, on a push, the new
    crates. *)
Inductive child_t :=
| Skip
| Child (player : Z) (action : ascii) (changed : bool) (crates : list Z).

Definition action_at (index : nat) : ascii := default Ascii.zero (ACTIONS !! index).

Definition make_child (context : context_t) (problem : problem_t)
    (parent_player : Z) (parent_crates : list Z) (index : nat) (direction : Z)
    : child_t :=
  let player := wrap16 (parent_player + direction) in
  if get_bit (walls problem) player then Skip
  else if get_bit parent_crates player then
    let next := wrap16 (player + direction) in
    if get_bit (walls problem) next || get_bit parent_crates next
       || get_bit (deadlocks problem) next
    then Skip
    else if check_single_2x2_deadlock context problem parent_crates next direction
    then Skip
    else Child player (action_at (index + 4)) true
               (clear_bit (set_bit (bitset_copy parent_crates (bitset_size context)) next)
                          player)
  else Child player (action_at index) false parent_crates.

(** The backtracking loop [while (index >= 0)] that fills [solution] from
    its end; [count] is the number of characters still to write and [node]
    the pointer the loop calls [parent]. *)
Fixpoint backtrack {P} (cache : list (state_t P)) (count : nat)
    (node : option nat) (solution : string) : option string :=
  match count with
  | O => Some solution
  | S count' =>
      match node with
      | None => None
      | Some i =>
          match cache !! i with
          | None => None
          | Some s => backtrack cache count' (parent s) (String (action s) solution)
          end
      end
  end.

(** The block that builds the solution and returns it; [cost] characters
    are written, the last one first. *)
Definition return_solution {P} (cache : list (state_t P)) (parent_index : nat)
    (cost : Z) (action : ascii) (iterations : Z) : outcome :=
  if cost =? 0 then Fault
  else
    match backtrack cache (Z.to_nat (cost - 1)) (Some parent_index)
                    (String action EmptyString) with
    | Some solution => Returned (create_result true (Some solution) iterations false)
    | None => Fault
    end.

(** The variables of a search: the states [state_cache[0 .. free_state)],
    the number of bitsets taken from [bitset_cache], the hash set and the
    heap [min_heap[0 .. heap_size)]. *)
Record search (P : Type) := {
  cache : list (state_t P);
  free_bits : Z;
  hashmap : list nat;
  min_heap : list nat
}.
Arguments cache {P} _.
Arguments free_bits {P} _.
Arguments hashmap {P} _.
Arguments min_heap {P} _.

Inductive step (P : Type) :=
| Continue (st : search P)
| Return (o : outcome).
Arguments Continue {P} _.
Arguments Return {P} _.

(** *** solve_bfs *)

Definition bfs_state (parent : option nat) (action : ascii) (cost player : Z)
    (crates : list Z) : state_t unit :=
  {| priority := tt; heuristic := 0; cost := cost; parent := parent;
     heap_index := 0; action := action;
     state_player := player; state_crates := crates |}.

(** The body of the loop over the four directions, for the direction
    [direction] of index [index]: [Continue] when the loop goes on to the
    next direction. *)
Definition bfs_child (context : context_t) (problem : problem_t)
    (parent_index : nat) (parent : state_t unit) (cost iterations : Z)
    (index : nat) (direction : Z) (st : search unit) : step unit :=
  match make_child context problem (state_player parent) (state_crates parent)
                   index direction with
  | Skip => Continue st
  | Child player action changed crates =>
      if changed && (state_count context <=? free_bits st) then Return Fault
      else
        let free_bits1 := if changed then free_bits st + 1 else free_bits st in
        if changed && bitset_equals crates (goals problem) (bitset_size context)
        then Return (return_solution (cache st) parent_index cost action iterations)
        else if state_count context <=? Z.of_nat (length (cache st))
        then Return Fault
        else
          let child := bfs_state (Some parent_index) action cost player crates in
          match hashmap_get context (cache st) (hashmap st) child with
          | None =>
              let free_state := length (cache st) in
              let st' := {| cache := cache st ++ [child];
                            free_bits := free_bits1;
                            hashmap := hashmap_set (hashmap st) free_state;
                            min_heap := min_heap st |} in
              if Z.of_nat (S free_state) =? state_count context
              then Return (Returned (create_result false None iterations true))
              else Continue st'
          | Some _ =>
              Continue {| cache := cache st;
                          free_bits := if changed then free_bits1 - 1 else free_bits1;
                          hashmap := hashmap st;
                          min_heap := min_heap st |}
          end
  end.

(** The loop over the directions [dirs] that are left; [index] is the
    index of the first of them. *)
Fixpoint bfs_children (context : context_t) (problem : problem_t)
    (parent_index : nat) (parent : state_t unit) (cost iterations : Z)
    (index : nat) (dirs : list Z) (st : search unit) : step unit :=
  match dirs with
  | [] => Continue st
  | direction :: rest =>
      match bfs_child context problem parent_index parent cost iterations
                      index direction st with
      | Return o => Return o
      | Continue st' =>
          bfs_children context problem parent_index parent cost iterations
                       (S index) rest st'
      end
  end.

Fixpoint bfs_loop (fuel : nat) (context : context_t) (problem : problem_t)
    (max_iterations : Z) (current : nat) (iterations : Z) (st : search unit)
    : outcome :=
  if (current =? length (cache st))%nat
  then Returned (create_result false None iterations false)
  else
    match fuel with
    | O => OutOfFuel
    | S fuel' =>
        if (0 <? max_iterations) && (max_iterations <=? iterations)
        then Returned (create_result false None iterations true)
        else
          let iterations := iterations + 1 in
          match cache st !! current with
          | None => Fault
          | Some parent =>
              let cost := wrap16 (cost parent + 1) in
              match bfs_children context problem current parent cost iterations
                                 0 (directions context) st with
              | Return o => o
              | Continue st' =>
                  bfs_loop fuel' context problem max_iterations (S current)
                           iterations st'
              end
          end
    end.

(** The search variables when [solve_bfs] enters its loop. *)
Definition bfs_start (problem : problem_t) : search unit :=
  let root := bfs_state None Ascii.zero 0 (player problem) (crates problem) in
  {| cache := [root]; free_bits := 0;
     hashmap := hashmap_set [] 0%nat; min_heap := [] |}.

(** The allocations of [allocate_context_memory] are taken to succeed. *)
Definition solve_bfs (context : context_t) (problem : problem_t)
    (max_iterations : Z) : outcome :=
  if negb (potentially_solvable problem)
  then Returned (create_result false None 0 false)
  else if state_count context <=? 0 then Fault
  else
    bfs_loop (S (Z.to_nat (state_count context))) context problem max_iterations
             0 0 (bfs_start problem).

(** *** The heap of solve_astar *)

Section Heap.
Context {P : Type}.
(** [a < b] on priorities. *)
Variable plt : P -> P -> bool.

Definition set_heap_index (i : Z) (s : state_t P) : state_t P :=
  {| priority := priority s; heuristic := heuristic s; cost := cost s;
     parent := parent s; heap_index := i; action := action s;
     state_player := state_player s; state_crates := state_crates s |}.

(** [a->priority < b->priority] for two state pointers. *)
Definition priority_lt (cache : list (state_t P)) (a b : nat) : bool :=
  match cache !! a, cache !! b with
  | Some sa, Some sb => plt (priority sa) (priority sb)
  | _, _ => false
  end.

(** [min_heap[i]] *)
Definition heap_at (min_heap : list nat) (i : nat) : nat :=
  default 0%nat (min_heap !! i).

(** The loop of [heapify_bottomup]; [last] is read before the loop. *)
Fixpoint heapify_bottomup_loop (fuel : nat) (cache : list (state_t P))
    (min_heap : list nat) (last node_index : nat) : list (state_t P) * list nat :=
  match fuel with
  | O => (cache, min_heap)
  | S fuel' =>
      if (node_index =? 0)%nat then (cache, min_heap)
      else
        let parent_index := Nat.shiftr node_index 1 in
        let parent := heap_at min_heap parent_index in
        if priority_lt cache last parent then
          let cache1 := alter (set_heap_index (Z.of_nat parent_index)) last cache in
          let cache2 := alter (set_heap_index (Z.of_nat node_index)) parent cache1 in
          let min_heap1 := <[parent_index := last]> min_heap in
          let min_heap2 := <[node_index := parent]> min_heap1 in
          heapify_bottomup_loop fuel' cache2 min_heap2 last parent_index
        else (cache, min_heap)
  end.

Definition heapify_bottomup (cache : list (state_t P)) (min_heap : list nat)
    (node_index : nat) : list (state_t P) * list nat :=
  heapify_bottomup_loop node_index cache min_heap (heap_at min_heap node_index)
                        node_index.

(** The loop of [heapify_topdown]; [size] is the length of [min_heap]. *)
Fixpoint heapify_topdown_loop (fuel : nat) (cache : list (state_t P))
    (min_heap : list nat) (root root_index : nat) : list (state_t P) * list nat :=
  match fuel with
  | O => (cache, min_heap)
  | S fuel' =>
      let size := length min_heap in
      let child1_index := Nat.shiftl root_index 1 in
      if (size <=? child1_index)%nat then (cache, min_heap)
      else
        let child2_index := (child1_index + 1)%nat in
        let min_child_index :=
          if (child2_index <? size)%nat
             && priority_lt cache (heap_at min_heap child2_index)
                            (heap_at min_heap child1_index)
          then child2_index else child1_index in
        let child := heap_at min_heap min_child_index in
        if priority_lt cache child root then
          let cache1 := alter (set_heap_index (Z.of_nat root_index)) child cache in
          let cache2 := alter (set_heap_index (Z.of_nat min_child_index)) root cache1 in
          let min_heap1 := <[root_index := child]> min_heap in
          let min_heap2 := <[min_child_index := root]> min_heap1 in
          heapify_topdown_loop fuel' cache2 min_heap2 root min_child_index
        else (cache, min_heap)
  end.

Definition heapify_topdown (cache : list (state_t P)) (min_heap : list nat)
    (root_index : nat) : list (state_t P) * list nat :=
  heapify_topdown_loop (length min_heap) cache min_heap
                       (heap_at min_heap root_index) root_index.

(** [heap_insert]: [*size] is the length of [min_heap]. *)
Definition heap_insert (cache : list (state_t P)) (min_heap : list nat)
    (element : nat) : list (state_t P) * list nat :=
  let index := length min_heap in
  let cache1 := alter (set_heap_index (Z.of_nat index)) element cache in
  let min_heap1 := min_heap ++ [element] in
  if (0 <? index)%nat then heapify_bottomup cache1 min_heap1 index
  else (cache1, min_heap1).

(** [heap_pop] returns the popped pointer; [None] on an empty heap, where
    the C code is never called. *)
Definition heap_pop (cache : list (state_t P)) (min_heap : list nat)
    : option (nat * list (state_t P) * list nat) :=
  match min_heap with
  | [] => None
  | _ =>
      let last_index := (length min_heap - 1)%nat in
      if (last_index =? 0)%nat then Some (heap_at min_heap 0, cache, [])
      else
        let last := heap_at min_heap last_index in
        let root := heap_at min_heap 0 in
        let cache1 := alter (set_heap_index 0) last cache in
        let min_heap1 := take last_index (<[0%nat := last]> min_heap) in
        let '(cache2, min_heap2) := heapify_topdown cache1 min_heap1 0 in
        Some (root, cache2, min_heap2)
  end.
End Heap.

(** *** solve_astar *)

Definition compute_heuristic (context : context_t) (problem : problem_t)
    (crates : list Z) : Z :=
  fold_left (fun h position =>
               if get_bit crates position
               then wrap16 (h + cost_at (heuristics problem) position) else h)
            (indices (area context)) 0.

Section AStar.
Context {P : Type}.
Variable plt : P -> P -> bool.
(** [h_factor * heuristic], the priority of the root. *)
Variable priority_root : Z -> P.
(** [g_factor * cost + h_factor * heuristic]. *)
Variable priority_of : Z -> Z -> P.

(** The assignments to [twin->parent], [twin->action], [twin->cost] and
    [twin->priority]. *)
Definition update_twin (parent : option nat) (action : ascii) (cost : Z)
    (twin : state_t P) : state_t P :=
  {| priority := priority_of cost (heuristic twin);
     heuristic := heuristic twin; cost := cost; parent := parent;
     heap_index := heap_index twin; action := action;
     state_player := state_player twin; state_crates := state_crates twin |}.

(** The body of the loop over the four directions, for the direction
    [direction] of index [index]; [new_cost] is the local variable [cost]
    of the loop body. *)
Definition astar_child (context : context_t) (problem : problem_t)
    (parent_index : nat) (parent : state_t P) (new_cost iterations : Z)
    (index : nat) (direction : Z) (st : search P) : step P :=
  match make_child context problem (state_player parent) (state_crates parent)
                   index direction with
  | Skip => Continue st
  | Child player action changed crates =>
      if changed && (state_count context <=? free_bits st) then Return Fault
      else
        let free_bits1 := if changed then free_bits st + 1 else free_bits st in
        if changed && bitset_equals crates (goals problem) (bitset_size context)
        then Return (return_solution (cache st) parent_index new_cost action iterations)
        else if state_count context <=? Z.of_nat (length (cache st))
        then Return Fault
        else
          let child :=
            {| priority := priority parent; heuristic := heuristic parent;
               cost := new_cost; parent := Some parent_index;
               heap_index := 0; action := action;
               state_player := player; state_crates := crates |} in
          match hashmap_get context (cache st) (hashmap st) child with
          | None =>
              let h := if changed then compute_heuristic context problem crates
                       else heuristic parent in
              let child :=
                {| priority := priority_of new_cost h; heuristic := h;
                   cost := new_cost; parent := Some parent_index;
                   heap_index := 0; action := action;
                   state_player := player; state_crates := crates |} in
              let free_state := length (cache st) in
              let '(cache', min_heap') :=
                heap_insert plt (cache st ++ [child]) (min_heap st) free_state in
              let st' := {| cache := cache';
                            free_bits := free_bits1;
                            hashmap := hashmap_set (hashmap st) free_state;
                            min_heap := min_heap' |} in
              if Z.of_nat (S free_state) =? state_count context
              then Return (Returned (create_result false None iterations true))
              else Continue st'
          | Some twin_index =>
              let free_bits2 := if changed then free_bits1 - 1 else free_bits1 in
              match cache st !! twin_index with
              | None => Return Fault
              | Some twin =>
                  if (0 <=? heap_index twin) && (new_cost <? cost twin)
                  then
                    let cache1 :=
                      alter (update_twin (Some parent_index) action new_cost)
                            twin_index (cache st) in
                    let '(cache', min_heap') :=
                      heapify_bottomup plt cache1 (min_heap st)
                                       (Z.to_nat (heap_index twin)) in
                    Continue {| cache := cache'; free_bits := free_bits2;
                                hashmap := hashmap st; min_heap := min_heap' |}
                  else
                    Continue {| cache := cache st; free_bits := free_bits2;
                                hashmap := hashmap st; min_heap := min_heap st |}
              end
          end
  end.

Fixpoint astar_children (context : context_t) (problem : problem_t)
    (parent_index : nat) (parent : state_t P) (new_cost iterations : Z)
    (index : nat) (dirs : list Z) (st : search P) : step P :=
  match dirs with
  | [] => Continue st
  | direction :: rest =>
      match astar_child context problem parent_index parent new_cost iterations
                        index direction st with
      | Return o => Return o
      | Continue st' =>
          astar_children context problem parent_index parent new_cost iterations
                         (S index) rest st'
      end
  end.

(** [heap_pop] and the assignment [state->heap_index = -1]. *)
Definition astar_pop (st : search P) : option (nat * search P) :=
  match heap_pop plt (cache st) (min_heap st) with
  | None => None
  | Some (parent_index, cache1, min_heap1) =>
      Some (parent_index,
            {| cache := alter (set_heap_index (-1)) parent_index cache1;
               free_bits := free_bits st; hashmap := hashmap st;
               min_heap := min_heap1 |})
  end.

Fixpoint astar_loop (fuel : nat) (context : context_t) (problem : problem_t)
    (max_iterations : Z) (iterations : Z) (st : search P) : outcome :=
  match min_heap st with
  | [] => Returned (create_result false None iterations false)
  | _ =>
      match fuel with
      | O => OutOfFuel
      | S fuel' =>
          if (0 <? max_iterations) && (max_iterations <=? iterations)
          then Returned (create_result false None iterations true)
          else
            let iterations := iterations + 1 in
            match astar_pop st with
            | None => Fault
            | Some (parent_index, st1) =>
                match cache st1 !! parent_index with
                | None => Fault
                | Some parent =>
                    let cost := wrap16 (cost parent + 1) in
                    match astar_children context problem parent_index parent cost
                            iterations 0 (directions context) st1 with
                    | Return o => o
                    | Continue st' =>
                        astar_loop fuel' context problem max_iterations iterations st'
                    end
                end
            end
      end
  end.

(** The search variables when [solve_astar] enters its loop. *)
Definition astar_start (context : context_t) (problem : problem_t) : search P :=
  let h := compute_heuristic context problem (crates problem) in
  let root :=
    {| priority := priority_root h; heuristic := h; cost := 0;
       parent := None; heap_index := 0; action := Ascii.zero;
       state_player := player problem; state_crates := crates problem |} in
  let '(cache0, min_heap0) := heap_insert plt [root] [] 0%nat in
  {| cache := cache0; free_bits := 0;
     hashmap := hashmap_set [] 0%nat; min_heap := min_heap0 |}.

Definition solve_astar (context : context_t) (problem : problem_t)
    (max_iterations : Z) : outcome :=
  if negb (potentially_solvable problem)
  then Returned (create_result false None 0 false)
  else if state_count context <=? 0 then Fault
  else
    astar_loop (S (Z.to_nat (state_count context))) context problem max_iterations 0
               (astar_start context problem).
End AStar.

(** The priorities for factors that are integers small enough for the
    [float] products and sums to be exact: they are ordered as the integers
    they stand for. *)
Definition exact_root (h_factor : Z) (heuristic : Z) : Z := h_factor * heuristic.
Definition exact_priority (h_factor g_factor : Z) (cost heuristic : Z) : Z :=
  g_factor * cost + h_factor * heuristic.
Definition solve_astar_exact (context : context_t) (problem : problem_t)
    (h_factor g_factor : Z) (max_iterations : Z) : outcome :=
  solve_astar Z.ltb (exact_root h_factor) (exact_priority h_factor g_factor)
              context problem max_iterations.

(** ** test.c: verify_solution *)

(** The [switch] has no default: for a character that is not an action the
    direction is indeterminate, and the model rejects the string. *)
Definition action_direction (context : context_t) (a : ascii) : option Z :=
  if is_char a "l" || is_char a "L" then Some (-1)
  else if is_char a "r" || is_char a "R" then Some 1
  else if is_char a "u" || is_char a "U" then Some (- width context)
  else if is_char a "d" || is_char a "D" then Some (width context)
  else None.

(** [*actions >= 'a'] *)
Definition is_lower (a : ascii) : bool := (97 <=? Z.of_nat (nat_of_ascii a)).

(** The body of the loop of [verify_solution] for the action [a]: the new
    player position and crates, or [None] where the C code returns false. *)
Definition verify_step (context : context_t) (problem : problem_t)
    (player : Z) (crates : list Z) (a : ascii) : option (Z * list Z) :=
  match action_direction context a with
  | None => None
  | Some direction =>
      let player := wrap16 (player + direction) in
      if get_bit (walls problem) player then None
      else if get_bit crates player then
        if is_lower a then None
        else
          let new_crate_pos := wrap16 (player + direction) in
          if get_bit (walls problem) new_crate_pos then None
          else if get_bit crates new_crate_pos then None
          else Some (player, set_bit (clear_bit crates player) new_crate_pos)
      else Some (player, crates)
  end.

Fixpoint verify_solution_from (context : context_t) (problem : problem_t)
    (player : Z) (crates : list Z) (actions : string) : bool :=
  match actions with
  | EmptyString => bitset_equals crates (goals problem) (bitset_size context)
  | String a rest =>
      match verify_step context problem player crates a with
      | None => false
      | Some (player, crates) =>
          verify_solution_from context problem player crates rest
      end
  end.

Definition verify_solution (context : context_t) (problem : problem_t)
    (actions : string) : bool :=
  verify_solution_from context problem (player problem) (crates problem) actions.

(** * Specification

    The notions the properties are stated with. *)

(** ** Bitsets *)

(** A position inside the buffer of a bitset. *)
Definition in_bitset (bitset : list Z) (pos : Z) : Prop :=
  0 <= pos < 64 * Z.of_nat (length bitset).

(** Words are 64-bit. *)
Definition bitset_wf (bitset : list Z) : Prop :=
  Forall (fun w => 0 <= w < 2 ^ 64) bitset.

(** ** Contexts *)

(** A context whose padded sizes fit [len_t]: what [create_context] builds
    from a level width and height of at most 253. *)
Record context_ok (context : context_t) : Prop := {
  ok_width : 2 <= width context <= 255;
  ok_height : 2 <= height context <= 255;
  ok_area : area context = width context * height context;
  ok_bitset_size : bitset_size context = (area context + 63) / 64
}.

(** ** Levels *)

Definition is_wall_char (c : ascii) : bool := is_char c "W" || is_char c "w".
Definition is_goal_char (c : ascii) : bool :=
  is_char c "0" || is_char c "g" || is_char c "G" || is_char c "+".
Definition is_crate_char (c : ascii) : bool :=
  is_char c "1" || is_char c "g" || is_char c "G".
Definition is_player_char (c : ascii) : bool :=
  is_char c "A" || is_char c "a" || is_char c "+".
Definition is_tile_char (c : ascii) : bool :=
  is_wall_char c || is_char c "." || is_goal_char c || is_crate_char c
  || is_player_char c.

(** The tiles of a level string: its tile characters up to the first NUL. *)
Fixpoint tiles (level_str : string) : list ascii :=
  match level_str with
  | EmptyString => []
  | String c rest =>
      if Ascii.eqb c Ascii.zero then []
      else if is_tile_char c then c :: tiles rest
      else tiles rest
  end.

(** The position of the interior cell number [n], counted row by row. *)
Definition cell_position (context : context_t) (n : Z) : Z :=
  (n / (width context - 2) + 1) * width context + n mod (width context - 2) + 1.

(** The number of interior cells. *)
Definition interior_size (context : context_t) : Z :=
  (width context - 2) * (height context - 2).

(** The tiles that are parsed: one for each interior cell, in order. *)
Definition parsed_tiles (context : context_t) (level_str : string) : list ascii :=
  take (Z.to_nat (interior_size context)) (tiles level_str).

Definition count_chars (f : ascii -> bool) (l : list ascii) : Z :=
  Z.of_nat (length (filter (fun c => f c = true) l)).

(** ** Auxiliary notions for the parser *)

(** What the parser has written so far: its state without the cursor. *)
Definition content (st : parser)
    : list Z * list Z * list Z * Z * Z * Z * Z :=
  (p_walls st, p_goals st, p_crates st, p_player st,
   p_goal_count st, p_crate_count st, p_player_count st).

Definition at_position (st : parser) (pos : Z) : parser :=
  {| p_walls := p_walls st; p_goals := p_goals st; p_crates := p_crates st;
     p_player := p_player st;
     p_goal_count := p_goal_count st;
     p_crate_count := p_crate_count st;
     p_player_count := p_player_count st;
     p_position := pos |}.

(** One tile written at one position. *)
Definition place (st : parser) (pc : Z * ascii) : parser :=
  match parse_tile (snd pc) (at_position st (fst pc)) with
  | Some st' => st'
  | None => st
  end.

(** The positions of [rows] rows of [cells] cells, the first at [pos]; two
    border cells lie between two rows. *)
Fixpoint rows_positions (rows : nat) (cells : Z) (pos : Z) : list Z :=
  match rows with
  | O => []
  | S rows' => seqZ pos cells ++ rows_positions rows' cells (pos + cells + 2)
  end.

(** A cell inside the border. *)
Definition interior (context : context_t) (q : Z) : Prop :=
  exists x y, 1 <= x <= width context - 2 /\ 1 <= y <= height context - 2
              /\ q = y * width context + x.

(** The positions of the interior cells, row by row. *)
Definition interior_positions (context : context_t) : list Z :=
  rows_positions (Z.to_nat (height context - 2)) (width context - 2)
                 (width context + 1).

(** A level as [parse_problem] leaves it: bitsets of [bitset_size] words,
    walls all around the interior, goals and crates on cells without a
    wall. *)
Record level_ok (context : context_t) (walls goals crates : list Z) : Prop := {
  lv_walls_length : length walls = Z.to_nat (bitset_size context);
  lv_goals_length : length goals = Z.to_nat (bitset_size context);
  lv_crates_length : length crates = Z.to_nat (bitset_size context);
  lv_walls_wf : bitset_wf walls;
  lv_goals_wf : bitset_wf goals;
  lv_crates_wf : bitset_wf crates;
  lv_border : forall q, 0 <= q < 64 * bitset_size context ->
                        ~ interior context q -> get_bit walls q = true;
  lv_goals_free : forall q, 0 <= q -> get_bit goals q = true ->
                            interior context q /\ get_bit walls q = false;
  lv_crates_free : forall q, 0 <= q -> get_bit crates q = true ->
                             interior context q /\ get_bit walls q = false
}.

(** The bit a tile gives a cell, [d] for a cell without a tile. *)
Definition tile_bit (f : ascii -> bool) (d : bool) (t : option ascii) : bool :=
  match t with Some c => f c | None => d end.

(** ** Reachability *)

(** The cells the player can walk to from [start] across cells without a
    wall, one step in one of the four directions at a time. *)
Inductive reachable (context : context_t) (walls : list Z) (start : Z) : Z -> Prop :=
| reachable_start : reachable context walls start start
| reachable_step (c d : Z) :
    reachable context walls start c ->
    d ∈ directions context ->
    get_bit walls (wrap16 (c + d)) = false ->
    reachable context walls start (wrap16 (c + d)).

(** The number of positions of the grid that [reach] does not hold. *)
Definition unmarked (context : context_t) (reach : list Z) : nat :=
  length (filter (fun p => get_bit reach p = false) (indices (area context))).

(** The invariant of the flood fill of [check_reachability]: what [reach]
    holds is reachable, and the neighbours of a cell it holds are in [reach]
    or further up on the stack. *)
Record flood_inv (context : context_t) (walls : list Z) (start : Z)
    (reach stack : list Z) : Prop := {
  fi_length : length reach = Z.to_nat (bitset_size context);
  fi_stack : forall c, c ∈ stack ->
                       interior context c /\ reachable context walls start c;
  fi_sound : forall p, 0 <= p -> get_bit reach p = true ->
                       interior context p /\ reachable context walls start p;
  fi_start : get_bit reach start = true \/ start ∈ stack;
  fi_closed : forall x d, 0 <= x -> get_bit reach x = true ->
                d ∈ directions context ->
                get_bit walls (wrap16 (x + d)) = false ->
                get_bit reach (wrap16 (x + d)) = true \/ wrap16 (x + d) ∈ stack;
  fi_lifo : forall s1 y s2, stack = s1 ++ y :: s2 -> get_bit reach y = true ->
              forall d, d ∈ directions context ->
                get_bit walls (wrap16 (y + d)) = false ->
                get_bit reach (wrap16 (y + d)) = true \/ wrap16 (y + d) ∈ s1
}.

(** ** Pushing a lone crate *)

(** One push takes a lone crate from the cell [p] to the cell [q]: [q] lies
    one step from [p], neither holds a wall, and the player can stand on
    the cell on the other side of [p]. *)
Definition crate_push (context : context_t) (walls : list Z) (p q : Z) : Prop :=
  exists e, e ∈ directions context /\ q = p + e
            /\ 0 <= p < area context /\ 0 <= q < area context
            /\ 0 <= p - e < area context
            /\ get_bit walls p = false /\ get_bit walls q = false
            /\ get_bit walls (p - e) = false.

(** [crate_path p k g]: [k] pushes take a lone crate from [p] to [g]. *)
Inductive crate_path (context : context_t) (walls : list Z) : Z -> nat -> Z -> Prop :=
| crate_path_here (g : Z) :
    0 <= g < area context -> get_bit walls g = false ->
    crate_path context walls g 0 g
| crate_path_push (p q g : Z) (k : nat) :
    crate_push context walls p q ->
    crate_path context walls q k g ->
    crate_path context walls p (S k) g.

(** [walk p l g]: the cells [l] a lone crate passes from [p] to [g], both
    included. *)
Inductive walk (context : context_t) (walls : list Z) : Z -> list Z -> Z -> Prop :=
| walk_here (g : Z) :
    0 <= g < area context -> get_bit walls g = false ->
    walk context walls g [g] g
| walk_push (p q g : Z) (l : list Z) :
    crate_push context walls p q ->
    walk context walls q l g ->
    walk context walls p (p :: l) g.

(** The invariant of the loops of [generate_deadlock_map].  [seeded] holds
    the positions whose goal the outer loop has handled, [pending] the cell
    whose neighbours the inner loop is visiting with the directions still
    to come. *)
Record dmap_inv (context : context_t) (walls goals : list Z)
    (seeded : list Z) (pending : option (Z * list Z))
    (deadlocks heuristics queue : list Z) : Prop := {
  di_deadlocks_length : length deadlocks = Z.to_nat (bitset_size context);
  di_heuristics_length : length heuristics = Z.to_nat (area context);
  di_queue : forall c, c ∈ queue ->
               0 <= c < area context /\ get_bit deadlocks c = false;
  di_pending : forall c todo, pending = Some (c, todo) ->
               0 <= c < area context /\ get_bit deadlocks c = false;
  di_dead : forall p, 0 <= p < area context -> get_bit deadlocks p = true ->
              cost_at heuristics p = area context;
  di_real : forall p, 0 <= p < area context -> get_bit deadlocks p = false ->
              exists l g,
                get_bit goals g = true /\ walk context walls p l g /\ NoDup l
                /\ Z.of_nat (length l) = cost_at heuristics p + 1
                /\ forall i c, l !! i = Some c ->
                     get_bit deadlocks c = false
                     /\ 0 <= cost_at heuristics c
                        <= Z.of_nat (length l) - 1 - Z.of_nat i;
  di_closed : forall c d, 0 <= c < area context -> get_bit deadlocks c = false ->
                c ∉ queue ->
                (forall todo, pending = Some (c, todo) -> d ∉ todo) ->
                d ∈ directions context ->
                get_bit walls (wrap16 (c + d)) = false ->
                get_bit walls (wrap16 (wrap16 (c + d) + d)) = false ->
                get_bit deadlocks (wrap16 (c + d)) = false
                /\ cost_at heuristics (wrap16 (c + d)) <= cost_at heuristics c + 1;
  di_seeded : forall g, 0 <= g -> g ∈ seeded -> get_bit goals g = true ->
                get_bit deadlocks g = false /\ cost_at heuristics g = 0
}.

(** The sum that bounds the number of turns of the inner [while] loop. *)
Definition sumZ (l : list Z) : Z := foldr Z.add 0 l.

Definition cell_potential (context : context_t) (deadlocks heuristics : list Z)
    (p : Z) : Z :=
  if get_bit deadlocks p then area context + 1 else cost_at heuristics p.

Definition potential (context : context_t) (deadlocks heuristics : list Z) : Z :=
  sumZ (map (cell_potential context deadlocks heuristics) (indices (area context))).

(** ** 2x2 deadlocks *)

(** A cell that holds a wall or a crate. *)
Definition blocked (walls crates : list Z) (q : Z) : bool :=
  get_bit crates q || get_bit walls q.

(** A cell that holds a crate and no goal. *)
Definition stuck_crate (goals crates : list Z) (q : Z) : bool :=
  get_bit crates q && negb (get_bit goals q).

(** The 2x2 window whose upper left cell is [q] is full of walls and crates
    and holds a crate that is not on a goal. *)
Definition window_deadlock (context : context_t) (walls goals crates : list Z)
    (q : Z) : Prop :=
  (forall o, o ∈ neighborhood context -> blocked walls crates (q + o) = true)
  /\ (exists o, o ∈ neighborhood context /\ stuck_crate goals crates (q + o) = true).

(** Some window of the padded grid is such a window. *)
Definition board_deadlock (context : context_t) (walls goals crates : list Z) : Prop :=
  exists x y, 0 <= x < width context - 1 /\ 0 <= y < height context - 1
              /\ window_deadlock context walls goals crates (y * width context + x).

(** ** The heap *)

Section HeapSpec.
Context {P : Type}.
Variable plt : P -> P -> bool.

(** The heap [min_heap[0 .. size)] over the states of [cache]: every
    entry points to a state that records the index of the entry, and no
    entry has a lower priority than the entry at half its index.  The
    entry at index 0 is the root, its only child is the entry at index 1,
    and the children of the entry at [i >= 1] are at [2i] and [2i+1]. *)
Record heap_ok (cache : list (state_t P)) (min_heap : list nat) : Prop := {
  heap_states : forall i s, min_heap !! i = Some s ->
                  exists st, cache !! s = Some st /\ heap_index st = Z.of_nat i;
  heap_order : forall i, (1 <= i < length min_heap)%nat ->
                 priority_lt plt cache (heap_at min_heap i)
                             (heap_at min_heap (Nat.shiftr i 1)) = false
}.

(** The same with the order left open at the indices in [E]. *)
Record heap_but (E : nat -> Prop) (cache : list (state_t P))
    (min_heap : list nat) : Prop := {
  hb_states : forall i s, min_heap !! i = Some s ->
                exists st, cache !! s = Some st /\ heap_index st = Z.of_nat i;
  hb_order : forall i, (1 <= i < length min_heap)%nat -> ~ E i ->
               priority_lt plt cache (heap_at min_heap i)
                           (heap_at min_heap (Nat.shiftr i 1)) = false
}.


End HeapSpec.

(** The entries of the heap and the heap indices of the states agree. *)
Definition heap_linked {P} (cache : list (state_t P)) (min_heap : list nat) : Prop :=
  forall i s, min_heap !! i = Some s ->
    exists st, cache !! s = Some st /\ heap_index st = Z.of_nat i.

(** What an operation that moves entries inside the heap keeps: the
    entries, the fields of the states other than the heap index, and the
    states outside the heap. *)
Definition heap_moved {P} (cache : list (state_t P)) (min_heap : list nat)
    (cache' : list (state_t P)) (min_heap' : list nat) : Prop :=
  heap_linked cache' min_heap'
  /\ length min_heap' = length min_heap
  /\ (forall s, s ∈ min_heap' <-> s ∈ min_heap)
  /\ set_heap_index 0 <$> cache' = set_heap_index 0 <$> cache
  /\ (forall s, s ∉ min_heap -> cache' !! s = cache !! s).

(** ** parse_problem *)

(** The result of [check_reachability] as [parse_problem] reads it. *)
Definition reach_result (context : context_t) (problem : problem_t) : bool :=
  match check_reachability context (crates problem) (goals problem)
                           (walls problem) (player problem) with
  | Some result => result
  | None => false
  end.

(** ** The points of a search of solve_astar *)

Section AStarSpec.
Context {P : Type}.
Variable plt : P -> P -> bool.
Variable priority_root : Z -> P.
Variable priority_of : Z -> Z -> P.
Variable context : context_t.
Variable problem : problem_t.




(** What holds at these points: the heap is ordered, the states outside
    the heap are marked with a negative index, and the priority of a
    state of positive cost is computed from its cost and heuristic. *)
Record astar_inv (st : search P) : Prop := {
  ai_heap : heap_ok plt (cache st) (min_heap st);
  ai_out : forall s x, cache st !! s = Some x -> s ∉ min_heap st -> heap_index x < 0;
  ai_priority : forall s x, cache st !! s = Some x ->
                  0 <= cost x
                  /\ (cost x = 0 \/ priority x = priority_of (cost x) (heuristic x))
}.
End AStarSpec.

(** The root state of [solve_astar] after it was popped and marked. *)
Definition astar_root {P} (priority_root : Z -> P) (context : context_t)
    (problem : problem_t) : state_t P :=
  let h := compute_heuristic context problem (crates problem) in
  {| priority := priority_root h; heuristic := h; cost := 0;
     parent := None; heap_index := -1; action := Ascii.zero;
     state_player := player problem; state_crates := crates problem |}.

(** ** The states of a search *)

(** The player position and the crates that the actions lead to, as
    [verify_solution] applies them. *)
Fixpoint replay (context : context_t) (problem : problem_t) (player : Z)
    (crates : list Z) (actions : string) : option (Z * list Z) :=
  match actions with
  | EmptyString => Some (player, crates)
  | String a rest =>
      match verify_step context problem player crates a with
      | None => None
      | Some (player, crates) => replay context problem player crates rest
      end
  end.

Section SearchSpec.
Context {P : Type}.
Variable context : context_t.
Variable problem : problem_t.
(** What is known of a state that has a child. *)
Variable expanded : state_t P -> Prop.

(** The state at index [i]: its cost is at most [i]; the root is the
    initial state of the problem, at cost 0; any other state is one action
    of [verify_solution] and one unit of cost away from its parent. *)
Definition node_ok (cache : list (state_t P)) (i : nat) (s : state_t P) : Prop :=
  length (state_crates s) = Z.to_nat (bitset_size context)
  /\ 0 <= cost s <= Z.of_nat i
  /\ match parent s with
     | None => cost s = 0 /\ state_player s = player problem
               /\ state_crates s = crates problem
     | Some p =>
         exists sp, cache !! p = Some sp /\ expanded sp /\ cost s = cost sp + 1
           /\ verify_step context problem (state_player sp) (state_crates sp)
                          (action s)
              = Some (state_player s, state_crates s)
     end.

Record tree_ok (cache : list (state_t P)) : Prop := {
  tree_length : Z.of_nat (length cache) < state_count context
                \/ length cache = 1%nat;
  tree_nodes : forall i s, cache !! i = Some s -> node_ok cache i s
}.
End SearchSpec.

(** A result that is a solution carries actions that [verify_solution]
    accepts. *)
Definition valid_result (context : context_t) (problem : problem_t)
    (r : result_t) : Prop :=
  solved r = true ->
  exists acts, actions r = Some acts /\ verify_solution context problem acts = true.

(** The heap of [solve_astar] and the heap indices of its states. *)
Record astar_links {P} (st : search P) : Prop := {
  al_linked : heap_linked (cache st) (min_heap st);
  al_out : forall s x, cache st !! s = Some x -> s ∉ min_heap st -> heap_index x < 0
}.

(** ** The game and the graph of the searches *)

(** A state of the game, the player and the crates, in a level: the player
    stands on an interior cell without a wall or a crate, and the crates are
    on interior cells without a wall. *)
Record state_ok (context : context_t) (problem : problem_t) (player : Z)
    (crates : list Z) : Prop := {
  sk_length : length crates = Z.to_nat (bitset_size context);
  sk_player : interior context player;
  sk_player_wall : get_bit (walls problem) player = false;
  sk_player_crate : get_bit crates player = false;
  sk_crates : forall q, 0 <= q -> get_bit crates q = true ->
                interior context q /\ get_bit (walls problem) q = false
}.

(** The crates are on the goals. *)
Definition goal_state (context : context_t) (problem : problem_t)
    (crates : list Z) : bool :=
  bitset_equals crates (goals problem) (bitset_size context).

(** Some actions solve the level from the state. *)
Definition alive (context : context_t) (problem : problem_t) (player : Z)
    (crates : list Z) : Prop :=
  exists acts player' crates',
    replay context problem player crates acts = Some (player', crates')
    /\ goal_state context problem crates' = true.

(** A lone crate on the cell [q] cannot be pushed to a goal. *)
Definition dead (context : context_t) (problem : problem_t) (q : Z) : Prop :=
  forall g k, get_bit (goals problem) g = true ->
              ~ crate_path context (walls problem) q k g.

(** The four cells [a], [a + u], [a + v] and [a + u + v], one step apart
    along a row ([u]) and along a column ([v]), hold walls and crates, and
    one of the crates is not on a goal. *)
Definition square (context : context_t) (problem : problem_t) (crates : list Z)
    (a u v : Z) : Prop :=
  (u = 1 \/ u = -1) /\ (v = width context \/ v = - width context)
  /\ (forall i j, (i = 0 \/ i = 1) -> (j = 0 \/ j = 1) ->
        0 <= a + i * u + j * v
        /\ blocked (walls problem) crates (a + i * u + j * v) = true)
  /\ (exists i j, (i = 0 \/ i = 1) /\ (j = 0 \/ j = 1)
        /\ stuck_crate (goals problem) crates (a + i * u + j * v) = true).

(** An edge of the graph that the searches explore: a move that
    [make_child] does not skip. *)
Definition edge (context : context_t) (problem : problem_t)
    (s s' : Z * list Z) : Prop :=
  exists index direction action changed,
    directions context !! index = Some direction
    /\ make_child context problem s.1 s.2 index direction
       = Child s'.1 action changed s'.2.

(** [path d s]: [d] edges lead from the initial state to [s] across
    states that are not goal states. *)
Inductive path (context : context_t) (problem : problem_t) :
    nat -> Z * list Z -> Prop :=
| path_root : path context problem 0 (player problem, crates problem)
| path_step (d : nat) (s s' : Z * list Z) :
    path context problem d s ->
    goal_state context problem s.2 = false ->
    edge context problem s s' ->
    path context problem (S d) s'.

(** No crate is on a cell that the deadlock map marks. *)
Definition safe_crates (problem : problem_t) (crates : list Z) : Prop :=
  forall q, 0 <= q -> get_bit crates q = true -> get_bit (deadlocks problem) q = false.

(** The number of crates, and the sum of the entries of the heuristic
    table over the crates. *)
Definition crate_count (context : context_t) (crates : list Z) : Z :=
  sumZ (map (fun p => if get_bit crates p then 1 else 0) (indices (area context))).

Definition heuristic_sum (context : context_t) (problem : problem_t)
    (crates : list Z) : Z :=
  sumZ (map (fun p => if get_bit crates p then cost_at (heuristics problem) p else 0)
            (indices (area context))).

(** What the searches need of a problem: a level with its player, not
    solved yet, and a deadlock map that tells the cells from which a lone
    crate reaches no goal, with the least number of pushes to a goal for the
    other cells. *)
Record problem_ok (context : context_t) (problem : problem_t) : Prop := {
  po_level : level_ok context (walls problem) (goals problem) (crates problem);
  po_player : interior context (player problem)
              /\ get_bit (walls problem) (player problem) = false
              /\ get_bit (crates problem) (player problem) = false;
  po_unsolved : goal_state context problem (crates problem) = false;
  po_safe : safe_crates problem (crates problem);
  po_deadlocks : forall q, 0 <= q < area context ->
                   get_bit (deadlocks problem) q = true -> dead context problem q;
  po_sound : forall q g k, get_bit (goals problem) g = true ->
               crate_path context (walls problem) q k g ->
               cost_at (heuristics problem) q <= Z.of_nat k;
  po_real : forall q, 0 <= q < area context ->
              get_bit (deadlocks problem) q = false ->
              0 <= cost_at (heuristics problem) q < area context
              /\ exists g, get_bit (goals problem) g = true
                   /\ crate_path context (walls problem) q
                                 (Z.to_nat (cost_at (heuristics problem) q)) g
}.

(** ** The invariants of the searches *)

(** The state of the game that a search state stands for. *)
Definition node_state {P} (s : state_t P) : Z * list Z :=
  (state_player s, state_crates s).

(** What the claim of optimality says of a result: a solution is valid and
    no valid solution is shorter; a failure that is not due to a limit
    means that there is no solution. *)
Definition optimal_result (context : context_t) (problem : problem_t)
    (r : result_t) : Prop :=
  (solved r = true ->
   exists acts, actions r = Some acts
     /\ verify_solution context problem acts = true
     /\ forall acts', verify_solution context problem acts' = true ->
           (String.length acts <= String.length acts')%nat)
  /\ (solved r = false -> limit_exceeded r = false ->
      forall acts', verify_solution context problem acts' = false).

Section SearchGraph.
Context {P : Type}.
Variable context : context_t.
Variable problem : problem_t.

(** The edge from the search state [x] to the state [s'] of the game is
    resolved: [s'] is no goal state and it is among the search states, at a
    cost of at most one more than [x]. *)
Definition resolved (cache : list (state_t P)) (x : state_t P) (s' : Z * list Z)
    : Prop :=
  goal_state context problem s'.2 = false
  /\ exists j sj, cache !! j = Some sj /\ node_state sj = s' /\ cost sj <= cost x + 1.

(** The children of [x] in the first [k] directions are resolved. *)
Definition expanded_upto (cache : list (state_t P)) (x : state_t P) (k : nat) : Prop :=
  forall index d p a changed c,
    (index < k)%nat -> directions context !! index = Some d ->
    make_child context problem (state_player x) (state_crates x) index d
    = Child p a changed c ->
    resolved cache x (p, c).

(** What holds of all the search states of both searches. *)
Record states_inv (cache : list (state_t P)) : Prop := {
  si_root : exists s0, cache !! 0%nat = Some s0
                       /\ node_state s0 = (player problem, crates problem)
                       /\ cost s0 = 0;
  si_states : forall i s, cache !! i = Some s ->
                state_ok context problem (state_player s) (state_crates s)
                /\ goal_state context problem (state_crates s) = false
                /\ safe_crates problem (state_crates s)
                /\ path context problem (Z.to_nat (cost s)) (node_state s)
}.
End SearchGraph.

(** The search states of [solve_bfs] when the state of index [current] is
    being expanded: the costs grow along the indices by one at most from
    the state of index [current] on, and the states before it are
    expanded. *)
Record bfs_inv (context : context_t) (problem : problem_t) (st : search unit)
    (current : nat) : Prop := {
  bi_tree : tree_ok context problem (fun _ => True) (cache st);
  bi_states : states_inv context problem (cache st);
  bi_mono : forall i j si sj, (i <= j)%nat ->
              cache st !! i = Some si -> cache st !! j = Some sj ->
              cost si <= cost sj;
  bi_last : forall j sj sc, cache st !! current = Some sc ->
              cache st !! j = Some sj -> cost sj <= cost sc + 1;
  bi_closed : forall i si, (i < current)%nat -> cache st !! i = Some si ->
                expanded_upto context problem (cache st) si 4;
  bi_bits : 0 <= free_bits st < Z.of_nat (length (cache st))
}.

(** [steps k s t]: [k] edges lead from [s] to [t] across states that are
    not goal states. *)
Inductive steps (context : context_t) (problem : problem_t) :
    nat -> Z * list Z -> Z * list Z -> Prop :=
| steps_here (s : Z * list Z) : steps context problem 0 s s
| steps_edge (k : nat) (s s1 t : Z * list Z) :
    goal_state context problem s.2 = false ->
    edge context problem s s1 ->
    steps context problem k s1 t ->
    steps context problem (S k) s t.





(** ** Small levels *)

(** A row of three cells: the player, a crate and a goal. *)
Definition context_A10 : context_t := create_context 3 1 10.
Definition problem_A10 : problem_t :=
  Eval vm_compute in
    match parse_problem context_A10 (allocate_problem context_A10) "A10" with
    | Some (problem, _) => problem
    | None => allocate_problem context_A10
    end.

(** A row of four cells: the player, a floor cell, a crate and a goal. *)
Definition context_A_10 : context_t := create_context 4 1 10.
Definition problem_A_10 : problem_t :=
  Eval vm_compute in
    match parse_problem context_A_10 (allocate_problem context_A_10) "A.10" with
    | Some (problem, _) => problem
    | None => allocate_problem context_A_10
    end.



(** * More of the sources

    [format_problem], [show_level] and [show_bits] of [solver.c], the
    character classes of the reader of test files, and the notions their
    properties are stated with. *)

(** ** solver.c: show_level, show_bits, format_problem *)

(** The character that [show_level] and [format_problem] pick for a
    position. *)
Definition tile_char (walls goals crates : list Z) (player position : Z) : ascii :=
  if get_bit walls position then "W"%char
  else if get_bit goals position then
    if player =? position then "+"%char
    else if get_bit crates position then "g"%char
    else "0"%char
  else
    if player =? position then "A"%char
    else if get_bit crates position then "1"%char
    else "."%char.

(** The loop [for (x = 0; x < width; ++x)] of [format_problem] and of
    [show_level]: the characters of a row and the position after it. *)
Fixpoint format_row (walls goals crates : list Z) (player : Z) (cells : nat)
    (position : Z) : string * Z :=
  match cells with
  | O => (EmptyString, position)
  | S cells' =>
      let c := tile_char walls goals crates player position in
      let '(rest, position') :=
        format_row walls goals crates player cells' (wrap16 (position + 1)) in
      (String c rest, position')
  end.

(** The loop [for (y = 0; y < height; ++y)] of [format_problem]; [first]
    tells the turn [y = 0], which writes no separator. *)
Fixpoint format_rows (walls goals crates : list Z) (player : Z) (separator : string)
    (first : bool) (rows cells : nat) (position : Z) : string :=
  match rows with
  | O => EmptyString
  | S rows' =>
      let '(row, position') := format_row walls goals crates player cells position in
      ((if first then EmptyString else separator)
       ++ row
       ++ format_rows walls goals crates player separator false rows' cells position'
      )%string
  end.

(** The characters that [format_problem] writes before the final NUL; a
    NULL separator is [None]. *)
Definition format_problem (context : context_t) (problem : problem_t)
    (separator : option string) : string :=
  format_rows (walls problem) (goals problem) (crates problem) (player problem)
              (default EmptyString separator) true
              (Z.to_nat (height context)) (Z.to_nat (width context)) 0.

(** [total_len], the size of the buffer that [format_problem] allocates. *)
Definition format_total_len (context : context_t) (separator : option string) : Z :=
  let sep_len := Z.of_nat (String.length (default EmptyString separator)) in
  wrap64 (height context * (width context + sep_len) - sep_len + 1).

(** What [show_level] prints: every row, the last one too, ends with a
    newline. *)
Fixpoint show_rows (walls goals crates : list Z) (player : Z) (rows cells : nat)
    (position : Z) : string :=
  match rows with
  | O => EmptyString
  | S rows' =>
      let '(row, position') := format_row walls goals crates player cells position in
      (row ++ String (ascii_of_nat 10) EmptyString
       ++ show_rows walls goals crates player rows' cells position')%string
  end.

Definition show_level (context : context_t) (crates goals walls : list Z)
    (player : Z) : string :=
  show_rows walls goals crates player
            (Z.to_nat (height context)) (Z.to_nat (width context)) 0.

(** ** test.c: the character classes of the reader of test files *)

Definition is_white_space (c : ascii) : bool :=
  is_char c " " || Ascii.eqb c (ascii_of_nat 13) || Ascii.eqb c (ascii_of_nat 10)
  || Ascii.eqb c (ascii_of_nat 9).

Definition is_tile (c : ascii) : bool :=
  is_char c "." || is_char c "w" || is_char c "W" || is_char c "a" || is_char c "A"
  || is_char c "0" || is_char c "1" || is_char c "g" || is_char c "G" || is_char c "+".

(** ** Notions for the properties *)

(** The character [format_problem] writes for the cell that [parse_problem]
    filled from the tile [t]; [None] is a cell that got no tile. *)
Definition canonical_tile (t : option ascii) : ascii :=
  match t with
  | None => "W"%char
  | Some c =>
      if is_wall_char c then "W"%char
      else if is_char c "+" then "+"%char
      else if is_char c "g" || is_char c "G" then "g"%char
      else if is_char c "0" then "0"%char
      else if is_player_char c then "A"%char
      else if is_char c "1" then "1"%char
      else "."%char
  end.

(** An action in upper case, the case of a push. *)
Definition upper_action (a : ascii) : ascii :=
  if is_char a "l" then "L"%char
  else if is_char a "r" then "R"%char
  else if is_char a "u" then "U"%char
  else if is_char a "d" then "D"%char
  else a.

Fixpoint upper_actions (acts : string) : string :=
  match acts with
  | EmptyString => EmptyString
  | String a rest => String (upper_action a) (upper_actions rest)
  end.

(** A heap of three states, built by [heap_insert]. *)
Definition sample_state (p : Z) : state_t Z :=
  {| priority := p; heuristic := 0; cost := 0; parent := None; heap_index := -1;
     action := Ascii.zero; state_player := 0; state_crates := [] |}.

Definition sample_cache : list (state_t Z) :=
  [sample_state 3; sample_state 1; sample_state 2].

Definition sample_heap : list (state_t Z) * list nat :=
  let '(cache1, heap1) := heap_insert Z.ltb sample_cache [] 0 in
  let '(cache2, heap2) := heap_insert Z.ltb cache1 heap1 1 in
  heap_insert Z.ltb cache2 heap2 2.

(** The heap of the first two of them. *)
Definition sample_pair : list (state_t Z) * list nat :=
  let '(cache1, heap1) := heap_insert Z.ltb sample_cache [] 0 in
  heap_insert Z.ltb cache1 heap1 1.

(** A result as the searches build it: actions come with [solved] and
    without [limit_exceeded], and they are not empty; no actions come
    without [solved]. *)
Definition result_form (r : result_t) : Prop :=
  match actions r with
  | Some acts => solved r = true /\ limit_exceeded r = false /\ acts <> EmptyString
  | None => solved r = false
  end.

(** ** solver.c: the searches with the allocation of the context memory *)

(** [solve_bfs] from its first line: [allocated] is what
    [allocate_context_memory(context, false)] returns. *)
Definition solve_bfs_alloc (allocated : bool) (context : context_t)
    (problem : problem_t) (max_iterations : Z) : outcome :=
  if negb (potentially_solvable problem)
  then Returned (create_result false None 0 false)
  else if negb allocated
  then Returned (create_result false None 0 true)
  else solve_bfs context problem max_iterations.

(** [solve_astar] from its first line: [allocated] is what
    [allocate_context_memory(context, true)] returns. *)
Definition solve_astar_alloc {P : Type} (plt : P -> P -> bool) (priority_root : Z -> P)
    (priority_of : Z -> Z -> P) (allocated : bool) (context : context_t)
    (problem : problem_t) (max_iterations : Z) : outcome :=
  if negb (potentially_solvable problem)
  then Returned (create_result false None 0 false)
  else if negb allocated
  then Returned (create_result false None 0 true)
  else solve_astar plt priority_root priority_of context problem max_iterations.

(** ** solver.c: the buffers of a problem *)

(** The buffers of [problem] have the sizes that [allocate_problem] gives
    them for [context], whatever they hold. *)
Definition problem_allocated (context : context_t) (problem : problem_t) : Prop :=
  length (walls problem) = Z.to_nat (bitset_size context)
  /\ length (goals problem) = Z.to_nat (bitset_size context)
  /\ length (crates problem) = Z.to_nat (bitset_size context)
  /\ length (deadlocks problem) = Z.to_nat (bitset_size context)
  /\ length (heuristics problem) = Z.to_nat (width context * height context).

(** ** The first child of a state *)


(** * Properties *)

(** ** Bitsets as sets of positions *)

Lemma testbit_1 (n : Z) : n <> 0 -> Z.testbit 1 n = false.
Proof.
  intros Hn. destruct (Z.lt_ge_cases n 0).
  - apply Z.testbit_neg_r. lia.
  - apply (Z.ones_spec_high 1 n). lia.
Qed.

Lemma testbit_one_shift (k n : Z) :
  0 <= k -> 0 <= n -> Z.testbit (Z.shiftl 1 k) n = (n =? k).
Proof.
  intros Hk Hn. rewrite Z.shiftl_spec by lia.
  destruct (Z.eqb_spec n k) as [->|Hne].
  - rewrite Z.sub_diag. reflexivity.
  - apply testbit_1. lia.
Qed.

Lemma land_bit_testbit (w k : Z) :
  0 <= k -> negb (Z.land w (Z.shiftl 1 k) =? 0) = Z.testbit w k.
Proof.
  intros Hk.
  destruct (Z.testbit w k) eqn:Hb.
  - apply negb_true_iff, Z.eqb_neq. intros Hz.
    assert (Z.testbit (Z.land w (Z.shiftl 1 k)) k = false) as Hc
      by (rewrite Hz; apply Z.bits_0).
    rewrite Z.land_spec, Hb, testbit_one_shift, Z.eqb_refl in Hc by lia.
    discriminate.
  - apply negb_false_iff, Z.eqb_eq, Z.bits_inj'. intros n Hn.
    rewrite Z.land_spec, Z.bits_0, testbit_one_shift by lia.
    destruct (Z.eqb_spec n k) as [->|Hne].
    + rewrite Hb. reflexivity.
    + apply andb_false_r.
Qed.

Lemma mod64_range (p : Z) : 0 <= p mod BITS_CNT < 64.
Proof. unfold BITS_CNT. apply Z.mod_pos_bound. lia. Qed.

Lemma get_bit_testbit (bitset : list Z) (pos : Z) :
  get_bit bitset pos = Z.testbit (word bitset (pos / BITS_CNT)) (pos mod BITS_CNT).
Proof. unfold get_bit. apply land_bit_testbit. apply mod64_range. Qed.

Lemma word_alter_eq (f : Z -> Z) (bitset : list Z) (i : Z) :
  0 <= i -> (Z.to_nat i < length bitset)%nat ->
  word (alter f (Z.to_nat i) bitset) i = f (word bitset i).
Proof.
  intros Hi Hlen. unfold word.
  rewrite list_lookup_alter_eq.
  destruct (lookup_lt_is_Some_2 bitset (Z.to_nat i) Hlen) as [w ->]. reflexivity.
Qed.

Lemma word_alter_ne (f : Z -> Z) (bitset : list Z) (i j : Z) :
  0 <= i -> 0 <= j -> i <> j ->
  word (alter f (Z.to_nat i) bitset) j = word bitset j.
Proof.
  intros Hi Hj Hne. unfold word.
  rewrite list_lookup_alter_ne by lia. reflexivity.
Qed.

Lemma word_alter_ge (f : Z -> Z) (bitset : list Z) (i j : Z) :
  (length bitset <= Z.to_nat i)%nat ->
  word (alter f (Z.to_nat i) bitset) j = word bitset j.
Proof.
  intros Hlen. unfold word.
  destruct (decide (Z.to_nat i = Z.to_nat j)) as [He|Hne].
  - rewrite <- He, list_lookup_alter_eq.
    rewrite (lookup_ge_None_2 bitset (Z.to_nat i)) by lia. reflexivity.
  - rewrite list_lookup_alter_ne by done. reflexivity.
Qed.

Lemma word_out (bitset : list Z) (i : Z) :
  (length bitset <= Z.to_nat i)%nat -> word bitset i = 0.
Proof. intros H. unfold word. rewrite lookup_ge_None_2 by lia. reflexivity. Qed.

Lemma pos_split (p q : Z) :
  p / BITS_CNT = q / BITS_CNT -> p mod BITS_CNT = q mod BITS_CNT -> p = q.
Proof.
  unfold BITS_CNT. intros Hd Hm.
  rewrite (Z.div_mod p 64), (Z.div_mod q 64) by lia. lia.
Qed.

Lemma in_bitset_word (bitset : list Z) (pos : Z) :
  in_bitset bitset pos ->
  0 <= pos / BITS_CNT /\ (Z.to_nat (pos / BITS_CNT) < length bitset)%nat.
Proof.
  unfold in_bitset, BITS_CNT. intros [H0 H1].
  assert (0 <= pos / 64) by (apply Z.div_pos; lia).
  assert (pos / 64 < Z.of_nat (length bitset)) by (apply Z.div_lt_upper_bound; lia).
  lia.
Qed.

Lemma length_set_bit (bitset : list Z) (pos : Z) :
  length (set_bit bitset pos) = length bitset.
Proof. unfold set_bit. apply length_alter. Qed.

Lemma length_clear_bit (bitset : list Z) (pos : Z) :
  length (clear_bit bitset pos) = length bitset.
Proof. unfold clear_bit. apply length_alter. Qed.

Lemma get_set_bit (bitset : list Z) (p q : Z) :
  in_bitset bitset p -> 0 <= q ->
  get_bit (set_bit bitset p) q = (p =? q) || get_bit bitset q.
Proof.
  intros Hp Hq. destruct (in_bitset_word _ _ Hp) as [Hp0 Hplen].
  assert (0 <= q / BITS_CNT) by (apply Z.div_pos; unfold BITS_CNT; lia).
  rewrite !get_bit_testbit. unfold set_bit.
  destruct (Z.eq_dec (p / BITS_CNT) (q / BITS_CNT)) as [Hd|Hd].
  - rewrite <- Hd, word_alter_eq by done.
    rewrite Z.lor_spec, testbit_one_shift by apply mod64_range.
    rewrite orb_comm.
    destruct (Z.eqb_spec (q mod BITS_CNT) (p mod BITS_CNT)) as [Hm|Hm].
    + rewrite (pos_split p q) by done. rewrite Z.eqb_refl. reflexivity.
    + destruct (Z.eqb_spec p q) as [->|Hne]; [done|]. reflexivity.
  - rewrite word_alter_ne by done.
    destruct (Z.eqb_spec p q) as [->|Hne]; [done|]. reflexivity.
Qed.

Lemma get_clear_bit (bitset : list Z) (p q : Z) :
  0 <= p -> 0 <= q ->
  get_bit (clear_bit bitset p) q = negb (p =? q) && get_bit bitset q.
Proof.
  intros Hp Hq.
  assert (0 <= p / BITS_CNT) by (apply Z.div_pos; unfold BITS_CNT; lia).
  assert (0 <= q / BITS_CNT) by (apply Z.div_pos; unfold BITS_CNT; lia).
  rewrite !get_bit_testbit. unfold clear_bit.
  destruct (Z.eq_dec (p / BITS_CNT) (q / BITS_CNT)) as [Hd|Hd].
  - destruct (Nat.lt_ge_cases (Z.to_nat (p / BITS_CNT)) (length bitset)) as [Hl|Hl].
    + rewrite <- Hd, word_alter_eq by done.
      rewrite Z.land_spec, Z.lxor_spec, testbit_one_shift by apply mod64_range.
      rewrite Z.ones_spec_low by (pose proof (mod64_range q); lia).
      rewrite andb_comm. f_equal.
      destruct (Z.eqb_spec (q mod BITS_CNT) (p mod BITS_CNT)) as [Hm|Hm].
      * rewrite (pos_split p q) by done. rewrite Z.eqb_refl. reflexivity.
      * destruct (Z.eqb_spec p q) as [->|Hne]; [done|]. reflexivity.
    + rewrite word_alter_ge by done. rewrite <- Hd.
      rewrite word_out by done. rewrite Z.bits_0. rewrite andb_false_r. reflexivity.
  - rewrite word_alter_ne by done.
    destruct (Z.eqb_spec p q) as [->|Hne]; [done|]. reflexivity.
Qed.

Lemma get_bit_out (bitset : list Z) (p : Z) :
  0 <= p -> ~ in_bitset bitset p -> get_bit bitset p = false.
Proof.
  intros Hp Hout. rewrite get_bit_testbit, word_out; [apply Z.bits_0|].
  unfold in_bitset, BITS_CNT in *.
  assert (Z.of_nat (length bitset) <= p / 64) by (apply Z.div_le_lower_bound; lia).
  lia.
Qed.

Lemma get_bit_in (bitset : list Z) (p : Z) :
  0 <= p -> get_bit bitset p = true -> in_bitset bitset p.
Proof.
  intros Hp Hb. destruct (decide (in_bitset bitset p)) as [|Hn]; [done|].
  rewrite get_bit_out in Hb by done. discriminate.
Qed.

Lemma alter_out {A} (f : A -> A) (l : list A) (i : nat) :
  (length l <= i)%nat -> alter f i l = l.
Proof.
  intros Hlen. apply list_eq. intros j.
  destruct (decide (i = j)) as [->|Hne].
  - rewrite list_lookup_alter_eq, lookup_ge_None_2 by lia. reflexivity.
  - apply list_lookup_alter_ne. done.
Qed.

Lemma set_bit_out (bitset : list Z) (p : Z) :
  0 <= p -> ~ in_bitset bitset p -> set_bit bitset p = bitset.
Proof.
  intros Hp Hout. unfold set_bit. apply alter_out.
  unfold in_bitset, BITS_CNT in *.
  assert (Z.of_nat (length bitset) <= p / 64) by (apply Z.div_le_lower_bound; lia).
  lia.
Qed.

Lemma clear_bit_out (bitset : list Z) (p : Z) :
  0 <= p -> ~ in_bitset bitset p -> clear_bit bitset p = bitset.
Proof.
  intros Hp Hout. unfold clear_bit. apply alter_out.
  unfold in_bitset, BITS_CNT in *.
  assert (Z.of_nat (length bitset) <= p / 64) by (apply Z.div_le_lower_bound; lia).
  lia.
Qed.

Lemma word_range (bitset : list Z) (i : Z) :
  bitset_wf bitset -> 0 <= word bitset i < 2 ^ 64.
Proof.
  intros Hwf. unfold word.
  destruct (bitset !! Z.to_nat i) as [w|] eqn:Hw; simpl; [|lia].
  exact (Forall_lookup_1 _ _ _ _ Hwf Hw).
Qed.

Lemma word_high_bits (bitset : list Z) (i k : Z) :
  bitset_wf bitset -> 64 <= k -> Z.testbit (word bitset i) k = false.
Proof.
  intros Hwf Hk. pose proof (word_range bitset i Hwf) as Hr.
  destruct (Z.eq_dec (word bitset i) 0) as [->|Hne]; [apply Z.bits_0|].
  apply Z.bits_above_log2; [lia|].
  assert (Z.log2 (word bitset i) < 64); [|lia].
  apply Z.log2_lt_pow2; lia.
Qed.

Lemma range_64_bits (w : Z) :
  0 <= w -> (forall k, 64 <= k -> Z.testbit w k = false) -> 0 <= w < 2 ^ 64.
Proof.
  intros H0 Hb. split; [done|].
  destruct (Z.eq_dec w 0) as [->|Hne]; [lia|].
  apply Z.log2_lt_pow2; [lia|].
  destruct (Z.lt_ge_cases (Z.log2 w) 64) as [|Hge]; [done|].
  pose proof (Z.bit_log2 w ltac:(lia)) as Hl.
  rewrite Hb in Hl by lia. discriminate.
Qed.

Lemma bitset_wf_alter (f : Z -> Z) (bitset : list Z) (i : nat) :
  (forall w, 0 <= w < 2 ^ 64 -> 0 <= f w < 2 ^ 64) ->
  bitset_wf bitset -> bitset_wf (alter f i bitset).
Proof.
  intros Hf Hwf. unfold bitset_wf in *. apply Forall_lookup_2. intros j w Hw.
  destruct (decide (i = j)) as [->|Hne].
  - rewrite list_lookup_alter_eq in Hw.
    destruct (bitset !! j) as [w0|] eqn:Hw0; simpl in Hw; [|discriminate].
    injection Hw as <-. apply Hf. exact (Forall_lookup_1 _ _ _ _ Hwf Hw0).
  - rewrite list_lookup_alter_ne in Hw by done.
    exact (Forall_lookup_1 _ _ _ _ Hwf Hw).
Qed.

Lemma bitset_wf_set_bit (bitset : list Z) (p : Z) :
  bitset_wf bitset -> bitset_wf (set_bit bitset p).
Proof.
  intros Hwf. apply bitset_wf_alter; [|done]. intros w Hw.
  pose proof (mod64_range p) as Hm.
  apply range_64_bits.
  - apply Z.lor_nonneg. split; [lia|]. apply Z.shiftl_nonneg. lia.
  - intros k Hk. rewrite Z.lor_spec, testbit_one_shift by lia.
    rewrite (Z.bits_above_log2 w k) || idtac.
    + destruct (Z.eqb_spec k (p mod BITS_CNT)); [lia|done].
    + lia.
    + destruct (Z.eq_dec w 0) as [->|Hne]; [simpl; lia|].
      assert (Z.log2 w < 64) by (apply Z.log2_lt_pow2; lia). lia.
Qed.

Lemma bitset_wf_clear_bit (bitset : list Z) (p : Z) :
  bitset_wf bitset -> bitset_wf (clear_bit bitset p).
Proof.
  intros Hwf. apply bitset_wf_alter; [|done]. intros w Hw.
  apply range_64_bits.
  - apply Z.land_nonneg. left. lia.
  - intros k Hk. rewrite Z.land_spec.
    destruct (Z.eq_dec w 0) as [->|Hne]; [rewrite Z.bits_0; done|].
    rewrite (Z.bits_above_log2 w k); [done|lia|].
    assert (Z.log2 w < 64) by (apply Z.log2_lt_pow2; lia). lia.
Qed.

Lemma bitset_wf_zero (size : Z) : bitset_wf (bitset_zero size).
Proof. apply Forall_replicate. lia. Qed.

Lemma bitset_wf_ones (size : Z) : bitset_wf (bitset_ones size).
Proof. apply Forall_replicate. rewrite Z.ones_equiv. lia. Qed.

Lemma length_indices (size : Z) : length (indices size) = Z.to_nat size.
Proof. unfold indices. rewrite length_map, length_seq. reflexivity. Qed.

Lemma lookup_indices (size : Z) (i : nat) :
  (i < Z.to_nat size)%nat -> indices size !! i = Some (Z.of_nat i).
Proof.
  intros Hi. unfold indices. rewrite list_lookup_fmap, lookup_seq_lt by done.
  reflexivity.
Qed.

Lemma elem_of_indices (size i : Z) : i ∈ indices size <-> 0 <= i < size.
Proof.
  unfold indices. rewrite list_elem_of_fmap. split.
  - intros (n & -> & Hn). apply elem_of_seq in Hn. lia.
  - intros Hi. exists (Z.to_nat i). split; [lia|]. apply elem_of_seq. lia.
Qed.

Lemma In_indices (size i : Z) : In i (indices size) <-> 0 <= i < size.
Proof. rewrite <- list_elem_of_In. apply elem_of_indices. Qed.

Lemma length_bitset_zero (size : Z) : length (bitset_zero size) = Z.to_nat size.
Proof. apply length_replicate. Qed.

Lemma length_bitset_ones (size : Z) : length (bitset_ones size) = Z.to_nat size.
Proof. apply length_replicate. Qed.

Lemma length_bitset_copy (src : list Z) (size : Z) :
  length (bitset_copy src size) = Z.to_nat size.
Proof. unfold bitset_copy. rewrite length_map. apply length_indices. Qed.

Lemma length_bitset_xor (a b : list Z) (size : Z) :
  length (bitset_xor a b size) = Z.to_nat size.
Proof. unfold bitset_xor. rewrite length_map. apply length_indices. Qed.

Lemma word_replicate (n : nat) (w : Z) (i : Z) :
  0 <= i -> word (replicate n w) i = if (Z.to_nat i <? n)%nat then w else 0.
Proof.
  intros Hi. unfold word.
  destruct (Nat.ltb_spec (Z.to_nat i) n).
  - rewrite lookup_replicate_2 by done. reflexivity.
  - rewrite lookup_ge_None_2; [done|]. rewrite length_replicate. done.
Qed.

Lemma get_bit_zero (size p : Z) : get_bit (bitset_zero size) p = false.
Proof.
  rewrite get_bit_testbit. unfold bitset_zero, word.
  destruct (replicate _ _ !! _) as [w|] eqn:Hw; simpl; [|apply Z.bits_0].
  apply lookup_replicate in Hw as [-> _]. apply Z.bits_0.
Qed.

Lemma get_bit_ones (size p : Z) :
  0 <= p -> get_bit (bitset_ones size) p = (p <? 64 * size).
Proof.
  intros Hp. rewrite get_bit_testbit. unfold bitset_ones.
  assert (0 <= p / BITS_CNT) by (apply Z.div_pos; unfold BITS_CNT; lia).
  rewrite word_replicate by done.
  destruct (Nat.ltb_spec (Z.to_nat (p / BITS_CNT)) (Z.to_nat size)) as [Hl|Hl].
  - rewrite Z.ones_spec_low by apply mod64_range.
    symmetry. apply Z.ltb_lt. unfold BITS_CNT in *.
    assert (p / 64 < size) by lia.
    pose proof (Z.mul_div_le p 64 ltac:(lia)).
    pose proof (Z.mod_pos_bound p 64 ltac:(lia)).
    rewrite (Z.div_mod p 64) by lia. lia.
  - rewrite Z.bits_0. symmetry. apply Z.ltb_ge. unfold BITS_CNT in *.
    destruct (Z.le_gt_cases size 0); [lia|].
    assert (size <= p / 64) by lia.
    pose proof (Z.mul_div_le p 64 ltac:(lia)). nia.
Qed.

Lemma word_map_indices (f : Z -> Z) (size i : Z) :
  0 <= i < size -> word (map f (indices size)) i = f i.
Proof.
  intros Hi. unfold word.
  change (map f (indices size)) with (f <$> indices size).
  rewrite list_lookup_fmap, lookup_indices by lia.
  simpl. f_equal. lia.
Qed.

Lemma word_bitset_copy (src : list Z) (size i : Z) :
  0 <= i < size -> word (bitset_copy src size) i = word src i.
Proof. apply word_map_indices. Qed.

Lemma bitset_copy_id (src : list Z) (size : Z) :
  length src = Z.to_nat size -> bitset_copy src size = src.
Proof.
  intros Hlen. apply list_eq. intros j. unfold bitset_copy.
  change (map ?f ?l) with (f <$> l). rewrite list_lookup_fmap.
  destruct (Nat.lt_ge_cases j (Z.to_nat size)) as [Hj|Hj].
  - rewrite lookup_indices by done. simpl. unfold word. rewrite Nat2Z.id.
    destruct (lookup_lt_is_Some_2 src j ltac:(lia)) as [w ->]. reflexivity.
  - rewrite (lookup_ge_None_2 (indices size)) by (rewrite length_indices; lia).
    rewrite lookup_ge_None_2 by lia. reflexivity.
Qed.

Lemma get_bit_xor (a b : list Z) (size p : Z) :
  0 <= p < 64 * size ->
  get_bit (bitset_xor a b size) p = xorb (get_bit a p) (get_bit b p).
Proof.
  intros Hp. rewrite !get_bit_testbit. unfold bitset_xor.
  rewrite word_map_indices.
  - apply Z.lxor_spec.
  - unfold BITS_CNT. split; [apply Z.div_pos; lia|].
    apply Z.div_lt_upper_bound; lia.
Qed.

Lemma bitset_wf_xor (a b : list Z) (size : Z) :
  bitset_wf a -> bitset_wf b -> bitset_wf (bitset_xor a b size).
Proof.
  intros Ha Hb. unfold bitset_wf, bitset_xor. apply Forall_forall.
  intros w Hw. apply list_elem_of_In in Hw. apply in_map_iff in Hw as (i & <- & _).
  apply range_64_bits.
  - apply Z.lxor_nonneg. pose proof (word_range a i Ha). pose proof (word_range b i Hb). lia.
  - intros k Hk. rewrite Z.lxor_spec, !word_high_bits by done. reflexivity.
Qed.

Lemma bitset_wf_copy (src : list Z) (size : Z) :
  bitset_wf src -> bitset_wf (bitset_copy src size).
Proof.
  intros Ha. unfold bitset_wf, bitset_copy. apply Forall_forall.
  intros w Hw. apply list_elem_of_In in Hw. apply in_map_iff in Hw as (i & <- & _).
  apply word_range. done.
Qed.

Lemma word_lookup (bitset : list Z) (j : nat) (w : Z) :
  bitset !! j = Some w -> word bitset (Z.of_nat j) = w.
Proof. intros H. unfold word. rewrite Nat2Z.id, H. reflexivity. Qed.

Lemma get_bit_word (bitset : list Z) (j k : Z) :
  0 <= j -> 0 <= k < 64 ->
  get_bit bitset (64 * j + k) = Z.testbit (word bitset j) k.
Proof.
  intros Hj Hk. rewrite get_bit_testbit. unfold BITS_CNT.
  replace ((64 * j + k) / 64) with j.
  - replace ((64 * j + k) mod 64) with k; [done|].
    rewrite Z.add_comm, Z.mul_comm, Z.mod_add by lia.
    symmetry. apply Z.mod_small. lia.
  - rewrite Z.add_comm, Z.mul_comm, Z.div_add by lia.
    rewrite Z.div_small by lia. lia.
Qed.

Lemma words_eq_bits (a b : list Z) (j : Z) :
  bitset_wf a -> bitset_wf b -> 0 <= j ->
  (forall k, 0 <= k < 64 -> get_bit a (64 * j + k) = get_bit b (64 * j + k)) ->
  word a j = word b j.
Proof.
  intros Ha Hb Hj Hbits. apply Z.bits_inj'. intros k Hk.
  destruct (Z.lt_ge_cases k 64).
  - rewrite <- !get_bit_word by lia. apply Hbits. lia.
  - rewrite !word_high_bits by done. reflexivity.
Qed.

Lemma bitset_ext (a b : list Z) :
  length a = length b -> bitset_wf a -> bitset_wf b ->
  (forall p, 0 <= p -> get_bit a p = get_bit b p) -> a = b.
Proof.
  intros Hlen Ha Hb Hbits. apply list_eq. intros j.
  destruct (a !! j) as [wa|] eqn:Hwa.
  - destruct (lookup_lt_is_Some_2 b j) as [wb Hwb].
    { rewrite <- Hlen. eapply lookup_lt_Some. eauto. }
    rewrite Hwb. f_equal.
    rewrite <- (word_lookup a j wa Hwa), <- (word_lookup b j wb Hwb).
    apply words_eq_bits; [done|done|lia|]. intros k Hk. apply Hbits. lia.
  - symmetry. apply lookup_ge_None_2. rewrite <- Hlen.
    apply lookup_ge_None_1. done.
Qed.

Lemma bitset_equals_words (a b : list Z) (size : Z) :
  bitset_equals a b size = true <->
  (forall i, 0 <= i < size -> word a i = word b i).
Proof.
  unfold bitset_equals. rewrite forallb_forall. split.
  - intros H i Hi. apply Z.eqb_eq, H, In_indices. done.
  - intros H i Hi. apply Z.eqb_eq, H, In_indices. done.
Qed.

Lemma bitset_equals_eq (a b : list Z) (size : Z) :
  length a = Z.to_nat size -> length b = Z.to_nat size ->
  (bitset_equals a b size = true <-> a = b).
Proof.
  intros Ha Hb. rewrite bitset_equals_words. split.
  - intros H. apply list_eq. intros j.
    destruct (Nat.lt_ge_cases j (Z.to_nat size)) as [Hj|Hj].
    + destruct (lookup_lt_is_Some_2 a j ltac:(lia)) as [wa Hwa].
      destruct (lookup_lt_is_Some_2 b j ltac:(lia)) as [wb Hwb].
      rewrite Hwa, Hwb. f_equal.
      rewrite <- (word_lookup a j wa Hwa), <- (word_lookup b j wb Hwb).
      apply H. lia.
    + rewrite !lookup_ge_None_2 by lia. reflexivity.
  - intros -> i _. reflexivity.
Qed.

Lemma bitset_equals_refl (a : list Z) (size : Z) : bitset_equals a a size = true.
Proof. apply bitset_equals_words. reflexivity. Qed.

Lemma bitset_covers_all_bits (under cover : list Z) (size : Z) :
  bitset_wf under ->
  (bitset_covers_all under cover size = true <->
   (forall p, 0 <= p < 64 * size -> get_bit under p = true -> get_bit cover p = true)).
Proof.
  intros Hu. unfold bitset_covers_all. rewrite forallb_forall. split.
  - intros H p Hp Hup.
    assert (0 <= p / BITS_CNT < size) as Hi.
    { unfold BITS_CNT. split; [apply Z.div_pos; lia|apply Z.div_lt_upper_bound; lia]. }
    specialize (H (p / BITS_CNT) (proj2 (In_indices _ _) Hi)).
    apply Z.eqb_eq in H.
    rewrite get_bit_testbit in *.
    assert (Z.testbit (Z.land (word under (p / BITS_CNT))
                         (Z.lxor (Z.ones 64) (word cover (p / BITS_CNT))))
                      (p mod BITS_CNT) = false) as Hb by (rewrite H; apply Z.bits_0).
    rewrite Z.land_spec, Z.lxor_spec, Hup in Hb.
    rewrite Z.ones_spec_low in Hb by apply mod64_range.
    destruct (Z.testbit (word cover _) _); [done|discriminate].
  - intros H i Hi. apply In_indices in Hi. apply Z.eqb_eq, Z.bits_inj'.
    intros k Hk. rewrite Z.bits_0, Z.land_spec, Z.lxor_spec.
    destruct (Z.lt_ge_cases k 64).
    + rewrite Z.ones_spec_low by lia.
      rewrite <- !get_bit_word by lia.
      destruct (get_bit under (64 * i + k)) eqn:Hb; [|done].
      rewrite (H (64 * i + k)); [done|lia|done].
    + rewrite word_high_bits by done. reflexivity.
Qed.

Lemma bitset_covers_any_bits (under cover : list Z) (size : Z) :
  bitset_wf under ->
  (bitset_covers_any under cover size = true <->
   (exists p, 0 <= p < 64 * size /\ get_bit under p = true /\ get_bit cover p = true)).
Proof.
  intros Hwf. unfold bitset_covers_any. rewrite existsb_exists. split.
  - intros (i & Hi & Hne). apply In_indices in Hi.
    apply negb_true_iff, Z.eqb_neq in Hne.
    pose proof (word_range under i Hwf) as Hr.
    set (x := Z.land (word under i) (word cover i)) in *.
    assert (0 <= x) as Hx0 by (apply Z.land_nonneg; lia).
    pose proof (Z.bit_log2 x ltac:(lia)) as Hbit.
    pose proof (Z.log2_nonneg x) as Hl0.
    unfold x in Hbit. rewrite Z.land_spec in Hbit.
    apply andb_true_iff in Hbit as [Hu Hc]. fold x in Hu, Hc.
    assert (Z.log2 x < 64) as Hlt.
    { destruct (Z.lt_ge_cases (Z.log2 x) 64); [done|].
      rewrite word_high_bits in Hu by done. discriminate. }
    exists (64 * i + Z.log2 x). split; [lia|].
    rewrite !get_bit_word by lia. done.
  - intros (p & Hp & Hu & Hc).
    exists (p / BITS_CNT). split.
    + apply In_indices. unfold BITS_CNT.
      split; [apply Z.div_pos; lia|apply Z.div_lt_upper_bound; lia].
    + apply negb_true_iff, Z.eqb_neq. intros Hz.
      rewrite get_bit_testbit in *.
      assert (Z.testbit (Z.land (word under (p / BITS_CNT)) (word cover (p / BITS_CNT)))
                        (p mod BITS_CNT) = false) as Hb by (rewrite Hz; apply Z.bits_0).
      rewrite Z.land_spec, Hu, Hc in Hb. discriminate.
Qed.

Lemma set_clear_bit_comm (bitset : list Z) (p q : Z) :
  0 <= p -> 0 <= q -> p <> q ->
  set_bit (clear_bit bitset p) q = clear_bit (set_bit bitset q) p.
Proof.
  intros Hp Hq Hne. unfold set_bit, clear_bit.
  assert (0 <= p / BITS_CNT) by (apply Z.div_pos; unfold BITS_CNT; lia).
  assert (0 <= q / BITS_CNT) by (apply Z.div_pos; unfold BITS_CNT; lia).
  destruct (Z.eq_dec (p / BITS_CNT) (q / BITS_CNT)) as [Hd|Hd].
  - rewrite Hd, !list_alter_alter_eq. apply list_alter_ext; [|done].
    intros w _. simpl.
    assert (p mod BITS_CNT <> q mod BITS_CNT) as Hm
      by (intros Hm; apply Hne, pos_split; done).
    pose proof (mod64_range p). pose proof (mod64_range q).
    apply Z.bits_inj'. intros k Hk.
    rewrite Z.lor_spec, !Z.land_spec, Z.lor_spec, !Z.lxor_spec,
      !testbit_one_shift by lia.
    destruct (Z.eqb_spec k (q mod BITS_CNT)) as [->|Hkq].
    + rewrite Z.ones_spec_low by lia.
      destruct (Z.eqb_spec (q mod BITS_CNT) (p mod BITS_CNT)); [lia|].
      rewrite !orb_true_r. reflexivity.
    + rewrite !orb_false_r. reflexivity.
  - apply list_alter_alter_ne. lia.
Qed.

(** ** The parser *)

Lemma wrap16_small (z : Z) : 0 <= z < 65536 -> wrap16 z = z.
Proof. intros H. unfold wrap16. apply Z.mod_small. done. Qed.

Lemma wrap16_range (z : Z) : 0 <= wrap16 z < 65536.
Proof. unfold wrap16. apply Z.mod_pos_bound. lia. Qed.

Lemma wrap16_succ (z : Z) : wrap16 (wrap16 z + 1) = wrap16 (z + 1).
Proof. unfold wrap16. rewrite Zplus_mod_idemp_l. reflexivity. Qed.

Lemma is_tile_cases (c : ascii) :
  is_tile_char c = true ->
  is_wall_char c = true \/ is_char c "." = true \/ is_goal_char c = true
  \/ is_crate_char c = true \/ is_player_char c = true.
Proof.
  unfold is_tile_char. rewrite !orb_true_iff. tauto.
Qed.

Lemma is_char_eq (c : ascii) (s : string) (c' : ascii) :
  s = String c' EmptyString -> is_char c s = Ascii.eqb c c'.
Proof. intros ->. reflexivity. Qed.

(** The character classes exclude each other as the [switch] has them. *)
Ltac char_cases c :=
  unfold is_tile_char, is_wall_char, is_goal_char, is_crate_char, is_player_char,
    is_char in *;
  repeat match goal with
         | |- context [Ascii.eqb c ?d] => destruct (Ascii.eqb_spec c d); subst; simpl in *
         | H : context [Ascii.eqb c ?d] |- _ =>
             destruct (Ascii.eqb_spec c d); subst; simpl in *
         end;
  try discriminate; try congruence; try done.

Lemma parse_tile_None (c : ascii) (st : parser) :
  parse_tile c st = None <-> is_tile_char c = false.
Proof.
  unfold parse_tile. split.
  - intros H. char_cases c.
  - intros H. char_cases c.
Qed.

Lemma place_walls (st : parser) (pos : Z) (c : ascii) (q : Z) :
  0 <= pos -> 0 <= q ->
  get_bit (p_walls (place st (pos, c))) q =
  negb ((pos =? q) && is_tile_char c && negb (is_wall_char c)) && get_bit (p_walls st) q.
Proof.
  intros Hpos Hq. unfold place, parse_tile. simpl.
  char_cases c; simpl; rewrite ?get_clear_bit by done;
    rewrite ?andb_true_r, ?andb_false_r; reflexivity.
Qed.

Lemma place_goals (st : parser) (pos : Z) (c : ascii) (q : Z) :
  in_bitset (p_goals st) pos -> 0 <= q ->
  get_bit (p_goals (place st (pos, c))) q =
  ((pos =? q) && is_goal_char c) || get_bit (p_goals st) q.
Proof.
  intros Hpos Hq. unfold place, parse_tile. simpl.
  char_cases c; simpl; rewrite ?get_set_bit by done;
    rewrite ?andb_true_r, ?andb_false_r; reflexivity.
Qed.

Lemma place_crates (st : parser) (pos : Z) (c : ascii) (q : Z) :
  in_bitset (p_crates st) pos -> 0 <= q ->
  get_bit (p_crates (place st (pos, c))) q =
  ((pos =? q) && is_crate_char c) || get_bit (p_crates st) q.
Proof.
  intros Hpos Hq. unfold place, parse_tile. simpl.
  char_cases c; simpl; rewrite ?get_set_bit by done;
    rewrite ?andb_true_r, ?andb_false_r; reflexivity.
Qed.

Lemma place_player (st : parser) (pos : Z) (c : ascii) :
  p_player (place st (pos, c)) = if is_player_char c then pos else p_player st.
Proof. unfold place, parse_tile. simpl. char_cases c. Qed.

Lemma place_goal_count (st : parser) (pos : Z) (c : ascii) :
  p_goal_count (place st (pos, c)) =
  if is_goal_char c then wrap16 (p_goal_count st + 1) else p_goal_count st.
Proof. unfold place, parse_tile. simpl. char_cases c. Qed.

Lemma place_crate_count (st : parser) (pos : Z) (c : ascii) :
  p_crate_count (place st (pos, c)) =
  if is_crate_char c then wrap16 (p_crate_count st + 1) else p_crate_count st.
Proof. unfold place, parse_tile. simpl. char_cases c. Qed.

Lemma place_player_count (st : parser) (pos : Z) (c : ascii) :
  p_player_count (place st (pos, c)) =
  if is_player_char c then wrap16 (p_player_count st + 1) else p_player_count st.
Proof. unfold place, parse_tile. simpl. char_cases c. Qed.

Lemma place_lengths (st : parser) (pc : Z * ascii) :
  length (p_walls (place st pc)) = length (p_walls st)
  /\ length (p_goals (place st pc)) = length (p_goals st)
  /\ length (p_crates (place st pc)) = length (p_crates st).
Proof.
  destruct pc as [pos c]. unfold place, parse_tile. simpl.
  char_cases c; simpl; rewrite ?length_clear_bit, ?length_set_bit; done.
Qed.

Lemma place_wf (st : parser) (pc : Z * ascii) :
  bitset_wf (p_walls st) -> bitset_wf (p_goals st) -> bitset_wf (p_crates st) ->
  bitset_wf (p_walls (place st pc)) /\ bitset_wf (p_goals (place st pc))
  /\ bitset_wf (p_crates (place st pc)).
Proof.
  intros Hw Hg Hc. destruct pc as [pos c]. unfold place, parse_tile. simpl.
  char_cases c; simpl;
    repeat split; try done;
    try apply bitset_wf_clear_bit; try apply bitset_wf_set_bit; done.
Qed.

Lemma tiles_tile (s : string) : Forall (fun c => is_tile_char c = true) (tiles s).
Proof.
  induction s as [|c s IH]; simpl; [constructor|].
  destruct (Ascii.eqb c zero); [constructor|].
  destruct (is_tile_char c) eqn:Hc; [constructor; done|done].
Qed.

Lemma at_position_id (st : parser) : at_position st (p_position st) = st.
Proof. destruct st. reflexivity. Qed.

Lemma content_at_position (st : parser) (pos : Z) :
  content (at_position st pos) = content st.
Proof. reflexivity. Qed.

Lemma content_advance (st : parser) (n : Z) : content (advance st n) = content st.
Proof. reflexivity. Qed.

Lemma at_position_content (st1 st2 : parser) (pos : Z) :
  content st1 = content st2 -> at_position st1 pos = at_position st2 pos.
Proof.
  destruct st1, st2. unfold content, at_position. simpl. intros H.
  injection H as -> -> -> -> -> -> ->. reflexivity.
Qed.

Lemma place_content (st1 st2 : parser) (pc : Z * ascii) :
  content st1 = content st2 -> content (place st1 pc) = content (place st2 pc).
Proof.
  intros H. unfold place. rewrite (at_position_content st1 st2 _ H).
  destruct (parse_tile _ _); done.
Qed.

Lemma fold_place_content (l : list (Z * ascii)) (st1 st2 : parser) :
  content st1 = content st2 ->
  content (fold_left place l st1) = content (fold_left place l st2).
Proof.
  revert st1 st2. induction l as [|pc l IH]; intros st1 st2 H; simpl; [done|].
  apply IH, place_content, H.
Qed.

Lemma parse_tile_position (c : ascii) (st st' : parser) :
  parse_tile c st = Some st' -> p_position st' = p_position st.
Proof. unfold parse_tile. char_cases c; intros [= <-]; reflexivity. Qed.

Lemma parse_cell_spec (s : string) (st : parser) :
  match parse_cell s st with
  | (st', Some rest) =>
      exists c, tiles s = c :: tiles rest /\ st' = place st (p_position st, c)
                /\ p_position st' = p_position st
  | (st', None) => tiles s = [] /\ st' = st
  end.
Proof.
  induction s as [|c s IH]; simpl; [done|].
  destruct (Ascii.eqb c zero); [done|].
  destruct (parse_tile c st) as [st'|] eqn:Hp.
  - assert (is_tile_char c = true) as ->.
    { destruct (is_tile_char c) eqn:E; [done|].
      apply (parse_tile_None c st) in E. congruence. }
    exists c. split; [done|]. unfold place. simpl.
    rewrite at_position_id, Hp. split; [done|].
    eapply parse_tile_position. done.
  - apply parse_tile_None in Hp. rewrite Hp. exact IH.
Qed.

Lemma seqZ_S (pos : Z) (n : nat) :
  seqZ pos (Z.of_nat (S n)) = pos :: seqZ (pos + 1) (Z.of_nat n).
Proof.
  rewrite seqZ_cons by lia. f_equal. f_equal; lia.
Qed.

Lemma parse_row_spec (cells : nat) (s : string) (st : parser) :
  0 <= p_position st -> p_position st + Z.of_nat cells < 65536 ->
  let filled := fold_left place
                  (combine (seqZ (p_position st) (Z.of_nat cells)) (tiles s)) st in
  match parse_row cells s st with
  | (st', Some rest) =>
      (cells <= length (tiles s))%nat /\ tiles rest = drop cells (tiles s)
      /\ content st' = content filled
      /\ p_position st' = p_position st + Z.of_nat cells
  | (st', None) =>
      (length (tiles s) < cells)%nat /\ content st' = content filled
  end.
Proof.
  revert s st. induction cells as [|cells IH]; intros s st H0 H1.
  - simpl. repeat split; try done. lia. lia.
  - cbn zeta. cbn [parse_row]. pose proof (parse_cell_spec s st) as Hc.
    destruct (parse_cell s st) as [st1 [rest1|]].
    + destruct Hc as (c & Ht & Hst1 & Hpos1).
      assert (p_position (advance st1 1) = p_position st + 1) as Hadv.
      { unfold advance. simpl. rewrite Hpos1. apply wrap16_small. lia. }
      specialize (IH rest1 (advance st1 1)). rewrite Hadv in IH.
      specialize (IH ltac:(lia) ltac:(lia)). cbn zeta in IH.
      rewrite seqZ_S, Ht. simpl combine. simpl fold_left.
      rewrite <- Hst1.
      rewrite (fold_place_content _ (advance st1 1) st1) in IH by apply content_advance.
      destruct (parse_row cells rest1 (advance st1 1)) as [st2 [rest2|]].
      * destruct IH as (Hlen & Hrest & Hcont & Hpos2).
        repeat split; simpl; try done; lia.
      * destruct IH as (Hlen & Hcont). split; simpl; [lia|done].
    + destruct Hc as [Ht ->]. rewrite Ht. simpl.
      split; [lia|]. destruct (seqZ _ _); reflexivity.
Qed.

Lemma combine_app_l {A B} (l1 l2 : list A) (ts : list B) :
  combine (l1 ++ l2) ts =
  combine l1 ts ++ combine l2 (drop (length l1) ts).
Proof.
  revert ts. induction l1 as [|a l1 IH]; intros ts; simpl; [by rewrite drop_0|].
  destruct ts as [|t ts]; simpl.
  - destruct l2; reflexivity.
  - rewrite IH. reflexivity.
Qed.

Lemma length_seqZ_nat (pos : Z) (n : nat) : length (seqZ pos (Z.of_nat n)) = n.
Proof. rewrite length_seqZ. lia. Qed.

Lemma parse_rows_spec (rows cells : nat) (s : string) (st : parser) :
  0 <= p_position st ->
  p_position st + Z.of_nat rows * (Z.of_nat cells + 2) < 65536 ->
  content (parse_rows rows cells s st) =
  content (fold_left place
             (combine (rows_positions rows (Z.of_nat cells) (p_position st)) (tiles s))
             st).
Proof.
  revert s st. induction rows as [|rows IH]; intros s st H0 H1; [done|].
  cbn [parse_rows rows_positions].
  pose proof (parse_row_spec cells s st H0 ltac:(lia)) as Hrow. cbn zeta in Hrow.
  rewrite combine_app_l, fold_left_app, length_seqZ_nat.
  destruct (parse_row cells s st) as [st1 [rest|]].
  - destruct Hrow as (Hlen & Hrest & Hcont & Hpos).
    assert (p_position (advance st1 2) = p_position st + Z.of_nat cells + 2) as Hadv.
    { unfold advance. simpl. rewrite Hpos. apply wrap16_small. lia. }
    rewrite IH; rewrite Hadv; [|lia|lia].
    rewrite Hrest. apply fold_place_content. rewrite content_advance. exact Hcont.
  - destruct Hrow as (Hlen & Hcont).
    rewrite drop_ge by lia.
    rewrite combine_nil. simpl. exact Hcont.
Qed.

Lemma rows_positions_length (rows : nat) (cells : nat) (pos : Z) :
  length (rows_positions rows (Z.of_nat cells) pos) = (rows * cells)%nat.
Proof.
  revert pos. induction rows as [|rows IH]; intros pos; simpl; [done|].
  rewrite length_app, length_seqZ_nat, IH. reflexivity.
Qed.

Lemma rows_positions_lookup (rows cells : nat) (pos : Z) (n : nat) :
  (n < rows * cells)%nat ->
  rows_positions rows (Z.of_nat cells) pos !! n =
  Some (pos + (Z.of_nat n / Z.of_nat cells) * (Z.of_nat cells + 2)
        + Z.of_nat n mod Z.of_nat cells).
Proof.
  revert pos n. induction rows as [|rows IH]; intros pos n Hn; [lia|].
  assert (0 < cells)%nat as Hc by (destruct cells; lia).
  cbn [rows_positions].
  destruct (Nat.lt_ge_cases n cells) as [Hlt|Hge].
  - rewrite lookup_app_l by (rewrite length_seqZ_nat; done).
    rewrite lookup_seqZ_lt by lia. f_equal.
    rewrite Z.div_small, Z.mod_small by lia. lia.
  - rewrite lookup_app_r by (rewrite length_seqZ_nat; done).
    rewrite length_seqZ_nat, IH by nia. f_equal.
    replace (Z.of_nat n) with (Z.of_nat (n - cells) + 1 * Z.of_nat cells) by lia.
    rewrite Z.div_add, Z.mod_add by lia. lia.
Qed.

Lemma existsb_combine_notin (f : ascii -> bool) (positions : list Z)
    (ts : list ascii) (q : Z) :
  q ∉ positions ->
  existsb (fun pc => (fst pc =? q) && f (snd pc)) (combine positions ts) = false.
Proof.
  revert ts. induction positions as [|p ps IH]; intros ts Hq; [done|].
  destruct ts as [|t ts]; [done|]. simpl.
  apply not_elem_of_cons in Hq as [Hne Hq].
  rewrite IH by done. destruct (Z.eqb_spec p q); [congruence|done].
Qed.

Lemma existsb_combine_lookup (f : ascii -> bool) (positions : list Z)
    (ts : list ascii) (n : nat) (q : Z) :
  NoDup positions -> positions !! n = Some q ->
  existsb (fun pc => (fst pc =? q) && f (snd pc)) (combine positions ts) =
  match ts !! n with Some c => f c | None => false end.
Proof.
  revert ts n. induction positions as [|p ps IH]; intros ts n Hnd Hn; [done|].
  apply NoDup_cons in Hnd as [Hp Hnd].
  destruct ts as [|t ts]; [done|]. simpl.
  destruct n as [|n]; simpl in *.
  - injection Hn as ->. rewrite Z.eqb_refl, existsb_combine_notin by done.
    simpl. apply orb_false_r.
  - assert (p <> q) as Hne.
    { intros ->. apply Hp. eapply list_elem_of_lookup_2. done. }
    destruct (Z.eqb_spec p q); [done|]. simpl. apply IH; done.
Qed.

Lemma fold_place_lengths (l : list (Z * ascii)) (st : parser) :
  length (p_walls (fold_left place l st)) = length (p_walls st)
  /\ length (p_goals (fold_left place l st)) = length (p_goals st)
  /\ length (p_crates (fold_left place l st)) = length (p_crates st).
Proof.
  revert st. induction l as [|pc l IH]; intros st; simpl; [done|].
  destruct (IH (place st pc)) as (-> & -> & ->). apply place_lengths.
Qed.

Lemma fold_place_wf (l : list (Z * ascii)) (st : parser) :
  bitset_wf (p_walls st) -> bitset_wf (p_goals st) -> bitset_wf (p_crates st) ->
  bitset_wf (p_walls (fold_left place l st))
  /\ bitset_wf (p_goals (fold_left place l st))
  /\ bitset_wf (p_crates (fold_left place l st)).
Proof.
  revert st. induction l as [|pc l IH]; intros st Hw Hg Hc; simpl; [done|].
  destruct (place_wf st pc Hw Hg Hc) as (? & ? & ?). apply IH; done.
Qed.

Lemma fold_place_walls (l : list (Z * ascii)) (st : parser) (q : Z) :
  Forall (fun pc => 0 <= fst pc /\ is_tile_char (snd pc) = true) l -> 0 <= q ->
  get_bit (p_walls (fold_left place l st)) q =
  negb (existsb (fun pc => (fst pc =? q) && negb (is_wall_char (snd pc))) l)
  && get_bit (p_walls st) q.
Proof.
  revert st. induction l as [|[pos c] l IH]; intros st Hl Hq; simpl; [done|].
  apply Forall_cons in Hl as [[Hpos Hc] Hl]. simpl in *.
  rewrite IH, place_walls by done. rewrite Hc.
  destruct (pos =? q), (is_wall_char c), (existsb _ l), (get_bit (p_walls st) q); done.
Qed.

Lemma fold_place_goals (l : list (Z * ascii)) (st : parser) (q : Z) :
  Forall (fun pc => in_bitset (p_goals st) (fst pc)) l -> 0 <= q ->
  get_bit (p_goals (fold_left place l st)) q =
  existsb (fun pc => (fst pc =? q) && is_goal_char (snd pc)) l
  || get_bit (p_goals st) q.
Proof.
  revert st. induction l as [|[pos c] l IH]; intros st Hl Hq; simpl; [done|].
  apply Forall_cons in Hl as [Hpos Hl]. simpl in *.
  rewrite IH, place_goals; try done.
  - rewrite orb_assoc. f_equal. apply orb_comm.
  - eapply Forall_impl; [exact Hl|]. intros pc. unfold in_bitset.
    destruct (place_lengths st (pos, c)) as (_ & -> & _). done.
Qed.

Lemma fold_place_crates (l : list (Z * ascii)) (st : parser) (q : Z) :
  Forall (fun pc => in_bitset (p_crates st) (fst pc)) l -> 0 <= q ->
  get_bit (p_crates (fold_left place l st)) q =
  existsb (fun pc => (fst pc =? q) && is_crate_char (snd pc)) l
  || get_bit (p_crates st) q.
Proof.
  revert st. induction l as [|[pos c] l IH]; intros st Hl Hq; simpl; [done|].
  apply Forall_cons in Hl as [Hpos Hl]. simpl in *.
  rewrite IH, place_crates; try done.
  - rewrite orb_assoc. f_equal. apply orb_comm.
  - eapply Forall_impl; [exact Hl|]. intros pc. unfold in_bitset.
    destruct (place_lengths st (pos, c)) as (_ & _ & ->). done.
Qed.

Lemma count_chars_cons (f : ascii -> bool) (c : ascii) (l : list ascii) :
  count_chars f (c :: l) = (if f c then 1 else 0) + count_chars f l.
Proof.
  unfold count_chars. rewrite filter_cons.
  case_decide as E.
  - rewrite E. simpl length. lia.
  - destruct (f c); [done|]. lia.
Qed.

Lemma count_chars_range (f : ascii -> bool) (l : list ascii) :
  0 <= count_chars f l <= Z.of_nat (length l).
Proof.
  unfold count_chars. pose proof (length_filter (fun c => f c = true) l). lia.
Qed.

Lemma wrap16_add_l (a b : Z) : wrap16 (wrap16 a + b) = wrap16 (a + b).
Proof. unfold wrap16. apply Zplus_mod_idemp_l. Qed.

Lemma fold_place_counts (l : list (Z * ascii)) (st : parser) :
  wrap16 (p_goal_count (fold_left place l st)) =
    wrap16 (p_goal_count st + count_chars is_goal_char (map snd l))
  /\ wrap16 (p_crate_count (fold_left place l st)) =
    wrap16 (p_crate_count st + count_chars is_crate_char (map snd l))
  /\ wrap16 (p_player_count (fold_left place l st)) =
    wrap16 (p_player_count st + count_chars is_player_char (map snd l)).
Proof.
  revert st. induction l as [|[pos c] l IH]; intros st; simpl.
  - unfold count_chars. simpl. rewrite !Z.add_0_r. done.
  - destruct (IH (place st (pos, c))) as (-> & -> & ->).
    rewrite place_goal_count, place_crate_count, place_player_count.
    rewrite !count_chars_cons.
    repeat split.
    + destruct (is_goal_char c); [rewrite wrap16_add_l|]; f_equal; lia.
    + destruct (is_crate_char c); [rewrite wrap16_add_l|]; f_equal; lia.
    + destruct (is_player_char c); [rewrite wrap16_add_l|]; f_equal; lia.
Qed.

Lemma place_count_ranges (st : parser) (pc : Z * ascii) :
  0 <= p_goal_count st < 65536 -> 0 <= p_crate_count st < 65536 ->
  0 <= p_player_count st < 65536 ->
  0 <= p_goal_count (place st pc) < 65536
  /\ 0 <= p_crate_count (place st pc) < 65536
  /\ 0 <= p_player_count (place st pc) < 65536.
Proof.
  intros Hg Hc Hp. destruct pc as [pos c].
  rewrite place_goal_count, place_crate_count, place_player_count.
  repeat split;
    repeat match goal with |- context [if ?b then _ else _] => destruct b end;
    try apply wrap16_range; lia.
Qed.

Lemma fold_place_count_ranges (l : list (Z * ascii)) (st : parser) :
  0 <= p_goal_count st < 65536 -> 0 <= p_crate_count st < 65536 ->
  0 <= p_player_count st < 65536 ->
  0 <= p_goal_count (fold_left place l st) < 65536
  /\ 0 <= p_crate_count (fold_left place l st) < 65536
  /\ 0 <= p_player_count (fold_left place l st) < 65536.
Proof.
  revert st. induction l as [|pc l IH]; intros st Hg Hc Hp; simpl; [done|].
  destruct (place_count_ranges st pc Hg Hc Hp) as (? & ? & ?). apply IH; done.
Qed.

Lemma fold_place_player (l : list (Z * ascii)) (st : parser) :
  (existsb (fun pc => is_player_char (snd pc)) l = false
   /\ p_player (fold_left place l st) = p_player st)
  \/ (exists n pos c, l !! n = Some (pos, c) /\ is_player_char c = true
                      /\ p_player (fold_left place l st) = pos).
Proof.
  revert st. induction l as [|[pos c] l IH]; intros st; simpl; [left; done|].
  destruct (IH (place st (pos, c))) as [[Hnone Hp]|(n & pos' & c' & Hn & Hc & Hp)].
  - rewrite Hp, place_player. destruct (is_player_char c) eqn:Hc.
    + right. exists 0%nat, pos, c. done.
    + left. done.
  - right. exists (S n), pos', c'. done.
Qed.

(** *** The level that [parse_level] builds *)

Section ParseLevel.
Variable context : context_t.
Hypothesis Hok : context_ok context.
Variable problem : problem_t.
Variable level_str : string.

Let st := parse_level context problem level_str.
Let cells := Z.to_nat (width context - 2).
Let rows := Z.to_nat (height context - 2).
Let placed := combine (interior_positions context) (tiles level_str).
Let init :=
  {| p_walls := bitset_ones (bitset_size context);
     p_goals := bitset_zero (bitset_size context);
     p_crates := bitset_zero (bitset_size context);
     p_player := player problem;
     p_goal_count := 0; p_crate_count := 0; p_player_count := 0;
     p_position := wrap16 (width context + 1) |}.

Lemma area_bitset : area context <= 64 * bitset_size context.
Proof using Hok.
  destruct Hok as [Hw Hh Ha Hb]. rewrite Hb.
  pose proof (Z.div_mod (area context + 63) 64 ltac:(lia)).
  pose proof (Z.mod_pos_bound (area context + 63) 64 ltac:(lia)). lia.
Qed.

Lemma bitset_size_nonneg : 0 <= bitset_size context.
Proof using Hok.
  destruct Hok as [Hw Hh Ha Hb]. rewrite Hb. apply Z.div_pos; nia.
Qed.

Lemma area_range : 4 <= area context <= 65025.
Proof using Hok. destruct Hok as [Hw Hh Ha Hb]. rewrite Ha. nia. Qed.

Lemma parse_level_content :
  content st = content (fold_left place placed init).
Proof using Hok.
  destruct Hok as [Hw Hh Ha Hb].
  unfold st, parse_level. fold init.
  assert (p_position init = width context + 1) as Hpos
    by (simpl; apply wrap16_small; lia).
  rewrite parse_rows_spec; rewrite Hpos; [|lia|nia].
  unfold placed, interior_positions. rewrite Z2Nat.id by lia. reflexivity.
Qed.

Lemma interior_positions_lookup (n : Z) :
  0 <= n < interior_size context ->
  interior_positions context !! Z.to_nat n = Some (cell_position context n).
Proof using Hok.
  destruct Hok as [Hw Hh Ha Hb]. unfold interior_size. intros Hn.
  unfold interior_positions.
  replace (width context - 2) with (Z.of_nat (Z.to_nat (width context - 2))) at 1 by lia.
  rewrite rows_positions_lookup by nia. f_equal.
  unfold cell_position. rewrite !Z2Nat.id by lia.
  assert (0 <= n / (width context - 2)) by (apply Z.div_pos; nia).
  lia.
Qed.

Lemma interior_positions_length :
  length (interior_positions context) = Z.to_nat (interior_size context).
Proof using Hok.
  destruct Hok as [Hw Hh Ha Hb]. unfold interior_positions, interior_size.
  replace (width context - 2) with (Z.of_nat (Z.to_nat (width context - 2))) at 1 by lia.
  rewrite rows_positions_length. nia.
Qed.

Lemma cell_position_interior (n : Z) :
  0 <= n < interior_size context -> interior context (cell_position context n).
Proof using Hok.
  destruct Hok as [Hw Hh Ha Hb]. unfold interior_size. intros Hn.
  assert (0 < width context - 2) as Hc by nia.
  exists (n mod (width context - 2) + 1), (n / (width context - 2) + 1).
  pose proof (Z.mod_pos_bound n (width context - 2) Hc).
  assert (0 <= n / (width context - 2)) by (apply Z.div_pos; lia).
  assert (n / (width context - 2) < height context - 2)
    by (apply Z.div_lt_upper_bound; nia).
  unfold cell_position. repeat split; lia.
Qed.

Lemma interior_cell_position (q : Z) :
  interior context q ->
  exists n, 0 <= n < interior_size context /\ q = cell_position context n.
Proof using Hok.
  destruct Hok as [Hw Hh Ha Hb]. intros (x & y & Hx & Hy & ->).
  exists ((y - 1) * (width context - 2) + (x - 1)).
  unfold interior_size, cell_position. split; [nia|].
  set (c := width context - 2) in *.
  assert (((y - 1) * c + (x - 1)) / c = y - 1) as ->.
  { rewrite Z.div_add_l by lia. rewrite Z.div_small by lia. lia. }
  assert (((y - 1) * c + (x - 1)) mod c = x - 1) as ->.
  { rewrite (Z.add_comm _ (x - 1)), Z.mod_add by lia. apply Z.mod_small. lia. }
  lia.
Qed.

Lemma interior_range (q : Z) : interior context q -> 0 <= q < area context.
Proof using Hok.
  destruct Hok as [Hw Hh Ha Hb]. intros (x & y & Hx & Hy & ->). rewrite Ha. nia.
Qed.

Lemma cell_position_inj (n m : Z) :
  0 <= n < interior_size context -> 0 <= m < interior_size context ->
  cell_position context n = cell_position context m -> n = m.
Proof using Hok.
  destruct Hok as [Hw Hh Ha Hb]. unfold interior_size, cell_position.
  intros Hn Hm Heq.
  assert (0 < width context - 2) as Hc by nia.
  pose proof (Z.mod_pos_bound n (width context - 2) Hc).
  pose proof (Z.mod_pos_bound m (width context - 2) Hc).
  pose proof (Z.div_mod n (width context - 2) ltac:(lia)).
  pose proof (Z.div_mod m (width context - 2) ltac:(lia)).
  assert (n / (width context - 2) = m / (width context - 2)) by nia.
  nia.
Qed.

Lemma interior_positions_NoDup : NoDup (interior_positions context).
Proof using Hok.
  apply NoDup_alt. intros i j q Hi Hj.
  pose proof (lookup_lt_Some _ _ _ Hi) as Hil.
  pose proof (lookup_lt_Some _ _ _ Hj) as Hjl.
  rewrite interior_positions_length in Hil, Hjl.
  rewrite <- (Nat2Z.id i) in Hi. rewrite <- (Nat2Z.id j) in Hj.
  rewrite interior_positions_lookup in Hi, Hj by lia.
  assert (Z.of_nat i = Z.of_nat j); [|lia].
  apply cell_position_inj; [lia|lia|congruence].
Qed.

Lemma elem_of_interior_positions (q : Z) :
  q ∈ interior_positions context <-> interior context q.
Proof using Hok.
  split.
  - intros Hq. apply list_elem_of_lookup in Hq as [i Hi].
    pose proof (lookup_lt_Some _ _ _ Hi) as Hil.
    rewrite interior_positions_length in Hil.
    rewrite <- (Nat2Z.id i), interior_positions_lookup in Hi by lia.
    injection Hi as <-. apply cell_position_interior. lia.
  - intros Hq. apply interior_cell_position in Hq as (n & Hn & ->).
    eapply list_elem_of_lookup_2. apply interior_positions_lookup. done.
Qed.

Lemma placed_Forall :
  Forall (fun pc => 0 <= fst pc < area context /\ is_tile_char (snd pc) = true) placed.
Proof using Hok.
  apply Forall_forall. intros [pos c] Hin. apply list_elem_of_In in Hin.
  simpl. split.
  - apply in_combine_l in Hin. apply list_elem_of_In in Hin.
    apply elem_of_interior_positions in Hin. apply interior_range. done.
  - apply in_combine_r in Hin. apply list_elem_of_In in Hin.
    pose proof (tiles_tile level_str) as Ht.
    rewrite Forall_forall in Ht. apply Ht. done.
Qed.

Lemma parse_level_lengths :
  length (p_walls st) = Z.to_nat (bitset_size context)
  /\ length (p_goals st) = Z.to_nat (bitset_size context)
  /\ length (p_crates st) = Z.to_nat (bitset_size context).
Proof using Hok.
  pose proof parse_level_content as Hc. unfold content in Hc.
  injection Hc as -> -> -> _ _ _ _.
  destruct (fold_place_lengths placed init) as (-> & -> & ->).
  simpl. rewrite length_bitset_ones, length_bitset_zero. done.
Qed.

Lemma parse_level_wf :
  bitset_wf (p_walls st) /\ bitset_wf (p_goals st) /\ bitset_wf (p_crates st).
Proof using Hok.
  pose proof parse_level_content as Hc. unfold content in Hc.
  injection Hc as -> -> -> _ _ _ _.
  apply fold_place_wf; simpl.
  - apply bitset_wf_ones.
  - apply bitset_wf_zero.
  - apply bitset_wf_zero.
Qed.

(** The tile of each interior cell. *)
Lemma parse_level_cell (n : Z) :
  0 <= n < interior_size context ->
  let q := cell_position context n in
  let t := tiles level_str !! Z.to_nat n in
  get_bit (p_walls st) q = tile_bit is_wall_char true t
  /\ get_bit (p_goals st) q = tile_bit is_goal_char false t
  /\ get_bit (p_crates st) q = tile_bit is_crate_char false t.
Proof using Hok.
  intros Hn q t.
  pose proof parse_level_content as Hc. unfold content in Hc.
  injection Hc as -> -> -> _ _ _ _.
  pose proof (interior_range q (cell_position_interior n Hn)) as Hq.
  pose proof area_bitset as Hab. pose proof bitset_size_nonneg as Hb0.
  pose proof placed_Forall as Hpl.
  repeat split.
  - rewrite fold_place_walls; [|eapply Forall_impl; [exact Hpl|]; simpl; intros ? [? ?]; split; [lia|done]|lia].
    simpl. rewrite get_bit_ones by lia.
    replace (q <? 64 * bitset_size context) with true by (symmetry; apply Z.ltb_lt; lia).
    rewrite andb_true_r. unfold placed.
    rewrite (existsb_combine_lookup (fun c => negb (is_wall_char c)) _ _ (Z.to_nat n));
      [|apply interior_positions_NoDup|apply interior_positions_lookup; done].
    fold t. destruct t; simpl; [apply negb_involutive|done].
  - rewrite fold_place_goals; [| |lia].
    + simpl. rewrite get_bit_zero, orb_false_r. unfold placed.
      rewrite (existsb_combine_lookup is_goal_char _ _ (Z.to_nat n));
        [|apply interior_positions_NoDup|apply interior_positions_lookup; done].
      reflexivity.
    + eapply Forall_impl; [exact Hpl|]. simpl. intros pc Hpc.
      unfold in_bitset. rewrite length_bitset_zero. lia.
  - rewrite fold_place_crates; [| |lia].
    + simpl. rewrite get_bit_zero, orb_false_r. unfold placed.
      rewrite (existsb_combine_lookup is_crate_char _ _ (Z.to_nat n));
        [|apply interior_positions_NoDup|apply interior_positions_lookup; done].
      reflexivity.
    + eapply Forall_impl; [exact Hpl|]. simpl. intros pc Hpc.
      unfold in_bitset. rewrite length_bitset_zero. lia.
Qed.

(** Outside the interior nothing is written. *)
Lemma parse_level_border (q : Z) :
  0 <= q -> ~ interior context q ->
  get_bit (p_walls st) q = (q <? 64 * bitset_size context)
  /\ get_bit (p_goals st) q = false
  /\ get_bit (p_crates st) q = false.
Proof using Hok.
  intros Hq Hni.
  pose proof parse_level_content as Hc. unfold content in Hc.
  injection Hc as -> -> -> _ _ _ _.
  pose proof area_bitset as Hab. pose proof bitset_size_nonneg as Hb0.
  pose proof placed_Forall as Hpl.
  assert (q ∉ interior_positions context) as Hnotin
    by (rewrite elem_of_interior_positions; done).
  repeat split.
  - rewrite fold_place_walls; [|eapply Forall_impl; [exact Hpl|]; simpl; intros ? [? ?]; split; [lia|done]|lia].
    unfold placed.
    rewrite (existsb_combine_notin (fun c => negb (is_wall_char c))) by done.
    simpl. apply get_bit_ones. done.
  - rewrite fold_place_goals; [| |lia].
    + unfold placed. rewrite (existsb_combine_notin is_goal_char) by done.
      simpl. apply get_bit_zero.
    + eapply Forall_impl; [exact Hpl|]. simpl. intros pc Hpc.
      unfold in_bitset. rewrite length_bitset_zero. lia.
  - rewrite fold_place_crates; [| |lia].
    + unfold placed. rewrite (existsb_combine_notin is_crate_char) by done.
      simpl. apply get_bit_zero.
    + eapply Forall_impl; [exact Hpl|]. simpl. intros pc Hpc.
      unfold in_bitset. rewrite length_bitset_zero. lia.
Qed.
End ParseLevel.

Lemma map_snd_combine {A B} (l1 : list A) (l2 : list B) :
  map snd (combine l1 l2) = take (length l1) l2.
Proof.
  revert l2. induction l1 as [|a l1 IH]; intros [|b l2]; simpl; try done.
  rewrite IH. reflexivity.
Qed.

Lemma combine_lookup {A B} (l1 : list A) (l2 : list B) (n : nat) (a : A) (b : B) :
  combine l1 l2 !! n = Some (a, b) <-> l1 !! n = Some a /\ l2 !! n = Some b.
Proof.
  revert l2 n. induction l1 as [|a1 l1 IH]; intros [|b2 l2] n; simpl.
  - split; [done|intros [? ?]; done].
  - split; [done|intros [? ?]; done].
  - split; [done|intros [? ?]; done].
  - destruct n as [|n]; simpl.
    + split; [intros [= -> ->]; done|intros [[= ->] [= ->]]; done].
    + apply IH.
Qed.

Lemma count_chars_le (f g : ascii -> bool) (l : list ascii) :
  (forall c, c ∈ l -> f c = true -> g c = true) ->
  count_chars f l <= count_chars g l.
Proof.
  induction l as [|c l IH]; intros H; [done|].
  rewrite !count_chars_cons.
  assert (count_chars f l <= count_chars g l)
    by (apply IH; intros; apply H; [right|]; done).
  specialize (H c ltac:(left) ).
  destruct (f c), (g c); try lia; specialize (H eq_refl); discriminate.
Qed.

Lemma count_chars_eq_pointwise (f g : ascii -> bool) (l : list ascii) :
  (forall c, c ∈ l -> f c = true -> g c = true) ->
  count_chars f l = count_chars g l ->
  forall c, c ∈ l -> f c = g c.
Proof.
  induction l as [|c l IH]; intros H Heq c' Hc'; [by apply elem_of_nil in Hc'|].
  rewrite !count_chars_cons in Heq.
  assert (count_chars f l <= count_chars g l)
    by (apply count_chars_le; intros; apply H; [right|]; done).
  pose proof (H c ltac:(left)) as Hc.
  apply elem_of_cons in Hc' as [->|Hin].
  - destruct (f c), (g c); try done; try lia; specialize (Hc eq_refl); discriminate.
  - apply IH; try done.
    + intros; apply H; [right|]; done.
    + destruct (f c), (g c); try lia; specialize (Hc eq_refl); discriminate.
Qed.

Lemma count_chars_pos (f : ascii -> bool) (l : list ascii) :
  0 < count_chars f l <-> exists n c, l !! n = Some c /\ f c = true.
Proof.
  induction l as [|c l IH].
  - split; [unfold count_chars; simpl; lia|intros (n & c & H & _); done].
  - rewrite count_chars_cons. split.
    + intros Hpos. destruct (f c) eqn:Hc.
      * exists 0%nat, c. done.
      * apply IH in Hpos as (n & c' & Hn & Hc'). exists (S n), c'. done.
    + intros (n & c' & Hn & Hc'). destruct n as [|n]; simpl in Hn.
      * injection Hn as ->. rewrite Hc'. pose proof (count_chars_range f l). lia.
      * assert (0 < count_chars f l) by (apply IH; eauto).
        destruct (f c); lia.
Qed.

Section ParseLevelCounts.
Variable context : context_t.
Hypothesis Hok : context_ok context.
Variable problem : problem_t.
Variable level_str : string.

Let st := parse_level context problem level_str.
Let ts := parsed_tiles context level_str.

Lemma parsed_tiles_lookup (n : Z) :
  0 <= n < interior_size context ->
  ts !! Z.to_nat n = tiles level_str !! Z.to_nat n.
Proof using Type.
  intros Hn. unfold ts, parsed_tiles. apply lookup_take_lt. lia.
Qed.

Lemma parsed_tiles_length : Z.of_nat (length ts) <= interior_size context.
Proof using Hok.
  unfold ts, parsed_tiles. rewrite length_take.
  destruct Hok as [Hw Hh _ _]. unfold interior_size. nia.
Qed.

Lemma interior_size_range : 0 <= interior_size context <= 64009.
Proof using Hok. destruct Hok as [Hw Hh _ _]. unfold interior_size. nia. Qed.

Lemma parse_level_counts :
  p_goal_count st = count_chars is_goal_char ts
  /\ p_crate_count st = count_chars is_crate_char ts
  /\ p_player_count st = count_chars is_player_char ts.
Proof using Hok.
  pose proof (parse_level_content context Hok problem level_str) as Hc.
  cbv zeta in Hc. unfold content in Hc. fold st in Hc.
  injection Hc as _ _ _ _ Hg Hcr Hp.
  set (init := {| p_walls := bitset_ones (bitset_size context) |}) in *.
  set (placed := combine _ _) in *.
  destruct (fold_place_counts placed init) as (Eg & Ec & Ep).
  destruct (fold_place_count_ranges placed init) as (Rg & Rc & Rp);
    [simpl; lia..|].
  assert (map snd placed = ts) as Hts.
  { unfold placed. rewrite map_snd_combine, interior_positions_length by done.
    reflexivity. }
  rewrite Hts in *. simpl in Eg, Ec, Ep.
  pose proof parsed_tiles_length. pose proof interior_size_range.
  pose proof (count_chars_range is_goal_char ts).
  pose proof (count_chars_range is_crate_char ts).
  pose proof (count_chars_range is_player_char ts).
  rewrite (wrap16_small (p_goal_count _)) in Eg by done.
  rewrite (wrap16_small (p_crate_count _)) in Ec by done.
  rewrite (wrap16_small (p_player_count _)) in Ep by done.
  rewrite wrap16_small in Eg, Ec, Ep by lia.
  rewrite Hg, Hcr, Hp. done.
Qed.

(** The player stands where the last player tile is. *)
Lemma parse_level_player :
  0 < count_chars is_player_char ts ->
  exists n c, 0 <= n < interior_size context
              /\ ts !! Z.to_nat n = Some c /\ is_player_char c = true
              /\ p_player st = cell_position context n.
Proof using Hok.
  intros Hpos.
  pose proof (parse_level_content context Hok problem level_str) as Hc.
  cbv zeta in Hc. unfold content in Hc. fold st in Hc.
  injection Hc as _ _ _ Hpl _ _ _.
  set (init := {| p_walls := bitset_ones (bitset_size context) |}) in *.
  set (placed := combine _ _) in *.
  assert (map snd placed = ts) as Hts.
  { unfold placed. rewrite map_snd_combine, interior_positions_length by done.
    reflexivity. }
  destruct (fold_place_player placed init) as [[Hnone _]|(n & pos & c & Hn & Hc & Hp)].
  - exfalso. apply count_chars_pos in Hpos as (n & c & Hn & Hc).
    rewrite <- Hts in Hn. rewrite list_lookup_fmap in Hn.
    destruct (placed !! n) as [[pos c']|] eqn:Hpn; [|done].
    simpl in Hn. injection Hn as ->.
    assert (existsb (fun pc : Z * ascii => is_player_char (snd pc)) placed = true);
      [|congruence].
    apply existsb_exists. exists (pos, c). split; [|done].
    apply list_elem_of_In. eapply list_elem_of_lookup_2. done.
  - unfold placed in Hn. apply combine_lookup in Hn as [Hn1 Hn2].
    pose proof (lookup_lt_Some _ _ _ Hn1) as Hlt.
    rewrite interior_positions_length in Hlt by done.
    rewrite <- (Nat2Z.id n), interior_positions_lookup in Hn1 by (done || lia).
    injection Hn1 as <-.
    exists (Z.of_nat n), c. rewrite Nat2Z.id.
    split; [lia|]. split; [|split; [done|congruence]].
    unfold ts, parsed_tiles. rewrite lookup_take_lt by lia. done.
Qed.
End ParseLevelCounts.

(** ** check_reachability *)

Lemma filter_iff_in (P Q : Z -> Prop) `{!forall p, Decision (P p)}
    `{!forall p, Decision (Q p)} (l : list Z) :
  (forall p, p ∈ l -> (Q p <-> P p)) -> filter Q l = filter P l.
Proof.
  induction l as [|a l IH]; intros Hall; [done|].
  rewrite !filter_cons.
  assert (filter Q l = filter P l) as ->
    by (apply IH; intros; apply Hall; right; done).
  pose proof (Hall a ltac:(left)) as Ha.
  destruct (decide (Q a)), (decide (P a)); tauto || done.
Qed.

Lemma filter_mark_length (P Q : Z -> Prop) `{!forall p, Decision (P p)}
    `{!forall p, Decision (Q p)} (l : list Z) (c : Z) :
  NoDup l -> c ∈ l -> P c ->
  (forall p, p ∈ l -> (Q p <-> P p /\ p <> c)) ->
  S (length (filter Q l)) = length (filter P l).
Proof.
  intros Hnd Hc HPc HQ. induction l as [|a l IH]; [by apply elem_of_nil in Hc|].
  apply NoDup_cons in Hnd as [Ha Hnd].
  rewrite !filter_cons.
  destruct (decide (a = c)) as [->|Hne].
  - rewrite (decide_True (P:=P c)) by done.
    rewrite (decide_False (P:=Q c)) by (rewrite HQ; [tauto|left]).
    simpl. f_equal. f_equal. apply filter_iff_in.
    intros p Hp. rewrite HQ by (right; done). split; [tauto|]. intros HP. split; [done|].
    intros ->. done.
  - apply elem_of_cons in Hc as [->|Hc]; [done|].
    specialize (IH Hnd Hc ltac:(intros; apply HQ; right; done)).
    pose proof (HQ a ltac:(left)) as HQa'.
    destruct (decide (Q a)) as [HQa|HQa], (decide (P a)) as [HPa|HPa]; simpl.
    + f_equal. done.
    + tauto.
    + exfalso. apply HQa, HQa'. done.
    + done.
Qed.

Lemma push_neighbours_spec (walls reach : list Z) (c : Z) (dirs stack : list Z) :
  exists ns,
    push_neighbours walls reach c dirs stack = ns ++ stack
    /\ (length ns <= length dirs)%nat
    /\ (forall n, n ∈ ns <->
                  exists d, d ∈ dirs /\ n = wrap16 (c + d)
                            /\ get_bit walls n = false /\ get_bit reach n = false).
Proof.
  revert stack. induction dirs as [|d dirs IH]; intros stack; simpl.
  - exists []. split; [done|]. split; [done|]. intros n. split.
    + intros Hn. by apply elem_of_nil in Hn.
    + intros (d & Hd & _). by apply elem_of_nil in Hd.
  - destruct (get_bit walls (wrap16 (c + d)) || get_bit reach (wrap16 (c + d))) eqn:Hskip.
    + destruct (IH stack) as (ns & -> & Hlen & Hns).
      exists ns. split; [done|]. split; [lia|]. intros n. rewrite Hns. split.
      * intros (d' & Hd' & Hrest). exists d'. split; [right; done|done].
      * intros (d' & Hd' & -> & Hw & Hr).
        apply elem_of_cons in Hd' as [->|Hd'].
        -- rewrite Hw, Hr in Hskip. discriminate.
        -- exists d'. done.
    + apply orb_false_iff in Hskip as [Hw Hr].
      destruct (IH (wrap16 (c + d) :: stack)) as (ns & -> & Hlen & Hns).
      exists (ns ++ [wrap16 (c + d)]). split; [by rewrite <- app_assoc|].
      split; [rewrite length_app; simpl; lia|].
      intros n. rewrite elem_of_app, Hns, list_elem_of_singleton. split.
      * intros [(d' & Hd' & Hrest)| ->].
        -- exists d'. split; [right; done|done].
        -- exists d. split; [left|done].
      * intros (d' & Hd' & -> & Hw' & Hr').
        apply elem_of_cons in Hd' as [->|Hd'].
        -- right. done.
        -- left. exists d'. done.
Qed.

Section Flood.
Variable context : context_t.
Hypothesis Hok : context_ok context.
Variable walls : list Z.
Hypothesis Hborder : forall q, 0 <= q < 64 * bitset_size context ->
                               ~ interior context q -> get_bit walls q = true.
Variable start : Z.
Hypothesis Hstart_interior : interior context start.

Lemma interior_dec (q : Z) : interior context q \/ ~ interior context q.
Proof using Type.
  destruct (decide (1 <= q mod width context <= width context - 2
                    /\ 1 <= q / width context <= height context - 2
                    /\ 0 < width context)) as [(Hx & Hy & Hw)|Hn].
  - left. exists (q mod width context), (q / width context).
    split; [done|]. split; [done|].
    rewrite Z.mul_comm. apply Z.div_mod. lia.
  - right. intros (x & y & Hx & Hy & ->). apply Hn.
    assert (0 < width context) by lia.
    rewrite Z.add_comm, Z.mod_add, Z.div_add by lia.
    rewrite Z.mod_small, Z.div_small by lia. lia.
Qed.

Lemma interior_neighbour (c d : Z) :
  interior context c -> d ∈ directions context ->
  0 <= c + d < area context.
Proof using Hok.
  destruct Hok as [Hw Hh Ha Hb]. intros (x & y & Hx & Hy & ->) Hd.
  unfold directions in Hd. rewrite Ha.
  repeat (apply elem_of_cons in Hd as [->|Hd]); [nia..|].
  by apply elem_of_nil in Hd.
Qed.

Lemma nonwall_interior (q : Z) :
  0 <= q < area context -> get_bit walls q = false -> interior context q.
Proof using Hok Hborder.
  intros Hq Hw. destruct (interior_dec q) as [|Hn]; [done|].
  rewrite Hborder in Hw; [discriminate| |done].
  pose proof (area_bitset context Hok). lia.
Qed.

Lemma step_interior (c d : Z) :
  interior context c -> d ∈ directions context ->
  get_bit walls (wrap16 (c + d)) = false ->
  wrap16 (c + d) = c + d /\ interior context (c + d).
Proof using Hok Hborder.
  intros Hc Hd Hw. pose proof (interior_neighbour c d Hc Hd) as Hr.
  pose proof (area_range context Hok).
  rewrite wrap16_small in * by lia. split; [done|].
  apply nonwall_interior; done.
Qed.

Lemma interior_in_bitset (reach : list Z) (c : Z) :
  length reach = Z.to_nat (bitset_size context) -> interior context c ->
  in_bitset reach c.
Proof using Hok.
  intros Hlen Hc. pose proof (interior_range context Hok c Hc).
  pose proof (area_bitset context Hok). pose proof (bitset_size_nonneg context Hok).
  unfold in_bitset. rewrite Hlen. lia.
Qed.

Lemma flood_step (reach : list Z) (c : Z) (stack : list Z) :
  flood_inv context walls start reach (c :: stack) ->
  flood_inv context walls start (set_bit reach c)
    (push_neighbours walls (set_bit reach c) c (directions context) stack).
Proof using Hok Hborder Hstart_interior.
  intros [Hlen Hst Hsound Hstart Hclosed Hlifo].
  destruct (Hst c ltac:(left)) as [Hci Hcr].
  pose proof (interior_in_bitset reach c Hlen Hci) as Hcin.
  pose proof (interior_range context Hok c Hci) as Hcrange.
  assert (forall p, 0 <= p ->
            get_bit (set_bit reach c) p = (c =? p) || get_bit reach p) as Hget
    by (intros; apply get_set_bit; done).
  destruct (push_neighbours_spec walls (set_bit reach c) c (directions context) stack)
    as (ns & -> & _ & Hns).
  assert (forall n, n ∈ ns -> interior context n /\ reachable context walls start n
                              /\ get_bit (set_bit reach c) n = false) as Hns1.
  { intros n Hn. apply Hns in Hn as (d & Hd & -> & Hw & Hr).
    destruct (step_interior c d Hci Hd Hw) as [Heq Hi].
    split; [rewrite Heq; done|]. split; [|done].
    apply reachable_step; done. }
  split.
  - rewrite length_set_bit. done.
  - intros x Hx. apply elem_of_app in Hx as [Hx|Hx].
    + destruct (Hns1 x Hx) as (? & ? & _). done.
    + apply Hst. right. done.
  - intros p Hp Hb. rewrite Hget in Hb by done.
    apply orb_true_iff in Hb as [Hb|Hb].
    + apply Z.eqb_eq in Hb. subst p. done.
    + apply Hsound; done.
  - pose proof (interior_range context Hok start Hstart_interior) as Hs0.
    rewrite Hget by lia.
    destruct Hstart as [H|H].
    + left. rewrite H. apply orb_true_r.
    + apply elem_of_cons in H as [->|H].
      * left. rewrite Z.eqb_refl. done.
      * right. apply elem_of_app. right. done.
  - intros x d Hx Hb Hd Hw.
    rewrite Hget in Hb by done. apply orb_true_iff in Hb as [Hb|Hb].
    + apply Z.eqb_eq in Hb. subst x.
      destruct (get_bit (set_bit reach c) (wrap16 (c + d))) eqn:Hr; [left; done|].
      right. apply elem_of_app. left. apply Hns. exists d. done.
    + destruct (Hclosed x d Hx Hb Hd Hw) as [Hm|Hin].
      * left. destruct (Hsound _ ltac:(apply wrap16_range) Hm) as [Hi _].
        rewrite Hget by apply wrap16_range. rewrite Hm. apply orb_true_r.
      * apply elem_of_cons in Hin as [Heq|Hin].
        -- left. rewrite Hget by apply wrap16_range. rewrite <- Heq, Z.eqb_refl. done.
        -- right. apply elem_of_app. right. done.
  - intros s1 y s2 Hsplit Hy d Hd Hw.
    assert (0 <= y) as Hy0.
    { assert (y ∈ ns ++ stack) as Hin
        by (rewrite Hsplit; apply elem_of_app; right; left).
      apply elem_of_app in Hin as [Hin|Hin].
      - destruct (Hns1 y Hin) as (Hi & _). apply (interior_range context Hok) in Hi. lia.
      - destruct (Hst y ltac:(right; done)) as (Hi & _).
        apply (interior_range context Hok) in Hi. lia. }
    assert (get_bit reach y = true \/ y = c) as Hy'.
    { rewrite Hget in Hy by done. apply orb_true_iff in Hy as [Hy|Hy]; [|left; done].
      apply Z.eqb_eq in Hy. right. done. }
    assert (forall above : list Z,
              (forall n, n ∈ ns -> n ∈ above) ->
              (get_bit reach y = true ->
               get_bit reach (wrap16 (y + d)) = true \/ wrap16 (y + d) = c
               \/ wrap16 (y + d) ∈ above) ->
              get_bit (set_bit reach c) (wrap16 (y + d)) = true
              \/ wrap16 (y + d) ∈ above) as Hcase.
    { intros above Hsub Hold.
      destruct (get_bit (set_bit reach c) (wrap16 (y + d))) eqn:Hr; [left; done|].
      right. rewrite Hget in Hr by apply wrap16_range.
      apply orb_false_iff in Hr as [Hne Hrm]. apply Z.eqb_neq in Hne.
      destruct Hy' as [Hym| ->].
      - destruct (Hold Hym) as [Hm|[Heq|Hin]]; [congruence|congruence|done].
      - apply Hsub, Hns. exists d. rewrite Hget by apply wrap16_range.
        rewrite Hrm. destruct (Z.eqb_spec c (wrap16 (c + d))); done. }
    apply app_eq_app in Hsplit as [l [[Hnsl Hs2]|[Hs1 Hstack]]].
    + destruct l as [|z l]; simpl in Hs2.
      * rewrite app_nil_r in Hnsl. subst s1.
        apply Hcase; [done|]. intros Hym.
        destruct (Hlifo [c] y s2 ltac:(rewrite <- Hs2; done) Hym d Hd Hw) as [Hm|Hin].
        -- left. done.
        -- apply list_elem_of_singleton in Hin. right. left. done.
      * injection Hs2 as Hyz Hs2. subst z.
        assert (y ∈ ns) as Hin by (rewrite Hnsl; apply elem_of_app; right; left).
        destruct (Hns1 y Hin) as (_ & _ & Hun). congruence.
    + subst s1. apply Hcase; [intros n Hn; apply elem_of_app; left; done|].
      intros Hym.
      destruct (Hlifo (c :: l) y s2 ltac:(rewrite Hstack; done) Hym d Hd Hw) as [Hm|Hin].
      * left. done.
      * apply elem_of_cons in Hin as [Heq|Hin]; [right; left; done|].
        right. right. apply elem_of_app. right. done.
Qed.

Lemma NoDup_indices (size : Z) : NoDup (indices size).
Proof using Type.
  unfold indices. apply (NoDup_fmap_2 Z.of_nat). apply NoDup_seq.
Qed.

Lemma flood_measure_step (reach : list Z) (c : Z) (stack : list Z) :
  flood_inv context walls start reach (c :: stack) ->
  (5 * unmarked context (set_bit reach c)
   + length (push_neighbours walls (set_bit reach c) c (directions context) stack)
   < 5 * unmarked context reach + length (c :: stack))%nat.
Proof using Hok Hborder.
  intros [Hlen Hst Hsound Hstart Hclosed Hlifo].
  destruct (Hst c ltac:(left)) as [Hci Hcr].
  pose proof (interior_in_bitset reach c Hlen Hci) as Hcin.
  pose proof (interior_range context Hok c Hci) as Hcrange.
  assert (forall p, 0 <= p ->
            get_bit (set_bit reach c) p = (c =? p) || get_bit reach p) as Hget
    by (intros; apply get_set_bit; done).
  destruct (push_neighbours_spec walls (set_bit reach c) c (directions context) stack)
    as (ns & -> & Hnslen & Hns).
  rewrite length_app. simpl length in *.
  destruct (get_bit reach c) eqn:Hc.
  - assert (ns = []) as ->.
    { destruct ns as [|n ns]; [done|]. exfalso.
      destruct (proj1 (Hns n) ltac:(left)) as (d & Hd & -> & Hw & Hr).
      destruct (Hlifo [] c stack eq_refl Hc d Hd Hw) as [Hm|Hin].
      - rewrite Hget, Hm, orb_true_r in Hr by apply wrap16_range. discriminate.
      - by apply elem_of_nil in Hin. }
    assert (unmarked context (set_bit reach c) = unmarked context reach) as ->.
    { unfold unmarked. f_equal. apply filter_iff_in. intros p Hp.
      apply elem_of_indices in Hp. rewrite Hget by lia.
      destruct (Z.eqb_spec c p) as [->|]; [rewrite Hc|]; done. }
    simpl. lia.
  - assert (S (unmarked context (set_bit reach c)) = unmarked context reach) as <-.
    { unfold unmarked. apply (filter_mark_length _ _ _ c).
      - apply NoDup_indices.
      - apply elem_of_indices. done.
      - done.
      - intros p Hp. apply elem_of_indices in Hp.
        rewrite Hget by lia.
        destruct (Z.eqb_spec c p) as [->|Hne]; simpl.
        + split; [done|]. intros [_ H]. done.
        + split; [intros H; split; [done|congruence]|tauto]. }
    unfold directions in Hnslen. simpl in Hnslen. lia.
Qed.

Lemma flood_terminates (fuel : nat) (reach stack : list Z) :
  flood_inv context walls start reach stack ->
  (5 * unmarked context reach + length stack <= fuel)%nat ->
  exists reach', flood fuel (directions context) walls reach stack = Some reach'
                 /\ flood_inv context walls start reach' [].
Proof using Hok Hborder Hstart_interior.
  revert reach stack. induction fuel as [|fuel IH]; intros reach stack Hinv Hfuel.
  - destruct stack as [|c stack]; [|simpl in Hfuel; lia].
    exists reach. done.
  - destruct stack as [|c stack]; [exists reach; done|].
    cbn [flood]. apply IH.
    + apply flood_step. done.
    + pose proof (flood_measure_step reach c stack Hinv). lia.
Qed.

Lemma flood_inv_init :
  flood_inv context walls start (bitset_zero (bitset_size context)) [start].
Proof using Hstart_interior.
  split.
  - apply length_bitset_zero.
  - intros c Hc. apply list_elem_of_singleton in Hc as ->.
    split; [done|constructor].
  - intros p _ Hp. rewrite get_bit_zero in Hp. discriminate.
  - right. left.
  - intros x d _ Hx. rewrite get_bit_zero in Hx. discriminate.
  - intros s1 y s2 _ Hy. rewrite get_bit_zero in Hy. discriminate.
Qed.

Lemma reachable_nonneg (p : Z) : reachable context walls start p -> 0 <= p.
Proof using Hok Hstart_interior.
  intros [|c d _ _ _].
  - apply (interior_range context Hok) in Hstart_interior. lia.
  - apply wrap16_range.
Qed.

Lemma flood_inv_final (reach : list Z) (p : Z) :
  flood_inv context walls start reach [] -> 0 <= p ->
  (get_bit reach p = true <-> reachable context walls start p).
Proof using Hok Hstart_interior.
  intros [Hlen Hst Hsound Hstart Hclosed Hlifo] Hp. split.
  - intros Hb. apply Hsound; done.
  - intros Hr. clear Hp. induction Hr as [|c d Hr IH Hd Hw].
    + destruct Hstart as [H|H]; [done|by apply elem_of_nil in H].
    + pose proof (reachable_nonneg c Hr) as Hc0.
      destruct (Hclosed c d) as [H|H]; try done.
      by apply elem_of_nil in H.
Qed.

Lemma unmarked_le (reach : list Z) : (unmarked context reach <= Z.to_nat (area context))%nat.
Proof using Type.
  unfold unmarked. etrans; [apply length_filter|]. rewrite length_indices. done.
Qed.
End Flood.

(** The flood fill ends within its fuel, and [reach] holds the reachable
    cells. *)
Lemma flood_reachable (context : context_t) (walls : list Z) (player : Z) :
  context_ok context ->
  (forall q, 0 <= q < 64 * bitset_size context ->
             ~ interior context q -> get_bit walls q = true) ->
  interior context player ->
  exists reach,
    flood (flood_fuel context) (directions context) walls
          (bitset_zero (bitset_size context)) [player] = Some reach
    /\ length reach = Z.to_nat (bitset_size context)
    /\ forall p, 0 <= p ->
         (get_bit reach p = true <-> reachable context walls player p).
Proof.
  intros Hok Hborder Hplayer.
  destruct (flood_terminates context Hok walls Hborder player Hplayer
              (flood_fuel context) (bitset_zero (bitset_size context)) [player])
    as (reach & Hflood & Hinv).
  - apply flood_inv_init. done.
  - pose proof (unmarked_le context (bitset_zero (bitset_size context))).
    pose proof (area_range context Hok).
    unfold flood_fuel. simpl length. lia.
  - exists reach. split; [done|]. split; [apply Hinv|].
    intros p Hp. apply flood_inv_final; done.
Qed.

(** [check_reachability] returns, and what it returns tells whether the
    flood fill from the player covers the cells with a crate or a goal but
    not both. *)
Lemma check_reachability_spec (context : context_t)
    (crates goals walls : list Z) (player : Z) :
  context_ok context ->
  level_ok context walls goals crates ->
  interior context player ->
  exists result,
    check_reachability context crates goals walls player = Some result
    /\ (result = true <->
        forall p, 0 <= p ->
          xorb (get_bit crates p) (get_bit goals p) = true ->
          reachable context walls player p).
Proof.
  intros Hok Hlv Hplayer.
  destruct (flood_reachable context walls player Hok (lv_border _ _ _ _ Hlv) Hplayer)
    as (reach & Hflood & Hlen & Hreach).
  unfold check_reachability. rewrite Hflood. simpl.
  eexists. split; [reflexivity|].
  pose proof (bitset_size_nonneg context Hok) as Hb0.
  rewrite bitset_covers_all_bits
    by (apply bitset_wf_xor; [apply (lv_crates_wf _ _ _ _ Hlv)|apply (lv_goals_wf _ _ _ _ Hlv)]).
  split.
  - intros H p Hp Hx. apply Hreach; [done|].
    destruct (Z.lt_ge_cases p (64 * bitset_size context)) as [Hlt|Hge].
    + apply H; [lia|]. rewrite get_bit_xor by lia. done.
    + exfalso.
      rewrite (get_bit_out crates), (get_bit_out goals) in Hx; try done.
      * unfold in_bitset. rewrite (lv_goals_length _ _ _ _ Hlv). lia.
      * unfold in_bitset. rewrite (lv_crates_length _ _ _ _ Hlv). lia.
  - intros H p Hp Hx. apply Hreach; [lia|]. apply H; [lia|].
    rewrite get_bit_xor in Hx by lia. done.
Qed.

(** C7. [check_reachability] fills the set of cells reachable from the
    player across cells without a wall, one step in one of the four
    directions at a time, and returns true if and only if every position
    that holds a crate or a goal but not both is in that set. *)
Theorem check_reachability_correct (context : context_t)
    (crates goals walls : list Z) (player : Z) :
  context_ok context ->
  level_ok context walls goals crates ->
  interior context player ->
  exists result,
    check_reachability context crates goals walls player = Some result
    /\ (result = true <->
        forall p, 0 <= p ->
          xorb (get_bit crates p) (get_bit goals p) = true ->
          reachable context walls player p).
Proof.
  intros Hok Hlv Hplayer. apply check_reachability_spec; done.
Qed.

(** ** generate_deadlock_map *)

Lemma cost_at_insert (heuristics : list Z) (n p v : Z) :
  0 <= n -> 0 <= p -> (Z.to_nat n < length heuristics)%nat ->
  cost_at (<[Z.to_nat n := v]> heuristics) p = if n =? p then v else cost_at heuristics p.
Proof.
  intros Hn Hp Hlen. unfold cost_at.
  destruct (Z.eqb_spec n p) as [->|Hne].
  - rewrite list_lookup_insert_eq by done. reflexivity.
  - rewrite list_lookup_insert_ne by lia. reflexivity.
Qed.

Lemma cost_at_replicate (n : nat) (v p : Z) :
  0 <= p -> (Z.to_nat p < n)%nat -> cost_at (replicate n v) p = v.
Proof.
  intros Hp Hlt. unfold cost_at. rewrite lookup_replicate_2 by done. reflexivity.
Qed.

Lemma sumZ_update_lt (f f' : Z -> Z) (l : list Z) (c : Z) :
  NoDup l -> c ∈ l ->
  (forall p, p ∈ l -> p <> c -> f' p = f p) -> f' c < f c ->
  sumZ (map f' l) < sumZ (map f l).
Proof.
  intros Hnd Hc Hsame Hlt. induction l as [|a l IH]; [by apply elem_of_nil in Hc|].
  apply NoDup_cons in Hnd as [Ha Hnd]. simpl.
  destruct (decide (a = c)) as [->|Hne].
  - assert (map f' l = map f l) as ->; [|lia].
    apply map_ext_in. intros p Hp. apply list_elem_of_In in Hp.
    apply Hsame; [right; done|]. intros ->. done.
  - apply elem_of_cons in Hc as [->|Hc]; [done|].
    rewrite (Hsame a) by (done || left).
    assert (sumZ (map f' l) < sumZ (map f l)); [|lia].
    apply IH; try done. intros p Hp. apply Hsame. right. done.
Qed.

Lemma sumZ_bounds (f : Z -> Z) (l : list Z) (lo hi : Z) :
  (forall p, p ∈ l -> lo <= f p <= hi) ->
  lo * Z.of_nat (length l) <= sumZ (map f l) <= hi * Z.of_nat (length l).
Proof.
  induction l as [|a l IH]; intros H; simpl; [lia|].
  specialize (IH ltac:(intros; apply H; right; done)).
  pose proof (H a ltac:(left)). lia.
Qed.

Section Walks.
Variable context : context_t.
Variable walls : list Z.

Lemma walk_head (p g : Z) (l : list Z) :
  walk context walls p l g -> l !! 0%nat = Some p.
Proof using Type. intros [|]; reflexivity. Qed.

Lemma walk_start (p g : Z) (l : list Z) :
  walk context walls p l g -> 0 <= p < area context /\ get_bit walls p = false.
Proof using Type.
  intros [g' Hr Hw|p' q g' l' (e & _ & _ & Hp & _ & _ & Hw & _) _]; done.
Qed.

Lemma walk_elems (p g : Z) (l : list Z) :
  walk context walls p l g -> forall c, c ∈ l -> 0 <= c < area context.
Proof using Type.
  induction 1 as [g Hr Hw|p q g l Hpush Hwalk IH]; intros c Hc.
  - apply list_elem_of_singleton in Hc as ->. done.
  - apply elem_of_cons in Hc as [->|Hc]; [|apply IH; done].
    destruct Hpush as (e & _ & _ & Hp & _). done.
Qed.

Lemma walk_length_bound (p g : Z) (l : list Z) :
  walk context walls p l g -> NoDup l ->
  Z.of_nat (length l) <= area context.
Proof using Type.
  intros Hwalk Hnd.
  assert (l ⊆+ indices (area context)) as Hsub.
  { apply NoDup_submseteq; [done|]. intros c Hc.
    apply elem_of_indices. eapply walk_elems; done. }
  apply submseteq_length in Hsub. rewrite length_indices in Hsub.
  pose proof (walk_start p g l Hwalk). lia.
Qed.

Lemma walk_crate_path (p g : Z) (l : list Z) :
  walk context walls p l g ->
  crate_path context walls p (length l - 1) g.
Proof using Type.
  induction 1 as [g Hr Hw|p q g l Hpush Hwalk IH].
  - constructor; done.
  - simpl. rewrite Nat.sub_0_r.
    assert (length l = S (length l - 1)) as -> by (destruct Hwalk; simpl; lia).
    econstructor; done.
Qed.

Lemma crate_path_walk (p g : Z) (k : nat) :
  crate_path context walls p k g ->
  exists l, walk context walls p l g /\ length l = S k.
Proof using Type.
  induction 1 as [g Hr Hw|p q g k Hpush Hpath (l & Hwalk & Hlen)].
  - exists [g]. split; [constructor; done|done].
  - exists (p :: l). split; [econstructor; done|simpl; lia].
Qed.
End Walks.

Section DeadlockMap.
Variable context : context_t.
Hypothesis Hok : context_ok context.
Variable walls goals : list Z.
Hypothesis Hborder : forall q, 0 <= q < 64 * bitset_size context ->
                               ~ interior context q -> get_bit walls q = true.
Hypothesis Hgoals : forall q, 0 <= q -> get_bit goals q = true ->
                              interior context q /\ get_bit walls q = false.

Lemma directions_opp (d : Z) : d ∈ directions context -> - d ∈ directions context.
Proof using Type.
  unfold directions. intros Hd.
  repeat (apply elem_of_cons in Hd as [->|Hd]).
  - right. left.
  - left.
  - right. right. right. rewrite Z.opp_involutive || idtac. left.
  - right. right. rewrite Z.opp_involutive. left.
  - by apply elem_of_nil in Hd.
Qed.

Lemma direction_nonzero (d : Z) : d ∈ directions context -> d <> 0.
Proof using Hok.
  destruct Hok as [Hw _ _ _]. unfold directions. intros Hd.
  repeat (apply elem_of_cons in Hd as [->|Hd]); try lia.
  by apply elem_of_nil in Hd.
Qed.

(** The cell a reverse push reaches from [c], when no wall is in the way. *)
Lemma pull_geometry (c d : Z) :
  0 <= c < area context -> get_bit walls c = false ->
  d ∈ directions context ->
  get_bit walls (wrap16 (c + d)) = false ->
  get_bit walls (wrap16 (wrap16 (c + d) + d)) = false ->
  wrap16 (c + d) = c + d /\ wrap16 (wrap16 (c + d) + d) = c + d + d
  /\ 0 <= c + d < area context /\ 0 <= c + d + d < area context
  /\ crate_push context walls (c + d) c.
Proof using Hok Hborder.
  intros Hc Hwc Hd Hwn Hwb.
  pose proof (nonwall_interior context Hok walls Hborder c Hc Hwc) as Hci.
  destruct (step_interior context Hok walls Hborder c d Hci Hd Hwn) as [Heq Hni].
  rewrite Heq in *.
  destruct (step_interior context Hok walls Hborder (c + d) d Hni Hd Hwb) as [Heq2 Hbi].
  rewrite Heq2 in *.
  pose proof (interior_range context Hok _ Hni).
  pose proof (interior_range context Hok _ Hbi).
  repeat split; try done; try lia.
  exists (- d). split; [apply directions_opp; done|].
  replace (c + d - - d) with (c + d + d) by lia.
  repeat split; try done; lia.
Qed.

Lemma dmap_inv_skip (seeded : list Z) (c d : Z) (rest : list Z)
    (deadlocks heuristics queue : list Z) :
  dmap_inv context walls goals seeded (Some (c, d :: rest)) deadlocks heuristics queue ->
  (get_bit walls (wrap16 (c + d)) = false ->
   get_bit walls (wrap16 (wrap16 (c + d) + d)) = false ->
   get_bit deadlocks (wrap16 (c + d)) = false
   /\ cost_at heuristics (wrap16 (c + d)) <= cost_at heuristics c + 1) ->
  dmap_inv context walls goals seeded (Some (c, rest)) deadlocks heuristics queue.
Proof using Type.
  intros [HlD HlH Hq Hpend Hdead Hreal Hclosed Hseed] Hskip.
  split; try done.
  - intros c' todo [= <- <-]. eapply Hpend. done.
  - intros x d' Hx HDx Hxq Hex Hd' Hwn Hwb.
    destruct (decide (x = c /\ d' = d)) as [[-> ->]|Hne].
    + apply Hskip; done.
    + apply Hclosed; try done.
      intros todo [= -> <-]. intros Hin.
      apply elem_of_cons in Hin as [->|Hin]; [tauto|].
      eapply Hex; done.
Qed.

Lemma dmap_inv_update (seeded : list Z) (c d : Z) (rest : list Z)
    (deadlocks heuristics queue : list Z) :
  dmap_inv context walls goals seeded (Some (c, d :: rest)) deadlocks heuristics queue ->
  d ∈ directions context ->
  get_bit walls (wrap16 (c + d)) = false ->
  get_bit walls (wrap16 (wrap16 (c + d) + d)) = false ->
  (get_bit deadlocks (wrap16 (c + d)) = true
   \/ cost_at heuristics c + 1 < cost_at heuristics (wrap16 (c + d))) ->
  dmap_inv context walls goals seeded (Some (c, rest))
           (clear_bit deadlocks (wrap16 (c + d)))
           (<[Z.to_nat (wrap16 (c + d)) := cost_at heuristics c + 1]> heuristics)
           (queue ++ [wrap16 (c + d)])
  /\ potential context (clear_bit deadlocks (wrap16 (c + d)))
       (<[Z.to_nat (wrap16 (c + d)) := cost_at heuristics c + 1]> heuristics)
     < potential context deadlocks heuristics.
Proof using Hok Hborder Hgoals.
  intros [HlD HlH Hq Hpend Hdead Hreal Hclosed Hseed] Hd Hwn Hwb Hupd.
  destruct (Hpend c (d :: rest) eq_refl) as [Hc HDc].
  destruct (Hreal c Hc HDc) as (lc & g & Hg & Hwalk & Hnd & Hlen & Hidx).
  destruct (walk_start context walls c g lc Hwalk) as [_ Hwc].
  destruct (pull_geometry c d Hc Hwc Hd Hwn Hwb) as (Hn & Hb & Hnr & Hbr & Hpush).
  rewrite Hn in *. clear Hn.
  set (cost := cost_at heuristics c + 1) in *.
  pose proof (walk_length_bound context walls c g lc Hwalk Hnd) as Hbound.
  pose proof (Hidx 0%nat c (walk_head context walls c g lc Hwalk)) as [_ Hc0].
  pose proof (area_range context Hok) as Harea.
  pose proof (area_bitset context Hok) as Hab.
  assert (1 <= cost <= area context) as Hcost by (unfold cost; lia).
  assert (c + d <> c) as Hnc by (pose proof (direction_nonzero d Hd); lia).
  assert (forall p, 0 <= p ->
            get_bit (clear_bit deadlocks (c + d)) p
            = negb (c + d =? p) && get_bit deadlocks p) as HgetD
    by (intros; apply get_clear_bit; lia).
  assert (forall p, 0 <= p ->
            cost_at (<[Z.to_nat (c + d) := cost]> heuristics) p
            = if c + d =? p then cost else cost_at heuristics p) as HgetH
    by (intros; apply cost_at_insert; lia).
  assert (forall p, 0 <= p < area context ->
            get_bit (clear_bit deadlocks (c + d)) p = false ->
            p <> c + d -> get_bit deadlocks p = false) as HDold.
  { intros p Hp HD Hne. rewrite HgetD in HD by lia.
    destruct (Z.eqb_spec (c + d) p); [congruence|done]. }
  assert (forall p, 0 <= p < area context -> get_bit deadlocks p = false ->
            cost_at (<[Z.to_nat (c + d) := cost]> heuristics) p
            <= cost_at heuristics p) as HHle.
  { intros p Hp HD. rewrite HgetH by lia.
    destruct (Z.eqb_spec (c + d) p) as [<-|]; [|lia].
    destruct Hupd as [Hu|Hu]; [congruence|lia]. }
  split.
  2:{ unfold potential. apply (sumZ_update_lt _ _ _ (c + d)).
      - apply NoDup_indices.
      - apply elem_of_indices. done.
      - intros p Hp Hne. apply elem_of_indices in Hp.
        unfold cell_potential. rewrite HgetD, HgetH by lia.
        destruct (Z.eqb_spec (c + d) p); [congruence|done].
      - unfold cell_potential. rewrite HgetD, HgetH, Z.eqb_refl by lia. simpl.
        destruct Hupd as [->|Hu]; [lia|].
        destruct (get_bit deadlocks (c + d)); lia. }
  split.
  - rewrite length_clear_bit. done.
  - rewrite length_insert. done.
  - intros x Hx. apply elem_of_app in Hx as [Hx|Hx].
    + destruct (Hq x Hx) as [Hxr HDx]. split; [done|].
      rewrite HgetD, HDx by lia. apply andb_false_r.
    + apply list_elem_of_singleton in Hx as ->. split; [done|].
      rewrite HgetD, Z.eqb_refl by lia. done.
  - intros x todo [= <- <-].
    split; [done|]. rewrite HgetD, HDc by lia. apply andb_false_r.
  - intros p Hp HD. rewrite HgetD in HD by lia.
    apply andb_true_iff in HD as [Hne HD]. apply negb_true_iff, Z.eqb_neq in Hne.
    rewrite HgetH by lia. destruct (Z.eqb_spec (c + d) p); [done|].
    apply Hdead; done.
  - intros p Hp HD. destruct (decide (p = c + d)) as [->|Hne].
    + exists ((c + d) :: lc), g. split; [done|].
      split; [econstructor; done|].
      assert (c + d ∉ lc) as Hnotin.
      { intros Hin. apply list_elem_of_lookup in Hin as [i Hi].
        destruct (Hidx i _ Hi) as [HDn Hbn].
        pose proof (lookup_lt_Some _ _ _ Hi).
        destruct Hupd as [Hu|Hu]; [congruence|]. unfold cost in Hu. lia. }
      split; [apply NoDup_cons; done|].
      rewrite HgetH, Z.eqb_refl by lia.
      split; [simpl length; unfold cost; lia|].
      intros i x Hi. destruct i as [|i]; simpl in Hi.
      * injection Hi as <-. rewrite HgetD, HgetH, !Z.eqb_refl by lia.
        split; [done|]. simpl length. unfold cost. lia.
      * destruct (Hidx i x Hi) as [HDx Hbx].
        assert (0 <= x < area context) as Hxr
          by (eapply walk_elems; [exact Hwalk|eapply list_elem_of_lookup_2; done]).
        assert (x <> c + d) as Hxn
          by (intros ->; apply Hnotin; eapply list_elem_of_lookup_2; done).
        rewrite HgetD, HgetH by lia.
        destruct (Z.eqb_spec (c + d) x); [congruence|].
        rewrite HDx. split; [done|]. simpl length. lia.
    + pose proof (HDold p Hp HD Hne) as HDp.
      destruct (Hreal p Hp HDp) as (l & g' & Hg' & Hwalk' & Hnd' & Hlen' & Hidx').
      exists l, g'. split; [done|]. split; [done|]. split; [done|].
      rewrite HgetH by lia. destruct (Z.eqb_spec (c + d) p); [congruence|].
      split; [done|].
      intros i x Hi. destruct (Hidx' i x Hi) as [HDx Hbx].
      assert (0 <= x < area context) as Hxr
        by (eapply walk_elems; [exact Hwalk'|eapply list_elem_of_lookup_2; done]).
      rewrite HgetD by lia. rewrite HDx, andb_false_r. split; [done|].
      pose proof (HHle x Hxr HDx). rewrite HgetH in * by lia.
      destruct (Z.eqb_spec (c + d) x); lia.
  - intros x d' Hx HDx Hxq Hex Hd' Hwn' Hwb'.
    assert (x <> c + d) as Hxn
      by (intros ->; apply Hxq, elem_of_app; right; left).
    pose proof (HDold x Hx HDx Hxn) as HDx'.
    assert (x ∉ queue) as Hxq' by (intros Hin; apply Hxq, elem_of_app; left; done).
    assert (get_bit walls x = false) as Hwx.
    { destruct (Hreal x Hx HDx') as (l & g' & _ & Hwalk' & _).
      apply (walk_start context walls x g' l Hwalk'). }
    destruct (pull_geometry x d' Hx Hwx Hd' Hwn' Hwb') as (Hn' & _ & Hnr' & _ & _).
    rewrite Hn' in *.
    destruct (decide (x = c /\ d' = d)) as [[-> ->]|Hne].
    + rewrite HgetD, HgetH, !Z.eqb_refl by lia. split; [done|].
      rewrite HgetH by lia. destruct (Z.eqb_spec (c + d) c); [lia|]. unfold cost. lia.
    + destruct (Hclosed x d' Hx HDx' Hxq') as [HDn' Hle']; try done.
      * intros todo [= -> <-] Hin.
        apply elem_of_cons in Hin as [->|Hin]; [tauto|].
        eapply Hex; done.
      * rewrite Hn'. done.
      * rewrite Hn'. done.
      * rewrite Hn' in *.
        rewrite HgetD by lia. rewrite HDn', andb_false_r. split; [done|].
        pose proof (HHle (x + d') Hnr' HDn').
        rewrite (HgetH x) by lia. destruct (Z.eqb_spec (c + d) x); [congruence|]. lia.
  - intros g' Hg0 Hg' Hgg'. destruct (Hseed g' Hg0 Hg' Hgg') as [HDg HHg].
    assert (0 <= g' < area context) as Hgr.
    { destruct (Hgoals g' Hg0 Hgg') as [Hi _].
      apply (interior_range context Hok). done. }
    rewrite HgetD, HgetH by lia. rewrite HDg, andb_false_r. split; [done|].
    destruct (Z.eqb_spec (c + d) g') as [<-|]; [|done].
    destruct Hupd as [Hu|Hu]; [congruence|]. unfold cost in Hu. lia.
Qed.

Lemma dmap_inv_done (seeded : list Z) (c : Z) (deadlocks heuristics queue : list Z) :
  dmap_inv context walls goals seeded (Some (c, [])) deadlocks heuristics queue ->
  dmap_inv context walls goals seeded None deadlocks heuristics queue.
Proof using Type.
  intros [HlD HlH Hq Hpend Hdead Hreal Hclosed Hseed]. split; try done.
  intros x d Hx HDx Hxq _ Hd. apply Hclosed; try done.
  intros todo [= -> <-]. apply not_elem_of_nil.
Qed.

Lemma dmap_inv_dequeue (seeded : list Z) (c : Z) (deadlocks heuristics queue : list Z) :
  dmap_inv context walls goals seeded None deadlocks heuristics (c :: queue) ->
  dmap_inv context walls goals seeded (Some (c, directions context))
           deadlocks heuristics queue.
Proof using Type.
  intros [HlD HlH Hq Hpend Hdead Hreal Hclosed Hseed]. split; try done.
  - intros x Hx. apply Hq. right. done.
  - intros x todo [= <- <-]. apply Hq. left.
  - intros x d Hx HDx Hxq Hex Hd. apply Hclosed; try done.
    intros Hin. apply elem_of_cons in Hin as [->|Hin]; [|done].
    eapply Hex; done.
Qed.

Lemma dmap_cost_range (seeded : list Z) (pending : option (Z * list Z))
    (deadlocks heuristics queue : list Z) (p : Z) :
  dmap_inv context walls goals seeded pending deadlocks heuristics queue ->
  0 <= p < area context -> get_bit deadlocks p = false ->
  0 <= cost_at heuristics p < area context.
Proof using Type.
  intros Hinv Hp HD.
  destruct (di_real _ _ _ _ _ _ _ _ Hinv p Hp HD) as (l & g & _ & Hwalk & Hnd & Hlen & Hidx).
  pose proof (walk_length_bound context walls p g l Hwalk Hnd).
  destruct (Hidx 0%nat p (walk_head context walls p g l Hwalk)). lia.
Qed.

Lemma potential_range (seeded : list Z) (pending : option (Z * list Z))
    (deadlocks heuristics queue : list Z) :
  dmap_inv context walls goals seeded pending deadlocks heuristics queue ->
  0 <= potential context deadlocks heuristics <= area context * (area context + 1).
Proof using Hok.
  intros Hinv. pose proof (area_range context Hok) as Ha.
  unfold potential.
  pose proof (sumZ_bounds (cell_potential context deadlocks heuristics)
                (indices (area context)) 0 (area context + 1)) as Hb.
  rewrite length_indices in Hb. rewrite Z2Nat.id in Hb by lia.
  rewrite (Z.mul_comm (area context)). apply Hb.
  intros p Hp. apply elem_of_indices in Hp. unfold cell_potential.
  destruct (get_bit deadlocks p) eqn:HD; [lia|].
  pose proof (dmap_cost_range _ _ _ _ _ p Hinv Hp HD). lia.
Qed.

Lemma relax_inv (seeded : list Z) (c cost : Z) (dirs : list Z)
    (deadlocks heuristics queue : list Z) :
  (forall d, d ∈ dirs -> d ∈ directions context) ->
  dmap_inv context walls goals seeded (Some (c, dirs)) deadlocks heuristics queue ->
  cost = cost_at heuristics c + 1 ->
  exists deadlocks' heuristics' queue',
    relax walls c cost dirs deadlocks heuristics queue
    = (deadlocks', heuristics', queue')
    /\ dmap_inv context walls goals seeded (Some (c, [])) deadlocks' heuristics' queue'
    /\ potential context deadlocks' heuristics' + Z.of_nat (length queue')
       <= potential context deadlocks heuristics + Z.of_nat (length queue).
Proof using Hok Hborder Hgoals.
  revert deadlocks heuristics queue.
  induction dirs as [|d dirs IH]; intros deadlocks heuristics queue Hdirs Hinv Hcost.
  - simpl. eexists _, _, _. split; [done|]. split; [done|lia].
  - cbn [relax].
    assert (d ∈ directions context) as Hd by (apply Hdirs; left).
    assert (forall d', d' ∈ dirs -> d' ∈ directions context) as Hdirs'
      by (intros; apply Hdirs; right; done).
    destruct (get_bit walls (wrap16 (c + d))) eqn:Hwn.
    { apply IH; try done. eapply dmap_inv_skip; [done|]. congruence. }
    destruct (negb (get_bit deadlocks (wrap16 (c + d)))
              && (cost_at heuristics (wrap16 (c + d)) <=? cost)) eqn:Hvis.
    { apply IH; try done. eapply dmap_inv_skip; [done|]. intros _ _.
      apply andb_true_iff in Hvis as [HD Hle].
      apply negb_true_iff in HD. apply Z.leb_le in Hle. split; [done|lia]. }
    destruct (get_bit walls (wrap16 (wrap16 (c + d) + d))) eqn:Hwb.
    { apply IH; try done. eapply dmap_inv_skip; [done|]. congruence. }
    assert (get_bit deadlocks (wrap16 (c + d)) = true
            \/ cost_at heuristics c + 1 < cost_at heuristics (wrap16 (c + d))) as Hupd.
    { apply andb_false_iff in Hvis as [HD|Hle].
      - left. apply negb_false_iff in HD. done.
      - right. apply Z.leb_gt in Hle. lia. }
    destruct (dmap_inv_update seeded c d dirs deadlocks heuristics queue
                Hinv Hd Hwn Hwb Hupd) as [Hinv' Hpot].
    rewrite <- Hcost in Hinv', Hpot.
    destruct (di_pending _ _ _ _ _ _ _ _ Hinv c (d :: dirs) eq_refl) as [Hc HDc].
    assert (cost = cost_at (<[Z.to_nat (wrap16 (c + d)) := cost]> heuristics) c + 1)
      as Hcost'.
    { destruct (di_real _ _ _ _ _ _ _ _ Hinv c Hc HDc) as (l & g & _ & Hwalk & _).
      destruct (walk_start context walls c g l Hwalk) as [_ Hwc].
      destruct (pull_geometry c d Hc Hwc Hd Hwn Hwb) as (Hn & _ & Hnr & _).
      rewrite Hn. rewrite cost_at_insert.
      - pose proof (direction_nonzero d Hd).
        destruct (Z.eqb_spec (c + d) c); [lia|done].
      - lia.
      - lia.
      - rewrite (di_heuristics_length _ _ _ _ _ _ _ _ Hinv). lia. }
    destruct (IH _ _ _ Hdirs' Hinv' Hcost') as (D' & H' & Q' & Hrel & Hinv'' & Hpot').
    exists D', H', Q'. split; [done|]. split; [done|].
    rewrite length_app in Hpot'. simpl in Hpot'. lia.
Qed.

Lemma drain_inv (seeded : list Z) (fuel : nat) (deadlocks heuristics queue : list Z) :
  dmap_inv context walls goals seeded None deadlocks heuristics queue ->
  potential context deadlocks heuristics + Z.of_nat (length queue) <= Z.of_nat fuel ->
  exists deadlocks' heuristics',
    drain fuel walls (directions context) deadlocks heuristics queue
    = Some (deadlocks', heuristics')
    /\ dmap_inv context walls goals seeded None deadlocks' heuristics' [].
Proof using Hok Hborder Hgoals.
  revert deadlocks heuristics queue.
  induction fuel as [|fuel IH]; intros deadlocks heuristics queue Hinv Hfuel.
  - pose proof (potential_range _ _ _ _ _ Hinv).
    destruct queue as [|c queue]; [|simpl in Hfuel; lia].
    eexists _, _. done.
  - destruct queue as [|c queue]; [eexists _, _; done|].
    cbn [drain].
    pose proof (dmap_inv_dequeue _ _ _ _ _ Hinv) as Hinv1.
    destruct (di_pending _ _ _ _ _ _ _ _ Hinv1 c _ eq_refl) as [Hc HDc].
    pose proof (dmap_cost_range _ _ _ _ _ c Hinv1 Hc HDc) as Hcr.
    pose proof (area_range context Hok).
    rewrite wrap16_small by lia.
    destruct (relax_inv seeded c (cost_at heuristics c + 1) (directions context)
                deadlocks heuristics queue ltac:(done) Hinv1 eq_refl)
      as (D' & H' & Q' & -> & Hinv2 & Hpot).
    apply IH.
    + eapply dmap_inv_done. done.
    + simpl length in Hfuel. lia.
Qed.

Lemma dmap_inv_seed (seeded : list Z) (g : Z) (deadlocks heuristics : list Z) :
  dmap_inv context walls goals seeded None deadlocks heuristics [] ->
  0 <= g -> get_bit goals g = true ->
  dmap_inv context walls goals (seeded ++ [g]) None
           (clear_bit deadlocks g) (<[Z.to_nat g := 0]> heuristics) [g].
Proof using Hok Hgoals.
  intros [HlD HlH Hq Hpend Hdead Hreal Hclosed Hseed] Hg0 Hg.
  destruct (Hgoals g Hg0 Hg) as [Hgi Hwg].
  pose proof (interior_range context Hok g Hgi) as Hgr.
  assert (forall p, 0 <= p ->
            get_bit (clear_bit deadlocks g) p = negb (g =? p) && get_bit deadlocks p)
    as HgetD by (intros; apply get_clear_bit; lia).
  assert (forall p, 0 <= p ->
            cost_at (<[Z.to_nat g := 0]> heuristics) p
            = if g =? p then 0 else cost_at heuristics p) as HgetH
    by (intros; apply cost_at_insert; lia).
  split.
  - rewrite length_clear_bit. done.
  - rewrite length_insert. done.
  - intros x Hx. apply list_elem_of_singleton in Hx as ->.
    split; [done|]. rewrite HgetD, Z.eqb_refl by lia. done.
  - done.
  - intros p Hp HD. rewrite HgetD in HD by lia.
    apply andb_true_iff in HD as [Hne HD]. apply negb_true_iff, Z.eqb_neq in Hne.
    rewrite HgetH by lia. destruct (Z.eqb_spec g p); [done|]. apply Hdead; done.
  - intros p Hp HD. destruct (decide (p = g)) as [->|Hne].
    + exists [g], g. split; [done|]. split; [constructor; done|].
      split; [apply NoDup_singleton|].
      rewrite HgetH, Z.eqb_refl by lia. split; [done|].
      intros i x Hi. destruct i as [|i]; [|done]. injection Hi as <-.
      rewrite HgetD, HgetH, !Z.eqb_refl by lia. simpl. split; [done|lia].
    + assert (get_bit deadlocks p = false) as HDp.
      { rewrite HgetD in HD by lia. destruct (Z.eqb_spec g p); [congruence|done]. }
      destruct (Hreal p Hp HDp) as (l & g' & Hg' & Hwalk' & Hnd' & Hlen' & Hidx').
      exists l, g'. split; [done|]. split; [done|]. split; [done|].
      rewrite HgetH by lia. destruct (Z.eqb_spec g p); [congruence|].
      split; [done|].
      intros i x Hi. destruct (Hidx' i x Hi) as [HDx Hbx].
      assert (0 <= x < area context) as Hxr
        by (eapply walk_elems; [exact Hwalk'|eapply list_elem_of_lookup_2; done]).
      pose proof (lookup_lt_Some _ _ _ Hi).
      rewrite HgetD, HgetH by lia. rewrite HDx, andb_false_r. split; [done|].
      destruct (Z.eqb_spec g x); lia.
  - intros x d Hx HDx Hxq _ Hd Hwn Hwb.
    assert (x <> g) as Hxg by (intros ->; apply Hxq; left).
    assert (get_bit deadlocks x = false) as HDx'.
    { rewrite HgetD in HDx by lia. destruct (Z.eqb_spec g x); [congruence|done]. }
    destruct (Hclosed x d Hx HDx' ltac:(apply not_elem_of_nil) ltac:(done) Hd Hwn Hwb)
      as [HDn Hle].
    pose proof (wrap16_range (x + d)).
    rewrite HgetD, HgetH by lia. rewrite HDn, andb_false_r. split; [done|].
    rewrite (HgetH x) by lia. destruct (Z.eqb_spec g x); [congruence|].
    destruct (Z.eqb_spec g (wrap16 (x + d))) as [Heq|]; [|done].
    assert (0 <= cost_at heuristics x); [|lia].
    destruct (Hreal x Hx HDx') as (l & g' & _ & Hwalk' & _ & _ & Hidx').
    destruct (Hidx' 0%nat x (walk_head context walls x g' l Hwalk')). lia.
  - intros g' Hg0' Hg' Hgg'. apply elem_of_app in Hg' as [Hg'|Hg'].
    + destruct (Hseed g' Hg0' Hg' Hgg') as [HDg HHg].
      rewrite HgetD, HgetH by lia. rewrite HDg, andb_false_r. split; [done|].
      destruct (Z.eqb_spec g g'); done.
    + apply list_elem_of_singleton in Hg' as ->.
      rewrite HgetD, HgetH, !Z.eqb_refl by lia. done.
Qed.

Lemma dmap_inv_pass (seeded : list Z) (p : Z) (deadlocks heuristics : list Z) :
  dmap_inv context walls goals seeded None deadlocks heuristics [] ->
  get_bit goals p = false ->
  dmap_inv context walls goals (seeded ++ [p]) None deadlocks heuristics [].
Proof using Type.
  intros [HlD HlH Hq Hpend Hdead Hreal Hclosed Hseed] Hp. split; try done.
  intros g Hg0 Hg Hgg. apply elem_of_app in Hg as [Hg|Hg]; [apply Hseed; done|].
  apply list_elem_of_singleton in Hg as ->. congruence.
Qed.

Lemma seed_goals_inv (positions seeded : list Z) (deadlocks heuristics : list Z) :
  (forall p, p ∈ positions -> 0 <= p) ->
  dmap_inv context walls goals seeded None deadlocks heuristics [] ->
  exists deadlocks' heuristics',
    seed_goals (drain_fuel context) walls goals (directions context) positions
               deadlocks heuristics = Some (deadlocks', heuristics')
    /\ dmap_inv context walls goals (seeded ++ positions) None deadlocks' heuristics' [].
Proof using Hok Hborder Hgoals.
  revert seeded deadlocks heuristics.
  induction positions as [|p positions IH]; intros seeded deadlocks heuristics Hpos Hinv.
  - simpl. rewrite app_nil_r. eexists _, _. done.
  - cbn [seed_goals].
    assert (0 <= p) as Hp by (apply Hpos; left).
    assert (forall q, q ∈ positions -> 0 <= q) as Hpos'
      by (intros; apply Hpos; right; done).
    replace (seeded ++ p :: positions) with ((seeded ++ [p]) ++ positions)
      by (rewrite <- app_assoc; done).
    destruct (get_bit goals p) eqn:Hg.
    + pose proof (dmap_inv_seed seeded p deadlocks heuristics Hinv Hp Hg) as Hinv1.
      destruct (drain_inv (seeded ++ [p]) (drain_fuel context) _ _ _ Hinv1)
        as (D' & H' & -> & Hinv2).
      { pose proof (potential_range _ _ _ _ _ Hinv1).
        pose proof (area_range context Hok).
        unfold drain_fuel. simpl length. rewrite Z2Nat.id by nia. lia. }
      simpl. apply IH; done.
    + apply IH; [done|]. apply dmap_inv_pass; done.
Qed.

Lemma dmap_inv_init :
  dmap_inv context walls goals [] None
           (bitset_ones (bitset_size context))
           (replicate (Z.to_nat (area context)) (area context)) [].
Proof using Hok.
  pose proof (area_bitset context Hok) as Hab.
  assert (forall p, 0 <= p < area context ->
            get_bit (bitset_ones (bitset_size context)) p = true) as Hones.
  { intros p Hp. rewrite get_bit_ones by lia. apply Z.ltb_lt. lia. }
  split.
  - apply length_bitset_ones.
  - apply length_replicate.
  - intros c Hc. by apply elem_of_nil in Hc.
  - done.
  - intros p Hp _. apply cost_at_replicate; lia.
  - intros p Hp HD. rewrite Hones in HD by done. discriminate.
  - intros c d Hc HD. rewrite Hones in HD by done. discriminate.
  - intros g _ Hg. by apply elem_of_nil in Hg.
Qed.
End DeadlockMap.

Lemma dmap_final_path (context : context_t) (walls goals : list Z)
    (deadlocks heuristics : list Z) (p g : Z) (k : nat) :
  context_ok context ->
  dmap_inv context walls goals (indices (area context)) None deadlocks heuristics [] ->
  get_bit goals g = true ->
  crate_path context walls p k g ->
  get_bit deadlocks p = false /\ cost_at heuristics p <= Z.of_nat k.
Proof.
  intros Hok Hinv Hg Hpath.
  induction Hpath as [g Hgr Hwg|p q g k Hpush Hpath IH].
  - destruct (di_seeded _ _ _ _ _ _ _ _ Hinv g) as [HD HH]; try done; try lia.
    + apply elem_of_indices. done.
    + split; [done|lia].
  - destruct (IH Hg) as [HDq HHq].
    destruct Hpush as (e & He & -> & Hp & Hq & Hb & Hwp & Hwq & Hwb).
    pose proof (area_range context Hok).
    assert (wrap16 (p + e + - e) = p) as Hn
      by (replace (p + e + - e) with p by lia; apply wrap16_small; lia).
    assert (wrap16 (p + - e) = p - e) as Hbe
      by (replace (p + - e) with (p - e) by lia; apply wrap16_small; lia).
    destruct (di_closed _ _ _ _ _ _ _ _ Hinv (p + e) (- e)) as [HD HH]; try done.
    + apply not_elem_of_nil.
    + unfold directions in *.
      repeat (apply elem_of_cons in He as [->|He]).
      * right. left.
      * left.
      * right. right. right. left.
      * right. right. rewrite Z.opp_involutive. left.
      * by apply elem_of_nil in He.
    + rewrite Hn. done.
    + rewrite Hn, Hbe. done.
    + rewrite Hn in *. split; [done|lia].
Qed.

(** [generate_deadlock_map] ends within its fuel, with the invariant of its
    loops for all the positions and an empty queue. *)
Lemma generate_deadlock_map_inv (context : context_t) (problem : problem_t) :
  context_ok context ->
  level_ok context (walls problem) (goals problem) (crates problem) ->
  exists deadlocks heuristics,
    generate_deadlock_map context problem = Some (deadlocks, heuristics)
    /\ dmap_inv context (walls problem) (goals problem) (indices (area context)) None
                deadlocks heuristics [].
Proof.
  intros Hok Hlv.
  destruct (seed_goals_inv context Hok (walls problem) (goals problem)
              (lv_border _ _ _ _ Hlv) (lv_goals_free _ _ _ _ Hlv)
              (indices (area context)) [] _ _
              ltac:(intros p Hp; apply elem_of_indices in Hp; lia)
              (dmap_inv_init context Hok (walls problem) (goals problem)))
    as (D & H & Hgen & Hinv).
  simpl in Hinv. exists D, H. done.
Qed.

(** C5. After [generate_deadlock_map] every cell [p] has
    [heuristics[p] <= area], with [heuristics[p] = area] exactly when no
    sequence of pushes takes a lone crate from [p] to a goal (read
    backwards: no reverse-push sequence from a goal reaches [p]); a cell
    whose [deadlocks] bit is set is such a cell; and [heuristics[p]] is at
    most the number of pushes of every such sequence. *)
Theorem generate_deadlock_map_correct (context : context_t) (problem : problem_t) :
  context_ok context ->
  level_ok context (walls problem) (goals problem) (crates problem) ->
  exists deadlocks heuristics,
    generate_deadlock_map context problem = Some (deadlocks, heuristics)
    /\ forall p, 0 <= p < area context ->
         let reaches_goal :=
           exists g k, get_bit (goals problem) g = true
                       /\ crate_path context (walls problem) p k g in
         cost_at heuristics p <= area context
         /\ (cost_at heuristics p = area context <-> ~ reaches_goal)
         /\ (get_bit deadlocks p = true <-> ~ reaches_goal)
         /\ (forall g k, get_bit (goals problem) g = true ->
                         crate_path context (walls problem) p k g ->
                         cost_at heuristics p <= Z.of_nat k).
Proof.
  intros Hok Hlv.
  destruct (generate_deadlock_map_inv context problem Hok Hlv) as (D & H & Hgen & Hinv).
  exists D, H. split; [exact Hgen|].
  intros p Hp reaches_goal.
  assert (reaches_goal -> get_bit D p = false /\ cost_at H p < area context) as Hyes.
  { intros (g & k & Hg & Hpath).
    destruct (dmap_final_path context _ _ D H p g k Hok Hinv Hg Hpath) as [HD _].
    split; [done|].
    apply (dmap_cost_range context (walls problem) (goals problem) _ _ _ _ _ p Hinv Hp HD). }
  assert (get_bit D p = false -> reaches_goal) as Hno.
  { intros HD.
    destruct (di_real _ _ _ _ _ _ _ _ Hinv p Hp HD) as (l & g & Hg & Hwalk & _).
    exists g, (length l - 1)%nat. split; [done|]. apply walk_crate_path. done. }
  repeat split.
  - destruct (get_bit D p) eqn:HD.
    + rewrite (di_dead _ _ _ _ _ _ _ _ Hinv p Hp HD). lia.
    + pose proof (dmap_cost_range context (walls problem) (goals problem)
                    _ _ _ _ _ p Hinv Hp HD). lia.
  - intros Heq Hr. apply Hyes in Hr. lia.
  - intros Hnr. destruct (get_bit D p) eqn:HD.
    + apply (di_dead _ _ _ _ _ _ _ _ Hinv p Hp HD).
    + exfalso. apply Hnr, Hno. done.
  - intros HD Hr. apply Hyes in Hr. destruct Hr. congruence.
  - intros Hnr. destruct (get_bit D p) eqn:HD; [done|].
    exfalso. apply Hnr, Hno. done.
  - intros g k Hg Hpath.
    apply (dmap_final_path context _ _ D H p g k Hok Hinv Hg Hpath).
Qed.

(** ** parse_problem *)

Lemma create_context_ok (w h capacity : Z) :
  0 <= w <= 253 -> 0 <= h <= 253 -> context_ok (create_context w h capacity).
Proof.
  intros Hw Hh. unfold create_context, wrap8, wrap16, BITS_CNT.
  split; simpl.
  - rewrite Z.mod_small by lia. lia.
  - rewrite Z.mod_small by lia. lia.
  - rewrite !(Z.mod_small _ 256) by lia. apply Z.mod_small. nia.
  - rewrite !(Z.mod_small _ 256) by lia. rewrite (Z.mod_small _ 65536) by nia.
    f_equal. lia.
Qed.

Lemma create_context_fields (w h capacity : Z) :
  0 <= w <= 253 -> 0 <= h <= 253 ->
  width (create_context w h capacity) = w + 2
  /\ height (create_context w h capacity) = h + 2
  /\ area (create_context w h capacity) = (w + 2) * (h + 2)
  /\ interior_size (create_context w h capacity) = w * h.
Proof.
  intros Hw Hh. unfold interior_size, create_context, wrap8, wrap16. simpl.
  rewrite !(Z.mod_small _ 256) by lia. rewrite (Z.mod_small _ 65536) by nia.
  repeat split; lia.
Qed.

Lemma tile_classes (c : ascii) :
  (is_goal_char c = true -> is_wall_char c = false)
  /\ (is_crate_char c = true -> is_wall_char c = false)
  /\ (is_player_char c = true -> is_wall_char c = false /\ is_crate_char c = false).
Proof.
  split; [|split]; intros Hc; [| |split]; char_cases c.
Qed.

Section ParsedLevel.
Variable context : context_t.
Hypothesis Hok : context_ok context.
Variable problem : problem_t.
Variable level_str : string.

Let st := parse_level context problem level_str.
Let ts := parsed_tiles context level_str.

Lemma parse_level_ok :
  level_ok context (p_walls st) (p_goals st) (p_crates st).
Proof using Hok.
  destruct (parse_level_lengths context Hok problem level_str) as (Hlw & Hlg & Hlc).
  destruct (parse_level_wf context Hok problem level_str) as (Hww & Hwg & Hwc).
  assert (forall (f : ascii -> bool) (bits : list Z) q,
            0 <= q ->
            (forall n, 0 <= n < interior_size context ->
               get_bit bits (cell_position context n)
               = tile_bit f false (tiles level_str !! Z.to_nat n)) ->
            (~ interior context q -> get_bit bits q = false) ->
            (forall c, f c = true -> is_wall_char c = false) ->
            get_bit bits q = true ->
            interior context q /\ get_bit (p_walls st) q = false) as Hfree.
  { intros f bits q Hq Hcell Hout Hf Hb.
    destruct (interior_dec context q) as [Hi|Hni].
    - split; [done|].
      destruct (interior_cell_position context Hok q Hi) as (n & Hn & ->).
      destruct (parse_level_cell context Hok problem level_str n Hn) as (Hw & _ & _).
      fold st in Hw. rewrite Hw. rewrite Hcell in Hb by done.
      destruct (tiles level_str !! Z.to_nat n) as [c|]; simpl in *; [|done].
      apply Hf. done.
    - rewrite Hout in Hb by done. discriminate. }
  split; try done.
  - intros q Hq Hni.
    destruct (parse_level_border context Hok problem level_str q ltac:(lia) Hni)
      as (Hw & _ & _).
    fold st in Hw. rewrite Hw. apply Z.ltb_lt. lia.
  - intros q Hq Hb. apply (Hfree is_goal_char (p_goals st)); try done.
    + intros n Hn. apply (parse_level_cell context Hok problem level_str n Hn).
    + intros Hni. apply (parse_level_border context Hok problem level_str q Hq Hni).
    + apply tile_classes.
  - intros q Hq Hb. apply (Hfree is_crate_char (p_crates st)); try done.
    + intros n Hn. apply (parse_level_cell context Hok problem level_str n Hn).
    + intros Hni. apply (parse_level_border context Hok problem level_str q Hq Hni).
    + apply tile_classes.
Qed.

(** With a player tile, the player stands on an interior cell without a
    wall or a crate. *)
Lemma parse_level_player_cell :
  0 < p_player_count st ->
  interior context (p_player st)
  /\ get_bit (p_walls st) (p_player st) = false
  /\ get_bit (p_crates st) (p_player st) = false.
Proof using Hok.
  intros Hcount.
  destruct (parse_level_counts context Hok problem level_str) as (_ & _ & Hpc).
  fold st in Hpc. rewrite Hpc in Hcount.
  destruct (parse_level_player context Hok problem level_str Hcount)
    as (n & c & Hn & Hts & Hc & Hpos).
  fold st in Hpos. rewrite Hpos.
  destruct (parse_level_cell context Hok problem level_str n Hn) as (Hw & _ & Hcr).
  fold st in Hw, Hcr. rewrite Hw, Hcr.
  rewrite (parsed_tiles_lookup context level_str n Hn) in Hts. rewrite Hts. simpl.
  destruct (tile_classes c) as (_ & _ & Hcl). destruct (Hcl Hc) as [-> ->].
  split; [|done]. apply cell_position_interior; done.
Qed.
End ParsedLevel.

(** *** check_all_2x2_deadlock *)

Lemma window_unsafe_spec (problem : problem_t) (pos : Z) (nb : list Z) (u : Z) :
  0 <= u -> u + Z.of_nat (length nb) < 65536 ->
  window_unsafe problem pos nb u =
  if forallb (fun o => blocked (walls problem) (crates problem) (wrap16 (pos + o))) nb
  then u + Z.of_nat (length (filter
           (fun o => stuck_crate (goals problem) (crates problem) (wrap16 (pos + o)) = true)
           nb))
  else 0.
Proof.
  revert u. induction nb as [|o nb IH]; intros u Hu Hlen; simpl.
  - lia.
  - unfold blocked at 1.
    destruct (get_bit (crates problem) (wrap16 (pos + o))
              || get_bit (walls problem) (wrap16 (pos + o))) eqn:Hb; simpl; [|done].
    simpl length in Hlen. rewrite filter_cons.
    case_decide as Hs; unfold stuck_crate in Hs.
    + rewrite Hs. rewrite IH; rewrite wrap16_small by lia; [|lia|lia].
      destruct (forallb _ nb); [simpl length; lia|done].
    + apply not_true_is_false in Hs. rewrite Hs.
      rewrite IH by lia. done.
Qed.

Lemma window_unsafe_deadlock (context : context_t) (problem : problem_t) (pos : Z) :
  (forall o, o ∈ neighborhood context -> wrap16 (pos + o) = pos + o) ->
  (window_unsafe problem pos (neighborhood context) 0 =? 0) = false <->
  window_deadlock context (walls problem) (goals problem) (crates problem) pos.
Proof.
  intros Hwrap. rewrite window_unsafe_spec by (simpl; lia).
  unfold window_deadlock.
  set (nb := neighborhood context) in *.
  destruct (forallb _ nb) eqn:Hall.
  - rewrite forallb_forall in Hall.
    split.
    + intros Hne. apply Z.eqb_neq in Hne. split.
      * intros o Ho. rewrite <- Hwrap by done. apply Hall, list_elem_of_In. done.
      * destruct (filter _ nb) as [|o l] eqn:Hf; [simpl in Hne; lia|].
        assert (o ∈ filter
                  (fun o => stuck_crate (goals problem) (crates problem)
                              (wrap16 (pos + o)) = true) nb) as Hin
          by (rewrite Hf; left).
        apply list_elem_of_filter in Hin as [Hs Ho].
        exists o. split; [done|]. rewrite <- Hwrap by done. done.
    + intros [_ (o & Ho & Hs)]. apply Z.eqb_neq.
      assert (o ∈ filter
                (fun o => stuck_crate (goals problem) (crates problem)
                            (wrap16 (pos + o)) = true) nb) as Hin.
      { apply list_elem_of_filter. split; [|done]. rewrite Hwrap by done. done. }
      destruct (filter _ nb); [by apply elem_of_nil in Hin|]. simpl length. lia.
  - split; [intros Hne; discriminate|].
    intros [Hblocked _]. exfalso.
    assert (forallb (fun o => blocked (walls problem) (crates problem) (wrap16 (pos + o)))
                    nb = true); [|congruence].
    apply forallb_forall. intros o Ho. apply list_elem_of_In in Ho.
    rewrite Hwrap by done. apply Hblocked. done.
Qed.

Lemma scan_row_spec (context : context_t) (problem : problem_t) (n : nat) (pos : Z) :
  0 <= pos -> pos + Z.of_nat n < 65536 ->
  let bad q := negb (window_unsafe problem q (neighborhood context) 0 =? 0) in
  fst (scan_row context problem n pos) = existsb bad (seqZ pos (Z.of_nat n))
  /\ (fst (scan_row context problem n pos) = false ->
      snd (scan_row context problem n pos) = pos + Z.of_nat n).
Proof.
  intros Hpos Hlt bad. revert pos Hpos Hlt.
  induction n as [|n IH]; intros pos Hpos Hlt.
  - simpl. split; [done|]. intros _. lia.
  - cbn [scan_row]. rewrite seqZ_S. simpl existsb. fold (bad pos).
    destruct (bad pos); simpl; [split; [done|discriminate]|].
    rewrite wrap16_small by lia.
    destruct (IH (pos + 1) ltac:(lia) ltac:(lia)) as [H1 H2].
    split; [done|]. intros Hf. rewrite H2 by done. lia.
Qed.

Lemma scan_rows_spec (context : context_t) (problem : problem_t) (m n : nat) (pos : Z) :
  0 <= pos -> pos + Z.of_nat m * (Z.of_nat n + 1) < 65536 ->
  let bad q := negb (window_unsafe problem q (neighborhood context) 0 =? 0) in
  scan_rows context problem m n pos = true <->
  exists x y, 0 <= x < Z.of_nat n /\ 0 <= y < Z.of_nat m
              /\ bad (pos + y * (Z.of_nat n + 1) + x) = true.
Proof.
  intros Hpos Hlt bad. revert pos Hpos Hlt.
  induction m as [|m IH]; intros pos Hpos Hlt.
  - simpl. split; [discriminate|]. intros (x & y & _ & Hy & _). lia.
  - cbn [scan_rows].
    destruct (scan_row_spec context problem n pos Hpos ltac:(nia)) as [H1 H2].
    fold bad in H1.
    destruct (scan_row context problem n pos) as [found pos'] eqn:Hrow.
    simpl in H1, H2. destruct found.
    + split; [intros _|done]. symmetry in H1.
      apply existsb_exists in H1 as (q & Hq & Hbad).
      apply list_elem_of_In, elem_of_seqZ in Hq.
      exists (q - pos), 0. split; [lia|]. split; [lia|].
      replace (pos + 0 * (Z.of_nat n + 1) + (q - pos)) with q by lia. done.
    + rewrite (H2 eq_refl). rewrite wrap16_small by nia.
      rewrite IH by nia. split.
      * intros (x & y & Hx & Hy & Hbad). exists x, (y + 1).
        split; [done|]. split; [lia|].
        replace (pos + (y + 1) * (Z.of_nat n + 1) + x)
          with (pos + Z.of_nat n + 1 + y * (Z.of_nat n + 1) + x) by lia. done.
      * intros (x & y & Hx & Hy & Hbad).
        destruct (Z.eq_dec y 0) as [->|Hy0].
        -- exfalso. symmetry in H1.
           assert (existsb bad (seqZ pos (Z.of_nat n)) = true); [|congruence].
           apply existsb_exists. exists (pos + x). split.
           ++ apply list_elem_of_In, elem_of_seqZ. lia.
           ++ replace (pos + x) with (pos + 0 * (Z.of_nat n + 1) + x) by lia. done.
        -- exists x, (y - 1). split; [done|]. split; [lia|].
           replace (pos + Z.of_nat n + 1 + (y - 1) * (Z.of_nat n + 1) + x)
             with (pos + y * (Z.of_nat n + 1) + x) by lia. done.
Qed.

Lemma check_all_2x2_deadlock_spec (context : context_t) (problem : problem_t) :
  context_ok context ->
  check_all_2x2_deadlock context problem = true <->
  board_deadlock context (walls problem) (goals problem) (crates problem).
Proof.
  intros Hok. destruct Hok as [Hw Hh Ha Hb] eqn:E. clear E.
  unfold check_all_2x2_deadlock, board_deadlock.
  rewrite !wrap16_small by lia.
  rewrite scan_rows_spec; [|lia|nia].
  rewrite !Z2Nat.id by lia.
  assert (forall x y o, 0 <= x < width context - 1 -> 0 <= y < height context - 1 ->
            o ∈ neighborhood context ->
            wrap16 (y * width context + x + o) = y * width context + x + o) as Hwrap.
  { intros x y o Hx Hy Ho. apply wrap16_small. unfold neighborhood in Ho.
    repeat (apply elem_of_cons in Ho as [->|Ho]); [nia..|].
    by apply elem_of_nil in Ho. }
  split.
  - intros (x & y & Hx & Hy & Hbad). exists x, y. split; [done|]. split; [done|].
    apply negb_true_iff in Hbad.
    replace (0 + y * (width context - 1 + 1) + x) with (y * width context + x) in Hbad
      by lia.
    apply window_unsafe_deadlock in Hbad; [done|].
    intros o Ho. apply Hwrap; done.
  - intros (x & y & Hx & Hy & Hdl). exists x, y. split; [done|]. split; [done|].
    apply negb_true_iff.
    replace (0 + y * (width context - 1 + 1) + x) with (y * width context + x) by lia.
    apply window_unsafe_deadlock; [|done].
    intros o Ho. apply Hwrap; done.
Qed.

(** The check reads the walls, goals and crates of the problem only. *)
Lemma check_all_2x2_deadlock_ext (context : context_t) (p1 p2 : problem_t) :
  walls p1 = walls p2 -> goals p1 = goals p2 -> crates p1 = crates p2 ->
  check_all_2x2_deadlock context p1 = check_all_2x2_deadlock context p2.
Proof.
  intros Hw Hg Hc.
  assert (forall pos nb u, window_unsafe p1 pos nb u = window_unsafe p2 pos nb u) as Hwin.
  { intros pos nb. induction nb as [|o nb IH]; intros u; cbn [window_unsafe]; [done|].
    rewrite Hw, Hg, Hc. destruct (negb _); [done|]. apply IH. }
  assert (forall n pos, scan_row context p1 n pos = scan_row context p2 n pos) as Hrow.
  { induction n as [|n IH]; intros pos; cbn [scan_row]; [done|].
    rewrite Hwin. destruct (negb _); [done|]. apply IH. }
  unfold check_all_2x2_deadlock.
  generalize 0.
  induction (Z.to_nat (wrap16 (height context - 1))) as [|m IH]; intros pos;
    cbn [scan_rows]; [done|].
  rewrite Hrow. destruct (scan_row context p2 _ pos) as [[] pos']; [done|]. apply IH.
Qed.

(** *** The result of parse_problem *)

Ltac pick_problem :=
  match goal with
  | |- exists _, Some (?p, _) = _ /\ _ => exists p
  end.

Lemma parse_problem_spec (context : context_t) (problem : problem_t)
    (level_str : string) :
  context_ok context ->
  let st := parse_level context problem level_str in
  exists problem',
    parse_problem context problem level_str = Some (problem', compilable problem')
    /\ goal_count problem' = p_goal_count st
    /\ player problem' = p_player st
    /\ walls problem' = p_walls st
    /\ goals problem' = p_goals st
    /\ crates problem' = p_crates st
    /\ compilable problem' =
       (p_player_count st =? 1) && (p_goal_count st =? p_crate_count st)
       && negb (bitset_equals (p_crates st) (p_goals st) (bitset_size context))
    /\ potentially_solvable problem' =
       compilable problem'
       && negb (check_all_2x2_deadlock context problem')
       && negb (bitset_covers_any (crates problem') (deadlocks problem')
                                  (bitset_size context))
       && reach_result context problem'
    /\ (compilable problem' && negb (check_all_2x2_deadlock context problem') = true ->
        generate_deadlock_map context problem'
        = Some (deadlocks problem', heuristics problem')).
Proof.
  intros Hok st.
  pose proof (parse_level_ok context Hok problem level_str) as Hlv. fold st in Hlv.
  unfold parse_problem. fold st.
  set (valid := (p_player_count st =? 1) && (p_goal_count st =? p_crate_count st)
                && negb (bitset_equals (p_crates st) (p_goals st) (bitset_size context))).
  set (problem1 := {| goal_count := p_goal_count st; player := p_player st;
                      walls := p_walls st; goals := p_goals st; crates := p_crates st;
                      deadlocks := deadlocks problem; heuristics := heuristics problem;
                      compilable := valid;
                      potentially_solvable := potentially_solvable problem |}).
  assert (forall p2, walls p2 = p_walls st -> goals p2 = p_goals st ->
                     crates p2 = p_crates st ->
                     check_all_2x2_deadlock context p2
                     = check_all_2x2_deadlock context problem1) as Hext
    by (intros; apply check_all_2x2_deadlock_ext; done).
  destruct valid eqn:Hvalid.
  2:{ simpl. pick_problem. split; [reflexivity|]. simpl. repeat split; done. }
  assert (0 < p_player_count st) as Hplayer.
  { unfold valid in Hvalid. apply andb_true_iff in Hvalid as [Hv _].
    apply andb_true_iff in Hv as [Hv _]. apply Z.eqb_eq in Hv. lia. }
  destruct (parse_level_player_cell context Hok problem level_str Hplayer)
    as (Hpi & _ & _). fold st in Hpi.
  destruct (check_all_2x2_deadlock context problem1) eqn:H2x2.
  { simpl. pick_problem. split; [reflexivity|]. simpl.
    rewrite Hext by reflexivity. repeat split; done. }
  simpl negb. cbv iota.
  destruct (generate_deadlock_map_inv context problem1 Hok Hlv) as (D & H & Hgen & _).
  rewrite Hgen.
  destruct (check_reachability_spec context (p_crates st) (p_goals st) (p_walls st)
              (p_player st) Hok Hlv Hpi) as (r & Hr & _).
  destruct (bitset_covers_any (crates problem1) D (bitset_size context)) eqn:Hcov;
    simpl in Hcov; simpl; rewrite Hcov; simpl.
  { pick_problem. split; [reflexivity|]. simpl.
    rewrite Hext by reflexivity. rewrite Hcov. repeat split; done. }
  rewrite Hr. pick_problem. split; [reflexivity|]. simpl.
  rewrite Hext by reflexivity. rewrite Hcov.
  unfold reach_result. simpl. rewrite Hr. repeat split; done.
Qed.

Lemma parsed_tiles_cell (context : context_t) (level_str : string) (n : nat) (c : ascii) :
  context_ok context ->
  parsed_tiles context level_str !! n = Some c ->
  0 <= Z.of_nat n < interior_size context
  /\ tiles level_str !! Z.to_nat (Z.of_nat n) = Some c.
Proof.
  intros Hok Hn. pose proof (parsed_tiles_length context Hok level_str) as Hlen.
  pose proof (lookup_lt_Some _ _ _ Hn) as Hlt.
  split; [lia|]. rewrite Nat2Z.id.
  unfold parsed_tiles in Hn. rewrite lookup_take_lt in Hn; [done|].
  unfold parsed_tiles in Hlt. rewrite length_take in Hlt. lia.
Qed.

(** C8. [parse_problem] fills the interior of the padded grid row by row
    with the tiles of the level string, one tile for each cell: the cell
    number [n] gets the [n]-th tile character, where the characters that
    are not tile characters are passed over and the string ends at its
    first NUL (this is the list [tiles]); the cells that are left when the
    tiles run out, and the border, keep their wall. *)
Theorem parse_problem_cells (w h capacity : Z) (problem : problem_t)
    (level_str : string) :
  0 <= w <= 253 -> 0 <= h <= 253 ->
  let context := create_context w h capacity in
  let ts := parsed_tiles context level_str in
  exists problem',
    parse_problem context problem level_str = Some (problem', compilable problem')
    /\ (forall n, 0 <= n < w * h ->
          let q := cell_position context n in
          let t := ts !! Z.to_nat n in
          get_bit (walls problem') q = tile_bit is_wall_char true t
          /\ get_bit (goals problem') q = tile_bit is_goal_char false t
          /\ get_bit (crates problem') q = tile_bit is_crate_char false t)
    /\ (forall q, 0 <= q < area context -> ~ interior context q ->
          get_bit (walls problem') q = true
          /\ get_bit (goals problem') q = false
          /\ get_bit (crates problem') q = false)
    /\ (0 < count_chars is_player_char ts ->
        exists n c, 0 <= n < w * h /\ ts !! Z.to_nat n = Some c
                    /\ is_player_char c = true
                    /\ player problem' = cell_position context n).
Proof.
  intros Hw Hh context ts.
  pose proof (create_context_ok w h capacity Hw Hh) as Hok. fold context in Hok.
  destruct (create_context_fields w h capacity Hw Hh) as (_ & _ & _ & Hint).
  fold context in Hint.
  destruct (parse_problem_spec context problem level_str Hok)
    as (p' & Hparse & _ & Hpl & Hwl & Hgl & Hcr & _).
  exists p'. split; [done|]. rewrite Hwl, Hgl, Hcr, Hpl.
  split; [|split].
  - intros n Hn q t. rewrite <- Hint in Hn.
    unfold t, ts. rewrite (parsed_tiles_lookup context level_str n Hn).
    apply (parse_level_cell context Hok problem level_str n Hn).
  - intros q Hq Hni.
    destruct (parse_level_border context Hok problem level_str q ltac:(lia) Hni)
      as (-> & -> & ->).
    split; [|done]. apply Z.ltb_lt. pose proof (area_bitset context Hok). lia.
  - intros Hcount. rewrite <- Hint.
    apply (parse_level_player context Hok problem level_str Hcount).
Qed.

(** C4. [parse_problem] returns [compilable], and [compilable] holds if
    and only if the parsed level has exactly one player, as many goals as
    crates, and crates that differ from the goals; with as many goals as
    crates, the crates differ from the goals exactly when some crate is not
    on a goal. *)
Theorem parse_problem_compilable (w h capacity : Z) (problem : problem_t)
    (level_str : string) :
  0 <= w <= 253 -> 0 <= h <= 253 ->
  let context := create_context w h capacity in
  let ts := parsed_tiles context level_str in
  exists problem',
    parse_problem context problem level_str = Some (problem', compilable problem')
    /\ (compilable problem' = true <->
        count_chars is_player_char ts = 1
        /\ count_chars is_goal_char ts = count_chars is_crate_char ts
        /\ crates problem' <> goals problem')
    /\ (count_chars is_goal_char ts = count_chars is_crate_char ts ->
        (crates problem' <> goals problem' <->
         exists n c, ts !! n = Some c /\ is_crate_char c = true
                     /\ is_goal_char c = false)).
Proof.
  intros Hw Hh context ts.
  pose proof (create_context_ok w h capacity Hw Hh) as Hok. fold context in Hok.
  destruct (parse_problem_spec context problem level_str Hok)
    as (p' & Hparse & _ & _ & _ & Hgl & Hcr & Hcomp & _).
  exists p'. split; [done|]. rewrite Hgl, Hcr, Hcomp.
  destruct (parse_level_counts context Hok problem level_str) as (-> & -> & ->).
  fold ts.
  destruct (parse_level_lengths context Hok problem level_str) as (_ & Hlg & Hlc).
  destruct (parse_level_wf context Hok problem level_str) as (_ & Hwg & Hwc).
  set (st := parse_level context problem level_str) in *.
  split.
  - rewrite !andb_true_iff, negb_true_iff, !Z.eqb_eq, <- not_true_iff_false.
    rewrite bitset_equals_eq by done. tauto.
  - intros Hcounts. split.
    + intros Hne.
      set (f := fun c => is_crate_char c && negb (is_goal_char c)).
      destruct (Z.ltb_spec 0 (count_chars f ts)) as [Hpos|Hzero].
      * apply count_chars_pos in Hpos as (n & c & Hn & Hc).
        unfold f in Hc. apply andb_true_iff in Hc as [Hc1 Hc2].
        apply negb_true_iff in Hc2. eauto.
      * exfalso. apply Hne.
        assert (forall c, c ∈ ts -> is_crate_char c = is_goal_char c) as Hsame.
        { apply count_chars_eq_pointwise; [|done].
          intros c Hc Hcrate. destruct (is_goal_char c) eqn:Hgoal; [done|].
          exfalso. apply list_elem_of_lookup in Hc as [n Hn].
          assert (0 < count_chars f ts); [|lia].
          apply count_chars_pos. exists n, c. split; [done|].
          unfold f. rewrite Hcrate, Hgoal. done. }
        apply bitset_ext; [congruence|done|done|].
        intros q Hq. destruct (interior_dec context q) as [Hi|Hni].
        -- destruct (interior_cell_position context Hok q Hi) as (n & Hn & ->).
           destruct (parse_level_cell context Hok problem level_str n Hn)
             as (_ & Hg & Hc).
           fold st in Hg, Hc. rewrite Hg, Hc.
           rewrite <- (parsed_tiles_lookup context level_str n Hn). fold ts.
           destruct (ts !! Z.to_nat n) as [c|] eqn:Hc'; simpl; [|done].
           apply Hsame. eapply list_elem_of_lookup_2. done.
        -- destruct (parse_level_border context Hok problem level_str q Hq Hni)
             as (_ & Hg & Hc).
           fold st in Hg, Hc. congruence.
    + intros (n & c & Hn & Hc1 & Hc2) Heq.
      destruct (parsed_tiles_cell context level_str n c Hok Hn) as [Hrange Ht].
      destruct (parse_level_cell context Hok problem level_str _ Hrange) as (_ & Hg & Hc).
      fold st in Hg, Hc. rewrite Ht in Hg, Hc. simpl in Hg, Hc.
      rewrite Heq in Hc. congruence.
Qed.

Lemma solve_bfs_unsolvable (context : context_t) (problem : problem_t)
    (max_iterations : Z) :
  potentially_solvable problem = false ->
  solve_bfs context problem max_iterations
  = Returned (create_result false None 0 false).
Proof. intros H. unfold solve_bfs. rewrite H. reflexivity. Qed.

Lemma solve_astar_unsolvable {P : Type} (plt : P -> P -> bool)
    (priority_root : Z -> P) (priority_of : Z -> Z -> P)
    (context : context_t) (problem : problem_t) (max_iterations : Z) :
  potentially_solvable problem = false ->
  solve_astar plt priority_root priority_of context problem max_iterations
  = Returned (create_result false None 0 false).
Proof. intros H. unfold solve_astar. rewrite H. reflexivity. Qed.

(** C3. [parse_problem] sets [potentially_solvable] to the conjunction of
    four checks: the level is compilable, no 2x2 window of the board is full
    of walls and crates with a crate off its goal, no initial crate is on a
    deadlock cell, and the player reaches every cell that holds a crate or
    a goal but not both.  When [potentially_solvable] is false, [solve_bfs]
    and [solve_astar] return [{solved: false, limit_exceeded: false,
    iterations: 0}] with no actions, without a search. *)
Theorem parse_problem_potentially_solvable (w h capacity : Z) (problem : problem_t)
    (level_str : string) :
  0 <= w <= 253 -> 0 <= h <= 253 ->
  let context := create_context w h capacity in
  exists problem',
    parse_problem context problem level_str = Some (problem', compilable problem')
    /\ let no_2x2 := negb (check_all_2x2_deadlock context problem') in
       let no_dead_crate :=
         negb (bitset_covers_any (crates problem') (deadlocks problem')
                                 (bitset_size context)) in
       let reach := reach_result context problem' in
       potentially_solvable problem'
       = compilable problem' && no_2x2 && no_dead_crate && reach
       /\ (no_2x2 = true <->
           ~ board_deadlock context (walls problem') (goals problem') (crates problem'))
       /\ (compilable problem' && no_2x2 = true ->
           generate_deadlock_map context problem'
           = Some (deadlocks problem', heuristics problem')
           /\ (no_dead_crate = true <->
               forall q, 0 <= q -> get_bit (crates problem') q = true ->
                         get_bit (deadlocks problem') q = false))
       /\ (compilable problem' = true ->
           (reach = true <->
            forall q, 0 <= q ->
              xorb (get_bit (crates problem') q) (get_bit (goals problem') q) = true ->
              reachable context (walls problem') (player problem') q))
       /\ (potentially_solvable problem' = false ->
           forall max_iterations,
             solve_bfs context problem' max_iterations
             = Returned (create_result false None 0 false)
             /\ forall (P : Type) (plt : P -> P -> bool) (priority_root : Z -> P)
                       (priority_of : Z -> Z -> P),
                 solve_astar plt priority_root priority_of context problem'
                             max_iterations
                 = Returned (create_result false None 0 false)).
Proof.
  intros Hw Hh context.
  pose proof (create_context_ok w h capacity Hw Hh) as Hok. fold context in Hok.
  destruct (parse_problem_spec context problem level_str Hok)
    as (p' & Hparse & _ & Hpl & Hwl & Hgl & Hcr & Hcomp & Hps & Hgen).
  exists p'. split; [done|]. cbv zeta.
  pose proof (parse_level_ok context Hok problem level_str) as Hlv.
  rewrite <- Hwl, <- Hgl, <- Hcr in Hlv.
  split; [done|]. split; [|split; [|split]].
  - rewrite negb_true_iff, <- not_true_iff_false.
    rewrite check_all_2x2_deadlock_spec by done. reflexivity.
  - intros H2. split; [apply Hgen; done|].
    rewrite negb_true_iff, <- not_true_iff_false.
    rewrite bitset_covers_any_bits by apply (lv_crates_wf _ _ _ _ Hlv).
    pose proof (bitset_size_nonneg context Hok) as Hb0.
    split.
    + intros Hno q Hq Hc. destruct (get_bit (deadlocks p') q) eqn:Hd; [|done].
      exfalso. apply Hno. exists q. split; [|done].
      split; [done|]. apply get_bit_in in Hc; [|done].
      unfold in_bitset in Hc. rewrite (lv_crates_length _ _ _ _ Hlv) in Hc. lia.
    + intros Hall (q & Hq & Hc & Hd). rewrite Hall in Hd by (done || lia). discriminate.
  - intros Hc. rewrite Hcomp in Hc.
    assert (0 < p_player_count (parse_level context problem level_str)) as Hplayer.
    { apply andb_true_iff in Hc as [Hv _].
      apply andb_true_iff in Hv as [Hv _]. apply Z.eqb_eq in Hv. lia. }
    destruct (parse_level_player_cell context Hok problem level_str Hplayer)
      as (Hpi & _ & _).
    rewrite <- Hpl in Hpi.
    destruct (check_reachability_spec context (crates p') (goals p') (walls p')
                (player p') Hok Hlv Hpi) as (r & Hr & Hiff).
    unfold reach_result. rewrite Hr. exact Hiff.
  - intros Hfalse max_iterations. split.
    + apply solve_bfs_unsolvable. done.
    + intros P plt priority_root priority_of. apply solve_astar_unsolvable. done.
Qed.

(** *** The small levels *)

Lemma parse_problem_A10 :
  parse_problem context_A10 (allocate_problem context_A10) "A10"
  = Some (problem_A10, true).
Proof. vm_compute. reflexivity. Qed.

Lemma parse_problem_A_10 :
  parse_problem context_A_10 (allocate_problem context_A_10) "A.10"
  = Some (problem_A_10, true).
Proof. vm_compute. reflexivity. Qed.


(** ** The heap *)

Section HeapProofs.
Context {P : Type}.
Variable plt : P -> P -> bool.
Hypothesis plt_asym : forall a b, plt a b = true -> plt b a = false.
Hypothesis ple_trans :
  forall a b c, plt b a = false -> plt c b = false -> plt c a = false.

Lemma plt_irrefl (a : P) : plt a a = false.
Proof using plt_asym.
  destruct (plt a a) eqn:H; [|done]. rewrite (plt_asym a a H) in H. done.
Qed.

Lemma heap_at_lookup (min_heap : list nat) (i s : nat) :
  min_heap !! i = Some s -> heap_at min_heap i = s.
Proof using Type. intros H. unfold heap_at. rewrite H. done. Qed.

Lemma lookup_heap_at (min_heap : list nat) (i : nat) :
  (i < length min_heap)%nat -> min_heap !! i = Some (heap_at min_heap i).
Proof using Type.
  intros H. unfold heap_at. destruct (lookup_lt_is_Some_2 min_heap i H) as [s ->]. done.
Qed.

Lemma shiftr1 (i : nat) : Nat.shiftr i 1 = (i / 2)%nat.
Proof using Type. rewrite Nat.shiftr_div_pow2. reflexivity. Qed.

Lemma shiftl1 (i : nat) : Nat.shiftl i 1 = (2 * i)%nat.
Proof using Type. rewrite Nat.shiftl_mul_pow2. simpl. lia. Qed.

Lemma priority_lt_alter (cache : list (state_t P)) (k : Z) (t a b : nat) :
  priority_lt plt (alter (set_heap_index k) t cache) a b = priority_lt plt cache a b.
Proof using Type.
  unfold priority_lt.
  assert (forall s, priority <$> (alter (set_heap_index k) t cache !! s)
                    = priority <$> (cache !! s)) as Hp.
  { intros s. destruct (decide (t = s)) as [->|Hne].
    - rewrite list_lookup_alter_eq. destruct (cache !! s); done.
    - rewrite list_lookup_alter_ne by done. done. }
  pose proof (Hp a) as Ha. pose proof (Hp b) as Hb.
  destruct (alter _ t cache !! a), (cache !! a); simpl in Ha; try done;
    destruct (alter _ t cache !! b), (cache !! b); simpl in Hb; try done;
    congruence.
Qed.

Lemma priority_lt_trans (cache : list (state_t P)) (a b c : nat) :
  is_Some (cache !! b) ->
  priority_lt plt cache b a = false -> priority_lt plt cache c b = false ->
  priority_lt plt cache c a = false.
Proof using ple_trans.
  intros [sb Hb]. unfold priority_lt. rewrite Hb.
  destruct (cache !! a) as [sa|], (cache !! c) as [sc|]; try done.
  apply ple_trans.
Qed.

Lemma priority_lt_asym (cache : list (state_t P)) (a b : nat) :
  priority_lt plt cache a b = true -> priority_lt plt cache b a = false.
Proof using plt_asym.
  unfold priority_lt.
  destruct (cache !! a) as [sa|], (cache !! b) as [sb|]; try done.
  apply plt_asym.
Qed.

Lemma priority_lt_irrefl (cache : list (state_t P)) (a : nat) :
  priority_lt plt cache a a = false.
Proof using plt_asym.
  unfold priority_lt. destruct (cache !! a); [apply plt_irrefl|done].
Qed.

(** The entries of a heap are pairwise different. *)
Lemma heap_but_inj (E : nat -> Prop) (cache : list (state_t P)) (min_heap : list nat)
    (i j : nat) :
  heap_but plt E cache min_heap ->
  (i < length min_heap)%nat -> (j < length min_heap)%nat ->
  heap_at min_heap i = heap_at min_heap j -> i = j.
Proof using Type.
  intros [Hst _] Hi Hj Heq.
  destruct (Hst i _ (lookup_heap_at _ _ Hi)) as (si & Hsi & Hii).
  destruct (Hst j _ (lookup_heap_at _ _ Hj)) as (sj & Hsj & Hij).
  rewrite Heq in Hsi. rewrite Hsi in Hsj. injection Hsj as <-. lia.
Qed.

(** Two entries change places. *)
Lemma swap_states (E : nat -> Prop) (cache : list (state_t P)) (min_heap : list nat)
    (i j : nat) :
  heap_but plt E cache min_heap ->
  (i < length min_heap)%nat -> (j < length min_heap)%nat -> i <> j ->
  let a := heap_at min_heap i in
  let b := heap_at min_heap j in
  let cache' := alter (set_heap_index (Z.of_nat i)) b
                      (alter (set_heap_index (Z.of_nat j)) a cache) in
  let min_heap' := <[i := b]> (<[j := a]> min_heap) in
  (forall k s, min_heap' !! k = Some s ->
     exists st, cache' !! s = Some st /\ heap_index st = Z.of_nat k)
  /\ length min_heap' = length min_heap
  /\ (forall k, (k < length min_heap)%nat ->
        heap_at min_heap' k
        = if decide (k = i) then b else if decide (k = j) then a
          else heap_at min_heap k)
  /\ (forall x y, priority_lt plt cache' x y = priority_lt plt cache x y).
Proof using Type.
  intros Hhb Hi Hj Hij a b cache' min_heap'.
  assert (a <> b) as Hab.
  { intros Heq. apply Hij. eapply heap_but_inj; done. }
  assert (forall k, (k < length min_heap)%nat ->
            heap_at min_heap' k
            = if decide (k = i) then b else if decide (k = j) then a
              else heap_at min_heap k) as Hat.
  { intros k Hk. unfold heap_at, min_heap'.
    destruct (decide (k = i)) as [->|Hki].
    - rewrite list_lookup_insert_eq by (rewrite length_insert; done). done.
    - rewrite list_lookup_insert_ne by done.
      destruct (decide (k = j)) as [->|Hkj].
      + rewrite list_lookup_insert_eq by done. done.
      + rewrite list_lookup_insert_ne by done. done. }
  assert (length min_heap' = length min_heap) as Hlen
    by (unfold min_heap'; rewrite !length_insert; done).
  split; [|split; [done|split; [done|]]].
  - intros k s Hk.
    pose proof (lookup_lt_Some _ _ _ Hk) as Hklt. rewrite Hlen in Hklt.
    apply heap_at_lookup in Hk. rewrite Hat in Hk by done. unfold cache'.
    pose proof (hb_states _ _ _ _ Hhb) as Hst.
    destruct (decide (k = i)) as [->|Hki].
    + subst s. rewrite list_lookup_alter_eq.
      rewrite list_lookup_alter_ne by done.
      destruct (Hst j b (lookup_heap_at _ _ Hj)) as (st & -> & _).
      eexists. split; [reflexivity|]. done.
    + destruct (decide (k = j)) as [->|Hkj].
      * subst s. rewrite list_lookup_alter_ne by done.
        rewrite list_lookup_alter_eq.
        destruct (Hst i a (lookup_heap_at _ _ Hi)) as (st & -> & _).
        eexists. split; [reflexivity|]. done.
      * subst s.
        assert (heap_at min_heap k <> a) as Hka.
        { intros Heq. apply Hki. eapply (heap_but_inj E); done. }
        assert (heap_at min_heap k <> b) as Hkb.
        { intros Heq. apply Hkj. eapply (heap_but_inj E); done. }
        rewrite !list_lookup_alter_ne by done.
        apply Hst. apply lookup_heap_at. done.
  - intros x y. unfold cache'. rewrite !priority_lt_alter. done.
Qed.

Lemma fmap_alter_heap_index (cache : list (state_t P)) (k : Z) (t : nat) :
  set_heap_index 0 <$> alter (set_heap_index k) t cache = set_heap_index 0 <$> cache.
Proof using Type.
  apply list_eq. intros s. rewrite !list_lookup_fmap.
  destruct (decide (t = s)) as [->|Hne].
  - rewrite list_lookup_alter_eq. destruct (cache !! s); done.
  - rewrite list_lookup_alter_ne by done. done.
Qed.

Lemma elem_of_heap_at (min_heap : list nat) (s : nat) :
  s ∈ min_heap <-> exists k, (k < length min_heap)%nat /\ heap_at min_heap k = s.
Proof using Type.
  rewrite list_elem_of_lookup. split.
  - intros [k Hk]. exists k. split; [eapply lookup_lt_Some; done|].
    apply heap_at_lookup. done.
  - intros (k & Hk & <-). exists k. apply lookup_heap_at. done.
Qed.

Lemma swap_elems (min_heap : list nat) (i j : nat) (s : nat) :
  (i < length min_heap)%nat -> (j < length min_heap)%nat ->
  s ∈ <[i := heap_at min_heap j]> (<[j := heap_at min_heap i]> min_heap)
  <-> s ∈ min_heap.
Proof using Type.
  intros Hi Hj.
  assert (forall k, (k < length min_heap)%nat ->
            heap_at (<[i := heap_at min_heap j]> (<[j := heap_at min_heap i]> min_heap)) k
            = if decide (k = i) then heap_at min_heap j
              else if decide (k = j) then heap_at min_heap i
              else heap_at min_heap k) as Hat.
  { intros k Hk. unfold heap_at at 1.
    destruct (decide (k = i)) as [->|Hki].
    - rewrite list_lookup_insert_eq by (rewrite length_insert; done). done.
    - rewrite list_lookup_insert_ne by done.
      destruct (decide (k = j)) as [->|Hkj].
      + rewrite list_lookup_insert_eq by done. done.
      + rewrite list_lookup_insert_ne by done. done. }
  rewrite !elem_of_heap_at. rewrite !length_insert. split.
  - intros (k & Hk & <-). rewrite Hat by done. repeat case_decide; eauto.
  - intros (k & Hk & <-).
    destruct (decide (k = i)) as [->|Hki].
    + exists j. split; [done|]. rewrite Hat by done.
      repeat case_decide; subst; done.
    + destruct (decide (k = j)) as [->|Hkj].
      * exists i. split; [done|]. rewrite Hat by done. rewrite decide_True; done.
      * exists k. split; [done|]. rewrite Hat by done.
        rewrite !decide_False by done. done.
Qed.

Lemma swap_frame (cache : list (state_t P)) (min_heap : list nat)
    (i j : nat) (ki kj : Z) (s : nat) :
  (i < length min_heap)%nat -> (j < length min_heap)%nat -> s ∉ min_heap ->
  alter (set_heap_index ki) (heap_at min_heap i)
        (alter (set_heap_index kj) (heap_at min_heap j) cache) !! s
  = cache !! s.
Proof using Type.
  intros Hi Hj Hs.
  rewrite !list_lookup_alter_ne; [done| |].
  - intros <-. apply Hs. apply elem_of_heap_at. eauto.
  - intros <-. apply Hs. apply elem_of_heap_at. eauto.
Qed.

Lemma heapify_bottomup_loop_ok (fuel : nat) (cache : list (state_t P))
    (min_heap : list nat) (node : nat) :
  (node <= fuel)%nat -> (node < length min_heap)%nat ->
  heap_but plt (fun i => i = node) cache min_heap ->
  (forall k, (1 <= k < length min_heap)%nat -> (k / 2 = node)%nat -> k <> node ->
     (1 <= node)%nat ->
     priority_lt plt cache (heap_at min_heap k) (heap_at min_heap (node / 2)) = false) ->
  exists cache' min_heap',
    heapify_bottomup_loop plt fuel cache min_heap (heap_at min_heap node) node
    = (cache', min_heap')
    /\ heap_ok plt cache' min_heap'
    /\ length min_heap' = length min_heap
    /\ (forall s, s ∈ min_heap' <-> s ∈ min_heap)
    /\ set_heap_index 0 <$> cache' = set_heap_index 0 <$> cache
    /\ (forall s, s ∉ min_heap -> cache' !! s = cache !! s).
Proof using plt_asym ple_trans.
  revert cache min_heap node.
  induction fuel as [|fuel IH]; intros cache min_heap node Hfuel Hnode Hhb Hgp.
  - assert (node = 0)%nat as -> by lia. simpl.
    eexists _, _. split; [done|]. split; [|by repeat split].
    destruct Hhb as [Hst Hord]. split; [done|].
    intros i Hi. apply Hord; [done|lia].
  - cbn [heapify_bottomup_loop].
    destruct (Nat.eqb_spec node 0) as [->|Hn0].
    { eexists _, _. split; [done|]. split; [|by repeat split].
      destruct Hhb as [Hst Hord]. split; [done|].
      intros i Hi. apply Hord; [done|lia]. }
    rewrite shiftr1.
    set (pi := (node / 2)%nat).
    assert (pi < node)%nat as Hpi by (unfold pi; apply Nat.div_lt; lia).
    set (last := heap_at min_heap node).
    set (parent := heap_at min_heap pi).
    pose proof (hb_states _ _ _ _ Hhb) as Hst.
    pose proof (hb_order _ _ _ _ Hhb) as Hord.
    destruct (priority_lt plt cache last parent) eqn:Hlt.
    2:{ eexists _, _. split; [done|]. split; [|by repeat split].
        split; [done|]. intros i Hi. rewrite shiftr1.
        destruct (decide (i = node)) as [->|Hne].
        - exact Hlt.
        - rewrite <- shiftr1. apply Hord; done. }
    destruct (swap_states (fun i => i = node) cache min_heap node pi Hhb
                Hnode ltac:(lia) ltac:(lia)) as (Hst' & Hlen' & Hat' & Hprio').
    fold last parent in Hst', Hlen', Hat', Hprio'.
    set (cache' := alter (set_heap_index (Z.of_nat node)) parent
                         (alter (set_heap_index (Z.of_nat pi)) last cache)) in *.
    set (min_heap' := <[node := parent]> (<[pi := last]> min_heap)) in *.
    assert (last = heap_at min_heap' pi) as Hlast.
    { rewrite Hat' by lia. rewrite decide_False by lia. rewrite decide_True by done.
      done. }
    rewrite Hlast.
    assert (is_Some (cache !! parent)) as Hparent.
    { destruct (Hst pi parent (lookup_heap_at min_heap pi ltac:(lia))) as (st & -> & _). done. }
    assert (is_Some (cache !! last)) as Hlast_some.
    { destruct (Hst node last (lookup_heap_at min_heap node ltac:(lia))) as (st & -> & _). done. }
    destruct (IH cache' min_heap' pi)
      as (c2 & h2 & Hloop & Hok2 & Hlen2 & Hperm2 & Hframe2 & Hout2).
    + lia.
    + lia.
    + split; [done|]. intros k Hk Hkpi. rewrite Hprio', shiftr1.
      rewrite Hlen' in Hk.
      assert (k / 2 < length min_heap)%nat as Hk2
        by (pose proof (Nat.div_lt k 2); lia).
      rewrite (Hat' k), (Hat' (k / 2)%nat) by lia.
      destruct (decide (k = node)) as [->|Hkn].
      * fold pi. rewrite (decide_False (P := pi = node)) by lia.
        rewrite (decide_True (P := pi = pi)) by done.
        apply priority_lt_asym. done.
      * rewrite (decide_False (P := k = pi)) by done.
        destruct (decide (k / 2 = node)%nat) as [Hc|Hc].
        -- apply Hgp; try done. lia.
        -- destruct (decide (k / 2 = pi)%nat) as [Hs|Hs].
           ++ apply (priority_lt_trans cache last parent); [done| |].
              ** apply priority_lt_asym. done.
              ** unfold parent. rewrite <- Hs, <- shiftr1. apply Hord; done.
           ++ rewrite <- shiftr1. apply Hord; done.
    + intros k Hk Hk2 Hkpi Hpi1. rewrite Hprio'. rewrite Hlen' in Hk.
      assert (pi / 2 < pi)%nat as Hpp by (apply Nat.div_lt; lia).
      rewrite (Hat' k), (Hat' (pi / 2)%nat) by lia.
      rewrite (decide_False (P := (pi / 2)%nat = node)) by lia.
      rewrite (decide_False (P := (pi / 2)%nat = pi)) by lia.
      rewrite (decide_False (P := k = pi)) by done.
      assert (priority_lt plt cache parent (heap_at min_heap (pi / 2)) = false) as Hpp'.
      { unfold parent. rewrite <- shiftr1. apply Hord; lia. }
      destruct (decide (k = node)) as [->|Hkn]; [done|].
      apply (priority_lt_trans cache _ parent); [done|done|].
      unfold parent. rewrite <- Hk2, <- shiftr1. apply Hord; done.
    + exists c2, h2. split; [exact Hloop|]. split; [done|].
      split; [lia|]. split; [|split].
      * intros s. rewrite Hperm2. unfold min_heap', parent, last.
        apply swap_elems; lia.
      * rewrite Hframe2. unfold cache'. rewrite !fmap_alter_heap_index. done.
      * intros s Hs. rewrite Hout2.
        -- unfold cache', parent, last. apply swap_frame; [lia|lia|done].
        -- unfold min_heap', parent, last. rewrite swap_elems by lia. done.
Qed.
Lemma heapify_topdown_loop_ok (fuel : nat) (cache : list (state_t P))
    (min_heap : list nat) (r : nat) :
  (r < length min_heap)%nat -> (length min_heap <= fuel + r)%nat ->
  heap_but plt (fun i => (i / 2 = r)%nat /\ i <> r) cache min_heap ->
  (forall k, (1 <= k < length min_heap)%nat -> (k / 2 = r)%nat -> k <> r ->
     (1 <= r)%nat ->
     priority_lt plt cache (heap_at min_heap k) (heap_at min_heap (r / 2)) = false) ->
  exists cache' min_heap',
    heapify_topdown_loop plt fuel cache min_heap (heap_at min_heap r) r
    = (cache', min_heap')
    /\ heap_ok plt cache' min_heap'
    /\ length min_heap' = length min_heap
    /\ (forall s, s ∈ min_heap' <-> s ∈ min_heap)
    /\ set_heap_index 0 <$> cache' = set_heap_index 0 <$> cache
    /\ (forall s, s ∉ min_heap -> cache' !! s = cache !! s).
Proof using plt_asym ple_trans.
  revert cache min_heap r.
  induction fuel as [|fuel IH]; intros cache min_heap r Hr Hfuel Hhb Hgp; [lia|].
  cbn [heapify_topdown_loop]. rewrite shiftl1.
  pose proof (hb_states _ _ _ _ Hhb) as Hst.
  pose proof (hb_order _ _ _ _ Hhb) as Hord.
  assert (forall k, (k / 2 = r)%nat -> (k = 2 * r \/ k = 2 * r + 1)%nat) as Hkids.
  { intros k Hk. pose proof (Nat.div_mod_eq k 2) as Hdm.
    pose proof (Nat.mod_upper_bound k 2). lia. }
  destruct (Nat.leb_spec (length min_heap) (2 * r)) as [Hleaf|Hc1].
  { eexists _, _. split; [done|]. split; [|by repeat split].
    split; [done|]. intros i Hi. apply Hord; [done|].
    intros [Hi2 _]. destruct (Hkids i Hi2); lia. }
  set (root := heap_at min_heap r).
  set (mc := if _ && _ then _ else _).
  assert ((mc < length min_heap)%nat /\ (mc / 2 = r)%nat
          /\ forall k, (k < length min_heap)%nat -> (k / 2 = r)%nat ->
                priority_lt plt cache (heap_at min_heap k) (heap_at min_heap mc) = false)
    as (Hmc & Hmcr & Hmin).
  { unfold mc.
    destruct (Nat.ltb_spec (2 * r + 1) (length min_heap)) as [Hc2|Hc2]; cbn [andb].
    - destruct (priority_lt plt cache (heap_at min_heap (2 * r + 1))
                            (heap_at min_heap (2 * r))) eqn:Hcmp.
      + split; [lia|]. split.
        { replace (2 * r + 1)%nat with (1 + r * 2)%nat by lia.
          rewrite Nat.div_add by lia. done. }
        intros k Hk Hk2. destruct (Hkids k Hk2) as [->| ->].
        * apply priority_lt_asym. done.
        * apply priority_lt_irrefl.
      + split; [lia|]. split.
        { rewrite Nat.mul_comm, Nat.div_mul by lia. done. }
        intros k Hk Hk2. destruct (Hkids k Hk2) as [->| ->].
        * apply priority_lt_irrefl.
        * done.
    - split; [lia|]. split.
      { rewrite Nat.mul_comm, Nat.div_mul by lia. done. }
      intros k Hk Hk2. destruct (Hkids k Hk2) as [->| ->].
      + apply priority_lt_irrefl.
      + lia. }
  clearbody mc.
  set (child := heap_at min_heap mc).
  assert (is_Some (cache !! child)) as Hchild.
  { destruct (Hst mc child (lookup_heap_at min_heap mc Hmc)) as (st & -> & _). done. }
  destruct (priority_lt plt cache child root) eqn:Hlt.
  2:{ eexists _, _. split; [done|]. split; [|by repeat split].
      split; [done|]. intros i Hi. rewrite shiftr1.
      destruct (decide ((i / 2 = r)%nat /\ i <> r)) as [[Hi2 Hir]|Hne].
      - rewrite Hi2. apply (priority_lt_trans cache _ child); [done|done|].
        apply Hmin; [lia|done].
      - rewrite <- shiftr1. apply Hord; done. }
  assert (mc <> r) as Hmcne.
  { intros ->. unfold child, root in Hlt. rewrite priority_lt_irrefl in Hlt. done. }
  assert (r < mc)%nat as Hrmc.
  { destruct (Hkids mc Hmcr); lia. }
  destruct (swap_states _ cache min_heap mc r Hhb Hmc Hr Hmcne)
    as (Hst' & Hlen' & Hat' & Hprio').
  fold child root in Hst', Hlen', Hat', Hprio'.
  set (cache' := alter (set_heap_index (Z.of_nat mc)) root
                       (alter (set_heap_index (Z.of_nat r)) child cache)) in *.
  set (min_heap' := <[mc := root]> (<[r := child]> min_heap)) in *.
  assert (root = heap_at min_heap' mc) as Hroot.
  { rewrite Hat' by lia. rewrite decide_True by done. done. }
  rewrite Hroot.
  destruct (IH cache' min_heap' mc)
    as (c2 & h2 & Hloop & Hok2 & Hlen2 & Hperm2 & Hframe2 & Hout2).
  - lia.
  - lia.
  - split; [done|]. intros k Hk HnE. rewrite Hprio', shiftr1.
    rewrite Hlen' in Hk.
    assert (k / 2 < k)%nat as Hk2 by (apply Nat.div_lt; lia).
    rewrite (Hat' k), (Hat' (k / 2)%nat) by lia.
    destruct (decide (k = mc)) as [->|Hkmc].
    + rewrite Hmcr. rewrite (decide_False (P := r = mc)) by lia.
      rewrite (decide_True (P := r = r)) by done.
      apply priority_lt_asym. done.
    + destruct (decide (k / 2 = mc)%nat) as [Hc|Hc]; [exfalso; apply HnE; done|].
      destruct (decide (k = r)) as [->|Hkr].
      * rewrite (decide_False (P := (r / 2)%nat = r)) by lia.
        apply Hgp; [lia|done|done|lia].
      * destruct (decide (k / 2 = r)%nat) as [Hs|Hs].
        -- apply Hmin; [lia|done].
        -- rewrite <- shiftr1. apply Hord; [done|]. intros [? _]. done.
  - intros k Hk Hk2 Hkmc Hmc1. rewrite Hprio'. rewrite Hlen' in Hk.
    assert (k <> r) as Hkr.
    { intros ->. pose proof (Nat.div_lt r 2). lia. }
    rewrite (Hat' k), (Hat' (mc / 2)%nat) by lia.
    rewrite Hmcr.
    rewrite (decide_False (P := k = mc)) by done.
    rewrite (decide_False (P := k = r)) by done.
    rewrite (decide_False (P := r = mc)) by lia.
    rewrite (decide_True (P := r = r)) by done.
    unfold child. rewrite <- Hk2, <- shiftr1. apply Hord; [done|].
    intros [? _]. lia.
  - exists c2, h2. split; [exact Hloop|]. split; [done|].
    split; [lia|]. split; [|split].
    + intros s. rewrite Hperm2. unfold min_heap', root, child.
      apply swap_elems; lia.
    + rewrite Hframe2. unfold cache'. rewrite !fmap_alter_heap_index. done.
    + intros s Hs. rewrite Hout2.
      * unfold cache', root, child. apply swap_frame; [lia|lia|done].
      * unfold min_heap', root, child. rewrite swap_elems by lia. done.
Qed.
Lemma heap_ok_but (E : nat -> Prop) (cache : list (state_t P)) (min_heap : list nat) :
  heap_ok plt cache min_heap -> heap_but plt E cache min_heap.
Proof using Type. intros [Hst Hord]. split; [done|]. intros i Hi _. apply Hord. done. Qed.

Lemma heap_ok_nil (cache : list (state_t P)) : heap_ok plt cache [].
Proof using Type. split; [intros i s Hs; done|]. simpl. lia. Qed.



Lemma heap_at_app_l (min_heap : list nat) (x i : nat) :
  (i < length min_heap)%nat -> heap_at (min_heap ++ [x]) i = heap_at min_heap i.
Proof using Type. intros Hi. unfold heap_at. rewrite lookup_app_l by done. done. Qed.

Lemma heap_insert_ok (cache : list (state_t P)) (min_heap : list nat) (element : nat) :
  heap_ok plt cache min_heap -> is_Some (cache !! element) -> element ∉ min_heap ->
  exists cache' min_heap',
    heap_insert plt cache min_heap element = (cache', min_heap')
    /\ heap_ok plt cache' min_heap'
    /\ length min_heap' = S (length min_heap)
    /\ (forall s, s ∈ min_heap' <-> s = element \/ s ∈ min_heap)
    /\ set_heap_index 0 <$> cache' = set_heap_index 0 <$> cache
    /\ (forall s, s ∉ min_heap -> s <> element -> cache' !! s = cache !! s).
Proof using plt_asym ple_trans.
  intros Hok [st Hel] Hnew. unfold heap_insert, heapify_bottomup.
  set (index := length min_heap).
  set (cache1 := alter (set_heap_index (Z.of_nat index)) element cache).
  set (min_heap1 := min_heap ++ [element]).
  assert (length min_heap1 = S index) as Hlen1
    by (unfold min_heap1; rewrite length_app; simpl; lia).
  assert (forall s, s ∈ min_heap1 <-> s = element \/ s ∈ min_heap) as Hmem1.
  { intros s. unfold min_heap1. rewrite elem_of_app, list_elem_of_singleton. tauto. }
  assert (heap_at min_heap1 index = element) as Hlast.
  { unfold heap_at, min_heap1. rewrite lookup_app_r by done.
    replace (index - length min_heap)%nat with 0%nat by (unfold index; lia). done. }
  assert (heap_but plt (fun i => i = index) cache1 min_heap1) as Hhb.
  { destruct Hok as [Hst Hord]. split.
    - intros i s Hs. destruct (decide (i < index)%nat) as [Hi|Hi].
      + unfold min_heap1 in Hs. rewrite lookup_app_l in Hs by done.
        unfold cache1. rewrite list_lookup_alter_ne; [apply Hst; done|].
        intros <-. apply Hnew. eapply list_elem_of_lookup_2. done.
      + pose proof (lookup_lt_Some _ _ _ Hs) as Hlt. rewrite Hlen1 in Hlt.
        assert (i = index) as -> by lia.
        apply heap_at_lookup in Hs. rewrite Hlast in Hs. subst s.
        unfold cache1. rewrite list_lookup_alter_eq, Hel. simpl. eauto.
    - intros i Hi Hne. rewrite Hlen1 in Hi.
      assert (i / 2 < i)%nat by (apply Nat.div_lt; lia).
      unfold cache1, min_heap1. rewrite priority_lt_alter, shiftr1.
      rewrite !heap_at_app_l by (fold index; lia).
      rewrite <- shiftr1. apply Hord. fold index. lia. }
  destruct (Nat.ltb_spec 0 index) as [Hpos|Hzero].
  - rewrite Hlast.
    destruct (heapify_bottomup_loop_ok index cache1 min_heap1 index)
      as (c2 & h2 & Hloop & Hok2 & Hlen2 & Hperm2 & Hframe2 & Hout2);
      [lia|lia|done| |].
    + intros k Hk Hk2 Hkn _. rewrite Hlen1 in Hk.
      pose proof (Nat.div_mod_eq k 2). lia.
    + rewrite Hlast in Hloop. exists c2, h2. split; [done|]. split; [done|].
      split; [lia|]. split; [|split].
      * intros s. rewrite Hperm2. apply Hmem1.
      * rewrite Hframe2. unfold cache1. apply fmap_alter_heap_index.
      * intros s Hs Hse. rewrite Hout2.
        -- unfold cache1. rewrite list_lookup_alter_ne; done.
        -- rewrite Hmem1. tauto.
  - exists cache1, min_heap1. split; [done|]. split.
    { destruct Hhb as [Hst1 _]. split; [done|]. rewrite Hlen1. lia. }
    split; [done|]. split; [done|]. split.
    + unfold cache1. apply fmap_alter_heap_index.
    + intros s Hs Hse. unfold cache1. rewrite list_lookup_alter_ne; done.
Qed.
Lemma heap_pop_ok (cache : list (state_t P)) (min_heap : list nat) :
  heap_ok plt cache min_heap -> min_heap <> [] ->
  exists cache' min_heap',
    heap_pop plt cache min_heap = Some (heap_at min_heap 0, cache', min_heap')
    /\ heap_ok plt cache' min_heap'
    /\ S (length min_heap') = length min_heap
    /\ (forall s, s ∈ min_heap <-> s = heap_at min_heap 0 \/ s ∈ min_heap')
    /\ (heap_at min_heap 0 ∉ min_heap')
    /\ set_heap_index 0 <$> cache' = set_heap_index 0 <$> cache
    /\ (forall s, s ∉ min_heap' -> cache' !! s = cache !! s).
Proof using plt_asym ple_trans.
  intros Hok Hne. unfold heap_pop.
  destruct min_heap as [|x tl] eqn:Hheap; [done|]. rewrite <- Hheap in *. clear Hne.
  assert (0 < length min_heap)%nat as Hlen0 by (rewrite Hheap; simpl; lia).
  set (last_index := (length min_heap - 1)%nat).
  set (root := heap_at min_heap 0).
  destruct (Nat.eqb_spec last_index 0) as [Hone|Hmore].
  { exists cache, []. split; [done|]. split; [apply heap_ok_nil|].
    split; [simpl; lia|]. split; [|split; [|done]].
    - intros s. rewrite elem_of_heap_at. split.
      + intros (k & Hk & <-). left. replace k with 0%nat by lia. done.
      + intros [->|Hs]; [|by apply elem_of_nil in Hs]. exists 0%nat. done.
    - apply not_elem_of_nil. }
  set (last := heap_at min_heap last_index).
  set (cache1 := alter (set_heap_index 0) last cache).
  set (min_heap1 := take last_index (<[0%nat := last]> min_heap)).
  assert (length min_heap1 = last_index) as Hlen1.
  { unfold min_heap1. rewrite length_take, length_insert. lia. }
  assert (forall k, (k < last_index)%nat ->
            heap_at min_heap1 k = if decide (k = 0%nat) then last else heap_at min_heap k)
    as Hat1.
  { intros k Hk. unfold heap_at at 1, min_heap1. rewrite lookup_take_lt by done.
    destruct (decide (k = 0%nat)) as [->|Hk0].
    - rewrite list_lookup_insert_eq by lia. done.
    - rewrite list_lookup_insert_ne by done. done. }
  pose proof (heap_ok_but (fun _ => False) _ _ Hok) as Hhb0.
  assert (forall i j, (i < length min_heap)%nat -> (j < length min_heap)%nat ->
            heap_at min_heap i = heap_at min_heap j -> i = j) as Hinj.
  { intros i j. apply (heap_but_inj _ _ _ _ _ Hhb0). }
  assert (forall s, s ∈ min_heap <-> s = root \/ s ∈ min_heap1) as Hmem1.
  { intros s. rewrite !elem_of_heap_at, Hlen1. split.
    - intros (k & Hk & <-). destruct (decide (k = 0%nat)) as [->|Hk0]; [left; done|].
      right. destruct (decide (k = last_index)) as [->|Hkl].
      + exists 0%nat. split; [lia|]. rewrite Hat1 by lia. done.
      + exists k. split; [lia|]. rewrite Hat1 by lia. rewrite decide_False; done.
    - intros [->|(k & Hk & <-)]; [exists 0%nat; done|].
      rewrite Hat1 by done. case_decide.
      + exists last_index. split; [lia|done].
      + exists k. split; [lia|done]. }
  assert (root ∉ min_heap1) as Hroot.
  { rewrite elem_of_heap_at, Hlen1. intros (k & Hk & Heq).
    rewrite Hat1 in Heq by done. case_decide.
    - apply Hinj in Heq; lia.
    - apply Hinj in Heq; lia. }
  assert (heap_but plt (fun i => (i / 2 = 0)%nat /\ i <> 0%nat) cache1 min_heap1) as Hhb.
  { destruct Hok as [Hst Hord]. split.
    - intros i s Hs. pose proof (lookup_lt_Some _ _ _ Hs) as Hi. rewrite Hlen1 in Hi.
      apply heap_at_lookup in Hs. rewrite Hat1 in Hs by done. unfold cache1.
      destruct (decide (i = 0%nat)) as [->|Hi0].
      + subst s. rewrite list_lookup_alter_eq.
        destruct (Hst last_index last (lookup_heap_at min_heap last_index ltac:(lia)))
          as (st & -> & _).
        simpl. eauto.
      + subst s. rewrite list_lookup_alter_ne.
        * apply Hst. apply lookup_heap_at. lia.
        * intros Heq. apply Hinj in Heq; lia.
    - intros i Hi HnE. rewrite Hlen1 in Hi. unfold cache1.
      rewrite priority_lt_alter, shiftr1.
      assert (i / 2 < i)%nat by (apply Nat.div_lt; lia).
      assert (i / 2 <> 0)%nat as Hp0 by (intros Hz; apply HnE; split; [done|lia]).
      rewrite !Hat1 by lia. rewrite !decide_False by lia.
      rewrite <- shiftr1. apply Hord. lia. }
  unfold heapify_topdown.
  assert (heap_at min_heap1 0 = last) as Hh0.
  { rewrite Hat1 by lia. done. }
  destruct (heapify_topdown_loop_ok (length min_heap1) cache1 min_heap1 0)
    as (c2 & h2 & Hloop & Hok2 & Hlen2 & Hperm2 & Hframe2 & Hout2);
    [lia|lia|done|intros; lia|].
  rewrite Hloop. exists c2, h2. split; [done|]. split; [done|].
  split; [lia|]. split; [|split; [|split]].
  - intros s. rewrite Hperm2. apply Hmem1.
  - rewrite Hperm2. done.
  - rewrite Hframe2. unfold cache1. apply fmap_alter_heap_index.
  - intros s Hs. rewrite Hperm2 in Hs. rewrite Hout2 by done.
    unfold cache1. rewrite list_lookup_alter_ne; [done|].
    intros <-. apply Hs. rewrite <- Hh0. apply elem_of_heap_at.
    exists 0%nat. split; [lia|done].
Qed.


(** No entry has a lower priority than the entry at index 0. *)
Lemma heap_root_min (cache : list (state_t P)) (min_heap : list nat) (i : nat) :
  heap_ok plt cache min_heap -> (i < length min_heap)%nat ->
  priority_lt plt cache (heap_at min_heap i) (heap_at min_heap 0) = false.
Proof using plt_asym ple_trans.
  intros [Hst Hord]. induction (lt_wf i) as [i _ IH]. intros Hi.
  destruct (decide (i = 0%nat)) as [->|Hi0]; [apply priority_lt_irrefl|].
  assert (i / 2 < i)%nat as Hhalf by (apply Nat.div_lt; lia).
  apply (priority_lt_trans cache _ (heap_at min_heap (i / 2))).
  - destruct (Hst (i / 2)%nat _ (lookup_heap_at min_heap (i / 2)%nat ltac:(lia)))
      as (st & -> & _).
    done.
  - apply IH; lia.
  - rewrite <- shiftr1. apply Hord. lia.
Qed.
(** *** The heap between the operations of solve_astar *)

Lemma frame_lookup (cache cache' : list (state_t P)) (s : nat) (x' : state_t P) :
  set_heap_index 0 <$> cache' = set_heap_index 0 <$> cache ->
  cache' !! s = Some x' ->
  exists x, cache !! s = Some x /\ set_heap_index 0 x' = set_heap_index 0 x.
Proof using Type.
  intros Hframe Hs.
  assert ((set_heap_index 0 <$> cache') !! s = Some (set_heap_index 0 x')) as Hs'
    by (rewrite list_lookup_fmap, Hs; done).
  rewrite Hframe, list_lookup_fmap in Hs'.
  destruct (cache !! s) as [x|]; [|done]. exists x. split; [done|].
  simpl in Hs'. congruence.
Qed.

Lemma frame_length (cache cache' : list (state_t P)) :
  set_heap_index 0 <$> cache' = set_heap_index 0 <$> cache ->
  length cache' = length cache.
Proof using Type.
  intros Hframe. apply (f_equal length) in Hframe.
  rewrite !length_fmap in Hframe. done.
Qed.



End HeapProofs.

Lemma frame_fields {P} (x' x : state_t P) :
  set_heap_index 0 x' = set_heap_index 0 x ->
  priority x' = priority x /\ heuristic x' = heuristic x /\ cost x' = cost x
  /\ parent x' = parent x /\ action x' = action x
  /\ state_player x' = state_player x /\ state_crates x' = state_crates x.
Proof.
  intros H. unfold set_heap_index in H. injection H as -> -> -> -> -> -> ->. done.
Qed.

Section AStarHeap.
Context {P : Type}.
Variable plt : P -> P -> bool.
Variable priority_root : Z -> P.
Variable priority_of : Z -> Z -> P.
Variable context : context_t.
Variable problem : problem_t.
Hypothesis plt_asym : forall a b, plt a b = true -> plt b a = false.
Hypothesis ple_trans :
  forall a b c, plt b a = false -> plt c b = false -> plt c a = false.
(** A lower cost gives no higher priority value. *)
Hypothesis priority_mono :
  forall c c' h, 0 <= c' <= c -> plt (priority_of c h) (priority_of c' h) = false.

Local Abbreviation inv := (astar_inv plt priority_of).










End AStarHeap.



(** ** The heap indices, whatever the order of the priorities *)

Section HeapLinks.
Context {P : Type}.
Variable plt : P -> P -> bool.

Lemma linked_but (cache : list (state_t P)) (min_heap : list nat) :
  heap_linked cache min_heap -> heap_but plt (fun _ => True) cache min_heap.
Proof using Type. intros H. split; [exact H|]. intros i _ Hn. exfalso. apply Hn. done. Qed.


Lemma linked_inj (cache : list (state_t P)) (min_heap : list nat) (i j : nat) :
  heap_linked cache min_heap ->
  (i < length min_heap)%nat -> (j < length min_heap)%nat ->
  heap_at min_heap i = heap_at min_heap j -> i = j.
Proof using plt.
  intros H. apply (heap_but_inj plt (fun _ => True) cache). apply linked_but. done.
Qed.

Lemma linked_state (cache : list (state_t P)) (min_heap : list nat) (s : nat) :
  heap_linked cache min_heap -> s ∈ min_heap ->
  exists st, cache !! s = Some st
             /\ min_heap !! Z.to_nat (heap_index st) = Some s /\ 0 <= heap_index st.
Proof using Type.
  intros Hst Hs. apply list_elem_of_lookup in Hs as [i Hi].
  destruct (Hst i s Hi) as (st & Hc & Hx). exists st. rewrite Hx, Nat2Z.id.
  split; [done|]. split; [done|lia].
Qed.

Lemma heap_moved_refl (cache : list (state_t P)) (min_heap : list nat) :
  heap_linked cache min_heap -> heap_moved cache min_heap cache min_heap.
Proof using Type. intros H. repeat split; done. Qed.

Lemma heap_moved_trans (c1 c2 c3 : list (state_t P)) (h1 h2 h3 : list nat) :
  heap_moved c1 h1 c2 h2 -> heap_moved c2 h2 c3 h3 -> heap_moved c1 h1 c3 h3.
Proof using Type.
  intros (_ & Hl1 & Hm1 & Hf1 & Ho1) (Hk2 & Hl2 & Hm2 & Hf2 & Ho2).
  split; [done|]. split; [lia|]. split; [|split].
  - intros s. rewrite Hm2. apply Hm1.
  - rewrite Hf2. done.
  - intros s Hs. rewrite Ho2 by (rewrite Hm1; done). apply Ho1. done.
Qed.

(** Two entries change places; they may be the same entry. *)
Lemma swap_linked (cache : list (state_t P)) (min_heap : list nat) (i j : nat) :
  heap_linked cache min_heap ->
  (i < length min_heap)%nat -> (j < length min_heap)%nat ->
  heap_moved cache min_heap
    (alter (set_heap_index (Z.of_nat i)) (heap_at min_heap j)
           (alter (set_heap_index (Z.of_nat j)) (heap_at min_heap i) cache))
    (<[i := heap_at min_heap j]> (<[j := heap_at min_heap i]> min_heap))
  /\ heap_at (<[i := heap_at min_heap j]> (<[j := heap_at min_heap i]> min_heap)) j
     = heap_at min_heap i.
Proof using plt.
  intros Hlk Hi Hj.
  assert (heap_at (<[i := heap_at min_heap j]> (<[j := heap_at min_heap i]> min_heap)) j
          = heap_at min_heap i) as Hat.
  { unfold heap_at at 1. destruct (decide (i = j)) as [->|Hne].
    - rewrite list_lookup_insert_eq by (rewrite length_insert; done). done.
    - rewrite list_lookup_insert_ne by done.
      rewrite list_lookup_insert_eq by done. done. }
  split; [|exact Hat].
  split; [|split; [|split; [|split]]].
  - destruct (decide (i = j)) as [->|Hne].
    + rewrite !(list_insert_id min_heap j) by (apply lookup_heap_at; done).
      intros k s Hs. destruct (Hlk k s Hs) as (st & Hst & Hidx).
      destruct (decide (s = heap_at min_heap j)) as [->|Hsne].
      * rewrite !list_lookup_alter_eq, Hst. simpl.
        exists (set_heap_index (Z.of_nat j) (set_heap_index (Z.of_nat j) st)).
        split; [reflexivity|]. simpl.
        f_equal. apply (linked_inj cache min_heap); [done|done| |].
        -- eapply lookup_lt_Some. done.
        -- symmetry. apply heap_at_lookup. done.
      * rewrite !list_lookup_alter_ne by done. eauto.
    + destruct (swap_states plt (fun _ => True) cache min_heap i j
                  (linked_but _ _ Hlk) Hi Hj Hne) as (Hst' & _). exact Hst'.
  - rewrite !length_insert. done.
  - intros s. apply swap_elems; done.
  - rewrite !fmap_alter_heap_index. done.
  - intros s Hs. apply swap_frame; done.
Qed.

Lemma heapify_bottomup_loop_linked (fuel : nat) (cache : list (state_t P))
    (min_heap : list nat) (node : nat) :
  heap_linked cache min_heap -> (node < length min_heap)%nat ->
  exists cache' min_heap',
    heapify_bottomup_loop plt fuel cache min_heap (heap_at min_heap node) node
    = (cache', min_heap')
    /\ heap_moved cache min_heap cache' min_heap'.
Proof using Type.
  revert cache min_heap node.
  induction fuel as [|fuel IH]; intros cache min_heap node Hlk Hnode.
  { eexists _, _. split; [done|]. apply heap_moved_refl. done. }
  cbn [heapify_bottomup_loop].
  destruct (node =? 0)%nat.
  { eexists _, _. split; [done|]. apply heap_moved_refl. done. }
  set (pi := Nat.shiftr node 1).
  assert (pi < length min_heap)%nat as Hpi.
  { unfold pi. rewrite shiftr1. pose proof (Nat.Div0.div_le_upper_bound node 2 node).
    lia. }
  destruct (priority_lt plt cache _ _).
  2:{ eexists _, _. split; [done|]. apply heap_moved_refl. done. }
  destruct (swap_linked cache min_heap node pi Hlk Hnode Hpi) as [Hmv Hat].
  pose proof Hmv as (Hlk' & Hlen' & _).
  edestruct (IH _ _ pi Hlk') as (c2 & h2 & Hloop & Hmv2); [lia|].
  rewrite Hat in Hloop.
  exists c2, h2. split; [exact Hloop|]. eapply heap_moved_trans; done.
Qed.

Lemma heapify_topdown_loop_linked (fuel : nat) (cache : list (state_t P))
    (min_heap : list nat) (r : nat) :
  heap_linked cache min_heap -> (r < length min_heap)%nat ->
  exists cache' min_heap',
    heapify_topdown_loop plt fuel cache min_heap (heap_at min_heap r) r
    = (cache', min_heap')
    /\ heap_moved cache min_heap cache' min_heap'.
Proof using Type.
  revert cache min_heap r.
  induction fuel as [|fuel IH]; intros cache min_heap r Hlk Hr.
  { eexists _, _. split; [done|]. apply heap_moved_refl. done. }
  cbn [heapify_topdown_loop].
  destruct (Nat.leb_spec (length min_heap) (Nat.shiftl r 1)) as [|Hc1].
  { eexists _, _. split; [done|]. apply heap_moved_refl. done. }
  set (mc := if _ && _ then _ else _).
  assert (mc < length min_heap)%nat as Hmc.
  { unfold mc. destruct (Nat.ltb_spec (Nat.shiftl r 1 + 1) (length min_heap));
      cbn [andb]; [|done]. destruct (priority_lt _ _ _ _); done. }
  clearbody mc.
  destruct (priority_lt plt cache _ _).
  2:{ eexists _, _. split; [done|]. apply heap_moved_refl. done. }
  destruct (swap_linked cache min_heap mc r Hlk Hmc Hr) as [Hmv Hat].
  pose proof Hmv as (Hlk' & Hlen' & _).
  assert (heap_at (<[mc := heap_at min_heap r]> (<[r := heap_at min_heap mc]> min_heap)) mc
          = heap_at min_heap r) as Hroot.
  { unfold heap_at at 1.
    rewrite list_lookup_insert_eq by (rewrite length_insert; done). done. }
  edestruct (IH _ _ mc Hlk') as (c2 & h2 & Hloop & Hmv2); [lia|].
  rewrite Hroot in Hloop.
  exists c2, h2. split; [exact Hloop|]. eapply heap_moved_trans; done.
Qed.
Lemma heap_insert_linked (cache : list (state_t P)) (min_heap : list nat)
    (element : nat) :
  heap_linked cache min_heap -> is_Some (cache !! element) -> element ∉ min_heap ->
  exists cache' min_heap',
    heap_insert plt cache min_heap element = (cache', min_heap')
    /\ heap_linked cache' min_heap'
    /\ (forall s, s ∈ min_heap' <-> s = element \/ s ∈ min_heap)
    /\ set_heap_index 0 <$> cache' = set_heap_index 0 <$> cache
    /\ (forall s, s ∉ min_heap -> s <> element -> cache' !! s = cache !! s).
Proof using Type.
  intros Hlk [st Hel] Hnew. unfold heap_insert, heapify_bottomup.
  set (index := length min_heap).
  set (cache1 := alter (set_heap_index (Z.of_nat index)) element cache).
  set (min_heap1 := min_heap ++ [element]).
  assert (length min_heap1 = S index) as Hlen1
    by (unfold min_heap1; rewrite length_app; simpl; lia).
  assert (forall s, s ∈ min_heap1 <-> s = element \/ s ∈ min_heap) as Hmem1.
  { intros s. unfold min_heap1. rewrite elem_of_app, list_elem_of_singleton. tauto. }
  assert (heap_linked cache1 min_heap1) as Hlk1.
  { intros i s Hs. destruct (decide (i < index)%nat) as [Hi|Hi].
    - unfold min_heap1 in Hs. rewrite lookup_app_l in Hs by done.
      unfold cache1. rewrite list_lookup_alter_ne; [apply Hlk; done|].
      intros <-. apply Hnew. eapply list_elem_of_lookup_2. done.
    - pose proof (lookup_lt_Some _ _ _ Hs) as Hlt. rewrite Hlen1 in Hlt.
      assert (i = index) as -> by lia.
      unfold min_heap1 in Hs. rewrite lookup_app_r in Hs by done.
      replace (index - length min_heap)%nat with 0%nat in Hs by (unfold index; lia).
      injection Hs as <-.
      unfold cache1. rewrite list_lookup_alter_eq, Hel. simpl. eauto. }
  assert (set_heap_index 0 <$> cache1 = set_heap_index 0 <$> cache) as Hf1
    by apply fmap_alter_heap_index.
  assert (forall s, s <> element -> cache1 !! s = cache !! s) as Ho1.
  { intros s Hs. unfold cache1. rewrite list_lookup_alter_ne; done. }
  destruct (0 <? index)%nat.
  - destruct (heapify_bottomup_loop_linked index cache1 min_heap1 index Hlk1)
      as (c2 & h2 & Hloop & Hlk2 & Hlen2 & Hmem2 & Hf2 & Ho2); [lia|].
    exists c2, h2. split; [done|]. split; [done|]. split; [|split].
    + intros s. rewrite Hmem2. apply Hmem1.
    + rewrite Hf2. done.
    + intros s Hs Hse. rewrite Ho2 by (rewrite Hmem1; tauto). apply Ho1. done.
  - exists cache1, min_heap1. split; [done|]. split; [done|]. split; [done|].
    split; [done|]. intros s _ Hse. apply Ho1. done.
Qed.

Lemma heap_pop_linked (cache : list (state_t P)) (min_heap : list nat) :
  heap_linked cache min_heap -> min_heap <> [] ->
  exists cache' min_heap',
    heap_pop plt cache min_heap = Some (heap_at min_heap 0, cache', min_heap')
    /\ heap_linked cache' min_heap'
    /\ S (length min_heap') = length min_heap
    /\ (forall s, s ∈ min_heap <-> s = heap_at min_heap 0 \/ s ∈ min_heap')
    /\ (heap_at min_heap 0 ∉ min_heap')
    /\ set_heap_index 0 <$> cache' = set_heap_index 0 <$> cache
    /\ (forall s, s ∉ min_heap' -> cache' !! s = cache !! s).
Proof using Type.
  intros Hlk Hne. unfold heap_pop.
  destruct min_heap as [|x tl] eqn:Hheap; [done|]. rewrite <- Hheap in *. clear Hne.
  assert (0 < length min_heap)%nat as Hlen0 by (rewrite Hheap; simpl; lia).
  set (last_index := (length min_heap - 1)%nat).
  set (root := heap_at min_heap 0).
  destruct (Nat.eqb_spec last_index 0) as [Hone|Hmore].
  { exists cache, []. split; [done|]. split; [intros i s Hs; done|].
    split; [simpl; lia|]. split; [|split; [|done]].
    - intros s. rewrite elem_of_heap_at. split.
      + intros (k & Hk & <-). left. replace k with 0%nat by lia. done.
      + intros [->|Hs]; [|by apply elem_of_nil in Hs]. exists 0%nat. done.
    - apply not_elem_of_nil. }
  set (last := heap_at min_heap last_index).
  set (cache1 := alter (set_heap_index 0) last cache).
  set (min_heap1 := take last_index (<[0%nat := last]> min_heap)).
  assert (length min_heap1 = last_index) as Hlen1.
  { unfold min_heap1. rewrite length_take, length_insert. lia. }
  assert (forall k, (k < last_index)%nat ->
            heap_at min_heap1 k = if decide (k = 0%nat) then last else heap_at min_heap k)
    as Hat1.
  { intros k Hk. unfold heap_at at 1, min_heap1. rewrite lookup_take_lt by done.
    destruct (decide (k = 0%nat)) as [->|Hk0].
    - rewrite list_lookup_insert_eq by lia. done.
    - rewrite list_lookup_insert_ne by done. done. }
  assert (forall i j, (i < length min_heap)%nat -> (j < length min_heap)%nat ->
            heap_at min_heap i = heap_at min_heap j -> i = j) as Hinj.
  { intros i j. apply (linked_inj cache min_heap i j Hlk). }
  assert (forall s, s ∈ min_heap <-> s = root \/ s ∈ min_heap1) as Hmem1.
  { intros s. rewrite !elem_of_heap_at, Hlen1. split.
    - intros (k & Hk & <-). destruct (decide (k = 0%nat)) as [->|Hk0]; [left; done|].
      right. destruct (decide (k = last_index)) as [->|Hkl].
      + exists 0%nat. split; [lia|]. rewrite Hat1 by lia. done.
      + exists k. split; [lia|]. rewrite Hat1 by lia. rewrite decide_False; done.
    - intros [->|(k & Hk & <-)]; [exists 0%nat; done|].
      rewrite Hat1 by done. case_decide.
      + exists last_index. split; [lia|done].
      + exists k. split; [lia|done]. }
  assert (root ∉ min_heap1) as Hroot.
  { rewrite elem_of_heap_at, Hlen1. intros (k & Hk & Heq).
    rewrite Hat1 in Heq by done. case_decide.
    - apply Hinj in Heq; lia.
    - apply Hinj in Heq; lia. }
  assert (heap_linked cache1 min_heap1) as Hlk1.
  { intros i s Hs. pose proof (lookup_lt_Some _ _ _ Hs) as Hi. rewrite Hlen1 in Hi.
    apply heap_at_lookup in Hs. rewrite Hat1 in Hs by done. unfold cache1.
    destruct (decide (i = 0%nat)) as [->|Hi0].
    - subst s. rewrite list_lookup_alter_eq.
      destruct (Hlk last_index last (lookup_heap_at min_heap last_index ltac:(lia)))
        as (st & -> & _).
      simpl. eauto.
    - subst s. rewrite list_lookup_alter_ne.
      + apply Hlk. apply lookup_heap_at. lia.
      + intros Heq. apply Hinj in Heq; lia. }
  unfold heapify_topdown.
  assert (heap_at min_heap1 0 = last) as Hh0.
  { rewrite Hat1 by lia. done. }
  destruct (heapify_topdown_loop_linked (length min_heap1) cache1 min_heap1 0 Hlk1)
    as (c2 & h2 & Hloop & Hlk2 & Hlen2 & Hmem2 & Hf2 & Ho2); [lia|].
  rewrite Hloop. exists c2, h2. split; [done|]. split; [done|].
  split; [lia|]. split; [|split; [|split]].
  - intros s. rewrite Hmem2. apply Hmem1.
  - rewrite Hmem2. done.
  - rewrite Hf2. unfold cache1. apply fmap_alter_heap_index.
  - intros s Hs. rewrite Hmem2 in Hs. rewrite Ho2 by done.
    unfold cache1. rewrite list_lookup_alter_ne; [done|].
    intros <-. apply Hs. rewrite <- Hh0. apply elem_of_heap_at.
    exists 0%nat. split; [lia|done].
Qed.

(** [heapify_bottomup] from the entry of a state whose fields other than
    the heap index were changed. *)
Lemma decrease_key_linked (f : state_t P -> state_t P) (cache : list (state_t P))
    (min_heap : list nat) (twin_index : nat) (twin : state_t P) :
  heap_linked cache min_heap -> cache !! twin_index = Some twin ->
  twin_index ∈ min_heap ->
  heap_index (f twin) = heap_index twin ->
  exists cache' min_heap',
    heapify_bottomup plt (alter f twin_index cache) min_heap
                     (Z.to_nat (heap_index twin)) = (cache', min_heap')
    /\ heap_moved (alter f twin_index cache) min_heap cache' min_heap'.
Proof using Type.
  intros Hlk Htwin Hin Hfi.
  destruct (linked_state _ _ _ Hlk Hin) as (st & Hst0 & Hpos & Hnn).
  rewrite Htwin in Hst0. injection Hst0 as <-.
  pose proof (lookup_lt_Some _ _ _ Hpos) as Hnode.
  pose proof (heap_at_lookup _ _ _ Hpos) as Hat.
  unfold heapify_bottomup.
  apply heapify_bottomup_loop_linked; [|done].
  intros i s Hs. destruct (Hlk i s Hs) as (si & Hsi & Hii).
  destruct (decide (s = twin_index)) as [->|Hne].
  - rewrite list_lookup_alter_eq, Hsi. simpl.
    rewrite Htwin in Hsi. injection Hsi as <-.
    eexists. split; [done|]. congruence.
  - rewrite list_lookup_alter_ne by done. eauto.
Qed.
Lemma linked_alter (f : state_t P -> state_t P) (cache : list (state_t P))
    (min_heap : list nat) (t : nat) :
  heap_linked cache min_heap -> (forall x, heap_index (f x) = heap_index x) ->
  heap_linked (alter f t cache) min_heap.
Proof using Type.
  intros Hlk Hf i s Hs. destruct (Hlk i s Hs) as (si & Hsi & Hii).
  destruct (decide (s = t)) as [->|Hne].
  - rewrite list_lookup_alter_eq, Hsi. simpl. eexists. split; [done|].
    rewrite Hf. done.
  - rewrite list_lookup_alter_ne by done. eauto.
Qed.

Lemma linked_bound (cache : list (state_t P)) (min_heap : list nat) (s : nat) :
  heap_linked cache min_heap -> s ∈ min_heap -> (s < length cache)%nat.
Proof using Type.
  intros Hlk Hs. destruct (linked_state _ _ _ Hlk Hs) as (x & Hx & _).
  eapply lookup_lt_Some. done.
Qed.

Lemma linked_app (cache : list (state_t P)) (min_heap : list nat) (x : state_t P) :
  heap_linked cache min_heap -> heap_linked (cache ++ [x]) min_heap.
Proof using Type.
  intros Hlk i s Hs. destruct (Hlk i s Hs) as (y & Hy & Hi). exists y.
  split; [|done]. rewrite lookup_app_l; [done|]. eapply lookup_lt_Some. done.
Qed.

(** A state with a negative heap index is not in the heap. *)
Lemma linked_popped (cache : list (state_t P)) (min_heap : list nat) (s : nat)
    (x : state_t P) :
  heap_linked cache min_heap -> cache !! s = Some x -> heap_index x < 0 ->
  s ∉ min_heap.
Proof using Type.
  intros Hlk Hs Hneg Hin. destruct (linked_state _ _ _ Hlk Hin) as (y & Hy & _ & Hpos).
  rewrite Hs in Hy. injection Hy as <-. lia.
Qed.
End HeapLinks.

(** ** The limits of a search *)

Lemma return_solution_result {P} (cache : list (state_t P)) (parent_index : nat)
    (cost : Z) (action : ascii) (its : Z) (r : result_t) :
  return_solution cache parent_index cost action its = Returned r ->
  solved r = true /\ its = iterations r /\ limit_exceeded r = false
  /\ exists solution,
       actions r = Some solution
       /\ backtrack cache (Z.to_nat (cost - 1)) (Some parent_index)
                    (String action EmptyString) = Some solution.
Proof.
  unfold return_solution. destruct (cost =? 0); [done|].
  destruct (backtrack _ _ _ _) as [solution|]; [|done].
  intros [= <-]. simpl. do 3 (split; [done|]). exists solution. done.
Qed.

(** What the body of the loop over the directions returns carries the
    iteration count of the expansion. *)
Lemma bfs_child_iterations (context : context_t) (problem : problem_t)
    (parent_index : nat) (parent : state_t unit) (cost its : Z)
    (index : nat) (direction : Z) (st : search unit) (r : result_t) :
  bfs_child context problem parent_index parent cost its index direction st
  = Return (Returned r) ->
  iterations r = its.
Proof.
  unfold bfs_child.
  destruct (make_child _ _ _ _ _ _) as [|player action changed crates]; [done|].
  destruct (changed && (state_count context <=? free_bits st)); [done|].
  destruct (changed && bitset_equals _ _ _).
  { intros [= H]. apply return_solution_result in H. symmetry. apply H. }
  destruct (state_count context <=? _); [done|].
  destruct (hashmap_get _ _ _ _); [done|].
  destruct (_ =? state_count context); [|done].
  intros [= <-]. done.
Qed.

Lemma bfs_children_iterations (context : context_t) (problem : problem_t)
    (parent_index : nat) (parent : state_t unit) (cost its : Z)
    (index : nat) (dirs : list Z) (st : search unit) (r : result_t) :
  bfs_children context problem parent_index parent cost its index dirs st
  = Return (Returned r) ->
  iterations r = its.
Proof.
  revert index st. induction dirs as [|d rest IH]; intros index st; [done|].
  cbn [bfs_children].
  destruct (bfs_child _ _ _ _ _ _ _ _ st) as [st1|o] eqn:Hchild.
  - apply IH.
  - intros [= ->]. eapply bfs_child_iterations. done.
Qed.

Section AStarLimits.
Context {P : Type}.
Variable plt : P -> P -> bool.
Variable priority_root : Z -> P.
Variable priority_of : Z -> Z -> P.

Lemma astar_child_iterations (context : context_t) (problem : problem_t)
    (parent_index : nat) (parent : state_t P) (cost its : Z)
    (index : nat) (direction : Z) (st : search P) (r : result_t) :
  astar_child plt priority_of context problem parent_index parent cost its
              index direction st = Return (Returned r) ->
  iterations r = its.
Proof using Type.
  unfold astar_child.
  destruct (make_child _ _ _ _ _ _) as [|player action changed crates]; [done|].
  destruct (changed && (state_count context <=? free_bits st)); [done|].
  destruct (changed && bitset_equals _ _ _).
  { intros [= H]. apply return_solution_result in H. symmetry. apply H. }
  destruct (state_count context <=? _); [done|].
  destruct (hashmap_get _ _ _ _) as [twin_index|].
  - destruct (cache st !! twin_index) as [twin|]; [|done].
    destruct (_ && _); [|done]. destruct (heapify_bottomup _ _ _ _). done.
  - destruct (heap_insert _ _ _ _). destruct (_ =? state_count context); [|done].
    intros [= <-]. done.
Qed.

Lemma astar_children_iterations (context : context_t) (problem : problem_t)
    (parent_index : nat) (parent : state_t P) (cost its : Z)
    (index : nat) (dirs : list Z) (st : search P) (r : result_t) :
  astar_children plt priority_of context problem parent_index parent cost its
                 index dirs st = Return (Returned r) ->
  iterations r = its.
Proof using Type.
  revert index st. induction dirs as [|d rest IH]; intros index st; [done|].
  cbn [astar_children].
  destruct (astar_child _ _ _ _ _ _ _ _ _ _ st) as [st1|o] eqn:Hchild.
  - apply IH.
  - intros [= ->]. eapply astar_child_iterations. done.
Qed.

Lemma astar_pop_start (context : context_t) (problem : problem_t) :
  astar_pop plt (astar_start plt priority_root context problem)
  = Some (0%nat, {| cache := [astar_root priority_root context problem]; free_bits := 0;
                    hashmap := hashmap_set [] 0%nat; min_heap := [] |}).
Proof using Type. reflexivity. Qed.
End AStarLimits.

(** *** One iteration *)

(** C10, amended: [solve_bfs] and [solve_astar] both test the iteration
    limit before they count the iteration.  Called with
    [max_iterations = 1] on a potentially solvable level, each of them
    expands the root: the call returns what the loop over the four
    directions returns for the root, if it returns (the solution when the
    root generates a goal child), and otherwise a failure with
    [iterations = 1], whose [limit_exceeded] tells whether states are left
    to expand.  A result that is returned has [iterations = 1]. *)
Theorem max_iterations_1 {P : Type} (plt : P -> P -> bool) (priority_root : Z -> P)
    (priority_of : Z -> Z -> P) (context : context_t) (problem : problem_t) :
  potentially_solvable problem = true -> 0 < state_count context ->
  solve_bfs context problem 1
  = match bfs_children context problem 0
            (bfs_state None Ascii.zero 0 (player problem) (crates problem))
            1 1 0 (directions context) (bfs_start problem) with
    | Return o => o
    | Continue st' =>
        Returned (create_result false None 1 (negb (length (cache st') =? 1)%nat))
    end
  /\ solve_astar plt priority_root priority_of context problem 1
     = match astar_children plt priority_of context problem 0
               (astar_root priority_root context problem) 1 1 0 (directions context)
               {| cache := [astar_root priority_root context problem]; free_bits := 0;
                  hashmap := hashmap_set [] 0%nat; min_heap := [] |} with
       | Return o => o
       | Continue st' =>
           Returned (create_result false None 1
                       (negb (length (min_heap st') =? 0)%nat))
       end
  /\ (forall r, solve_bfs context problem 1 = Returned r -> iterations r = 1)
  /\ (forall r, solve_astar plt priority_root priority_of context problem 1
                = Returned r -> iterations r = 1).
Proof.
  intros Hps Hcount.
  assert (exists n, Z.to_nat (state_count context) = S n) as [n Hn]
    by (exists (Z.to_nat (state_count context) - 1)%nat; lia).
  assert (solve_bfs context problem 1
          = match bfs_children context problem 0
                    (bfs_state None Ascii.zero 0 (player problem) (crates problem))
                    1 1 0 (directions context) (bfs_start problem) with
            | Return o => o
            | Continue st' =>
                Returned (create_result false None 1
                            (negb (length (cache st') =? 1)%nat))
            end) as Hbfs.
  { unfold solve_bfs. rewrite Hps. simpl negb. cbv iota.
    destruct (Z.leb_spec (state_count context) 0) as [|_]; [lia|].
    rewrite Hn.
    change (bfs_loop (S (S n)) context problem 1 0 0 (bfs_start problem))
      with (match bfs_children context problem 0
                    (bfs_state None Ascii.zero 0 (player problem) (crates problem))
                    1 1 0 (directions context) (bfs_start problem) with
            | Return o => o
            | Continue st' => bfs_loop (S n) context problem 1 1 1 st'
            end).
    destruct (bfs_children _ _ _ _ _ _ _ _ _) as [st'|o]; [|done].
    cbn [bfs_loop].
    destruct (Nat.eqb_spec 1 (length (cache st'))) as [He|Hne].
    - rewrite <- He. done.
    - destruct (Nat.eqb_spec (length (cache st')) 1) as [|_]; [lia|]. done. }
  assert (solve_astar plt priority_root priority_of context problem 1
          = match astar_children plt priority_of context problem 0
                    (astar_root priority_root context problem) 1 1 0
                    (directions context)
                    {| cache := [astar_root priority_root context problem];
                       free_bits := 0;
                       hashmap := hashmap_set [] 0%nat; min_heap := [] |} with
            | Return o => o
            | Continue st' =>
                Returned (create_result false None 1
                            (negb (length (min_heap st') =? 0)%nat))
            end) as Hastar.
  { unfold solve_astar. rewrite Hps. simpl negb. cbv iota.
    destruct (Z.leb_spec (state_count context) 0) as [|_]; [lia|].
    rewrite Hn.
    change (astar_loop plt priority_of (S (S n)) context problem 1 0
                       (astar_start plt priority_root context problem))
      with (match astar_children plt priority_of context problem 0
                    (astar_root priority_root context problem) 1 1 0
                    (directions context)
                    {| cache := [astar_root priority_root context problem];
                       free_bits := 0;
                       hashmap := hashmap_set [] 0%nat; min_heap := [] |} with
            | Return o => o
            | Continue st' => astar_loop plt priority_of (S n) context problem 1 1 st'
            end).
    destruct (astar_children _ _ _ _ _ _ _ _ _ _ _) as [st'|o]; [|done].
    cbn [astar_loop]. destruct (min_heap st') as [|x tl]; done. }
  split; [exact Hbfs|]. split; [exact Hastar|]. split.
  - intros r. rewrite Hbfs.
    destruct (bfs_children _ _ _ _ _ _ _ _ _) as [st'|o] eqn:Hch.
    + intros [= <-]. done.
    + intros ->. apply bfs_children_iterations in Hch. done.
  - intros r. rewrite Hastar.
    destruct (astar_children _ _ _ _ _ _ _ _ _ _ _) as [st'|o] eqn:Hch.
    + intros [= <-]. done.
    + intros ->. apply astar_children_iterations in Hch. done.
Qed.

(** C10 as stated fails: on the row with the player, a crate and a goal,
    [solve_astar] with [max_iterations = 1] expands the root and returns
    the solution. *)
Lemma solve_astar_max_iterations_1_solved :
  potentially_solvable problem_A10 = true
  /\ solve_astar_exact context_A10 problem_A10 1 1 1
     = Returned (create_result true (Some "R"%string) 1 false).
Proof. vm_compute. done. Qed.

Lemma max_iterations_1_witness :
  potentially_solvable problem_A_10 = true
  /\ 0 < state_count context_A_10
  /\ solve_bfs context_A_10 problem_A_10 1
     = Returned (create_result false None 1 true)
  /\ solve_astar Z.ltb (exact_root 1) (exact_priority 1 1) context_A_10 problem_A_10 1
     = Returned (create_result false None 1 true).
Proof.
  assert (potentially_solvable problem_A_10 = true) as Hps by reflexivity.
  assert (0 < state_count context_A_10) as Hcount by reflexivity.
  split; [done|]. split; [done|].
  destruct (max_iterations_1 Z.ltb (exact_root 1) (exact_priority 1 1)
              context_A_10 problem_A_10 Hps Hcount) as (-> & -> & _).
  vm_compute. done.
Defined.

(** *** A state arena of one state *)




(** On the row with a floor cell between the player and the crate the
    first child of the root is written outside the arena. *)
Lemma solve_bfs_capacity_0_fault :
  parse_problem (create_context 4 1 0) (allocate_problem (create_context 4 1 0)) "A.10"
  = Some (problem_A_10, true)
  /\ solve_bfs (create_context 4 1 0) problem_A_10 0 = Fault.
Proof. vm_compute. done. Qed.


(** ** The solutions that the searches return *)

(** *** A child of a state and one action of verify_solution *)

Lemma directions_index (context : context_t) (index : nat) (direction : Z) :
  directions context !! index = Some direction ->
  (index < 4)%nat
  /\ action_direction context (action_at index) = Some direction
  /\ action_direction context (action_at (index + 4)) = Some direction
  /\ is_lower (action_at index) = true
  /\ is_lower (action_at (index + 4)) = false.
Proof.
  unfold directions.
  destruct index as [|[|[|[|index]]]]; simpl; intros [= <-];
    (split; [lia|]); repeat split; reflexivity.
Qed.

Lemma bitset_cmp_loop_words (a b : list Z) (idx : list Z) :
  bitset_cmp_loop a b idx = 0 -> forall i, i ∈ idx -> word a i = word b i.
Proof.
  induction idx as [|j rest IH]; intros H i Hi; [by apply elem_of_nil in Hi|].
  cbn [bitset_cmp_loop] in H.
  destruct (Z.ltb_spec (word a j) (word b j)); [done|].
  destruct (Z.ltb_spec (word b j) (word a j)); [done|].
  apply elem_of_cons in Hi as [->|Hi]; [lia|]. apply IH; done.
Qed.

Lemma bitset_cmp_eq (a b : list Z) (size : Z) :
  length a = Z.to_nat size -> length b = Z.to_nat size ->
  bitset_cmp a b size = 0 -> a = b.
Proof.
  intros Ha Hb H. apply (bitset_equals_eq a b size Ha Hb).
  apply bitset_equals_words. intros i Hi.
  apply (bitset_cmp_loop_words a b _ H). apply elem_of_indices. done.
Qed.

Lemma state_compare_eq {P} (context : context_t) (sa sb : state_t P) :
  length (state_crates sa) = Z.to_nat (bitset_size context) ->
  length (state_crates sb) = Z.to_nat (bitset_size context) ->
  state_compare context sa sb = 0 ->
  state_player sa = state_player sb /\ state_crates sa = state_crates sb.
Proof.
  intros Ha Hb. unfold state_compare.
  destruct (Z.eqb_spec (state_player sa - state_player sb) 0) as [He|Hne]; [|lia].
  intros H. split; [lia|]. eapply bitset_cmp_eq; done.
Qed.

Lemma hashmap_get_Some {P} (context : context_t) (cache : list (state_t P))
    (map : list nat) (key : state_t P) (twin_index : nat) :
  hashmap_get context cache map key = Some twin_index ->
  twin_index ∈ map
  /\ exists twin, cache !! twin_index = Some twin /\ state_compare context twin key = 0.
Proof.
  unfold hashmap_get. intros H. apply find_some in H as [Hin H].
  split; [apply list_elem_of_In; done|].
  destruct (cache !! twin_index) as [twin|]; [|done].
  exists twin. split; [done|]. apply Z.eqb_eq. done.
Qed.

Lemma make_child_verify (context : context_t) (problem : problem_t)
    (parent_player : Z) (parent_crates : list Z) (index : nat) (direction : Z)
    (player : Z) (action : ascii) (changed : bool) (crates : list Z) :
  directions context !! index = Some direction ->
  length parent_crates = Z.to_nat (bitset_size context) ->
  make_child context problem parent_player parent_crates index direction
  = Child player action changed crates ->
  verify_step context problem parent_player parent_crates action
  = Some (player, crates)
  /\ length crates = Z.to_nat (bitset_size context).
Proof.
  intros Hdir Hlen. unfold make_child, verify_step.
  destruct (directions_index context index direction Hdir)
    as (_ & Hlow & Hup & Hl & Hu).
  set (p := wrap16 (parent_player + direction)).
  set (next := wrap16 (p + direction)).
  destruct (get_bit (walls problem) p) eqn:Hwall; [done|].
  destruct (get_bit parent_crates p) eqn:Hcrate.
  - destruct (get_bit (walls problem) next) eqn:Hwn; [done|].
    destruct (get_bit parent_crates next) eqn:Hcn; [done|]. simpl.
    destruct (get_bit (deadlocks problem) next); [done|].
    destruct (check_single_2x2_deadlock _ _ _ _ _); [done|].
    intros [= <- <- <- <-]. rewrite Hup. fold p. rewrite Hwall, Hcrate, Hu.
    fold next. rewrite Hwn, Hcn. rewrite bitset_copy_id by done.
    pose proof (wrap16_range (parent_player + direction)).
    pose proof (wrap16_range (p + direction)).
    split.
    + rewrite set_clear_bit_comm; [done|fold p; lia|fold next; lia|].
      intros Heq. rewrite Heq in Hcrate. congruence.
    + rewrite length_clear_bit, length_set_bit. done.
  - intros [= <- <- <- <-]. rewrite Hlow. fold p. rewrite Hwall, Hcrate. done.
Qed.

(** *** Replaying actions *)

Lemma append_assoc' (a b c : string) : ((a ++ b) ++ c = a ++ (b ++ c))%string.
Proof. induction a as [|x a IH]; simpl; [done|]. rewrite IH. done. Qed.

Lemma length_append' (a b : string) :
  String.length (a ++ b) = (String.length a + String.length b)%nat.
Proof. induction a as [|x a IH]; simpl; [done|]. rewrite IH. done. Qed.

Lemma replay_app (context : context_t) (problem : problem_t) (player : Z)
    (crates : list Z) (a b : string) :
  replay context problem player crates (a ++ b)
  = match replay context problem player crates a with
    | Some (player', crates') => replay context problem player' crates' b
    | None => None
    end.
Proof.
  revert player crates. induction a as [|x a IH]; intros player crates; simpl; [done|].
  destruct (verify_step context problem player crates x) as [[p c]|]; [apply IH|done].
Qed.

Lemma verify_solution_from_replay (context : context_t) (problem : problem_t)
    (player : Z) (crates : list Z) (actions : string) :
  verify_solution_from context problem player crates actions
  = match replay context problem player crates actions with
    | Some (_, crates') => bitset_equals crates' (goals problem) (bitset_size context)
    | None => false
    end.
Proof.
  revert player crates. induction actions as [|x a IH]; intros player crates; simpl;
    [done|].
  destruct (verify_step context problem player crates x) as [[p c]|]; [apply IH|done].
Qed.

(** *** The tree of the states *)

Section Tree.
Context {P : Type}.
Variable context : context_t.
Variable problem : problem_t.
Variable expanded : state_t P -> Prop.

(** The actions on the way from the root to a state lead from the initial
    state of the problem to that state, and the backtracking loop writes
    them. *)
Lemma tree_path (cache : list (state_t P)) (i : nat) (s : state_t P) :
  tree_ok context problem expanded cache -> cache !! i = Some s ->
  exists acts,
    replay context problem (player problem) (crates problem) acts
    = Some (state_player s, state_crates s)
    /\ String.length acts = Z.to_nat (cost s)
    /\ forall solution,
         backtrack cache (Z.to_nat (cost s)) (Some i) solution
         = Some (acts ++ solution)%string.
Proof using Type.
  intros [_ Hnodes]. remember (Z.to_nat (cost s)) as n eqn:Hn.
  revert i s Hn. induction n as [|n IH]; intros i s Hn Hs.
  - destruct (Hnodes i s Hs) as (_ & Hcost & Hparent).
    exists EmptyString. split; [|done].
    destruct (parent s) as [p|].
    + destruct Hparent as (sp & Hsp & _ & Hc & _).
      destruct (Hnodes p sp Hsp) as (_ & Hcp & _). lia.
    + destruct Hparent as (_ & -> & ->). done.
  - destruct (Hnodes i s Hs) as (_ & Hcost & Hparent).
    destruct (parent s) as [p|] eqn:Hp; [|lia].
    destruct Hparent as (sp & Hsp & _ & Hc & Hstep).
    destruct (Hnodes p sp Hsp) as (_ & Hcp & _).
    destruct (IH p sp ltac:(lia) Hsp) as (acts & Hreplay & Hlen & Hback).
    exists (acts ++ String (action s) EmptyString)%string. split; [|split].
    + rewrite replay_app, Hreplay. simpl. rewrite Hstep. done.
    + rewrite length_append', Hlen. simpl. lia.
    + intros solution. cbn [backtrack]. rewrite Hs, Hp.
      replace (Z.to_nat (cost sp)) with n in Hback by lia.
      rewrite Hback, append_assoc'. done.
Qed.

(** The solution that is returned for a goal child of a state. *)
Lemma return_solution_valid (cache : list (state_t P)) (parent_index : nat)
    (parent : state_t P) (action : ascii) (player : Z) (crates : list Z)
    (iterations : Z) (r : result_t) :
  tree_ok context problem expanded cache -> cache !! parent_index = Some parent ->
  verify_step context problem (state_player parent) (state_crates parent) action
  = Some (player, crates) ->
  bitset_equals crates (goals problem) (bitset_size context) = true ->
  return_solution cache parent_index (cost parent + 1) action iterations = Returned r ->
  exists acts, actions r = Some acts /\ verify_solution context problem acts = true.
Proof using Type.
  intros Htree Hparent Hstep Hgoal Hret.
  apply return_solution_result in Hret as (_ & _ & _ & solution & Hact & Hback).
  destruct (tree_path cache parent_index parent Htree Hparent)
    as (acts & Hreplay & _ & Hpath).
  replace (cost parent + 1 - 1) with (cost parent) in Hback by lia.
  rewrite Hpath in Hback. injection Hback as <-.
  eexists. split; [exact Hact|].
  unfold verify_solution. rewrite verify_solution_from_replay, replay_app, Hreplay.
  simpl. rewrite Hstep. exact Hgoal.
Qed.

(** The cost of a child does not wrap around. *)
Lemma child_cost (cache : list (state_t P)) (parent_index : nat) (parent : state_t P) :
  state_count context <= 65536 ->
  tree_ok context problem expanded cache -> cache !! parent_index = Some parent ->
  wrap16 (cost parent + 1) = cost parent + 1
  /\ 0 <= cost parent + 1 <= Z.of_nat (length cache).
Proof using Type.
  intros Hcount [Hlen Hnodes] Hparent.
  destruct (Hnodes _ _ Hparent) as (_ & Hcost & _).
  pose proof (lookup_lt_Some _ _ _ Hparent) as Hlt.
  split; [|lia]. apply wrap16_small. lia.
Qed.

(** A new state is appended to the states. *)
Lemma tree_ok_app (cache : list (state_t P)) (parent_index : nat) (par child : state_t P) :
  tree_ok context problem expanded cache -> cache !! parent_index = Some par ->
  expanded par ->
  Z.of_nat (length cache) < state_count context ->
  Z.of_nat (S (length cache)) <> state_count context ->
  length (state_crates child) = Z.to_nat (bitset_size context) ->
  parent child = Some parent_index -> cost child = cost par + 1 ->
  verify_step context problem (state_player par) (state_crates par) (action child)
  = Some (state_player child, state_crates child) ->
  tree_ok context problem expanded (cache ++ [child]).
Proof using Type.
  intros Htree Hparent Hexp Hlt Hne Hcr Hp Hc Hstep.
  pose proof Htree as [Hlen Hnodes].
  destruct (Hnodes _ _ Hparent) as (_ & Hcost & _).
  pose proof (lookup_lt_Some _ _ _ Hparent) as Hpl.
  split.
  - left. rewrite length_app. simpl. lia.
  - intros i s Hs. apply lookup_app_Some in Hs as [Hs|[Hge Hs]].
    + destruct (Hnodes i s Hs) as (H1 & H2 & H3). split; [done|]. split; [done|].
      destruct (parent s) as [p|]; [|done].
      destruct H3 as (sp & Hsp & H3). exists sp. split; [|done].
      rewrite lookup_app_l; [done|]. eapply lookup_lt_Some. done.
    + destruct (i - length cache)%nat eqn:Hi; [|done]. injection Hs as <-.
      split; [done|]. split; [lia|]. rewrite Hp. exists par.
      split; [rewrite lookup_app_l; done|]. done.
Qed.
End Tree.

(** *** solve_bfs *)

Section BfsValid.
Variable context : context_t.
Variable problem : problem_t.
Hypothesis Hcount : state_count context <= 65536.

Local Abbreviation tree := (tree_ok (P := unit) context problem (fun _ => True)).




End BfsValid.

(** *** solve_astar *)

Section AStarValid.
Context {P : Type}.
Variable plt : P -> P -> bool.
Variable priority_root : Z -> P.
Variable priority_of : Z -> Z -> P.
Variable context : context_t.
Variable problem : problem_t.
Hypothesis Hcount : state_count context <= 65536.

Local Abbreviation popped := (fun x : state_t P => heap_index x < 0).
Local Abbreviation tree := (tree_ok (P := P) context problem popped).

(** An operation that keeps the fields other than the heap index, and the
    states with a negative heap index, keeps the tree. *)
Lemma tree_ok_moved (cache cache' : list (state_t P)) :
  tree cache ->
  set_heap_index 0 <$> cache' = set_heap_index 0 <$> cache ->
  (forall p sp, cache !! p = Some sp -> heap_index sp < 0 -> cache' !! p = Some sp) ->
  tree cache'.
Proof using Type.
  intros [Hlen Hnodes] Hframe Hpop. split.
  - rewrite (frame_length _ _ Hframe). done.
  - intros i s' Hs'. destruct (frame_lookup _ _ _ _ Hframe Hs') as (s & Hs & Hf).
    apply frame_fields in Hf as (_ & _ & Hc & Hp & Ha & Hpl & Hcr).
    destruct (Hnodes i s Hs) as (H1 & H2 & H3).
    unfold node_ok. rewrite Hc, Hp, Ha, Hpl, Hcr. split; [done|]. split; [done|].
    destruct (parent s) as [p|]; [|done].
    destruct H3 as (sp & Hsp & Hneg & H3). exists sp. split; [|done].
    apply Hpop; done.
Qed.

Lemma astar_start_tree :
  length (crates problem) = Z.to_nat (bitset_size context) ->
  astar_links (astar_start plt priority_root context problem)
  /\ tree (cache (astar_start plt priority_root context problem)).
Proof using Type.
  intros Hlen. split; [split|split].
  - intros [|i] s; [|done]. intros [= <-]. eexists. split; [reflexivity|]. done.
  - intros [|s] x; [|done]. intros _ Hn. exfalso. apply Hn. simpl. left.
  - right. done.
  - intros [|i] s; [|done]. intros [= <-]. split; [done|]. split; [simpl; lia|]. done.
Qed.

Lemma astar_pop_tree (st st' : search P) (parent_index : nat) :
  astar_links st -> tree (cache st) ->
  astar_pop plt st = Some (parent_index, st') ->
  astar_links st' /\ tree (cache st')
  /\ exists parent, cache st' !! parent_index = Some parent /\ heap_index parent < 0.
Proof using Type.
  intros [Hlk Hout] Htree. unfold astar_pop.
  destruct (decide (min_heap st = [])) as [Hnil|Hne].
  { rewrite Hnil. done. }
  destruct (heap_pop_linked plt _ _ Hlk Hne)
    as (c & h & Heq & Hlk' & Hlen & Hmem & Hroot & Hframe & Hout').
  rewrite Heq. intros [= <- <-]. simpl.
  set (root := heap_at (min_heap st) 0) in *.
  assert (root ∈ min_heap st) as Hin by (apply Hmem; left; done).
  destruct (linked_state _ _ _ Hlk Hin) as (x & Hx & _ & Hxpos).
  assert (c !! root = Some x) as Hcx by (rewrite Hout'; done).
  split; [split|split]; simpl.
  - intros i s Hs. destruct (Hlk' i s Hs) as (y & Hy & Hi). exists y.
    split; [|done]. rewrite list_lookup_alter_ne; [done|].
    intros <-. apply Hroot. eapply list_elem_of_lookup_2. done.
  - intros s y Hs Hn. destruct (decide (s = root)) as [->|Hsr].
    + rewrite list_lookup_alter_eq, Hcx in Hs. injection Hs as <-. simpl. lia.
    + rewrite list_lookup_alter_ne in Hs by done. rewrite Hout' in Hs by done.
      apply (Hout s y Hs). rewrite Hmem. tauto.
  - apply (tree_ok_moved (cache st)); [done| |].
    + rewrite fmap_alter_heap_index. done.
    + intros p sp Hp Hneg.
      assert (p ∉ min_heap st) as Hpn by (eapply linked_popped; done).
      rewrite list_lookup_alter_ne by (intros <-; done).
      rewrite Hout'; [done|]. intros Hc. apply Hpn, Hmem. tauto.
  - rewrite list_lookup_alter_eq, Hcx. simpl. eexists. split; [reflexivity|]. simpl. lia.
Qed.
Lemma astar_child_tree (st : search P) (parent_index : nat) (par : state_t P)
    (iterations : Z) (index : nat) (direction : Z) :
  astar_links st -> tree (cache st) -> cache st !! parent_index = Some par ->
  heap_index par < 0 ->
  directions context !! index = Some direction ->
  match astar_child plt priority_of context problem parent_index par
                    (wrap16 (cost par + 1)) iterations index direction st with
  | Continue st' =>
      astar_links st' /\ tree (cache st') /\ cache st' !! parent_index = Some par
  | Return (Returned r) => valid_result context problem r
  | Return _ => True
  end.
Proof using Hcount.
  clear priority_root.
  intros [Hlk Hout] Htree Hparent Hneg Hdir. unfold astar_child.
  destruct (child_cost context problem _ _ _ _ Hcount Htree Hparent) as [-> Hcost].
  destruct (tree_nodes _ _ _ _ Htree _ _ Hparent) as (Hlen & _ & _).
  pose proof (linked_popped _ _ _ _ Hlk Hparent Hneg) as Hpout.
  destruct (make_child _ _ _ _ _ _) as [|player action changed crates] eqn:Hchild.
  { split; [split; done|]. split; done. }
  destruct (make_child_verify _ _ _ _ _ _ _ _ _ _ Hdir Hlen Hchild) as [Hstep Hlc].
  destruct (changed && (state_count context <=? free_bits st)); [done|].
  destruct (changed && bitset_equals _ _ _) eqn:Hgoal.
  { apply andb_true_iff in Hgoal as [_ Hgoal].
    destruct (return_solution _ _ _ _ _) as [r| |] eqn:Hret; [|done|done].
    intros _. eapply return_solution_valid; done. }
  destruct (Z.leb_spec (state_count context) (Z.of_nat (length (cache st))));
    [done|].
  destruct (hashmap_get _ _ _ _) as [t|] eqn:Hget.
  - apply hashmap_get_Some in Hget as (_ & twin & Htwin & Hcmp). rewrite Htwin.
    destruct (tree_nodes _ _ _ _ Htree _ _ Htwin) as (Htl & Htc & _).
    apply state_compare_eq in Hcmp as [Hpl Hcr]; [|done|done].
    simpl in Hpl, Hcr.
    destruct ((0 <=? heap_index twin) && (cost par + 1 <? cost twin)) eqn:Hdec.
    2:{ split; [split; done|]. split; done. }
    apply andb_true_iff in Hdec as [Hidx Hlow].
    apply Z.leb_le in Hidx. apply Z.ltb_lt in Hlow.
    assert (t ∈ min_heap st) as Hin.
    { destruct (decide (t ∈ min_heap st)) as [|Hn]; [done|].
      pose proof (Hout _ _ Htwin Hn). lia. }
    assert (t <> parent_index) as Htp.
    { intros ->. rewrite Hparent in Htwin. injection Htwin as <-. lia. }
    set (f := update_twin priority_of (Some parent_index) action (cost par + 1)).
    set (cache1 := alter f t (cache st)).
    assert (cache1 !! parent_index = Some par) as Hparent1.
    { unfold cache1. rewrite list_lookup_alter_ne by done. done. }
    assert (tree cache1) as Htree1.
    { split.
      - unfold cache1. rewrite length_alter. apply Htree.
      - intros i s1 Hs1. unfold cache1 in Hs1.
        destruct (decide (i = t)) as [->|Hit].
        + rewrite list_lookup_alter_eq, Htwin in Hs1. injection Hs1 as <-.
          split; [done|]. split; [simpl; lia|]. simpl.
          exists par. split; [done|]. split; [done|]. split; [done|].
          rewrite Hpl, Hcr. done.
        + rewrite list_lookup_alter_ne in Hs1 by done.
          destruct (tree_nodes _ _ _ _ Htree i s1 Hs1) as (H1 & H2 & H3).
          split; [done|]. split; [done|].
          destruct (parent s1) as [p|]; [|done].
          destruct H3 as (sp & Hsp & Hspn & H3). exists sp. split; [|done].
          unfold cache1. rewrite list_lookup_alter_ne; [done|].
          intros <-. rewrite Htwin in Hsp. injection Hsp as <-. lia. }
    assert (heap_linked cache1 (min_heap st)) as Hlk1 by (apply linked_alter; done).
    destruct (decrease_key_linked plt f _ _ _ _ Hlk Htwin Hin eq_refl)
      as (c & h & Heq & Hlk' & Hlen' & Hmem & Hframe & Hout').
    fold cache1 in Heq, Hframe, Hout'. rewrite Heq.
    split; [split|split]; simpl.
    + done.
    + intros s x Hs Hn. rewrite Hout' in Hs by (rewrite <- Hmem; done).
      unfold cache1 in Hs.
      rewrite list_lookup_alter_ne in Hs by (intros <-; apply Hn, Hmem; done).
      apply (Hout s x Hs). rewrite <- Hmem. done.
    + apply (tree_ok_moved cache1); [done|done|].
      intros p sp Hp Hspn. rewrite Hout'; [done|]. eapply linked_popped; done.
    + rewrite Hout'; done.
  - set (child := {| priority := priority_of _ _ |}).
    set (free_state := length (cache st)).
    assert (free_state ∉ min_heap st) as Hnew.
    { intros Hin. apply (linked_bound _ _ _ Hlk) in Hin. unfold free_state in Hin. lia. }
    destruct (heap_insert_linked plt (cache st ++ [child]) (min_heap st) free_state)
      as (c & h & Heq & Hlk' & Hmem & Hframe & Hout').
    { apply linked_app. done. }
    { rewrite lookup_app_r by done. unfold free_state. rewrite Nat.sub_diag. done. }
    { done. }
    rewrite Heq.
    destruct (Z.eqb_spec (Z.of_nat (S free_state)) (state_count context));
      [intros [=]|].
    assert (tree (cache st ++ [child])) as Htree1 by (eapply tree_ok_app; done).
    pose proof (lookup_lt_Some _ _ _ Hparent) as Hplt.
    split; [split|split]; simpl.
    + done.
    + intros s x Hs Hn.
      assert (s <> free_state /\ s ∉ min_heap st) as [Hsf Hsh].
      { split; intros Hc; apply Hn, Hmem; tauto. }
      rewrite Hout' in Hs by done.
      apply lookup_app_Some in Hs as [Hs|[Hge Hs]].
      * apply (Hout s x Hs). done.
      * apply lookup_lt_Some in Hs. simpl in Hs. unfold free_state in Hsf. lia.
    + apply (tree_ok_moved (cache st ++ [child])); [done|done|].
      intros p sp Hp Hspn. rewrite Hout'; [done| |].
      * eapply linked_popped; [apply linked_app; done|done|done].
      * intros ->. rewrite lookup_app_r in Hp by done. unfold free_state in Hp.
        rewrite Nat.sub_diag in Hp. injection Hp as <-. simpl in Hspn. lia.
    + rewrite Hout'; [|done|unfold free_state; lia].
      rewrite lookup_app_l; done.
Qed.



End AStarValid.

(** *** The claim *)

Lemma create_context_state_count (w h capacity : Z) :
  0 <= capacity < 65536 -> state_count (create_context w h capacity) = capacity + 1.
Proof. intros H. unfold create_context, wrap64. simpl. apply Z.mod_small. lia. Qed.

Lemma parse_problem_crates_length (context : context_t) (problem0 problem : problem_t)
    (level_str : string) (c : bool) :
  context_ok context ->
  parse_problem context problem0 level_str = Some (problem, c) ->
  length (crates problem) = Z.to_nat (bitset_size context).
Proof.
  intros Hok Hparse.
  destruct (parse_problem_spec context problem0 level_str Hok)
    as (p' & Hparse' & _ & _ & _ & _ & Hcr & _).
  rewrite Hparse in Hparse'. injection Hparse' as -> _. rewrite Hcr.
  apply (parse_level_lengths context Hok problem0 level_str).
Qed.



(** ** The game: moves that cannot be part of a solution *)

Lemma action_direction_elem (context : context_t) (a : ascii) (d : Z) :
  action_direction context a = Some d -> d ∈ directions context.
Proof.
  unfold action_direction, directions.
  destruct (_ || _); [intros [= <-]; rewrite !elem_of_cons; auto 6|].
  destruct (_ || _); [intros [= <-]; rewrite !elem_of_cons; auto 6|].
  destruct (_ || _); [intros [= <-]; rewrite !elem_of_cons; auto 6|].
  destruct (_ || _); [intros [= <-]; rewrite !elem_of_cons; auto 6|done].
Qed.

Lemma direction_nonzero' (context : context_t) (d : Z) :
  context_ok context -> d ∈ directions context -> d <> 0.
Proof.
  intros [Hw _ _ _] Hd. unfold directions in Hd.
  repeat (apply elem_of_cons in Hd as [->|Hd]); [lia..|]. by apply elem_of_nil in Hd.
Qed.

Section Game.
Variable context : context_t.
Variable problem : problem_t.
Hypothesis Hok : context_ok context.
Hypothesis Hpb : problem_ok context problem.

Lemma walls_border (q : Z) :
  0 <= q < 64 * bitset_size context -> ~ interior context q ->
  get_bit (walls problem) q = true.
Proof using Hpb. apply (lv_border _ _ _ _ (po_level _ _ Hpb)). Qed.

Lemma state_ok_in_bitset (player : Z) (crates : list Z) (q : Z) :
  state_ok context problem player crates -> interior context q ->
  in_bitset crates q.
Proof using Hok.
  intros Hs Hq. apply (interior_in_bitset context Hok); [apply Hs|done].
Qed.

(** One action of [verify_solution] is a step of the player, with the push
    of a crate when the player steps on one. *)
Lemma verify_step_cases (player : Z) (crates : list Z) (a : ascii)
    (player' : Z) (crates' : list Z) :
  state_ok context problem player crates ->
  verify_step context problem player crates a = Some (player', crates') ->
  exists d, d ∈ directions context /\ action_direction context a = Some d
    /\ player' = player + d /\ interior context player'
    /\ wrap16 (player + d) = player + d
    /\ get_bit (walls problem) player' = false
    /\ ((get_bit crates player' = false /\ crates' = crates)
        \/ (get_bit crates player' = true /\ is_lower a = false
            /\ interior context (player' + d)
            /\ wrap16 (player' + d) = player' + d
            /\ get_bit (walls problem) (player' + d) = false
            /\ get_bit crates (player' + d) = false
            /\ crates' = set_bit (clear_bit crates player') (player' + d))).
Proof using Hok Hpb.
  intros Hs. unfold verify_step.
  destruct (action_direction context a) as [d|] eqn:Hd; [|done].
  pose proof (action_direction_elem _ _ _ Hd) as Hin.
  destruct (get_bit (walls problem) (wrap16 (player + d))) eqn:Hwall; [done|].
  destruct (step_interior context Hok _ walls_border player d (sk_player _ _ _ _ Hs)
              Hin Hwall) as [Hp Hint].
  rewrite Hp in *.
  destruct (get_bit crates (player + d)) eqn:Hcrate.
  - destruct (is_lower a) eqn:Hlow; [done|].
    destruct (get_bit (walls problem) (wrap16 (player + d + d))) eqn:Hwall2; [done|].
    destruct (step_interior context Hok _ walls_border (player + d) d Hint Hin Hwall2)
      as [Hp2 Hint2].
    rewrite Hp2 in *.
    destruct (get_bit crates (player + d + d)) eqn:Hcrate2; [done|].
    intros [= <- <-]. exists d. do 6 (split; [done|]). right. done.
  - intros [= <- <-]. exists d. do 6 (split; [done|]). left. done.
Qed.

Lemma verify_step_ok (player : Z) (crates : list Z) (a : ascii)
    (player' : Z) (crates' : list Z) :
  state_ok context problem player crates ->
  verify_step context problem player crates a = Some (player', crates') ->
  state_ok context problem player' crates'.
Proof using Hok Hpb.
  intros Hs Hstep.
  destruct (verify_step_cases _ _ _ _ _ Hs Hstep)
    as (d & Hd & _ & -> & Hint & _ & Hwall
        & [[Hc ->]|(Hc & _ & Hint2 & _ & Hwall2 & Hc2 & ->)]).
  - split; [apply Hs|done|done|done|apply Hs].
  - pose proof (direction_nonzero' context d Hok Hd) as Hd0.
    pose proof (interior_range context Hok _ Hint) as Hr.
    pose proof (interior_range context Hok _ Hint2) as Hr2.
    assert (in_bitset (clear_bit crates (player + d)) (player + d + d)) as Hin2.
    { unfold in_bitset. rewrite length_clear_bit.
      apply (state_ok_in_bitset _ _ _ Hs Hint2). }
    split.
    + rewrite length_set_bit, length_clear_bit. apply Hs.
    + done.
    + done.
    + rewrite get_set_bit, get_clear_bit by (done || lia).
      rewrite Z.eqb_refl. simpl.
      destruct (Z.eqb_spec (player + d + d) (player + d)); [lia|done].
    + intros q Hq. rewrite get_set_bit, get_clear_bit by (done || lia).
      destruct (Z.eqb_spec (player + d + d) q) as [<-|Hne]; [done|]. simpl.
      intros Hb. apply andb_true_iff in Hb as [_ Hb]. apply (sk_crates _ _ _ _ Hs); done.
Qed.

Lemma replay_ok (player : Z) (crates : list Z) (acts : string)
    (player' : Z) (crates' : list Z) :
  state_ok context problem player crates ->
  replay context problem player crates acts = Some (player', crates') ->
  state_ok context problem player' crates'.
Proof using Hok Hpb.
  revert player crates. induction acts as [|a acts IH]; intros player crates Hs; simpl.
  - intros [= <- <-]. done.
  - destruct (verify_step context problem player crates a) as [[p c]|] eqn:Hstep;
      [|done].
    apply IH. eapply verify_step_ok; done.
Qed.

Lemma initial_state_ok :
  state_ok context problem (player problem) (crates problem).
Proof using Hpb.
  destruct (po_player _ _ Hpb) as (H1 & H2 & H3).
  pose proof (po_level _ _ Hpb) as Hlv.
  split; [apply Hlv|done|done|done|apply Hlv].
Qed.

(** The bits of a goal state are those of the goals. *)
Lemma goal_state_bits (crates : list Z) (q : Z) :
  goal_state context problem crates = true -> 0 <= q < 64 * bitset_size context ->
  get_bit crates q = get_bit (goals problem) q.
Proof using Type.
  unfold goal_state. rewrite bitset_equals_words. intros Hw Hq.
  rewrite !get_bit_testbit. unfold BITS_CNT. rewrite Hw; [done|].
  split; [apply Z.div_pos; lia|]. apply Z.div_lt_upper_bound; lia.
Qed.
(** *** A crate on a cell from which it reaches no goal *)

Lemma dead_step (player : Z) (crates : list Z) (a : ascii)
    (player' : Z) (crates' : list Z) :
  state_ok context problem player crates ->
  verify_step context problem player crates a = Some (player', crates') ->
  (exists q, 0 <= q /\ get_bit crates q = true /\ dead context problem q) ->
  exists q, 0 <= q /\ get_bit crates' q = true /\ dead context problem q.
Proof using Hok Hpb.
  intros Hs Hstep (q & Hq0 & Hq & Hdead).
  destruct (verify_step_cases _ _ _ _ _ Hs Hstep)
    as (d & Hd & _ & -> & Hint & _ & Hwall
        & [[Hc ->]|(Hc & _ & Hint2 & _ & Hwall2 & Hc2 & ->)]).
  { exists q. done. }
  pose proof (interior_range context Hok _ Hint) as Hr.
  pose proof (interior_range context Hok _ Hint2) as Hr2.
  pose proof (interior_range context Hok _ (sk_player _ _ _ _ Hs)) as Hr0.
  assert (in_bitset (clear_bit crates (player + d)) (player + d + d)) as Hin2.
  { unfold in_bitset. rewrite length_clear_bit.
    apply (state_ok_in_bitset _ _ _ Hs Hint2). }
  destruct (decide (q = player + d)) as [->|Hne].
  - exists (player + d + d). split; [lia|]. split.
    + rewrite get_set_bit by (done || lia). rewrite Z.eqb_refl. done.
    + intros g k Hg Hpath. apply (Hdead g (S k) Hg).
      apply (crate_path_push _ _ _ (player + d + d)); [|done].
      exists d. split; [done|]. split; [done|].
      replace (player + d - d) with player by lia.
      split; [done|]. split; [done|]. split; [done|]. split; [done|]. split; [done|].
      apply Hs.
  - exists q. split; [done|]. split; [|done].
    rewrite get_set_bit, get_clear_bit by (done || lia).
    destruct (Z.eqb_spec (player + d) q); [lia|]. rewrite Hq. simpl.
    apply orb_true_r.
Qed.

Lemma dead_not_goal (player : Z) (crates : list Z) :
  state_ok context problem player crates ->
  (exists q, 0 <= q /\ get_bit crates q = true /\ dead context problem q) ->
  goal_state context problem crates = false.
Proof using Hok.
  intros Hs (q & Hq0 & Hq & Hdead).
  destruct (goal_state context problem crates) eqn:Hgoal; [|done]. exfalso.
  destruct (sk_crates _ _ _ _ Hs q Hq0 Hq) as [Hint Hwall].
  pose proof (interior_range context Hok _ Hint) as Hr.
  pose proof (area_bitset context Hok).
  apply (Hdead q 0%nat).
  - rewrite <- (goal_state_bits crates q Hgoal); [done|lia].
  - constructor; done.
Qed.

Lemma dead_not_alive (player : Z) (crates : list Z) :
  state_ok context problem player crates ->
  (exists q, 0 <= q /\ get_bit crates q = true /\ dead context problem q) ->
  ~ alive context problem player crates.
Proof using Hok Hpb.
  intros Hs Hdead (acts & p' & c' & Hreplay & Hgoal).
  revert player crates Hs Hdead Hreplay.
  induction acts as [|a acts IH]; intros player crates Hs Hdead; simpl.
  - intros [= <- <-]. rewrite (dead_not_goal player crates Hs Hdead) in Hgoal. done.
  - destruct (verify_step context problem player crates a) as [[p c]|] eqn:Hstep;
      [|done].
    apply IH; [eapply verify_step_ok; done|eapply dead_step; done].
Qed.
(** *** A 2x2 block of walls and crates *)

Lemma directions_cases (d : Z) :
  d ∈ directions context ->
  d = -1 \/ d = 1 \/ d = width context \/ d = - width context.
Proof using Type.
  unfold directions. rewrite !elem_of_cons, elem_of_nil. tauto.
Qed.

Lemma blocked_free (crates : list Z) (q : Z) :
  get_bit (walls problem) q = false -> get_bit crates q = false ->
  blocked (walls problem) crates q = false.
Proof using Type. unfold blocked. intros -> ->. done. Qed.

(** No crate of the block can be pushed, and no crate can be pushed onto
    a cell of the block. *)
Lemma square_step (player : Z) (crates : list Z) (a : ascii)
    (player' : Z) (crates' : list Z) (a0 u v : Z) :
  state_ok context problem player crates ->
  verify_step context problem player crates a = Some (player', crates') ->
  square context problem crates a0 u v ->
  square context problem crates' a0 u v.
Proof using Hok Hpb.
  intros Hs Hstep Hsq.
  destruct (verify_step_cases _ _ _ _ _ Hs Hstep)
    as (d & Hd & _ & -> & Hint & _ & Hwall
        & [[Hc ->]|(Hc & _ & Hint2 & _ & Hwall2 & Hc2 & ->)]); [done|].
  destruct Hsq as (Hu & Hv & Hblocked & Hstuck).
  pose proof (interior_range context Hok _ Hint) as Hr.
  pose proof (interior_range context Hok _ Hint2) as Hr2.
  pose proof (ok_width _ Hok) as Hw.
  assert (in_bitset (clear_bit crates (player + d)) (player + d + d)) as Hin2.
  { unfold in_bitset. rewrite length_clear_bit.
    apply (state_ok_in_bitset _ _ _ Hs Hint2). }
  assert (forall x, blocked (walls problem) crates x = true ->
            x <> player /\ x <> player + d + d) as Hfree.
  { intros x Hx. split; intros ->.
    - rewrite blocked_free in Hx; [done|apply Hs|apply Hs].
    - rewrite blocked_free in Hx; done. }
  assert (forall i j, (i = 0 \/ i = 1) -> (j = 0 \/ j = 1) ->
            a0 + i * u + j * v <> player + d) as Hcell.
  { intros i j Hi Hj Heq.
    destruct (Hfree _ (proj2 (Hblocked 0 0 ltac:(lia) ltac:(lia)))).
    destruct (Hfree _ (proj2 (Hblocked 0 1 ltac:(lia) ltac:(lia)))).
    destruct (Hfree _ (proj2 (Hblocked 1 0 ltac:(lia) ltac:(lia)))).
    destruct (Hfree _ (proj2 (Hblocked 1 1 ltac:(lia) ltac:(lia)))).
    apply directions_cases in Hd.
    destruct Hu as [->| ->], Hv as [->| ->], Hi as [->| ->], Hj as [->| ->];
      destruct Hd as [->|[->|[->| ->]]]; lia. }
  assert (forall i j, (i = 0 \/ i = 1) -> (j = 0 \/ j = 1) ->
            get_bit (set_bit (clear_bit crates (player + d)) (player + d + d))
                    (a0 + i * u + j * v)
            = get_bit crates (a0 + i * u + j * v)) as Hsame.
  { intros i j Hi Hj. destruct (Hblocked i j Hi Hj) as [H0 Hb].
    destruct (Hfree _ Hb) as [_ Hn2]. pose proof (Hcell i j Hi Hj) as Hn1.
    rewrite get_set_bit, get_clear_bit by (done || lia).
    destruct (Z.eqb_spec (player + d + d) (a0 + i * u + j * v)); [lia|].
    destruct (Z.eqb_spec (player + d) (a0 + i * u + j * v)); [lia|]. done. }
  split; [done|]. split; [done|]. split.
  - intros i j Hi Hj. destruct (Hblocked i j Hi Hj) as [H0 Hb]. split; [done|].
    unfold blocked in *. rewrite Hsame; done.
  - destruct Hstuck as (i & j & Hi & Hj & Hst). exists i, j.
    split; [done|]. split; [done|]. unfold stuck_crate in *. rewrite Hsame; done.
Qed.

Lemma square_not_goal (player : Z) (crates : list Z) (a0 u v : Z) :
  state_ok context problem player crates ->
  square context problem crates a0 u v ->
  goal_state context problem crates = false.
Proof using Hok.
  intros Hs (_ & _ & Hblocked & i & j & Hi & Hj & Hst).
  destruct (goal_state context problem crates) eqn:Hgoal; [|done]. exfalso.
  destruct (Hblocked i j Hi Hj) as [H0 _].
  apply andb_true_iff in Hst as [Hc Hg]. apply negb_true_iff in Hg.
  destruct (sk_crates _ _ _ _ Hs _ H0 Hc) as [Hint _].
  pose proof (interior_range context Hok _ Hint) as Hr.
  pose proof (area_bitset context Hok).
  rewrite (goal_state_bits crates _ Hgoal) in Hc by lia. congruence.
Qed.

Lemma square_not_alive (player : Z) (crates : list Z) (a0 u v : Z) :
  state_ok context problem player crates ->
  square context problem crates a0 u v ->
  ~ alive context problem player crates.
Proof using Hok Hpb.
  intros Hs Hsq (acts & p' & c' & Hreplay & Hgoal).
  revert player crates Hs Hsq Hreplay.
  induction acts as [|a acts IH]; intros player crates Hs Hsq; simpl.
  - intros [= <- <-]. rewrite (square_not_goal player crates a0 u v Hs Hsq) in Hgoal.
    done.
  - destruct (verify_step context problem player crates a) as [[p c]|] eqn:Hstep;
      [|done].
    apply IH; [eapply verify_step_ok; done|eapply square_step; done].
Qed.
(** *** check_single_2x2_deadlock *)

(** The four cells that [check_single_2x2_deadlock] reads for a crate
    pushed to [next] in the direction [d], with the orthogonal direction
    [o], are in the grid. *)
Lemma block_cells (next d o : Z) :
  interior context next ->
  ((d = 1 \/ d = -1) /\ (o = width context \/ o = - width context))
  \/ ((d = width context \/ d = - width context) /\ (o = 1 \/ o = -1)) ->
  3 <= width context
  /\ 0 <= next + d < area context /\ 0 <= next + o < area context
  /\ 0 <= next + d + o < area context /\ 0 <= next - d < area context.
Proof using Hok.
  destruct Hok as [Hw Hh Ha Hb]. intros (x & y & Hx & Hy & ->) Hdo. rewrite Ha.
  destruct Hdo as [[[->| ->] [->| ->]]|[[->| ->] [->| ->]]]; nia.
Qed.

Lemma ortho_deadlock_square (player : Z) (crates : list Z) (d o unsafe : Z) :
  state_ok context problem player crates ->
  ((d = 1 \/ d = -1) /\ (o = width context \/ o = - width context))
  \/ ((d = width context \/ d = - width context) /\ (o = 1 \/ o = -1)) ->
  get_bit crates (player + d) = true ->
  interior context (player + d + d) ->
  get_bit crates (player + d + d) = false ->
  blocked (walls problem) crates (player + d + d + d) = true ->
  0 <= unsafe <= 2 ->
  (unsafe <> 0 ->
   get_bit (goals problem) (player + d + d) = false
   \/ stuck_crate (goals problem) crates (player + d + d + d) = true) ->
  ortho_deadlock problem crates (player + d + d) (player + d + d + d) unsafe o = true ->
  exists a0 u v,
    square context problem
           (set_bit (clear_bit crates (player + d)) (player + d + d)) a0 u v.
Proof using Hok.
  intros Hs Hdo Hc Hint2 Hc2 Hb10 Hun Hunsafe Hortho.
  set (p := player + d) in *. set (next := p + d) in *.
  set (crates' := set_bit (clear_bit crates p) next).
  destruct (block_cells next d o Hint2 Hdo) as (Hw3 & H10 & H01 & H11 & Hp).
  pose proof (area_range context Hok) as Ha.
  pose proof (interior_range context Hok _ Hint2) as Hr2.
  replace (next - d) with p in Hp by (unfold next; lia).
  assert (in_bitset (clear_bit crates p) next) as Hin2.
  { unfold in_bitset. rewrite length_clear_bit.
    apply (state_ok_in_bitset _ _ _ Hs Hint2). }
  assert (get_bit crates' next = true) as Hnext.
  { unfold crates'. rewrite get_set_bit by (done || lia). rewrite Z.eqb_refl. done. }
  assert (forall x, 0 <= x -> x <> p -> x <> next ->
            get_bit crates' x = get_bit crates x) as Hsame.
  { intros x Hx Hxp Hxn. unfold crates'.
    rewrite get_set_bit, get_clear_bit by (done || lia).
    destruct (Z.eqb_spec next x); [lia|]. destruct (Z.eqb_spec p x); [lia|]. done. }
  unfold ortho_deadlock in Hortho.
  rewrite (wrap16_small (next + o)) in Hortho by lia.
  rewrite (wrap16_small (next + d + o)) in Hortho by lia.
  destruct (get_bit crates (next + o) || get_bit (walls problem) (next + o)) eqn:Hb01;
    [|done].
  destruct (get_bit crates (next + d + o) || get_bit (walls problem) (next + d + o))
    eqn:Hb11; [|done].
  simpl in Hortho.
  assert (forall i j, (i = 0 \/ i = 1) -> (j = 0 \/ j = 1) ->
            0 <= next + i * d + j * o
            /\ blocked (walls problem) crates' (next + i * d + j * o) = true) as Hcells.
  { assert (d <> 0 /\ o <> 0 /\ d + o <> 0 /\ d + d + o <> 0 /\ d + o + 0 <> 0) as Hne.
    { destruct Hdo as [[[->| ->] [->| ->]]|[[->| ->] [->| ->]]]; lia. }
    intros i j [->| ->] [->| ->]; (split; [lia|]); unfold blocked.
    - replace (next + 0 * d + 0 * o) with next by lia. rewrite Hnext. done.
    - replace (next + 0 * d + 1 * o) with (next + o) by lia.
      rewrite Hsame by (unfold next in *; lia). done.
    - replace (next + 1 * d + 0 * o) with (next + d) by lia.
      rewrite Hsame by (unfold next in *; lia). done.
    - replace (next + 1 * d + 1 * o) with (next + d + o) by lia.
      rewrite Hsame by (unfold next in *; lia). done. }
  assert (exists i j, (i = 0 \/ i = 1) /\ (j = 0 \/ j = 1)
            /\ stuck_crate (goals problem) crates' (next + i * d + j * o) = true)
    as Hstuck.
  { assert (d <> 0 /\ o <> 0 /\ d + o <> 0 /\ d + d + o <> 0) as Hne.
    { destruct Hdo as [[[->| ->] [->| ->]]|[[->| ->] [->| ->]]]; lia. }
    unfold stuck_crate.
    destruct (get_bit crates (next + o) && negb (get_bit (goals problem) (next + o)))
      eqn:H01s.
    { exists 0, 1. split; [lia|]. split; [lia|].
      replace (next + 0 * d + 1 * o) with (next + o) by lia.
      rewrite Hsame by (unfold next in *; lia). done. }
    destruct (get_bit crates (next + d + o)
              && negb (get_bit (goals problem) (next + d + o))) eqn:H11s.
    { exists 1, 1. split; [lia|]. split; [lia|].
      replace (next + 1 * d + 1 * o) with (next + d + o) by lia.
      rewrite Hsame by (unfold next in *; lia). done. }
    apply negb_true_iff, Z.eqb_neq in Hortho.
    destruct (Hunsafe Hortho) as [Hg|Hst].
    - exists 0, 0. split; [lia|]. split; [lia|].
      replace (next + 0 * d + 0 * o) with next by lia. rewrite Hnext, Hg. done.
    - exists 1, 0. split; [lia|]. split; [lia|].
      replace (next + 1 * d + 0 * o) with (next + d) by lia.
      rewrite Hsame by (unfold next in *; lia). done. }
  destruct Hdo as [[Hd Ho]|[Hd Ho]].
  - exists next, d, o. split; [done|]. split; [done|]. split; done.
  - exists next, o, d. split; [done|]. split; [done|]. split.
    + intros i j Hi Hj. replace (next + i * o + j * d) with (next + j * d + i * o) by lia.
      apply Hcells; done.
    + destruct Hstuck as (i & j & Hi & Hj & Hst). exists j, i.
      split; [done|]. split; [done|].
      replace (next + j * o + i * d) with (next + i * d + j * o) by lia. done.
Qed.
Lemma check_single_square (player : Z) (crates : list Z) (d : Z) :
  state_ok context problem player crates -> d ∈ directions context ->
  get_bit crates (player + d) = true ->
  interior context (player + d + d) ->
  get_bit crates (player + d + d) = false ->
  check_single_2x2_deadlock context problem crates (player + d + d) d = true ->
  exists a0 u v,
    square context problem
           (set_bit (clear_bit crates (player + d)) (player + d + d)) a0 u v.
Proof using Hok.
  intros Hs Hd Hc Hint2 Hc2. unfold check_single_2x2_deadlock.
  pose proof (interior_neighbour context Hok _ d Hint2 Hd) as H10.
  pose proof (area_range context Hok) as Ha.
  pose proof (ok_width _ Hok) as Hw.
  rewrite (wrap16_small (player + d + d + d)) by lia.
  destruct (get_bit crates (player + d + d + d)
            || get_bit (walls problem) (player + d + d + d)) eqn:Hb10; [|done].
  simpl negb. cbv iota.
  set (unsafe0 := if get_bit (goals problem) (player + d + d) then 0 else 1).
  set (unsafe := if _ && _ then wrap16 (unsafe0 + 1) else unsafe0).
  assert (0 <= unsafe <= 2
          /\ (unsafe <> 0 ->
              get_bit (goals problem) (player + d + d) = false
              \/ stuck_crate (goals problem) crates (player + d + d + d) = true))
    as [Hun Hunsafe].
  { unfold unsafe, unsafe0, stuck_crate.
    destruct (get_bit (goals problem) (player + d + d));
      destruct (get_bit crates (player + d + d + d)
                && negb (get_bit (goals problem) (player + d + d + d)));
      (split; [vm_compute; split; congruence|]); intros Hne; try (right; done);
      try (left; done). }
  clearbody unsafe. cbn [existsb]. rewrite orb_false_r.
  intros Hex. apply orb_true_iff in Hex.
  apply directions_cases in Hd.
  assert (exists o,
            (((d = 1 \/ d = -1) /\ (o = width context \/ o = - width context))
             \/ ((d = width context \/ d = - width context) /\ (o = 1 \/ o = -1)))
            /\ ortho_deadlock problem crates (player + d + d) (player + d + d + d)
                              unsafe o = true) as (o & Hdo & Hortho).
  { destruct Hd as [->|[->|[->| ->]]].
    - change (Z.abs (-1)) with 1 in Hex.
      replace (width context + 1 - 1) with (width context) in Hex by lia.
      destruct Hex as [H|H]; eexists; (split; [|exact H]); lia.
    - change (Z.abs 1) with 1 in Hex.
      replace (width context + 1 - 1) with (width context) in Hex by lia.
      destruct Hex as [H|H]; eexists; (split; [|exact H]); lia.
    - rewrite Z.abs_eq in Hex by lia.
      replace (width context + 1 - width context) with 1 in Hex by lia.
      destruct Hex as [H|H]; eexists; (split; [|exact H]); lia.
    - rewrite Z.abs_neq in Hex by lia.
      replace (width context + 1 - - - width context) with 1 in Hex by lia.
      destruct Hex as [H|H]; eexists; (split; [|exact H]); lia. }
  eapply ortho_deadlock_square; done.
Qed.

(** *** The moves that the searches skip *)

(** A move of the game to a state from which the level can be solved is an
    edge of the graph of the searches. *)
Lemma prune_sound (player : Z) (crates : list Z) (a : ascii)
    (player' : Z) (crates' : list Z) :
  state_ok context problem player crates ->
  verify_step context problem player crates a = Some (player', crates') ->
  alive context problem player' crates' ->
  edge context problem (player, crates) (player', crates').
Proof using Hok Hpb.
  intros Hs Hstep Halive.
  pose proof (verify_step_ok _ _ _ _ _ Hs Hstep) as Hs'.
  destruct (verify_step_cases _ _ _ _ _ Hs Hstep)
    as (d & Hd & _ & -> & Hint & Hwrap & Hwall
        & [[Hc ->]|(Hc & _ & Hint2 & Hwrap2 & Hwall2 & Hc2 & ->)]).
  - apply list_elem_of_lookup in Hd as [index Hindex].
    exists index, d, (action_at index), false. split; [done|].
    unfold make_child. simpl. rewrite Hwrap, Hwall, Hc. done.
  - pose proof Hd as Hd'. apply list_elem_of_lookup in Hd' as [index Hindex].
    exists index, d, (action_at (index + 4)), true. split; [done|].
    unfold make_child. simpl. rewrite Hwrap, Hwall, Hc, Hwrap2, Hwall2, Hc2. simpl.
    pose proof (interior_range context Hok _ Hint) as Hr.
    pose proof (interior_range context Hok _ Hint2) as Hr2.
    destruct (get_bit (deadlocks problem) (player + d + d)) eqn:Hdead.
    { exfalso. apply (dead_not_alive _ _ Hs'); [|done].
      exists (player + d + d). split; [lia|]. split.
      - rewrite get_set_bit; [rewrite Z.eqb_refl; done| |lia].
        unfold in_bitset. rewrite length_clear_bit.
        apply (state_ok_in_bitset _ _ _ Hs Hint2).
      - apply (po_deadlocks _ _ Hpb); done. }
    destruct (check_single_2x2_deadlock _ _ _ _ _) eqn:Hsingle.
    { exfalso.
      destruct (check_single_square player crates d Hs Hd Hc Hint2 Hc2 Hsingle)
        as (a0 & u & v & Hsq).
      apply (square_not_alive _ _ a0 u v Hs'); done. }
    f_equal. rewrite bitset_copy_id by apply Hs.
    rewrite set_clear_bit_comm; [done|lia|lia|].
    pose proof (direction_nonzero' context d Hok Hd). lia.
Qed.

(** A solution gives a path of the graph to a goal state that is not
    longer. *)
Lemma replay_path (n : nat) (player : Z) (crates : list Z) (acts : string)
    (player' : Z) (crates' : list Z) :
  state_ok context problem player crates ->
  path context problem n (player, crates) ->
  replay context problem player crates acts = Some (player', crates') ->
  goal_state context problem crates' = true ->
  exists d s, (d <= n + String.length acts)%nat /\ path context problem d s
              /\ goal_state context problem s.2 = true.
Proof using Hok Hpb.
  revert n player crates.
  induction acts as [|a acts IH]; intros n player crates Hs Hpath; simpl.
  - intros [= <- <-] Hgoal. exists n, (player, crates). split; [lia|]. done.
  - destruct (goal_state context problem crates) eqn:Hg.
    { intros _ _. exists n, (player, crates). split; [lia|]. done. }
    destruct (verify_step context problem player crates a) as [[p c]|] eqn:Hstep;
      [|done].
    intros Hreplay Hgoal.
    destruct (IH (S n) p c) as (d & s & Hd & Hp & Hgs); [| |done|done|].
    + eapply verify_step_ok; done.
    + eapply path_step; [done|done|].
      eapply prune_sound; [done|done|]. exists acts, player', crates'. done.
    + exists d, s. split; [lia|]. done.
Qed.

Lemma solution_path (acts : string) :
  verify_solution context problem acts = true ->
  exists d s, (d <= String.length acts)%nat /\ path context problem d s
              /\ goal_state context problem s.2 = true.
Proof using Hok Hpb.
  unfold verify_solution. rewrite verify_solution_from_replay.
  destruct (replay _ _ _ _ _) as [[p c]|] eqn:Hreplay; [|done]. intros Hgoal.
  apply (replay_path 0 _ _ acts p c initial_state_ok); [constructor|done|done].
Qed.
End Game.

(** ** The heuristic *)

Lemma sumZ_map_point (f g : Z -> Z) (l : list Z) (x : Z) :
  NoDup l -> x ∈ l -> (forall p, p ∈ l -> p <> x -> g p = f p) ->
  sumZ (map g l) = sumZ (map f l) - f x + g x.
Proof.
  intros Hnd Hx Hsame. induction l as [|a l IH]; [by apply elem_of_nil in Hx|].
  apply NoDup_cons in Hnd as [Ha Hnd]. simpl.
  destruct (decide (a = x)) as [->|Hne].
  - assert (map g l = map f l) as ->; [|lia].
    apply map_ext_in. intros p Hp. apply list_elem_of_In in Hp.
    apply Hsame; [right; done|]. intros ->. done.
  - apply elem_of_cons in Hx as [->|Hx]; [done|].
    rewrite IH; [|done|done|intros p Hp; apply Hsame; right; done].
    rewrite (Hsame a); [lia|left|done].
Qed.

Lemma sumZ_map_ext (f g : Z -> Z) (l : list Z) :
  (forall p, p ∈ l -> g p = f p) -> sumZ (map g l) = sumZ (map f l).
Proof.
  intros H. f_equal. apply map_ext_in. intros p Hp. apply H, list_elem_of_In. done.
Qed.

Lemma sumZ_map_nonneg (f : Z -> Z) (l : list Z) :
  (forall p, p ∈ l -> 0 <= f p) -> 0 <= sumZ (map f l).
Proof.
  induction l as [|a l IH]; intros H; simpl; [lia|].
  pose proof (H a ltac:(left)). specialize (IH ltac:(intros; apply H; right; done)).
  lia.
Qed.

Lemma sumZ_map_le (f g : Z -> Z) (l : list Z) :
  (forall p, p ∈ l -> f p <= g p) -> sumZ (map f l) <= sumZ (map g l).
Proof.
  induction l as [|a l IH]; intros H; simpl; [lia|].
  pose proof (H a ltac:(left)). specialize (IH ltac:(intros; apply H; right; done)).
  lia.
Qed.


Lemma sumZ_map_scale (f : Z -> Z) (l : list Z) (k : Z) :
  sumZ (map (fun p => k * f p) l) = k * sumZ (map f l).
Proof. induction l as [|a l IH]; simpl; [lia|]. rewrite IH. lia. Qed.

Section Heuristic.
Variable context : context_t.
Variable problem : problem_t.
Hypothesis Hok : context_ok context.
Hypothesis Hpb : problem_ok context problem.

(** The child that [make_child] gives. *)
Lemma make_child_cases (player : Z) (crates : list Z) (index : nat) (d : Z)
    (player' : Z) (a : ascii) (changed : bool) (crates' : list Z) :
  state_ok context problem player crates ->
  directions context !! index = Some d ->
  make_child context problem player crates index d = Child player' a changed crates' ->
  player' = player + d /\ d ∈ directions context
  /\ state_ok context problem player' crates'
  /\ ((changed = false /\ crates' = crates)
      \/ (changed = true /\ get_bit crates player' = true
          /\ interior context player' /\ interior context (player' + d)
          /\ get_bit (walls problem) (player' + d) = false
          /\ get_bit crates (player' + d) = false
          /\ get_bit (deadlocks problem) (player' + d) = false
          /\ crates' = set_bit (clear_bit crates player') (player' + d))).
Proof using Hok Hpb.
  intros Hs Hindex Hchild.
  destruct (make_child_verify _ _ _ _ _ _ _ _ _ _ Hindex (sk_length _ _ _ _ Hs) Hchild)
    as [Hstep _].
  pose proof (verify_step_ok context problem Hok Hpb _ _ _ _ _ Hs Hstep) as Hs'.
  assert (d ∈ directions context) as Hd by (eapply list_elem_of_lookup_2; done).
  unfold make_child in Hchild.
  destruct (get_bit (walls problem) (wrap16 (player + d))) eqn:Hwall; [done|].
  destruct (step_interior context Hok _ (walls_border context problem Hpb) player d
              (sk_player _ _ _ _ Hs) Hd Hwall) as [Hp Hint].
  rewrite Hp in *.
  destruct (get_bit crates (player + d)) eqn:Hcrate.
  - destruct (get_bit (walls problem) (wrap16 (player + d + d))) eqn:Hwall2; [done|].
    destruct (step_interior context Hok _ (walls_border context problem Hpb)
                (player + d) d Hint Hd Hwall2) as [Hp2 Hint2].
    rewrite Hp2 in *.
    destruct (get_bit crates (player + d + d)) eqn:Hcrate2; [done|].
    destruct (get_bit (deadlocks problem) (player + d + d)) eqn:Hdead; [done|].
    simpl in Hchild.
    destruct (check_single_2x2_deadlock _ _ _ _ _); [done|].
    injection Hchild as <- <- <- <-.
    split; [done|]. split; [done|]. split; [done|]. right.
    do 7 (split; [done|]).
    rewrite bitset_copy_id by apply Hs.
    pose proof (interior_range context Hok _ Hint).
    pose proof (interior_range context Hok _ Hint2).
    pose proof (direction_nonzero' context d Hok Hd).
    rewrite set_clear_bit_comm; [done|lia|lia|lia].
  - injection Hchild as <- <- <- <-.
    split; [done|]. split; [done|]. split; [done|]. left. done.
Qed.

Lemma edge_ok (s s' : Z * list Z) :
  state_ok context problem s.1 s.2 -> edge context problem s s' ->
  state_ok context problem s'.1 s'.2.
Proof using Hok Hpb.
  intros Hs (index & d & a & changed & Hindex & Hchild).
  apply (make_child_cases _ _ _ _ _ _ _ _ Hs Hindex Hchild).
Qed.

Lemma push_bits (player : Z) (crates : list Z) (p q x : Z) :
  state_ok context problem player crates ->
  interior context p -> interior context q -> 0 <= x ->
  get_bit (set_bit (clear_bit crates p) q) x
  = (q =? x) || (negb (p =? x) && get_bit crates x).
Proof using Hok.
  intros Hs Hp Hq Hx.
  pose proof (interior_range context Hok _ Hp).
  pose proof (interior_range context Hok _ Hq).
  rewrite get_set_bit, get_clear_bit; [done|lia|lia| |lia].
  unfold in_bitset. rewrite length_clear_bit.
  apply (state_ok_in_bitset context problem Hok _ _ _ Hs Hq).
Qed.

Lemma edge_safe (s s' : Z * list Z) :
  state_ok context problem s.1 s.2 -> safe_crates problem s.2 ->
  edge context problem s s' -> safe_crates problem s'.2.
Proof using Hok Hpb.
  intros Hs Hsafe (index & d & a & changed & Hindex & Hchild).
  destruct (make_child_cases _ _ _ _ _ _ _ _ Hs Hindex Hchild)
    as (Hp & Hd & Hs' & [[_ ->]|(_ & Hc & Hint & Hint2 & Hw2 & Hc2 & Hdead & ->)]); [done|].
  intros q Hq. rewrite (push_bits _ _ _ _ _ Hs Hint Hint2 Hq).
  destruct (Z.eqb_spec (s'.1 + d) q) as [<-|Hne]; [done|]. simpl.
  intros Hb. apply andb_true_iff in Hb as [_ Hb]. apply Hsafe; done.
Qed.

(** The terms of the sums. *)
Lemma indices_area (q : Z) : q ∈ indices (area context) <-> 0 <= q < area context.
Proof using Type. apply elem_of_indices. Qed.

Lemma heuristic_term (crates : list Z) (player q : Z) :
  state_ok context problem player crates -> safe_crates problem crates ->
  0 <= q -> get_bit crates q = true ->
  0 <= cost_at (heuristics problem) q <= area context - 1.
Proof using Hok Hpb.
  intros Hs Hsafe Hq Hc.
  destruct (sk_crates _ _ _ _ Hs q Hq Hc) as [Hint _].
  pose proof (interior_range context Hok _ Hint) as Hr.
  destruct (po_real _ _ Hpb q Hr (Hsafe q Hq Hc)) as (H0 & _). lia.
Qed.
Lemma heuristic_sum_bound (player : Z) (crates : list Z) :
  state_ok context problem player crates -> safe_crates problem crates ->
  0 <= heuristic_sum context problem crates
    <= (area context - 1) * crate_count context crates.
Proof using Hok Hpb.
  intros Hs Hsafe. unfold heuristic_sum, crate_count. split.
  - apply sumZ_map_nonneg. intros q Hq. apply indices_area in Hq.
    destruct (get_bit crates q) eqn:Hc; [|lia].
    apply (heuristic_term crates player q Hs Hsafe); [lia|done].
  - rewrite <- sumZ_map_scale. apply sumZ_map_le. intros q Hq.
    apply indices_area in Hq.
    destruct (get_bit crates q) eqn:Hc; [|lia].
    pose proof (heuristic_term crates player q Hs Hsafe ltac:(lia) Hc). lia.
Qed.

Lemma fold_heuristic (crates : list Z) (l : list Z) (acc : Z) :
  (forall q, q ∈ l -> get_bit crates q = true -> 0 <= cost_at (heuristics problem) q) ->
  0 <= acc ->
  acc + sumZ (map (fun p => if get_bit crates p then cost_at (heuristics problem) p
                            else 0) l) < 65536 ->
  fold_left (fun h position =>
               if get_bit crates position
               then wrap16 (h + cost_at (heuristics problem) position) else h) l acc
  = acc + sumZ (map (fun p => if get_bit crates p then cost_at (heuristics problem) p
                              else 0) l).
Proof using Type.
  revert acc. induction l as [|a l IH]; intros acc Hterm Hacc Hsum; simpl; [lia|].
  simpl in Hsum.
  assert (0 <= sumZ (map (fun p => if get_bit crates p
                                   then cost_at (heuristics problem) p else 0) l)) as Hrest.
  { apply sumZ_map_nonneg. intros q Hq. destruct (get_bit crates q) eqn:Hc; [|lia].
    apply Hterm; [right; done|done]. }
  destruct (get_bit crates a) eqn:Hc.
  - pose proof (Hterm a ltac:(left) Hc).
    rewrite wrap16_small by lia.
    rewrite IH; [lia| |lia|lia]. intros q Hq. apply Hterm. right. done.
  - rewrite IH; [lia| |lia|lia]. intros q Hq. apply Hterm. right. done.
Qed.

(** Without a wrap-around [compute_heuristic] is the sum of the entries of
    the heuristic table over the crates. *)
Lemma compute_heuristic_sum (player : Z) (crates : list Z) :
  state_ok context problem player crates -> safe_crates problem crates ->
  (area context - 1) * crate_count context crates < 65536 ->
  compute_heuristic context problem crates = heuristic_sum context problem crates.
Proof using Hok Hpb.
  intros Hs Hsafe Hbound. unfold compute_heuristic.
  pose proof (heuristic_sum_bound player crates Hs Hsafe) as Hb.
  rewrite fold_heuristic; [unfold heuristic_sum; lia| |lia|unfold heuristic_sum in Hb; lia].
  intros q Hq Hc. apply indices_area in Hq.
  apply (heuristic_term crates player q Hs Hsafe); [lia|done].
Qed.

(** A sum over the crates after a push. *)
Lemma push_sum (w : Z -> Z) (player : Z) (crates : list Z) (p q : Z) :
  state_ok context problem player crates ->
  interior context p -> interior context q -> p <> q ->
  get_bit crates p = true -> get_bit crates q = false ->
  sumZ (map (fun x => if get_bit (set_bit (clear_bit crates p) q) x then w x else 0)
            (indices (area context)))
  = sumZ (map (fun x => if get_bit crates x then w x else 0) (indices (area context)))
    - w p + w q.
Proof using Hok.
  intros Hs Hp Hq Hpq Hcp Hcq.
  pose proof (interior_range context Hok _ Hp) as Hrp.
  pose proof (interior_range context Hok _ Hq) as Hrq.
  set (f := fun x => if get_bit crates x then w x else 0).
  set (h := fun x => if negb (p =? x) && get_bit crates x then w x else 0).
  set (g := fun x => if get_bit (set_bit (clear_bit crates p) q) x then w x else 0).
  assert (sumZ (map h (indices (area context)))
          = sumZ (map f (indices (area context))) - f p + h p) as Hh.
  { apply sumZ_map_point; [apply NoDup_indices|apply indices_area; done|].
    intros x Hx Hne. unfold h, f. destruct (Z.eqb_spec p x); [lia|]. done. }
  assert (sumZ (map g (indices (area context)))
          = sumZ (map h (indices (area context))) - h q + g q) as Hg.
  { apply sumZ_map_point; [apply NoDup_indices|apply indices_area; done|].
    intros x Hx Hne. apply indices_area in Hx. unfold g, h.
    rewrite (push_bits _ _ _ _ _ Hs Hp Hq) by lia.
    destruct (Z.eqb_spec q x); [lia|]. done. }
  rewrite Hg, Hh. unfold f, h, g.
  rewrite (push_bits _ _ _ _ _ Hs Hp Hq) by lia.
  rewrite Hcp, Hcq, !Z.eqb_refl. simpl. rewrite andb_false_r. lia.
Qed.

Lemma direction_step (player' d : Z) :
  d ∈ directions context -> player' <> player' + d.
Proof using Hok. intros Hd. pose proof (direction_nonzero' context d Hok Hd). lia. Qed.

Lemma edge_count (s s' : Z * list Z) :
  state_ok context problem s.1 s.2 -> edge context problem s s' ->
  crate_count context s'.2 = crate_count context s.2.
Proof using Hok Hpb.
  intros Hs (index & d & a & changed & Hindex & Hchild).
  destruct (make_child_cases _ _ _ _ _ _ _ _ Hs Hindex Hchild)
    as (Hp & Hd & Hs' & [[_ ->]|(_ & Hc & Hint & Hint2 & Hw2 & Hc2 & Hdead & ->)]); [done|].
  unfold crate_count.
  rewrite (push_sum (fun _ => 1) _ _ _ _ Hs Hint Hint2 (direction_step _ _ Hd) Hc Hc2).
  lia.
Qed.

(** The heuristic is consistent: an edge lowers it by one at most. *)
Lemma edge_heuristic (s s' : Z * list Z) :
  state_ok context problem s.1 s.2 -> edge context problem s s' ->
  heuristic_sum context problem s.2 <= heuristic_sum context problem s'.2 + 1.
Proof using Hok Hpb.
  intros Hs (index & d & a & changed & Hindex & Hchild).
  destruct (make_child_cases _ _ _ _ _ _ _ _ Hs Hindex Hchild)
    as (Hp & Hd & Hs' & [[_ ->]|(_ & Hc & Hint & Hint2 & Hw2 & Hc2 & Hdead & ->)]); [lia|].
  unfold heuristic_sum.
  rewrite (push_sum (cost_at (heuristics problem)) _ _ _ _ Hs Hint Hint2
             (direction_step _ _ Hd) Hc Hc2).
  pose proof (interior_range context Hok _ Hint) as Hr.
  pose proof (interior_range context Hok _ Hint2) as Hr2.
  destruct (po_real _ _ Hpb _ Hr2 Hdead) as (H0 & g & Hg & Hpath).
  assert (cost_at (heuristics problem) s'.1
          <= Z.of_nat (S (Z.to_nat (cost_at (heuristics problem) (s'.1 + d))))) as Hle.
  { apply (po_sound _ _ Hpb _ g); [done|].
    apply (crate_path_push _ _ _ (s'.1 + d)); [|done].
    assert (s'.1 - d = s.1) as Hback by lia.
    pose proof (interior_range context Hok _ (sk_player _ _ _ _ Hs)).
    exists d. rewrite Hback.
    split; [done|]. split; [done|]. split; [done|]. split; [done|]. split; [done|].
    split; [apply Hs'|]. split; [done|apply Hs]. }
  lia.
Qed.
Lemma goal_cell_heuristic (q : Z) :
  0 <= q -> get_bit (goals problem) q = true -> cost_at (heuristics problem) q = 0.
Proof using Hok Hpb.
  intros Hq Hg.
  destruct (lv_goals_free _ _ _ _ (po_level _ _ Hpb) q Hq Hg) as [Hint Hw].
  pose proof (interior_range context Hok _ Hint) as Hr.
  assert (crate_path context (walls problem) q 0 q) as Hpath by (constructor; done).
  pose proof (po_sound _ _ Hpb q q 0%nat Hg Hpath) as Hle.
  destruct (get_bit (deadlocks problem) q) eqn:Hdead.
  - exfalso. apply (po_deadlocks _ _ Hpb q Hr Hdead q 0%nat); done.
  - destruct (po_real _ _ Hpb q Hr Hdead) as (H0 & _). lia.
Qed.


Lemma goal_heuristic (player : Z) (crates : list Z) :
  state_ok context problem player crates ->
  goal_state context problem crates = true ->
  heuristic_sum context problem crates = 0.
Proof using Hok Hpb.
  intros Hs Hgoal. unfold heuristic_sum.
  pose proof (area_bitset context Hok) as Hab.
  rewrite (sumZ_map_ext (fun _ => 0 * 0)).
  - rewrite sumZ_map_scale. lia.
  - intros q Hq. apply indices_area in Hq.
    destruct (get_bit crates q) eqn:Hc; [|done].
    rewrite (goal_state_bits context problem crates q Hgoal) in Hc by lia.
    rewrite goal_cell_heuristic; [done|lia|done].
Qed.

End Heuristic.

(** ** The graph that the searches explore *)

Section Graph.
Context {P : Type}.
Variable context : context_t.
Variable problem : problem_t.
Hypothesis Hok : context_ok context.
Hypothesis Hpb : problem_ok context problem.

Lemma resolved_app (cache : list (state_t P)) (x y : state_t P) (s' : Z * list Z) :
  resolved context problem cache x s' -> resolved context problem (cache ++ [y]) x s'.
Proof using Type.
  intros (Hg & j & sj & Hj & Hs & Hc). split; [done|]. exists j, sj.
  split; [|done]. rewrite lookup_app_l; [done|]. eapply lookup_lt_Some. done.
Qed.

Lemma expanded_upto_app (cache : list (state_t P)) (x y : state_t P) (k : nat) :
  expanded_upto context problem cache x k ->
  expanded_upto context problem (cache ++ [y]) x k.
Proof using Type.
  intros H index d p a changed c Hi Hd Hchild. apply resolved_app. eapply H; done.
Qed.

Lemma expanded_upto_S (cache : list (state_t P)) (x : state_t P) (index : nat) :
  expanded_upto context problem cache x index ->
  (forall d p a changed c,
     directions context !! index = Some d ->
     make_child context problem (state_player x) (state_crates x) index d
     = Child p a changed c ->
     resolved context problem cache x (p, c)) ->
  expanded_upto context problem cache x (S index).
Proof using Type.
  intros Hexp Hnew index' d p a changed c Hi Hd Hchild.
  destruct (decide (index' = index)) as [->|Hne].
  - eapply Hnew; done.
  - eapply Hexp; [|done|done]. lia.
Qed.

Lemma edge_resolved (cache : list (state_t P)) (x : state_t P) (s' : Z * list Z) :
  expanded_upto context problem cache x 4 ->
  edge context problem (node_state x) s' ->
  resolved context problem cache x s'.
Proof using Type.
  intros Hexp (index & d & a & changed & Hd & Hchild).
  destruct s' as [p c]. eapply Hexp; [|done|done].
  apply lookup_lt_Some in Hd. done.
Qed.

(** A state of the game with the player and the crates of a search state. *)
Lemma twin_state (cache : list (state_t P)) (hashmap : list nat) (child : state_t P)
    (t : nat) :
  states_inv context problem cache ->
  length (state_crates child) = Z.to_nat (bitset_size context) ->
  hashmap_get context cache hashmap child = Some t ->
  exists twin, cache !! t = Some twin /\ node_state twin = node_state child.
Proof using Type.
  intros Hst Hlen Hget.
  apply hashmap_get_Some in Hget as (_ & twin & Htwin & Hcmp).
  exists twin. split; [done|].
  destruct (si_states _ _ _ Hst _ _ Htwin) as (Hs & _).
  apply state_compare_eq in Hcmp as [Hp Hc]; [|apply Hs|done].
  unfold node_state. rewrite Hp, Hc. done.
Qed.

(** The states of the paths stay among the search states as long as the
    search states they pass are expanded. *)
Lemma path_resolved (cache : list (state_t P)) (bound : Z) :
  states_inv context problem cache ->
  (forall i si, cache !! i = Some si -> cost si < bound ->
                expanded_upto context problem cache si 4) ->
  forall d s, path context problem d s -> Z.of_nat d <= bound ->
    exists j sj, cache !! j = Some sj /\ node_state sj = s /\ cost sj <= Z.of_nat d.
Proof using Type.
  intros Hst Hclosed d s Hpath. induction Hpath as [|d s s' Hpath IH Hng Hedge].
  - intros _. destruct (si_root _ _ _ Hst) as (s0 & H0 & Hs0 & Hc0).
    exists 0%nat, s0. split; [done|]. split; [done|]. lia.
  - intros Hd. destruct IH as (j & sj & Hj & Hsj & Hcj); [lia|].
    rewrite <- Hsj in Hedge.
    destruct (edge_resolved cache sj s' (Hclosed j sj Hj ltac:(lia)) Hedge)
      as (_ & j' & sj' & Hj' & Hsj' & Hcj').
    exists j', sj'. split; [done|]. split; [done|]. lia.
Qed.

(** No path to a goal state is shorter than the cost of a state whose
    predecessors in cost are expanded. *)
Lemma path_goal_bound (cache : list (state_t P)) (bound : Z) :
  states_inv context problem cache ->
  (forall i si, cache !! i = Some si -> cost si < bound ->
                expanded_upto context problem cache si 4) ->
  forall d s, path context problem d s -> goal_state context problem s.2 = true ->
    bound < Z.of_nat d.
Proof using Hpb.
  intros Hst Hclosed d s Hpath Hgoal.
  destruct (Z.lt_ge_cases bound (Z.of_nat d)) as [|Hle]; [done|]. exfalso.
  destruct Hpath as [|d s s' Hpath Hng Hedge].
  - simpl in Hgoal. rewrite (po_unsolved _ _ Hpb) in Hgoal. done.
  - destruct (path_resolved cache bound Hst Hclosed d s Hpath ltac:(lia))
      as (j & sj & Hj & Hsj & Hcj).
    rewrite <- Hsj in Hedge.
    destruct (edge_resolved cache sj s' (Hclosed j sj Hj ltac:(lia)) Hedge) as (Hg & _).
    congruence.
Qed.
End Graph.

(** ** solve_bfs *)

Section Bfs.
Variable context : context_t.
Variable problem : problem_t.
Hypothesis Hok : context_ok context.
Hypothesis Hpb : problem_ok context problem.
Hypothesis Hcount : 2 <= state_count context <= 65536.

(** The states before the one that is expanded are the states of lower
    cost. *)
Lemma bfs_closed_cost (st : search unit) (current : nat) (sc : state_t unit) :
  bfs_inv context problem st current -> cache st !! current = Some sc ->
  forall i si, cache st !! i = Some si -> cost si < cost sc ->
               expanded_upto context problem (cache st) si 4.
Proof using Type.
  intros Hinv Hsc i si Hi Hlt. apply (bi_closed _ _ _ _ Hinv i si); [|done].
  destruct (Nat.lt_ge_cases i current) as [|Hge]; [done|].
  pose proof (bi_mono _ _ _ _ Hinv current i sc si Hge Hsc Hi). lia.
Qed.

(** The solution that is returned for a goal child is a shortest one. *)
Lemma bfs_solution_optimal (st : search unit) (current : nat) (sc : state_t unit)
    (action : ascii) (player : Z) (crates : list Z) (its : Z) :
  bfs_inv context problem st current -> cache st !! current = Some sc ->
  verify_step context problem (state_player sc) (state_crates sc) action
  = Some (player, crates) ->
  goal_state context problem crates = true ->
  exists r, return_solution (cache st) current (cost sc + 1) action its = Returned r
            /\ optimal_result context problem r.
Proof using Hok Hpb.
  intros Hinv Hsc Hstep Hgoal.
  pose proof (bi_tree _ _ _ _ Hinv) as Htree.
  destruct (tree_nodes _ _ _ _ Htree _ _ Hsc) as (_ & Hcost & _).
  destruct (tree_path context problem _ (cache st) current sc Htree Hsc)
    as (acts & Hreplay & Hlen & Hback).
  unfold return_solution.
  destruct (Z.eqb_spec (cost sc + 1) 0) as [|_]; [lia|].
  replace (cost sc + 1 - 1) with (cost sc) by lia. rewrite Hback.
  eexists. split; [reflexivity|]. split; [|done]. intros _. simpl.
  eexists. split; [reflexivity|]. split.
  - unfold verify_solution. rewrite verify_solution_from_replay, replay_app, Hreplay.
    simpl. rewrite Hstep. exact Hgoal.
  - intros acts' Hvalid.
    destruct (solution_path context problem Hok Hpb acts' Hvalid)
      as (d & s & Hd & Hpath & Hg).
    pose proof (path_goal_bound context problem Hpb (cache st) (cost sc)
                  (bi_states _ _ _ _ Hinv) (bfs_closed_cost st current sc Hinv Hsc)
                  d s Hpath Hg) as Hbound.
    rewrite length_append', Hlen. simpl. lia.
Qed.
Lemma bfs_child_inv (st : search unit) (current : nat) (sc : state_t unit)
    (its : Z) (index : nat) (d : Z) :
  bfs_inv context problem st current -> cache st !! current = Some sc ->
  expanded_upto context problem (cache st) sc index ->
  directions context !! index = Some d ->
  match bfs_child context problem current sc (wrap16 (cost sc + 1)) its index d st with
  | Continue st' =>
      bfs_inv context problem st' current /\ cache st' !! current = Some sc
      /\ expanded_upto context problem (cache st') sc (S index)
  | Return (Returned r) => optimal_result context problem r
  | Return _ => False
  end.
Proof using Hok Hpb Hcount.
  intros Hinv Hsc Hexp Hdir.
  pose proof (bi_tree _ _ _ _ Hinv) as Htree.
  pose proof (bi_states _ _ _ _ Hinv) as Hst.
  destruct (si_states _ _ _ Hst _ _ Hsc) as (Hs & Hng & Hsafe & Hpath).
  destruct (child_cost context problem _ _ _ _ ltac:(lia) Htree Hsc) as [-> Hcost].
  destruct (tree_nodes _ _ _ _ Htree _ _ Hsc) as (_ & Hc0 & _).
  assert (Z.of_nat (length (cache st)) < state_count context) as Hlen.
  { destruct (tree_length _ _ _ _ Htree) as [|Hone]; [done|]. rewrite Hone. lia. }
  pose proof (bi_bits _ _ _ _ Hinv) as Hbits.
  unfold bfs_child.
  destruct (make_child _ _ _ _ _ _) as [|player action changed crates] eqn:Hchild.
  { split; [done|]. split; [done|]. apply expanded_upto_S; [done|].
    intros d' p a ch c Hd'. rewrite Hdir in Hd'. injection Hd' as <-.
    rewrite Hchild. done. }
  destruct (make_child_verify _ _ _ _ _ _ _ _ _ _ Hdir (sk_length _ _ _ _ Hs) Hchild)
    as [Hstep Hlc].
  destruct (make_child_cases context problem Hok Hpb _ _ _ _ _ _ _ _ Hs Hdir Hchild)
    as (Hp & Hd & Hs' & Hcases).
  assert (edge context problem (node_state sc) (player, crates)) as Hedge.
  { exists index, d, action, changed. done. }
  replace (changed && (state_count context <=? free_bits st)) with false
    by (destruct changed; [simpl; symmetry; apply Z.leb_gt; lia|done]).
  destruct (changed && bitset_equals crates (goals problem) (bitset_size context))
    eqn:Hgoal.
  { apply andb_true_iff in Hgoal as [_ Hgoal].
    destruct (bfs_solution_optimal st current sc action player crates its Hinv Hsc
                Hstep Hgoal) as (r & -> & Hopt). done. }
  assert (goal_state context problem crates = false) as Hng'.
  { destruct Hcases as [[-> ->]|(-> & _)]; [done|]. done. }
  destruct (Z.leb_spec (state_count context) (Z.of_nat (length (cache st))));
    [lia|].
  set (child := bfs_state (Some current) action (cost sc + 1) player crates).
  destruct (hashmap_get context (cache st) (hashmap st) child) as [t|] eqn:Hget.
  - destruct (twin_state context problem (cache st) (hashmap st) child t Hst Hlc Hget)
      as (twin & Htwin & Htw).
    split; [|split; [done|]].
    + destruct Hinv. split; try done. simpl. destruct changed; lia.
    + apply expanded_upto_S; [done|].
      intros d' p a ch c Hd'. rewrite Hdir in Hd'. injection Hd' as <-.
      rewrite Hchild. intros [= <- <- <- <-]. split; [done|].
      exists t, twin. split; [done|]. split; [done|].
      apply (bi_last _ _ _ _ Hinv t twin sc); done.
  - destruct (Z.eqb_spec (Z.of_nat (S (length (cache st)))) (state_count context)).
    { split; [intros [=]|]. intros _ [=]. }
    assert (forall i s, cache st !! i = Some s -> (cache st ++ [child]) !! i = Some s)
      as Hold.
    { intros i s Hi. rewrite lookup_app_l; [done|]. eapply lookup_lt_Some. done. }
    assert ((cache st ++ [child]) !! length (cache st) = Some child) as Hnew.
    { rewrite lookup_app_r by done. rewrite Nat.sub_diag. done. }
    split; [|split; [apply Hold; done|]].
    + split; simpl.
      * eapply tree_ok_app; done.
      * split.
        -- destruct (si_root _ _ _ Hst) as (s0 & H0 & Hs0). exists s0.
           split; [apply Hold; done|done].
        -- intros i s Hi. apply lookup_app_Some in Hi as [Hi|[Hge Hi]].
           ++ apply (si_states _ _ _ Hst i s Hi).
           ++ destruct (i - length (cache st))%nat; [|done]. injection Hi as <-.
              split; [done|]. split; [done|]. split.
              ** apply (edge_safe context problem Hok Hpb (node_state sc)
                          (player, crates)); done.
              ** simpl. replace (Z.to_nat (cost sc + 1)) with (S (Z.to_nat (cost sc)))
                   by lia.
                 eapply path_step; done.
      * intros i j si sj Hij Hi Hj.
        apply lookup_app_Some in Hj as [Hj|[Hge Hj]].
        -- assert (cache st !! i = Some si) as Hi'.
           { apply lookup_app_Some in Hi as [Hi|[Hgi _]]; [done|].
             apply lookup_lt_Some in Hj. lia. }
           apply (bi_mono _ _ _ _ Hinv i j); done.
        -- destruct (j - length (cache st))%nat; [|done]. injection Hj as <-. simpl.
           apply lookup_app_Some in Hi as [Hi|[Hgi Hi]].
           ++ apply (bi_last _ _ _ _ Hinv i si sc); done.
           ++ destruct (i - length (cache st))%nat; [|done]. injection Hi as <-.
              simpl. lia.
      * intros j sj sc' Hc' Hj. rewrite (Hold _ _ Hsc) in Hc'. injection Hc' as <-.
        apply lookup_app_Some in Hj as [Hj|[Hge Hj]].
        -- apply (bi_last _ _ _ _ Hinv j sj sc); done.
        -- destruct (j - length (cache st))%nat; [|done]. injection Hj as <-.
           simpl. lia.
      * intros i si Hi Hsi. apply expanded_upto_app.
        apply (bi_closed _ _ _ _ Hinv i si Hi).
        apply lookup_app_Some in Hsi as [Hsi|[Hge _]]; [done|].
        apply lookup_lt_Some in Hsc. lia.
      * rewrite length_app. simpl. destruct changed; lia.
    + apply expanded_upto_S; [apply expanded_upto_app; done|].
      intros d' p a ch c Hd'. rewrite Hdir in Hd'. injection Hd' as <-.
      rewrite Hchild. intros [= <- <- <- <-]. split; [done|].
      exists (length (cache st)), child. split; [done|]. split; [done|]. simpl. lia.
Qed.
Lemma bfs_children_inv (st : search unit) (current : nat) (sc : state_t unit)
    (its : Z) (index : nat) (dirs : list Z) :
  bfs_inv context problem st current -> cache st !! current = Some sc ->
  expanded_upto context problem (cache st) sc index ->
  (forall k d, dirs !! k = Some d -> directions context !! (index + k)%nat = Some d) ->
  (index + length dirs = 4)%nat ->
  match bfs_children context problem current sc (wrap16 (cost sc + 1)) its index dirs
                     st with
  | Continue st' =>
      bfs_inv context problem st' current /\ cache st' !! current = Some sc
      /\ expanded_upto context problem (cache st') sc 4
  | Return (Returned r) => optimal_result context problem r
  | Return _ => False
  end.
Proof using Hok Hpb Hcount.
  revert index st.
  induction dirs as [|d rest IH]; intros index st Hinv Hsc Hexp Hdirs Hlen.
  - simpl in *. replace index with 4%nat in Hexp by lia. done.
  - cbn [bfs_children].
    assert (directions context !! index = Some d) as Hd.
    { specialize (Hdirs 0%nat d eq_refl). rewrite Nat.add_0_r in Hdirs. done. }
    pose proof (bfs_child_inv st current sc its index d Hinv Hsc Hexp Hd) as Hchild.
    destruct (bfs_child _ _ _ _ _ _ _ _ st) as [st1|o]; [|done].
    destruct Hchild as (Hinv1 & Hsc1 & Hexp1).
    apply IH; [done|done|done| |simpl in Hlen; lia].
    intros k d' Hk. specialize (Hdirs (S k) d' Hk).
    replace (S index + k)%nat with (index + S k)%nat by lia. done.
Qed.

Lemma bfs_inv_next (st : search unit) (current : nat) (sc : state_t unit) :
  bfs_inv context problem st current -> cache st !! current = Some sc ->
  expanded_upto context problem (cache st) sc 4 ->
  bfs_inv context problem st (S current).
Proof using Type.
  intros Hinv Hsc Hexp. destruct Hinv as [Htree Hst Hmono Hlast Hclosed Hbits].
  split; try done.
  - intros j sj sc' Hsc' Hj.
    pose proof (Hlast j sj sc Hsc Hj).
    pose proof (Hmono current (S current) sc sc' ltac:(lia) Hsc Hsc'). lia.
  - intros i si Hi Hsi. destruct (decide (i = current)) as [->|Hne].
    + rewrite Hsc in Hsi. injection Hsi as <-. done.
    + apply (Hclosed i si); [lia|done].
Qed.

(** A search that ends without a solution and without reaching a limit
    has expanded every state. *)
Lemma exhausted_no_solution {P} (cache : list (state_t P)) (acts : string) :
  states_inv context problem cache ->
  (forall i si, cache !! i = Some si -> expanded_upto context problem cache si 4) ->
  verify_solution context problem acts = false.
Proof using Hok Hpb.
  intros Hst Hclosed.
  destruct (verify_solution context problem acts) eqn:Hvalid; [|done]. exfalso.
  destruct (solution_path context problem Hok Hpb acts Hvalid) as (d & s & _ & Hpath & Hg).
  pose proof (path_goal_bound context problem Hpb cache (Z.of_nat d) Hst
                ltac:(intros i si Hi _; eapply Hclosed; done) d s Hpath Hg). lia.
Qed.

Lemma bfs_loop_optimal (fuel : nat) (max_iterations : Z) (current : nat) (its : Z)
    (st : search unit) :
  bfs_inv context problem st current -> (current <= length (cache st))%nat ->
  state_count context - 1 <= Z.of_nat fuel + Z.of_nat current ->
  exists r, bfs_loop fuel context problem max_iterations current its st = Returned r
            /\ optimal_result context problem r.
Proof using Hok Hpb Hcount.
  revert current its st.
  induction fuel as [|fuel IH]; intros current its st Hinv Hcur Hfuel;
    cbn [bfs_loop]; destruct (Nat.eqb_spec current (length (cache st))) as [Heq|Hne].
  - eexists. split; [reflexivity|]. split; [intros [=]|]. intros _ _ acts.
    apply (exhausted_no_solution (cache st)); [apply Hinv|].
    intros i si Hi. apply (bi_closed _ _ _ _ Hinv i si); [|done].
    apply lookup_lt_Some in Hi. lia.
  - exfalso. destruct (tree_length _ _ _ _ (bi_tree _ _ _ _ Hinv)); lia.
  - eexists. split; [reflexivity|]. split; [intros [=]|]. intros _ _ acts.
    apply (exhausted_no_solution (cache st)); [apply Hinv|].
    intros i si Hi. apply (bi_closed _ _ _ _ Hinv i si); [|done].
    apply lookup_lt_Some in Hi. lia.
  - destruct (_ && _).
    { eexists. split; [reflexivity|]. split; [intros [=]|intros _ [=]]. }
    destruct (lookup_lt_is_Some_2 (cache st) current ltac:(lia)) as [sc Hsc].
    rewrite Hsc.
    pose proof (bfs_children_inv st current sc (its + 1) 0 (directions context)
                  Hinv Hsc ltac:(intros ? ? ? ? ? ? ?; lia) ltac:(done) eq_refl) as Hch.
    destruct (bfs_children _ _ _ _ _ _ _ _ _) as [st'|[r| |]]; [|eauto|done|done].
    destruct Hch as (Hinv' & Hsc' & Hexp').
    apply IH.
    + eapply bfs_inv_next; done.
    + apply lookup_lt_Some in Hsc'. lia.
    + lia.
Qed.

Lemma bfs_start_inv : bfs_inv context problem (bfs_start problem) 0.
Proof using Hpb.
  pose proof (initial_state_ok context problem Hpb) as Hs.
  split; simpl.
  - split; [right; done|].
    intros [|i] s; [|done]. intros [= <-]. split; [apply Hs|]. split; [simpl; lia|].
    done.
  - split.
    + eexists. split; [reflexivity|]. done.
    + intros [|i] s; [|done]. intros [= <-]. simpl.
      split; [done|]. split; [apply Hpb|]. split; [apply Hpb|]. constructor.
  - intros [|i] [|j] si sj _; try done. intros [= <-] [= <-]. lia.
  - intros [|j] sj sc; [|done]. intros [= <-] [= <-]. simpl. lia.
  - intros i si Hi. lia.
  - lia.
Qed.

(** [solve_bfs] returns, and what it returns is optimal. *)
Lemma solve_bfs_optimal (max_iterations : Z) :
  potentially_solvable problem = true ->
  exists r, solve_bfs context problem max_iterations = Returned r
            /\ optimal_result context problem r.
Proof using Hok Hpb Hcount.
  intros Hps. unfold solve_bfs. rewrite Hps. change (negb true) with false. cbv iota.
  destruct (Z.leb_spec (state_count context) 0); [lia|].
  apply bfs_loop_optimal; [apply bfs_start_inv|simpl; lia|lia].
Qed.
End Bfs.

(** ** solve_astar with the priorities cost + heuristic *)

Section AStarGraph.
Variable context : context_t.
Variable problem : problem_t.
Hypothesis Hok : context_ok context.
Hypothesis Hpb : problem_ok context problem.



(** The heuristic is consistent along the edges. *)
Lemma steps_heuristic (k : nat) (s t : Z * list Z) :
  steps context problem k s t ->
  state_ok context problem s.1 s.2 -> safe_crates problem s.2 ->
  heuristic_sum context problem s.2 <= Z.of_nat k + heuristic_sum context problem t.2.
Proof using Hok Hpb.
  induction 1 as [s|k s s1 t Hg He Hsteps IH]; intros Hs Hsafe; [lia|].
  pose proof (edge_heuristic context problem Hok Hpb s s1 Hs He).
  pose proof (edge_ok context problem Hok Hpb s s1 Hs He) as Hs1.
  pose proof (edge_safe context problem Hok Hpb s s1 Hs Hsafe He) as Hsafe1.
  specialize (IH Hs1 Hsafe1). lia.
Qed.

End AStarGraph.

Lemma bitset_cmp_loop_refl (a : list Z) (idx : list Z) : bitset_cmp_loop a a idx = 0.
Proof. induction idx as [|i idx IH]; [done|]. simpl. rewrite Z.ltb_irrefl. done. Qed.


Lemma ltb_asym (a b : Z) : (a <? b) = true -> (b <? a) = false.
Proof. intros H. apply Z.ltb_lt in H. apply Z.ltb_ge. lia. Qed.

Lemma ltb_le_trans (a b c : Z) :
  (b <? a) = false -> (c <? b) = false -> (c <? a) = false.
Proof. rewrite !Z.ltb_ge. lia. Qed.

Lemma exact_priority_mono (c c' h : Z) :
  0 <= c' <= c -> (exact_priority 1 1 c h <? exact_priority 1 1 c' h) = false.
Proof. intros H. unfold exact_priority. apply Z.ltb_ge. lia. Qed.

Section AStarOpt.
Variable context : context_t.
Variable problem : problem_t.
Hypothesis Hok : context_ok context.
Hypothesis Hpb : problem_ok context problem.
Hypothesis Hcount : 2 <= state_count context <= 65536.
Hypothesis Hsum : (area context - 1) * crate_count context (crates problem) < 65536.





















End AStarOpt.

(** ** The searches on a parsed problem *)

(** A parsed problem that is potentially solvable is a problem as the
    searches need it. *)
Lemma parse_problem_ok (context : context_t) (problem0 problem : problem_t)
    (level_str : string) (c : bool) :
  context_ok context ->
  parse_problem context problem0 level_str = Some (problem, c) ->
  potentially_solvable problem = true ->
  problem_ok context problem.
Proof.
  intros Hok Hparse Hsolvable.
  destruct (parse_problem_spec context problem0 level_str Hok)
    as (p' & Hparse' & _ & Hpl & Hwl & Hgl & Hcr & Hcomp & Hps & Hgen).
  rewrite Hparse in Hparse'. injection Hparse' as <- _.
  pose proof (parse_level_ok context Hok problem0 level_str) as Hlv.
  rewrite <- Hwl, <- Hgl, <- Hcr in Hlv.
  rewrite Hsolvable in Hps. symmetry in Hps.
  apply andb_true_iff in Hps as [Hps _].
  apply andb_true_iff in Hps as [Hps Hnodead].
  pose proof Hps as Hc2. apply andb_true_iff in Hps as [Hc _].
  specialize (Hgen Hc2).
  destruct (generate_deadlock_map_inv context problem Hok Hlv)
    as (D & H & Hgen' & Hinv).
  rewrite Hgen in Hgen'. injection Hgen' as <- <-.
  rewrite Hcomp in Hc.
  apply andb_true_iff in Hc as [Hc Hunsolved].
  apply andb_true_iff in Hc as [Hplayer _]. apply Z.eqb_eq in Hplayer.
  split.
  - done.
  - rewrite Hpl, Hwl, Hcr.
    apply (parse_level_player_cell context Hok problem0 level_str). lia.
  - unfold goal_state. rewrite Hcr, Hgl. apply negb_true_iff. done.
  - apply negb_true_iff in Hnodead. apply not_true_iff_false in Hnodead.
    rewrite bitset_covers_any_bits in Hnodead by apply (lv_crates_wf _ _ _ _ Hlv).
    pose proof (bitset_size_nonneg context Hok) as Hb0.
    intros q Hq Hcq. destruct (get_bit (deadlocks problem) q) eqn:Hd; [|done].
    exfalso. apply Hnodead. exists q. split; [|done].
    split; [done|]. apply get_bit_in in Hcq; [|done].
    unfold in_bitset in Hcq. rewrite (lv_crates_length _ _ _ _ Hlv) in Hcq. lia.
  - intros q Hq HD g k Hg Hpath.
    destruct (dmap_final_path context _ _ _ _ q g k Hok Hinv Hg Hpath) as [HD' _].
    congruence.
  - intros q g k Hg Hpath.
    apply (dmap_final_path context _ _ _ _ q g k Hok Hinv Hg Hpath).
  - intros q Hq HD.
    pose proof (dmap_cost_range context (walls problem) (goals problem) _ _ _ _ _ q
                  Hinv Hq HD) as Hrange.
    split; [done|].
    destruct (di_real _ _ _ _ _ _ _ _ Hinv q Hq HD) as (l & g & Hg & Hwalk & _ & Hlen & _).
    exists g. split; [done|].
    replace (Z.to_nat (cost_at (heuristics problem) q)) with (length l - 1)%nat by lia.
    apply walk_crate_path. done.
Qed.



(** ** bitset.h and state_compare: what the operations do to the bits *)

Lemma bitset_cmp_loop_zero (a b : list Z) (idx : list Z) :
  bitset_cmp_loop a b idx = 0 <-> (forall i, i ∈ idx -> word a i = word b i).
Proof.
  split; [apply bitset_cmp_loop_words|].
  induction idx as [|j rest IH]; intros H; [done|]. cbn [bitset_cmp_loop].
  rewrite (H j) by left. rewrite Z.ltb_irrefl. apply IH.
  intros i Hi. apply H. right. done.
Qed.

Lemma bitset_cmp_loop_flip (a b : list Z) (idx : list Z) :
  bitset_cmp_loop b a idx = - bitset_cmp_loop a b idx.
Proof.
  induction idx as [|j rest IH]; [done|]. cbn [bitset_cmp_loop].
  destruct (Z.ltb_spec (word a j) (word b j));
    destruct (Z.ltb_spec (word b j) (word a j)); lia.
Qed.

Lemma bitset_cmp_loop_values (a b : list Z) (idx : list Z) :
  bitset_cmp_loop a b idx = 1 \/ bitset_cmp_loop a b idx = 0
  \/ bitset_cmp_loop a b idx = -1.
Proof.
  induction idx as [|j rest IH]; [tauto|]. cbn [bitset_cmp_loop].
  destruct (_ <? _); [tauto|]. destruct (_ <? _); tauto.
Qed.

Lemma bitset_cmp_loop_trans (a b c : list Z) (idx : list Z) :
  bitset_cmp_loop a b idx = 1 -> bitset_cmp_loop b c idx = 1 ->
  bitset_cmp_loop a c idx = 1.
Proof.
  induction idx as [|j rest IH]; [done|]. cbn [bitset_cmp_loop].
  destruct (Z.ltb_spec (word a j) (word b j)) as [Hab|Hab].
  - intros _. destruct (Z.ltb_spec (word b j) (word c j)) as [Hbc|Hbc].
    + intros _. destruct (Z.ltb_spec (word a j) (word c j)); [done|lia].
    + destruct (Z.ltb_spec (word c j) (word b j)) as [Hcb|Hcb]; [done|].
      intros _. destruct (Z.ltb_spec (word a j) (word c j)); [done|lia].
  - destruct (Z.ltb_spec (word b j) (word a j)) as [Hba|Hba]; [done|].
    intros H1. destruct (Z.ltb_spec (word b j) (word c j)) as [Hbc|Hbc].
    + intros _. destruct (Z.ltb_spec (word a j) (word c j)); [done|lia].
    + destruct (Z.ltb_spec (word c j) (word b j)) as [Hcb|Hcb]; [done|].
      intros H2. destruct (Z.ltb_spec (word a j) (word c j)); [lia|].
      destruct (Z.ltb_spec (word c j) (word a j)); [lia|]. apply IH; done.
Qed.

(** X1. Inside the buffer of a bitset, [set_bit] sets the bit at its
    position and [clear_bit] clears it, and both leave every other bit as
    [get_bit] read it before. *)
Theorem set_clear_get_bit (bitset : list Z) (p q : Z) :
  in_bitset bitset p -> 0 <= q ->
  get_bit (set_bit bitset p) q = (p =? q) || get_bit bitset q
  /\ get_bit (clear_bit bitset p) q = negb (p =? q) && get_bit bitset q.
Proof.
  intros Hp Hq. split; [apply get_set_bit; done|].
  apply get_clear_bit; [apply Hp|done].
Qed.

Lemma set_clear_get_bit_witness :
  in_bitset [5; 0] 70 /\ 0 <= 70
  /\ get_bit (set_bit [5; 0] 70) 70 = true
  /\ get_bit (clear_bit [5; 0] 70) 70 = false.
Proof.
  assert (in_bitset [5; 0] 70) as Hin by (unfold in_bitset; simpl; lia).
  split; [exact Hin|]. split; [lia|].
  destruct (set_clear_get_bit [5; 0] 70 70 Hin ltac:(lia)) as [Hs Hc].
  split; [exact Hs|exact Hc].
Defined.

(** X2. For two bitsets of [size] 64-bit words, [bitset_equals] returns
    true exactly when the two hold the same words, which is when
    [get_bit] reads the same bit at every position. *)
Theorem bitset_equals_bits (a b : list Z) (size : Z) :
  length a = Z.to_nat size -> length b = Z.to_nat size ->
  bitset_wf a -> bitset_wf b ->
  (bitset_equals a b size = true <-> a = b)
  /\ (bitset_equals a b size = true <->
      forall p, 0 <= p -> get_bit a p = get_bit b p).
Proof.
  intros Ha Hb Hwa Hwb.
  pose proof (bitset_equals_eq a b size Ha Hb) as Heq.
  split; [exact Heq|]. rewrite Heq. split.
  - intros ->. done.
  - intros Hbits. apply bitset_ext; [congruence|done|done|done].
Qed.

Lemma bitset_equals_bits_witness :
  bitset_wf [5; 0] /\ bitset_wf [5; 1]
  /\ bitset_equals [5; 0] [5; 1] 2 = false
  /\ [5; 0] <> [5; 1].
Proof.
  assert (bitset_wf [5; 0]) as Hwa by (repeat constructor; lia).
  assert (bitset_wf [5; 1]) as Hwb by (repeat constructor; lia).
  split; [exact Hwa|]. split; [exact Hwb|].
  destruct (bitset_equals_bits [5; 0] [5; 1] 2 eq_refl eq_refl Hwa Hwb) as [Hiff _].
  split; [reflexivity|]. intros Heq. apply Hiff in Heq. discriminate Heq.
Defined.

(** X3. [bitset_cmp] orders bitsets by their first differing word, the
    word of index 0 first: it returns 1, 0 or -1; 0 exactly when
    [bitset_equals] returns true; the opposite number when its arguments
    are swapped; and the answer 1 is transitive. *)
Theorem bitset_cmp_order (a b c : list Z) (size : Z) :
  (bitset_cmp a b size = 1 \/ bitset_cmp a b size = 0 \/ bitset_cmp a b size = -1)
  /\ (bitset_cmp a b size = 0 <-> bitset_equals a b size = true)
  /\ bitset_cmp b a size = - bitset_cmp a b size
  /\ (bitset_cmp a b size = 1 -> bitset_cmp b c size = 1 -> bitset_cmp a c size = 1).
Proof.
  unfold bitset_cmp. split; [apply bitset_cmp_loop_values|].
  split; [|split; [apply bitset_cmp_loop_flip|apply bitset_cmp_loop_trans]].
  rewrite bitset_cmp_loop_zero, bitset_equals_words.
  split; intros H i Hi; apply H; apply elem_of_indices; done.
Qed.

(** X4. [bitset_covers_all] returns true exactly when every position of
    the [size] words that is set in [under] is set in [cover]. *)
Theorem bitset_covers_all_positions (under cover : list Z) (size : Z) :
  bitset_wf under ->
  (bitset_covers_all under cover size = true <->
   forall p, 0 <= p < 64 * size -> get_bit under p = true -> get_bit cover p = true).
Proof. apply bitset_covers_all_bits. Qed.

Lemma bitset_covers_all_positions_witness :
  bitset_wf [5] /\ bitset_covers_all [5] [7] 1 = true
  /\ get_bit [7] 2 = true.
Proof.
  assert (bitset_wf [5]) as Hw by (repeat constructor; lia).
  split; [exact Hw|]. split; [reflexivity|].
  destruct (bitset_covers_all_positions [5] [7] 1 Hw) as [Hall _].
  apply (Hall eq_refl 2); [lia|reflexivity].
Defined.

(** X5. [bitset_covers_any] returns true exactly when some position of
    the [size] words is set both in [under] and in [cover]. *)
Theorem bitset_covers_any_positions (under cover : list Z) (size : Z) :
  bitset_wf under ->
  (bitset_covers_any under cover size = true <->
   exists p, 0 <= p < 64 * size /\ get_bit under p = true /\ get_bit cover p = true).
Proof. apply bitset_covers_any_bits. Qed.

Lemma bitset_covers_any_positions_witness :
  bitset_wf [5] /\ bitset_covers_any [5] [3] 1 = true
  /\ exists p, 0 <= p < 64 * 1 /\ get_bit [5] p = true /\ get_bit [3] p = true.
Proof.
  assert (bitset_wf [5]) as Hw by (repeat constructor; lia).
  split; [exact Hw|]. split; [reflexivity|].
  destruct (bitset_covers_any_positions [5] [3] 1 Hw) as [Hany _].
  apply Hany. reflexivity.
Defined.

(** X6. [bitset_xor] writes [size] words whose bit at every position is
    the exclusive or of the bits of its two arguments. *)
Theorem bitset_xor_positions (a b : list Z) (size p : Z) :
  0 <= p < 64 * size ->
  length (bitset_xor a b size) = Z.to_nat size
  /\ get_bit (bitset_xor a b size) p = xorb (get_bit a p) (get_bit b p).
Proof.
  intros Hp. split; [apply length_bitset_xor|apply get_bit_xor; done].
Qed.

Lemma bitset_xor_positions_witness :
  0 <= 1 < 64 * 1
  /\ get_bit (bitset_xor [5] [7] 1) 1 = xorb (get_bit [5] 1) (get_bit [7] 1).
Proof.
  split; [lia|]. apply (bitset_xor_positions [5] [7] 1 1). lia.
Defined.

(** X7. [state_compare], the equality of the hash map of states: for two
    states with crate bitsets of [bitset_size] words it returns 0 exactly
    when the two states have the same player position and the same
    crates, and it returns the opposite number when its arguments are
    swapped. *)
Theorem state_compare_equal {P} (context : context_t) (sa sb : state_t P) :
  length (state_crates sa) = Z.to_nat (bitset_size context) ->
  length (state_crates sb) = Z.to_nat (bitset_size context) ->
  (state_compare context sa sb = 0 <->
   state_player sa = state_player sb /\ state_crates sa = state_crates sb)
  /\ state_compare context sb sa = - state_compare context sa sb.
Proof.
  intros Ha Hb. split; [split|].
  - apply state_compare_eq; done.
  - intros [Hp Hc]. unfold state_compare. rewrite Hp, Hc, Z.sub_diag. simpl.
    unfold bitset_cmp. apply bitset_cmp_loop_refl.
  - unfold state_compare.
    destruct (Z.eqb_spec (state_player sa - state_player sb) 0) as [He|Hne];
      destruct (Z.eqb_spec (state_player sb - state_player sa) 0) as [He'|Hne'];
      try lia.
    unfold bitset_cmp. apply bitset_cmp_loop_flip.
Qed.

Lemma state_compare_equal_witness :
  state_compare context_A10 (bfs_state None Ascii.zero 0 6 [64])
                (bfs_state (Some 0%nat) "r" 1 6 [64]) = 0
  /\ state_compare context_A10 (bfs_state None Ascii.zero 0 6 [64])
                   (bfs_state None Ascii.zero 0 7 [64]) = -1.
Proof.
  destruct (state_compare_equal context_A10 (bfs_state None Ascii.zero 0 6 [64])
              (bfs_state (Some 0%nat) "r" 1 6 [64]) eq_refl eq_refl) as [[_ Heq] _].
  split; [apply Heq; split; reflexivity|reflexivity].
Defined.

(** ** The heap of solve_astar as a priority queue *)

Lemma sample_heap_ok :
  heap_ok Z.ltb sample_heap.1 sample_heap.2
  /\ sample_heap.2 = [1%nat; 2%nat; 0%nat].
Proof.
  destruct (heap_insert_ok Z.ltb ltb_asym ltb_le_trans sample_cache [] 0%nat)
    as (c1 & h1 & H1 & Hok1 & _); [apply heap_ok_nil|by eexists|apply not_elem_of_nil|].
  vm_compute in H1. injection H1 as <- <-.
  destruct (heap_insert_ok Z.ltb ltb_asym ltb_le_trans _ _ 1%nat Hok1)
    as (c2 & h2 & H2 & Hok2 & _).
  { by eexists. }
  { intros Hin. apply elem_of_cons in Hin as [|Hin]; [done|by apply elem_of_nil in Hin]. }
  vm_compute in H2. injection H2 as <- <-.
  destruct (heap_insert_ok Z.ltb ltb_asym ltb_le_trans _ _ 2%nat Hok2)
    as (c3 & h3 & H3 & Hok3 & _).
  { by eexists. }
  { rewrite !elem_of_cons. intros [|[|Hin]]; try done. by apply elem_of_nil in Hin. }
  vm_compute in H3. injection H3 as <- <-.
  split; [exact Hok3|reflexivity].
Qed.

Lemma sample_pair_ok :
  heap_ok Z.ltb sample_pair.1 sample_pair.2
  /\ sample_pair.2 = [1%nat; 0%nat].
Proof.
  destruct (heap_insert_ok Z.ltb ltb_asym ltb_le_trans sample_cache [] 0%nat)
    as (c1 & h1 & H1 & Hok1 & _); [apply heap_ok_nil|by eexists|apply not_elem_of_nil|].
  vm_compute in H1. injection H1 as <- <-.
  destruct (heap_insert_ok Z.ltb ltb_asym ltb_le_trans _ _ 1%nat Hok1)
    as (c2 & h2 & H2 & Hok2 & _).
  { by eexists. }
  { intros Hin. apply elem_of_cons in Hin as [|Hin]; [done|by apply elem_of_nil in Hin]. }
  vm_compute in H2. injection H2 as <- <-.
  split; [exact Hok2|reflexivity].
Qed.

(** X8. On a heap that is not empty, [heap_pop] returns an entry of the
    heap such that no entry has a lower priority value; the entries left
    are the other entries, one fewer, and they form a heap again in which
    every state records its index; the fields of the states other than the
    heap index are not touched. *)
Theorem heap_pop_minimum {P} (plt : P -> P -> bool) (cache : list (state_t P))
    (min_heap : list nat) :
  (forall a b, plt a b = true -> plt b a = false) ->
  (forall a b c, plt b a = false -> plt c b = false -> plt c a = false) ->
  heap_ok plt cache min_heap -> min_heap <> [] ->
  exists root cache' min_heap',
    heap_pop plt cache min_heap = Some (root, cache', min_heap')
    /\ root ∈ min_heap
    /\ (forall s, s ∈ min_heap -> priority_lt plt cache s root = false)
    /\ heap_ok plt cache' min_heap'
    /\ (forall s, s ∈ min_heap <-> s = root \/ s ∈ min_heap')
    /\ (root ∉ min_heap')
    /\ S (length min_heap') = length min_heap
    /\ set_heap_index 0 <$> cache' = set_heap_index 0 <$> cache.
Proof.
  intros Hasym Htrans Hok Hne.
  destruct (heap_pop_ok plt Hasym Htrans cache min_heap Hok Hne)
    as (c & h & Heq & Hok' & Hlen & Hmem & Hroot & Hframe & _).
  exists (heap_at min_heap 0), c, h. split; [done|].
  split; [apply Hmem; left; done|]. split; [|done].
  intros s Hs. apply list_elem_of_lookup in Hs as [i Hi].
  pose proof (heap_root_min plt Hasym Htrans cache min_heap i Hok
                (lookup_lt_Some _ _ _ Hi)) as Hmin.
  unfold heap_at at 1 in Hmin. rewrite Hi in Hmin. done.
Qed.

Lemma heap_pop_minimum_witness :
  heap_ok Z.ltb sample_heap.1 sample_heap.2
  /\ sample_heap.2 <> []
  /\ exists cache' min_heap',
       heap_pop Z.ltb sample_heap.1 sample_heap.2 = Some (1%nat, cache', min_heap')
       /\ priority_lt Z.ltb sample_heap.1 0 1 = false
       /\ priority_lt Z.ltb sample_heap.1 2 1 = false.
Proof.
  destruct sample_heap_ok as [Hok Hheap].
  assert (sample_heap.2 <> []) as Hne by (rewrite Hheap; discriminate).
  split; [exact Hok|]. split; [exact Hne|].
  destruct (heap_pop_minimum Z.ltb sample_heap.1 sample_heap.2 ltb_asym ltb_le_trans
              Hok Hne) as (root & c & h & Hpop & _ & Hmin & _).
  assert (root = 1%nat) as ->.
  { assert (fst <$> (fst <$> heap_pop Z.ltb sample_heap.1 sample_heap.2)
            = Some 1%nat) as Hroot by (vm_compute; reflexivity).
    rewrite Hpop in Hroot. simpl in Hroot. injection Hroot as ->. reflexivity. }
  exists c, h. split; [exact Hpop|].
  split; apply Hmin; rewrite Hheap, !elem_of_cons; tauto.
Defined.

(** X9. [heap_insert] of a state that is not in the heap gives a heap
    again, with that state as one more entry, and leaves the fields other
    than the heap index, and the states that are not in the heap, as they
    were. *)
Theorem heap_insert_member {P} (plt : P -> P -> bool) (cache : list (state_t P))
    (min_heap : list nat) (element : nat) :
  (forall a b, plt a b = true -> plt b a = false) ->
  (forall a b c, plt b a = false -> plt c b = false -> plt c a = false) ->
  heap_ok plt cache min_heap -> is_Some (cache !! element) -> element ∉ min_heap ->
  exists cache' min_heap',
    heap_insert plt cache min_heap element = (cache', min_heap')
    /\ heap_ok plt cache' min_heap'
    /\ length min_heap' = S (length min_heap)
    /\ (forall s, s ∈ min_heap' <-> s = element \/ s ∈ min_heap)
    /\ set_heap_index 0 <$> cache' = set_heap_index 0 <$> cache
    /\ (forall s, s ∉ min_heap' -> cache' !! s = cache !! s).
Proof.
  intros Hasym Htrans Hok Hsome Hnew.
  destruct (heap_insert_ok plt Hasym Htrans cache min_heap element Hok Hsome Hnew)
    as (c & h & Heq & Hok' & Hlen & Hmem & Hframe & Hout).
  exists c, h. do 5 (split; [done|]).
  intros s Hs. apply Hout; intros Hc; apply Hs, Hmem; tauto.
Qed.

Lemma heap_insert_member_witness :
  heap_ok Z.ltb sample_pair.1 sample_pair.2
  /\ sample_pair.2 = [1%nat; 0%nat]
  /\ is_Some (sample_pair.1 !! 2%nat)
  /\ exists cache', heap_insert Z.ltb sample_pair.1 sample_pair.2 2
                    = (cache', [1%nat; 2%nat; 0%nat])
                    /\ heap_ok Z.ltb cache' [1%nat; 2%nat; 0%nat]
                    /\ heap_index <$> cache' = [2; 0; 1].
Proof.
  destruct sample_pair_ok as [Hok Hheap].
  assert (is_Some (sample_pair.1 !! 2%nat)) as Hsome by (vm_compute; by eexists).
  assert (2%nat ∉ sample_pair.2) as Hnew.
  { rewrite Hheap, !elem_of_cons. intros [|[|Hin]]; try done.
    by apply elem_of_nil in Hin. }
  split; [exact Hok|]. split; [exact Hheap|]. split; [exact Hsome|].
  destruct (heap_insert_member Z.ltb sample_pair.1 sample_pair.2 2 ltb_asym
              ltb_le_trans Hok Hsome Hnew) as (c & h & Heq & Hok' & _).
  assert (h = [1%nat; 2%nat; 0%nat] /\ heap_index <$> c = [2; 0; 1]) as [-> Hidx].
  { assert (snd (heap_insert Z.ltb sample_pair.1 sample_pair.2 2)
            = [1%nat; 2%nat; 0%nat]
            /\ heap_index <$> fst (heap_insert Z.ltb sample_pair.1 sample_pair.2 2)
               = [2; 0; 1]) as Hh by (vm_compute; split; reflexivity).
    rewrite Heq in Hh. exact Hh. }
  exists c. split; [exact Heq|]. split; [exact Hok'|exact Hidx].
Defined.



(** ** The results of the searches *)

Lemma backtrack_nonempty {P} (cache : list (state_t P)) (count : nat)
    (node : option nat) (solution s : string) :
  backtrack cache count node solution = Some s ->
  solution <> EmptyString -> s <> EmptyString.
Proof.
  revert node solution. induction count as [|count IH]; intros node solution; simpl.
  - intros [= ->]. done.
  - destruct node as [i|]; [|done]. destruct (cache !! i) as [x|]; [|done].
    intros H _. eapply IH; [done|done].
Qed.

Lemma return_solution_form {P} (cache : list (state_t P)) (parent_index : nat)
    (cost : Z) (action : ascii) (its : Z) (r : result_t) :
  return_solution cache parent_index cost action its = Returned r ->
  iterations r = its /\ result_form r.
Proof.
  intros H. apply return_solution_result in H
    as (Hs & Hi & Hl & solution & Ha & Hb).
  split; [done|]. unfold result_form. rewrite Ha. split; [done|]. split; [done|].
  eapply backtrack_nonempty; done.
Qed.

Lemma bfs_child_form (context : context_t) (problem : problem_t)
    (parent_index : nat) (parent : state_t unit) (cost its : Z)
    (index : nat) (direction : Z) (st : search unit) (r : result_t) :
  bfs_child context problem parent_index parent cost its index direction st
  = Return (Returned r) ->
  iterations r = its /\ result_form r.
Proof.
  unfold bfs_child. destruct (make_child _ _ _ _ _ _) as [|p a changed c]; [done|].
  destruct (_ && _); [done|]. destruct (_ && _).
  { intros [= H]. eapply return_solution_form. done. }
  destruct (_ <=? _); [done|]. destruct (hashmap_get _ _ _ _); [done|].
  destruct (_ =? _); [|done]. intros [= <-]. done.
Qed.

Lemma bfs_children_form (context : context_t) (problem : problem_t)
    (parent_index : nat) (parent : state_t unit) (cost its : Z)
    (index : nat) (dirs : list Z) (st : search unit) (r : result_t) :
  bfs_children context problem parent_index parent cost its index dirs st
  = Return (Returned r) ->
  iterations r = its /\ result_form r.
Proof.
  revert index st. induction dirs as [|d rest IH]; intros index st; [done|].
  cbn [bfs_children].
  destruct (bfs_child _ _ _ _ _ _ _ _ st) as [st1|o] eqn:Hchild.
  - apply IH.
  - intros [= ->]. eapply bfs_child_form. done.
Qed.

Lemma bfs_loop_form (fuel : nat) (context : context_t) (problem : problem_t)
    (max_iterations : Z) (current : nat) (its : Z) (st : search unit) (r : result_t) :
  bfs_loop fuel context problem max_iterations current its st = Returned r ->
  (0 < max_iterations -> its <= max_iterations) ->
  its <= iterations r
  /\ (0 < max_iterations -> iterations r <= max_iterations)
  /\ result_form r.
Proof.
  revert current its st.
  induction fuel as [|fuel IH]; intros current its st; cbn [bfs_loop];
    destruct (_ =? _)%nat; try (intros [= <-] Hmax; simpl; split; [lia|done]);
    [done|].
  destruct (Z.ltb_spec 0 max_iterations) as [Hpos|Hnp];
    destruct (Z.leb_spec max_iterations its) as [Hle|Hgt]; cbn [andb];
    try (intros [= <-] Hmax; simpl; split; [lia|done]).
  all: destruct (cache st !! current) as [parent|]; [|done].
  all: destruct (bfs_children _ _ _ _ _ _ _ _ _) as [st'|o] eqn:Hch.
  all: try (intros -> Hmax; apply bfs_children_form in Hch as [Hi Hf];
            split; [lia|]; split; [lia|done]).
  all: intros Hloop Hmax; destruct (IH _ _ _ Hloop ltac:(lia)) as (H1 & H2 & H3);
    split; [lia|done].
Qed.

Lemma solve_bfs_form (context : context_t) (problem : problem_t)
    (max_iterations : Z) (r : result_t) :
  solve_bfs context problem max_iterations = Returned r ->
  0 <= iterations r
  /\ (0 < max_iterations -> iterations r <= max_iterations)
  /\ (iterations r = 0 <-> potentially_solvable problem = false)
  /\ result_form r.
Proof.
  unfold solve_bfs. destruct (potentially_solvable problem).
  2:{ intros [= <-]. simpl. split; [lia|]. split; [lia|]. done. }
  change (negb true) with false. cbv iota.
  destruct (_ <=? _); [done|]. cbn [bfs_loop bfs_start cache length Nat.eqb].
  replace ((0 <? max_iterations) && (max_iterations <=? 0)) with false
    by (symmetry; apply andb_false_iff; destruct (Z.ltb_spec 0 max_iterations);
        [right; apply Z.leb_gt; lia|left; done]).
  change ([bfs_state None Ascii.zero 0 (player problem) (crates problem)] !! 0%nat)
    with (Some (bfs_state None Ascii.zero 0 (player problem) (crates problem))).
  cbv iota.
  destruct (bfs_children _ _ _ _ _ _ _ _ _) as [st'|o] eqn:Hch.
  - intros Hloop. apply bfs_loop_form in Hloop as (H1 & H2 & H3); [|lia].
    split; [lia|]. split; [done|]. split; [|done]. split; [lia|done].
  - intros ->. apply bfs_children_form in Hch as [Hi Hf].
    split; [lia|]. split; [lia|]. split; [|done]. split; [lia|done].
Qed.

Section AStarForm.
Context {P : Type}.
Variable plt : P -> P -> bool.
Variable priority_root : Z -> P.
Variable priority_of : Z -> Z -> P.

Lemma astar_child_form (context : context_t) (problem : problem_t)
    (parent_index : nat) (parent : state_t P) (cost its : Z)
    (index : nat) (direction : Z) (st : search P) (r : result_t) :
  astar_child plt priority_of context problem parent_index parent cost its
              index direction st = Return (Returned r) ->
  iterations r = its /\ result_form r.
Proof using Type.
  unfold astar_child. destruct (make_child _ _ _ _ _ _) as [|p a changed c]; [done|].
  destruct (_ && _); [done|]. destruct (_ && _).
  { intros [= H]. eapply return_solution_form. done. }
  destruct (_ <=? _); [done|]. destruct (hashmap_get _ _ _ _) as [t|].
  - destruct (cache st !! t) as [twin|]; [|done].
    destruct (_ && _); [|done]. destruct (heapify_bottomup _ _ _ _). done.
  - destruct (heap_insert _ _ _ _). destruct (_ =? _); [|done]. intros [= <-]. done.
Qed.

Lemma astar_children_form (context : context_t) (problem : problem_t)
    (parent_index : nat) (parent : state_t P) (cost its : Z)
    (index : nat) (dirs : list Z) (st : search P) (r : result_t) :
  astar_children plt priority_of context problem parent_index parent cost its
                 index dirs st = Return (Returned r) ->
  iterations r = its /\ result_form r.
Proof using Type.
  revert index st. induction dirs as [|d rest IH]; intros index st; [done|].
  cbn [astar_children].
  destruct (astar_child _ _ _ _ _ _ _ _ _ _ st) as [st1|o] eqn:Hchild.
  - apply IH.
  - intros [= ->]. eapply astar_child_form. done.
Qed.

Lemma astar_loop_form (fuel : nat) (context : context_t) (problem : problem_t)
    (max_iterations : Z) (its : Z) (st : search P) (r : result_t) :
  astar_loop plt priority_of fuel context problem max_iterations its st
  = Returned r ->
  (0 < max_iterations -> its <= max_iterations) ->
  its <= iterations r
  /\ (0 < max_iterations -> iterations r <= max_iterations)
  /\ result_form r.
Proof using Type.
  revert its st.
  induction fuel as [|fuel IH]; intros its st; cbn [astar_loop];
    destruct (min_heap st) as [|s0 rest] eqn:Hheap;
    try (intros [= <-] Hmax; simpl; split; [lia|done]); [done|].
  destruct (Z.ltb_spec 0 max_iterations) as [Hpos|Hnp];
    destruct (Z.leb_spec max_iterations its) as [Hle|Hgt]; cbn [andb];
    try (intros [= <-] Hmax; simpl; split; [lia|done]).
  all: destruct (astar_pop plt st) as [[parent_index st1]|]; [|done].
  all: destruct (cache st1 !! parent_index) as [parent|]; [|done].
  all: destruct (astar_children _ _ _ _ _ _ _ _ _ _ _) as [st'|o] eqn:Hch.
  all: try (intros -> Hmax; apply astar_children_form in Hch as [Hi Hf];
            split; [lia|]; split; [lia|done]).
  all: intros Hloop Hmax; destruct (IH _ _ Hloop ltac:(lia)) as (H1 & H2 & H3);
    split; [lia|done].
Qed.

Lemma solve_astar_form (context : context_t) (problem : problem_t)
    (max_iterations : Z) (r : result_t) :
  solve_astar plt priority_root priority_of context problem max_iterations
  = Returned r ->
  0 <= iterations r
  /\ (0 < max_iterations -> iterations r <= max_iterations)
  /\ (iterations r = 0 <-> potentially_solvable problem = false)
  /\ result_form r.
Proof using Type.
  unfold solve_astar. destruct (potentially_solvable problem).
  2:{ intros [= <-]. simpl. split; [lia|]. split; [lia|]. done. }
  change (negb true) with false. cbv iota.
  destruct (_ <=? _); [done|].
  cbn [astar_loop].
  change (min_heap (astar_start plt priority_root context problem)) with [0%nat].
  cbv iota.
  replace ((0 <? max_iterations) && (max_iterations <=? 0)) with false
    by (symmetry; apply andb_false_iff; destruct (Z.ltb_spec 0 max_iterations);
        [right; apply Z.leb_gt; lia|left; done]).
  cbv iota.
  destruct (astar_pop plt _) as [[parent_index st1]|]; [|done].
  destruct (cache st1 !! parent_index) as [parent|]; [|done].
  destruct (astar_children _ _ _ _ _ _ _ _ _ _ _) as [st'|o] eqn:Hch.
  - intros Hloop. apply astar_loop_form in Hloop as (H1 & H2 & H3); [|lia].
    split; [lia|]. split; [done|]. split; [|done]. split; [lia|done].
  - intros ->. apply astar_children_form in Hch as [Hi Hf].
    split; [lia|]. split; [lia|]. split; [|done]. split; [lia|done].
Qed.
End AStarForm.

(** X11. A result of [solve_bfs] or [solve_astar] either holds actions,
    then at least one, with [solved = true] and [limit_exceeded = false],
    or it holds no actions and has [solved = false]: the searches never
    return a solution together with an exceeded limit. *)
Theorem search_result_form {P : Type} (plt : P -> P -> bool) (priority_root : Z -> P)
    (priority_of : Z -> Z -> P) (context : context_t) (problem : problem_t)
    (max_iterations : Z) (r : result_t) :
  solve_bfs context problem max_iterations = Returned r
  \/ solve_astar plt priority_root priority_of context problem max_iterations
     = Returned r ->
  (solved r = true /\ limit_exceeded r = false
   /\ exists acts, actions r = Some acts /\ acts <> EmptyString)
  \/ (solved r = false /\ actions r = None).
Proof.
  intros Hsolve.
  assert (result_form r) as Hform.
  { destruct Hsolve as [H|H]; [apply solve_bfs_form in H|apply solve_astar_form in H];
      apply H. }
  unfold result_form in Hform. destruct (actions r) as [acts|].
  - left. destruct Hform as (Hs & Hl & Hne). eauto.
  - right. done.
Qed.

Lemma search_result_form_witness :
  solve_bfs context_A_10 problem_A_10 0
  = Returned (create_result true (Some "rR"%string) 2 false)
  /\ solved (create_result true (Some "rR"%string) 2 false) = true
  /\ actions (create_result true (Some "rR"%string) 2 false) = Some "rR"%string.
Proof.
  assert (solve_bfs context_A_10 problem_A_10 0
          = Returned (create_result true (Some "rR"%string) 2 false)) as Hbfs
    by (vm_compute; reflexivity).
  split; [exact Hbfs|].
  destruct (search_result_form Z.ltb (exact_root 1) (exact_priority 1 1) context_A_10
              problem_A_10 0 _ (or_introl Hbfs)) as [(Hs & _ & acts & Ha & _)|[Hs _]].
  - split; [exact Hs|reflexivity].
  - discriminate Hs.
Defined.

(** X12. The number of iterations of a result of [solve_bfs] or
    [solve_astar] is not negative, it is at most [max_iterations] when
    that limit is positive, and it is 0 exactly when no search is run:
    when the problem is not potentially solvable, where [limit_exceeded]
    is false, or when the memory of the context cannot be allocated,
    where [limit_exceeded] is true. *)
Theorem search_iterations {P : Type} (plt : P -> P -> bool) (priority_root : Z -> P)
    (priority_of : Z -> Z -> P) (allocated : bool) (context : context_t)
    (problem : problem_t) (max_iterations : Z) (r : result_t) :
  solve_bfs_alloc allocated context problem max_iterations = Returned r
  \/ solve_astar_alloc plt priority_root priority_of allocated context problem
                       max_iterations = Returned r ->
  0 <= iterations r
  /\ (0 < max_iterations -> iterations r <= max_iterations)
  /\ (iterations r = 0 <->
      potentially_solvable problem = false \/ allocated = false)
  /\ (iterations r = 0 /\ limit_exceeded r = false <->
      potentially_solvable problem = false)
  /\ (iterations r = 0 /\ limit_exceeded r = true <->
      potentially_solvable problem = true /\ allocated = false).
Proof.
  unfold solve_bfs_alloc, solve_astar_alloc.
  destruct (potentially_solvable problem) eqn:Hps; simpl negb; cbv iota.
  2:{ intros [[= <-]|[= <-]]; simpl; repeat split; intros; try lia; try tauto;
      try done; tauto. }
  destruct allocated; simpl negb; cbv iota.
  2:{ intros [[= <-]|[= <-]]; simpl; repeat split; intros; try lia; try tauto;
      try done; tauto. }
  intros [H|H]; [apply solve_bfs_form in H|apply solve_astar_form in H];
    destruct H as (H1 & H2 & H3 & _); rewrite Hps in H3;
    (split; [done|]); (split; [done|]);
    assert (iterations r <> 0) as Hne by (intros Hz; apply H3 in Hz; done);
    repeat split; intros; try tauto; try lia; try done;
    try (destruct H; done); try (destruct H; lia); intuition (try lia; try done).
Qed.

Lemma search_iterations_witness :
  solve_astar_alloc Z.ltb (exact_root 1) (exact_priority 1 1) true context_A_10
                    problem_A_10 1
  = Returned (create_result false None 1 true)
  /\ solve_bfs_alloc false context_A_10 problem_A_10 1
     = Returned (create_result false None 0 true)
  /\ 0 <= 1 /\ 1 <= 1 /\ potentially_solvable problem_A_10 = true.
Proof.
  assert (solve_astar_alloc Z.ltb (exact_root 1) (exact_priority 1 1) true context_A_10
                            problem_A_10 1
          = Returned (create_result false None 1 true)) as Hastar
    by (vm_compute; reflexivity).
  assert (solve_bfs_alloc false context_A_10 problem_A_10 1
          = Returned (create_result false None 0 true)) as Hbfs
    by (vm_compute; reflexivity).
  split; [exact Hastar|]. split; [exact Hbfs|].
  destruct (search_iterations Z.ltb (exact_root 1) (exact_priority 1 1) true
              context_A_10 problem_A_10 1 _ (or_intror Hastar))
    as (H0 & Hmax & _).
  split; [exact H0|]. split; [apply Hmax; lia|].
  destruct (search_iterations Z.ltb (exact_root 1) (exact_priority 1 1) false
              context_A_10 problem_A_10 1 _ (or_introl Hbfs))
    as (_ & _ & _ & _ & Hfail).
  apply Hfail. split; reflexivity.
Defined.

(** ** create_context *)

(** X13. For a level of at most 253 columns and 253 rows, [create_context]
    stores the width and the height with the two border columns and rows
    added and their product as the area, which fits the 16 bits of a
    position; the bitsets have the least number of 64-bit words that holds
    one bit for each position; and [state_count] is the capacity and
    one. *)
Theorem create_context_sizes (w h capacity : Z) :
  0 <= w <= 253 -> 0 <= h <= 253 -> 0 <= capacity < 2 ^ 64 - 1 ->
  let context := create_context w h capacity in
  width context = w + 2 /\ height context = h + 2
  /\ area context = (w + 2) * (h + 2) /\ area context < 65536
  /\ area context <= 64 * bitset_size context < area context + 64
  /\ bitset_stride context = 8 * bitset_size context
  /\ state_count context = capacity + 1.
Proof.
  intros Hw Hh Hc context.
  destruct (create_context_fields w h capacity Hw Hh) as (Hwd & Hht & Ha & _).
  fold context in Hwd, Hht, Ha. rewrite Ha.
  split; [done|]. split; [done|]. split; [done|]. split; [nia|].
  assert (bitset_size context = ((w + 2) * (h + 2) + 63) / 64) as Hb
    by (unfold context, create_context, BITS_CNT; simpl; f_equal; lia).
  split; [|split].
  - rewrite Hb. pose proof (Z.div_mod ((w + 2) * (h + 2) + 63) 64 ltac:(lia)).
    pose proof (Z.mod_pos_bound ((w + 2) * (h + 2) + 63) 64 ltac:(lia)). lia.
  - unfold context, create_context. simpl. lia.
  - unfold context, create_context, wrap64. simpl. apply Z.mod_small. lia.
Qed.

Lemma create_context_sizes_witness :
  0 <= 4 <= 253 /\ 0 <= 1 <= 253 /\ 0 <= 10 < 2 ^ 64 - 1
  /\ width context_A_10 = 6 /\ height context_A_10 = 3 /\ area context_A_10 = 18
  /\ bitset_size context_A_10 = 1 /\ state_count context_A_10 = 11.
Proof.
  destruct (create_context_sizes 4 1 10 ltac:(lia) ltac:(lia) ltac:(lia))
    as (Hwd & Hht & Ha & _ & _ & _ & Hsc).
  split; [lia|]. split; [lia|]. split; [lia|].
  split; [exact Hwd|]. split; [exact Hht|]. split; [exact Ha|].
  split; [reflexivity|exact Hsc].
Defined.

(** X14. For a level of 254 or 255 columns the 8-bit width wraps around:
    [create_context] stores the width 0 or 1 and an area computed from it,
    while the bitsets are sized for the columns asked for; such a context
    is not one the solver works on. *)
Theorem create_context_wide (w h capacity : Z) :
  254 <= w <= 255 -> 0 <= h <= 253 ->
  let context := create_context w h capacity in
  width context = w - 254
  /\ area context = (w - 254) * (h + 2)
  /\ bitset_size context = ((w + 2) * (h + 2) + 63) / 64
  /\ ~ context_ok context.
Proof.
  intros Hw Hh context.
  assert (width context = w - 254) as Hwd.
  { unfold context, create_context, wrap8. simpl.
    replace (w + 2) with (w - 254 + 1 * 256) by lia.
    rewrite Z.mod_add by lia. apply Z.mod_small. lia. }
  split; [done|].
  split; [|split; [unfold context, create_context, BITS_CNT; simpl; f_equal; lia|]].
  - change (area context) with (wrap16 (width context * wrap8 (h + 2))).
    rewrite Hwd. unfold wrap8. rewrite (Z.mod_small (h + 2)) by lia.
    apply wrap16_small. nia.
  - intros [Hbad _ _ _]. lia.
Qed.

Lemma create_context_wide_witness :
  254 <= 254 <= 255 /\ 0 <= 1 <= 253
  /\ width (create_context 254 1 10) = 0 /\ area (create_context 254 1 10) = 0
  /\ bitset_size (create_context 254 1 10) = 12.
Proof.
  destruct (create_context_wide 254 1 10 ltac:(lia) ltac:(lia)) as (Hwd & Ha & Hb & _).
  split; [lia|]. split; [lia|]. split; [exact Hwd|]. split; [exact Ha|exact Hb].
Defined.

(** ** The moves of the searches and the moves of verify_solution *)

Section Moves.
Variable context : context_t.
Variable problem : problem_t.
Hypothesis Hok : context_ok context.
Hypothesis Hpb : problem_ok context problem.

(** Actions that solve the level from a state give edges of the searches
    to a goal state, no more of them than there are actions. *)
Lemma replay_steps (acts : string) (player : Z) (crates : list Z)
    (player' : Z) (crates' : list Z) :
  state_ok context problem player crates ->
  replay context problem player crates acts = Some (player', crates') ->
  goal_state context problem crates' = true ->
  exists d t, (d <= String.length acts)%nat
              /\ steps context problem d (player, crates) t
              /\ goal_state context problem t.2 = true.
Proof using Hok Hpb.
  revert player crates. induction acts as [|a rest IH]; intros player crates Hs.
  - simpl. intros [= <- <-] Hg. exists 0%nat, (player, crates).
    split; [done|]. split; [constructor|done].
  - cbn [replay]. destruct (verify_step context problem player crates a)
      as [[p1 c1]|] eqn:Hstep; [|done].
    intros Hreplay Hg.
    destruct (goal_state context problem crates) eqn:Hgs.
    { exists 0%nat, (player, crates). split; [lia|]. split; [constructor|done]. }
    pose proof (verify_step_ok context problem Hok Hpb _ _ _ _ _ Hs Hstep) as Hs1.
    assert (alive context problem p1 c1) as Halive.
    { exists rest, player', crates'. done. }
    pose proof (prune_sound context problem Hok Hpb _ _ _ _ _ Hs Hstep Halive)
      as Hedge.
    destruct (IH p1 c1 Hs1 Hreplay Hg) as (d & t & Hd & Hsteps & Hgt).
    exists (S d), t. split; [simpl; lia|]. split; [|done].
    econstructor; done.
Qed.

Lemma steps_ok (k : nat) (s t : Z * list Z) :
  steps context problem k s t ->
  state_ok context problem s.1 s.2 -> state_ok context problem t.1 t.2.
Proof using Hok Hpb.
  induction 1 as [s|k s s1 t Hg He Hsteps IH]; [done|].
  intros Hs. apply IH. eapply edge_ok; done.
Qed.
End Moves.

(** X15. The searches prune no move that can still lead to a solution:
    in a state of a parsed, potentially solvable level, when
    [verify_solution] accepts an action and some further actions solve the
    level from the state it leads to, one of the four directions makes the
    searches generate that very state. *)
Theorem pruning_keeps_solutions (w h capacity : Z) (problem0 problem : problem_t)
    (level_str : string) (c : bool) (player : Z) (crates : list Z) (a : ascii)
    (player' : Z) (crates' : list Z) :
  0 <= w <= 253 -> 0 <= h <= 253 ->
  let context := create_context w h capacity in
  parse_problem context problem0 level_str = Some (problem, c) ->
  potentially_solvable problem = true ->
  state_ok context problem player crates ->
  verify_step context problem player crates a = Some (player', crates') ->
  alive context problem player' crates' ->
  exists index direction action changed,
    directions context !! index = Some direction
    /\ make_child context problem player crates index direction
       = Child player' action changed crates'.
Proof.
  intros Hw Hh context Hparse Hsolvable Hs Hstep Halive.
  pose proof (create_context_ok w h capacity Hw Hh) as Hok. fold context in Hok.
  pose proof (parse_problem_ok context problem0 problem level_str c Hok Hparse
                Hsolvable) as Hpb.
  exact (prune_sound context problem Hok Hpb _ _ _ _ _ Hs Hstep Halive).
Qed.

Lemma pruning_keeps_solutions_witness :
  parse_problem context_A_10 (allocate_problem context_A_10) "A.10"
  = Some (problem_A_10, true)
  /\ potentially_solvable problem_A_10 = true
  /\ state_ok context_A_10 problem_A_10 (player problem_A_10) (crates problem_A_10)
  /\ verify_step context_A_10 problem_A_10 (player problem_A_10) (crates problem_A_10)
                 "r" = Some (8, crates problem_A_10)
  /\ alive context_A_10 problem_A_10 8 (crates problem_A_10)
  /\ exists index direction action changed,
       directions context_A_10 !! index = Some direction
       /\ make_child context_A_10 problem_A_10 (player problem_A_10)
                     (crates problem_A_10) index direction
          = Child 8 action changed (crates problem_A_10).
Proof.
  assert (potentially_solvable problem_A_10 = true) as Hps by (vm_compute; reflexivity).
  pose proof (create_context_ok 4 1 10 ltac:(lia) ltac:(lia)) as Hok.
  pose proof (parse_problem_ok context_A_10 _ _ _ _ Hok parse_problem_A_10 Hps) as Hpb.
  pose proof (initial_state_ok context_A_10 problem_A_10 Hpb) as Hs.
  assert (verify_step context_A_10 problem_A_10 (player problem_A_10)
                      (crates problem_A_10) "r" = Some (8, crates problem_A_10))
    as Hstep by (vm_compute; reflexivity).
  assert (alive context_A_10 problem_A_10 8 (crates problem_A_10)) as Halive.
  { exists "R"%string. eexists. eexists. split; vm_compute; reflexivity. }
  split; [exact parse_problem_A_10|]. split; [exact Hps|]. split; [exact Hs|].
  split; [exact Hstep|]. split; [exact Halive|].
  exact (pruning_keeps_solutions 4 1 10 _ _ _ _ _ _ _ _ _ ltac:(lia) ltac:(lia)
           parse_problem_A_10 Hps Hs Hstep Halive).
Defined.

(** X16. The heuristic of [solve_astar] is admissible: in a state of a
    parsed, potentially solvable level with no crate on a cell of the
    deadlock map, and with a sum that fits its 16 bits, [compute_heuristic]
    is at most the number of actions of every sequence that
    [verify_solution]'s rules accept from the state and that ends with the
    crates on the goals. *)
Theorem heuristic_admissible (w h capacity : Z) (problem0 problem : problem_t)
    (level_str : string) (c : bool) (player : Z) (crates : list Z) (acts : string)
    (player' : Z) (crates' : list Z) :
  0 <= w <= 253 -> 0 <= h <= 253 ->
  let context := create_context w h capacity in
  parse_problem context problem0 level_str = Some (problem, c) ->
  potentially_solvable problem = true ->
  state_ok context problem player crates ->
  safe_crates problem crates ->
  (area context - 1) * crate_count context crates < 65536 ->
  replay context problem player crates acts = Some (player', crates') ->
  goal_state context problem crates' = true ->
  compute_heuristic context problem crates <= Z.of_nat (String.length acts).
Proof.
  intros Hw Hh context Hparse Hsolvable Hs Hsafe Hsum Hreplay Hgoal.
  pose proof (create_context_ok w h capacity Hw Hh) as Hok. fold context in Hok.
  pose proof (parse_problem_ok context problem0 problem level_str c Hok Hparse
                Hsolvable) as Hpb.
  rewrite (compute_heuristic_sum context problem Hok Hpb player crates Hs Hsafe Hsum).
  destruct (replay_steps context problem Hok Hpb acts player crates player' crates'
              Hs Hreplay Hgoal) as (d & t & Hd & Hsteps & Hgt).
  pose proof (steps_heuristic context problem Hok Hpb d _ _ Hsteps Hs Hsafe) as Hh'.
  pose proof (steps_ok context problem Hok Hpb d _ _ Hsteps Hs) as Ht.
  rewrite (goal_heuristic context problem Hok Hpb t.1 t.2 Ht Hgt) in Hh'.
  simpl in Hh'. lia.
Qed.

Lemma heuristic_admissible_witness :
  parse_problem context_A_10 (allocate_problem context_A_10) "A.10"
  = Some (problem_A_10, true)
  /\ potentially_solvable problem_A_10 = true
  /\ replay context_A_10 problem_A_10 (player problem_A_10) (crates problem_A_10) "rR"
     = Some (9, goals problem_A_10)
  /\ goal_state context_A_10 problem_A_10 (goals problem_A_10) = true
  /\ compute_heuristic context_A_10 problem_A_10 (crates problem_A_10) = 1
  /\ compute_heuristic context_A_10 problem_A_10 (crates problem_A_10)
     <= Z.of_nat (String.length "rR").
Proof.
  assert (potentially_solvable problem_A_10 = true) as Hps by (vm_compute; reflexivity).
  pose proof (create_context_ok 4 1 10 ltac:(lia) ltac:(lia)) as Hok.
  pose proof (parse_problem_ok context_A_10 _ _ _ _ Hok parse_problem_A_10 Hps) as Hpb.
  pose proof (initial_state_ok context_A_10 problem_A_10 Hpb) as Hs.
  assert (replay context_A_10 problem_A_10 (player problem_A_10) (crates problem_A_10)
                 "rR" = Some (9, goals problem_A_10)) as Hreplay
    by (vm_compute; reflexivity).
  assert (goal_state context_A_10 problem_A_10 (goals problem_A_10) = true) as Hgoal
    by (vm_compute; reflexivity).
  split; [exact parse_problem_A_10|]. split; [exact Hps|]. split; [exact Hreplay|].
  split; [exact Hgoal|]. split; [vm_compute; reflexivity|].
  exact (heuristic_admissible 4 1 10 _ _ _ _ _ _ _ _ _ ltac:(lia) ltac:(lia)
           parse_problem_A_10 Hps Hs (po_safe _ _ Hpb)
           ltac:(vm_compute; reflexivity) Hreplay Hgoal).
Defined.

(** ** The reader of test files and the verifier *)

(** X17. The characters that the reader of test files takes for tiles
    ([is_tile]) are exactly the characters for which the [switch] of
    [parse_problem] does not take its [default] branch: a level line that
    the reader accepts is consumed by the parser tile by tile. *)
Theorem is_tile_parse_tile (c : ascii) (st : parser) :
  is_tile c = true <-> is_Some (parse_tile c st).
Proof.
  assert (is_tile c = is_tile_char c) as ->.
  { unfold is_tile. char_cases c. }
  destruct (parse_tile c st) as [st'|] eqn:Hp.
  - split; [by eexists|]. intros _.
    destruct (is_tile_char c) eqn:Ht; [done|].
    apply (parse_tile_None c st) in Ht. rewrite Ht in Hp. done.
  - apply parse_tile_None in Hp. rewrite Hp. split; [done|]. intros [x Hx]. done.
Qed.

Lemma upper_action_direction (context : context_t) (a : ascii) (d : Z) :
  action_direction context a = Some d ->
  action_direction context (upper_action a) = Some d
  /\ is_lower (upper_action a) = false.
Proof.
  unfold action_direction, upper_action, is_char.
  repeat match goal with
         | |- context [Ascii.eqb a ?x] =>
             destruct (Ascii.eqb_spec a x); subst; simpl
         end; try done.
Qed.

Lemma verify_step_upper (context : context_t) (problem : problem_t) (player : Z)
    (crates : list Z) (a : ascii) (s : Z * list Z) :
  verify_step context problem player crates a = Some s ->
  verify_step context problem player crates (upper_action a) = Some s.
Proof.
  unfold verify_step.
  destruct (action_direction context a) as [d|] eqn:Hd; [|done].
  destruct (upper_action_direction context a d Hd) as [-> ->].
  destruct (get_bit (walls problem) _); [done|].
  destruct (get_bit crates _); [|done].
  destruct (is_lower a); done.
Qed.

(** X18. [verify_solution] reads the case of an action only at a push,
    which it rejects in lower case: actions that it accepts are accepted
    as well when all of them are written in upper case. *)
Theorem verify_solution_upper (context : context_t) (problem : problem_t)
    (acts : string) :
  verify_solution context problem acts = true ->
  verify_solution context problem (upper_actions acts) = true.
Proof.
  unfold verify_solution. generalize (player problem) (crates problem).
  induction acts as [|a rest IH]; intros player crates; [done|].
  cbn [upper_actions verify_solution_from].
  destruct (verify_step context problem player crates a) as [[p1 c1]|] eqn:Hstep;
    [|done].
  rewrite (verify_step_upper _ _ _ _ _ _ Hstep). apply IH.
Qed.

Lemma verify_solution_upper_witness :
  verify_solution context_A_10 problem_A_10 "rR" = true
  /\ upper_actions "rR" = "RR"%string
  /\ verify_solution context_A_10 problem_A_10 "RR" = true.
Proof.
  assert (verify_solution context_A_10 problem_A_10 "rR" = true) as Hv
    by (vm_compute; reflexivity).
  split; [exact Hv|]. split; [reflexivity|].
  exact (verify_solution_upper context_A_10 problem_A_10 "rR" Hv).
Defined.

(** ** format_problem and show_level *)

Section Format.
Variable walls goals crates : list Z.
Variable player : Z.

Lemma format_row_length (cells : nat) (position : Z) :
  String.length (format_row walls goals crates player cells position).1 = cells.
Proof using Type.
  revert position. induction cells as [|cells IH]; intros position; [done|].
  cbn [format_row]. specialize (IH (wrap16 (position + 1))).
  destruct (format_row _ _ _ _ cells _) as [rest p']. simpl in *. lia.
Qed.

Lemma format_row_spec (cells : nat) (position : Z) :
  0 <= position -> position + Z.of_nat cells < 65536 ->
  (format_row walls goals crates player cells position).2
  = position + Z.of_nat cells
  /\ forall k, (k < cells)%nat ->
       String.get k (format_row walls goals crates player cells position).1
       = Some (tile_char walls goals crates player (position + Z.of_nat k)).
Proof using Type.
  revert position. induction cells as [|cells IH]; intros position H0 Hlt.
  - simpl. split; [lia|]. intros k Hk. lia.
  - cbn [format_row]. rewrite wrap16_small by lia.
    specialize (IH (position + 1) ltac:(lia) ltac:(lia)).
    destruct (format_row _ _ _ _ cells _) as [rest p']. simpl in *.
    destruct IH as [-> IH]. split; [lia|].
    intros [|k] Hk; simpl.
    + rewrite Z.add_0_r. done.
    + rewrite IH by lia. do 2 f_equal. lia.
Qed.

(** With an empty separator the characters are the tiles of the positions
    in their order. *)
Lemma format_rows_get (first : bool) (rows cells : nat) (position : Z) (k : nat) :
  0 <= position -> position + Z.of_nat (rows * cells) < 65536 ->
  (k < rows * cells)%nat ->
  String.get k (format_rows walls goals crates player EmptyString first rows cells
                            position)
  = Some (tile_char walls goals crates player (position + Z.of_nat k)).
Proof using Type.
  revert first position k.
  induction rows as [|rows IH]; intros first position k H0 Hlt Hk; [simpl in Hk; lia|].
  cbn [format_rows].
  pose proof (format_row_length cells position) as Hlen.
  destruct (format_row_spec cells position H0 ltac:(lia)) as [Hpos Hget].
  destruct (format_row _ _ _ _ cells position) as [row p']. simpl in *. subst p'.
  replace ((if first then EmptyString else EmptyString) ++ row ++
           format_rows walls goals crates player EmptyString false rows cells
                       (position + Z.of_nat cells))%string
    with (row ++ format_rows walls goals crates player EmptyString false rows cells
                             (position + Z.of_nat cells))%string
    by (destruct first; reflexivity).
  destruct (Nat.lt_ge_cases k cells) as [Hin|Hout].
  - rewrite <- append_correct1 by lia. apply Hget. done.
  - replace k with ((k - cells) + String.length row)%nat at 1 by lia.
    rewrite <- append_correct2. rewrite IH by lia. do 2 f_equal. lia.
Qed.

Lemma format_rows_length (separator : string) (first : bool) (rows cells : nat)
    (position : Z) :
  String.length (format_rows walls goals crates player separator first rows cells
                             position)
  = (rows * cells
     + (if first then Nat.pred rows else rows) * String.length separator)%nat.
Proof using Type.
  revert first position.
  induction rows as [|rows IH]; intros first position; [destruct first; done|].
  cbn [format_rows].
  pose proof (format_row_length cells position) as Hlen.
  destruct (format_row _ _ _ _ cells position) as [row p']. simpl in Hlen.
  rewrite !length_append', IH, Hlen. destruct first; simpl; lia.
Qed.

(** [show_level] prints the rows of [format_problem] with a newline as the
    separator, and one more newline. *)
Lemma show_rows_format (first : bool) (rows cells : nat) (position : Z) :
  ((if first then EmptyString else String (ascii_of_nat 10) EmptyString)
   ++ show_rows walls goals crates player rows cells position)%string
  = (format_rows walls goals crates player (String (ascii_of_nat 10) EmptyString)
                 first rows cells position
     ++ (if (0 <? rows)%nat || negb first
         then String (ascii_of_nat 10) EmptyString else EmptyString))%string.
Proof using Type.
  revert first position.
  induction rows as [|rows IH]; intros first position.
  - destruct first; reflexivity.
  - cbn [format_rows show_rows].
    destruct (format_row _ _ _ _ cells position) as [row p'].
    specialize (IH false p'). cbv iota in IH. rewrite orb_true_r in IH.
    replace ((0 <? S rows)%nat || negb first) with true by done.
    rewrite IH. rewrite !append_assoc'. done.
Qed.
End Format.

Lemma count_chars_unique (f : ascii -> bool) (l : list ascii) (i j : nat)
    (a b : ascii) :
  count_chars f l = 1 ->
  l !! i = Some a -> f a = true -> l !! j = Some b -> f b = true -> i = j.
Proof.
  revert i j. induction l as [|c l IH]; intros i j Hcount Hi Ha Hj Hb; [done|].
  rewrite count_chars_cons in Hcount.
  pose proof (count_chars_range f l) as Hrange.
  assert (forall k x, l !! k = Some x -> f x = true -> 0 < count_chars f l) as Hpos.
  { intros k x Hk Hx. apply count_chars_pos. eauto. }
  destruct i as [|i], j as [|j]; simpl in Hi, Hj.
  - done.
  - injection Hi as ->. rewrite Ha in Hcount. pose proof (Hpos j b Hj Hb). lia.
  - injection Hj as ->. rewrite Hb in Hcount. pose proof (Hpos i a Hi Ha). lia.
  - f_equal. apply IH; try done. pose proof (Hpos i a Hi Ha).
    destruct (f c); lia.
Qed.

(** X19. [format_problem] fills its buffer exactly: for a context of at
    least one row, the characters it writes and the final NUL are as many
    as the [total_len] bytes it allocates. *)
Theorem format_problem_length (context : context_t) (problem : problem_t)
    (separator : option string) :
  1 <= height context <= 255 -> 0 <= width context <= 255 ->
  Z.of_nat (String.length (default EmptyString separator)) < 2 ^ 32 ->
  Z.of_nat (String.length (format_problem context problem separator)) + 1
  = format_total_len context separator.
Proof.
  intros Hh Hw Hsep. unfold format_problem, format_total_len.
  rewrite format_rows_length.
  set (sl := String.length (default EmptyString separator)) in *.
  unfold wrap64. rewrite Z.mod_small by nia.
  destruct (Z.to_nat (height context)) as [|rows] eqn:Hrows; [lia|].
  simpl Nat.pred.
  replace (height context) with (Z.of_nat (S rows)) by lia.
  replace (width context) with (Z.of_nat (Z.to_nat (width context))) at 2 by lia.
  nia.
Qed.

Lemma format_problem_length_witness :
  1 <= height context_A_10 <= 255 /\ 0 <= width context_A_10 <= 255
  /\ format_problem context_A_10 problem_A_10 (Some "/"%string)
     = "WWWWWW/WA.10W/WWWWWW"%string
  /\ format_total_len context_A_10 (Some "/"%string) = 21.
Proof.
  assert (1 <= height context_A_10 <= 255) as Hh by (vm_compute; split; discriminate).
  assert (0 <= width context_A_10 <= 255) as Hw by (vm_compute; split; discriminate).
  split; [exact Hh|]. split; [exact Hw|]. split; [vm_compute; reflexivity|].
  rewrite <- (format_problem_length context_A_10 problem_A_10 (Some "/"%string) Hh Hw
                ltac:(vm_compute; reflexivity)).
  vm_compute. reflexivity.
Defined.

(** X20. Formatting what was parsed gives the level back: for a compilable
    parsed level, [format_problem] without a separator writes, at the
    position of every interior cell, the tile that [parse_problem] read
    for the cell in its canonical spelling ([W] for [w], [A] for [a], [g]
    for [G], and [W] for a cell that got no tile), and [W] at every
    position of the border. *)
Theorem format_parsed_problem (w h capacity : Z) (problem0 problem : problem_t)
    (level_str : string) :
  0 <= w <= 253 -> 0 <= h <= 253 ->
  let context := create_context w h capacity in
  parse_problem context problem0 level_str = Some (problem, true) ->
  (forall n, 0 <= n < w * h ->
     String.get (Z.to_nat (cell_position context n))
                (format_problem context problem None)
     = Some (canonical_tile (parsed_tiles context level_str !! Z.to_nat n)))
  /\ (forall q, 0 <= q < area context -> ~ interior context q ->
        String.get (Z.to_nat q) (format_problem context problem None)
        = Some "W"%char).
Proof.
  intros Hw Hh context Hparse.
  pose proof (create_context_ok w h capacity Hw Hh) as Hok. fold context in Hok.
  destruct (create_context_fields w h capacity Hw Hh) as (Hwd & Hht & Ha & Hsize).
  fold context in Hwd, Hht, Ha, Hsize.
  destruct (parse_problem_spec context problem0 level_str Hok)
    as (p' & Hparse' & _ & Hpl & Hwl & Hgl & Hcr & Hcomp & _).
  rewrite Hparse in Hparse'. injection Hparse' as <- Hc. rewrite <- Hc in Hcomp.
  symmetry in Hcomp. apply andb_true_iff in Hcomp as [Hcomp _].
  apply andb_true_iff in Hcomp as [Hone _]. apply Z.eqb_eq in Hone.
  destruct (parse_level_counts context Hok problem0 level_str) as (_ & _ & Hcount).
  rewrite Hone in Hcount. symmetry in Hcount.
  destruct (parse_level_player context Hok problem0 level_str ltac:(lia))
    as (m & cm & Hm & Htm & Hcm & Hplayer).
  rewrite <- Hpl in Hplayer.
  assert (forall q, 0 <= q < area context ->
            String.get (Z.to_nat q) (format_problem context problem None)
            = Some (tile_char (walls problem) (goals problem) (crates problem)
                              (player problem) q)) as Hget.
  { intros q Hq. unfold format_problem. simpl default.
    rewrite format_rows_get; [do 2 f_equal; lia|lia| |]; nia. }
  split.
  - intros n Hn. rewrite <- Hsize in Hn.
    pose proof (cell_position_interior context Hok n Hn) as Hi.
    rewrite Hget by (apply interior_range; done).
    destruct (parse_level_cell context Hok problem0 level_str n Hn) as (Hbw & Hbg & Hbc).
    rewrite <- Hwl, <- Hgl, <- Hcr in *.
    rewrite <- (parsed_tiles_lookup context level_str n Hn) in Hbw, Hbg, Hbc.
    unfold tile_char. rewrite Hbw, Hbg, Hbc, Hplayer.
    set (ts := parsed_tiles context level_str) in *.
    destruct (decide (m = n)) as [->|Hmn].
    + rewrite Htm, Z.eqb_refl. simpl. char_cases cm.
    + destruct (Z.eqb_spec (cell_position context m) (cell_position context n))
        as [Heq|_].
      { exfalso. apply Hmn. apply (cell_position_inj context Hok); done. }
      destruct (ts !! Z.to_nat n) as [c|] eqn:Htn; simpl; [|done].
      assert (is_player_char c = false) as Hnp.
      { destruct (is_player_char c) eqn:Hpc; [|done]. exfalso. apply Hmn.
        pose proof (count_chars_unique is_player_char ts _ _ _ _ Hcount Htm Hcm
                      Htn Hpc). lia. }
      char_cases c.
  - intros q Hq Hni. rewrite Hget by done.
    destruct (parse_level_border context Hok problem0 level_str q ltac:(lia) Hni)
      as (Hbw & _).
    rewrite <- Hwl in Hbw. unfold tile_char. rewrite Hbw.
    pose proof (area_bitset context Hok).
    destruct (Z.ltb_spec q (64 * bitset_size context)); [done|lia].
Qed.

Lemma format_parsed_problem_witness :
  parse_problem context_A_10 (allocate_problem context_A_10) "A.10"
  = Some (problem_A_10, true)
  /\ format_problem context_A_10 problem_A_10 None = "WWWWWWWA.10WWWWWWW"%string
  /\ String.get (Z.to_nat (cell_position context_A_10 0))
                (format_problem context_A_10 problem_A_10 None)
     = Some "A"%char.
Proof.
  split; [exact parse_problem_A_10|]. split; [vm_compute; reflexivity|].
  destruct (format_parsed_problem 4 1 10 (allocate_problem context_A_10) problem_A_10
              "A.10" ltac:(lia) ltac:(lia) parse_problem_A_10) as [Hcells _].
  exact (Hcells 0 ltac:(lia)).
Defined.

(** X21. [show_level] prints, for the walls, goals, crates and player of a
    problem, the rows that [format_problem] writes with a newline as the
    separator, and a newline after the last row. *)
Theorem show_level_format (context : context_t) (problem : problem_t) :
  1 <= height context ->
  show_level context (crates problem) (goals problem) (walls problem) (player problem)
  = (format_problem context problem (Some (String (ascii_of_nat 10) EmptyString))
     ++ String (ascii_of_nat 10) EmptyString)%string.
Proof.
  intros Hh. unfold show_level, format_problem. simpl default.
  pose proof (show_rows_format (walls problem) (goals problem) (crates problem)
                (player problem) true (Z.to_nat (height context))
                (Z.to_nat (width context)) 0) as H.
  cbv iota in H. simpl append in H at 1.
  rewrite H. destruct (Z.to_nat (height context)) eqn:Hrows; [lia|]. done.
Qed.

Lemma show_level_format_witness :
  1 <= height context_A_10
  /\ show_level context_A_10 (crates problem_A_10) (goals problem_A_10)
                (walls problem_A_10) (player problem_A_10)
     = (format_problem context_A_10 problem_A_10
                       (Some (String (ascii_of_nat 10) EmptyString))
        ++ String (ascii_of_nat 10) EmptyString)%string.
Proof.
  assert (1 <= height context_A_10) as Hh by (vm_compute; discriminate).
  split; [exact Hh|]. exact (show_level_format context_A_10 problem_A_10 Hh).
Defined.

(** ** solve_astar stays inside its buffers, whatever the priorities *)

Section AStarSafe.
Context {P : Type}.
Variable plt : P -> P -> bool.
Variable priority_root : Z -> P.
Variable priority_of : Z -> Z -> P.
Variable context : context_t.
Variable problem : problem_t.
Hypothesis Hcount : 2 <= state_count context <= 65536.

Local Abbreviation popped := (fun x : state_t P => heap_index x < 0).
Local Abbreviation tree := (tree_ok (P := P) context problem popped).

Lemma heapify_bottomup_loop_length (fuel : nat) (cache : list (state_t P))
    (min_heap : list nat) (last node : nat) :
  length (heapify_bottomup_loop plt fuel cache min_heap last node).2
  = length min_heap.
Proof using Type.
  revert cache min_heap node. induction fuel as [|fuel IH]; intros cache min_heap node;
    cbn [heapify_bottomup_loop]; [done|].
  destruct (node =? 0)%nat; [done|]. destruct (priority_lt _ _ _ _); [|done].
  rewrite IH, !length_insert. done.
Qed.

Lemma heap_insert_length (cache : list (state_t P)) (min_heap : list nat)
    (element : nat) :
  length (heap_insert plt cache min_heap element).2 = S (length min_heap).
Proof using Type.
  unfold heap_insert. destruct (0 <? length min_heap)%nat.
  - unfold heapify_bottomup. rewrite heapify_bottomup_loop_length, length_app.
    simpl. lia.
  - simpl. rewrite length_app. simpl. lia.
Qed.

Lemma return_solution_returns (cache : list (state_t P)) (parent_index : nat)
    (n : state_t P) (action : ascii) (its : Z) :
  tree cache -> cache !! parent_index = Some n ->
  exists r, return_solution cache parent_index (cost n + 1) action its = Returned r.
Proof using Type.
  intros Htree Hn.
  destruct (tree_nodes _ _ _ _ Htree _ _ Hn) as (_ & Hcost & _).
  destruct (tree_path context problem _ cache parent_index n Htree Hn)
    as (acts & _ & _ & Hback).
  unfold return_solution.
  destruct (Z.eqb_spec (cost n + 1) 0) as [|_]; [lia|].
  replace (cost n + 1 - 1) with (cost n) by lia. rewrite Hback. eexists. done.
Qed.

Lemma astar_child_safe (st : search P) (parent_index : nat) (par : state_t P)
    (its : Z) (index : nat) (direction : Z) :
  astar_links st -> tree (cache st) -> cache st !! parent_index = Some par ->
  heap_index par < 0 ->
  0 <= free_bits st < Z.of_nat (length (cache st)) ->
  directions context !! index = Some direction ->
  match astar_child plt priority_of context problem parent_index par
                    (wrap16 (cost par + 1)) its index direction st with
  | Continue st' =>
      astar_links st' /\ tree (cache st') /\ cache st' !! parent_index = Some par
      /\ 0 <= free_bits st' < Z.of_nat (length (cache st'))
      /\ (length (cache st') + length (min_heap st)
          = length (cache st) + length (min_heap st'))%nat
  | Return (Returned r) => True
  | Return _ => False
  end.
Proof using Hcount.
  clear priority_root.
  intros Hlinks Htree Hparent Hneg Hbits Hdir.
  pose proof (astar_child_tree plt priority_of context problem ltac:(lia) st
                parent_index par its index direction Hlinks Htree Hparent Hneg Hdir)
    as Htree'.
  revert Htree'.
  destruct (child_cost context problem _ _ _ _ ltac:(lia) Htree Hparent) as [-> Hcost].
  assert (Z.of_nat (length (cache st)) < state_count context) as Hlen.
  { destruct (tree_length _ _ _ _ Htree) as [|Hone]; [done|]. rewrite Hone. lia. }
  unfold astar_child.
  destruct (make_child _ _ _ _ _ _) as [|player action changed crates] eqn:Hchild.
  { intros (H1 & H2 & H3). do 4 (split; [done|]). lia. }
  replace (changed && (state_count context <=? free_bits st)) with false
    by (destruct changed; [simpl; symmetry; apply Z.leb_gt; lia|done]).
  destruct (changed && bitset_equals _ _ _) eqn:Hgoal.
  { intros _.
    destruct (return_solution_returns (cache st) parent_index par action its Htree
                Hparent) as [r ->]. done. }
  destruct (Z.leb_spec (state_count context) (Z.of_nat (length (cache st))));
    [lia|].
  destruct (hashmap_get _ _ _ _) as [t|] eqn:Hget.
  - apply hashmap_get_Some in Hget as (_ & twin & Htwin & _). rewrite Htwin.
    destruct ((0 <=? heap_index twin) && (cost par + 1 <? cost twin)) eqn:Hdec.
    2:{ intros (H1 & H2 & H3). do 3 (split; [done|]). simpl.
        split; [destruct changed; lia|lia]. }
    apply andb_true_iff in Hdec as [Hidx _]. apply Z.leb_le in Hidx.
    assert (t ∈ min_heap st) as Hin.
    { destruct (decide (t ∈ min_heap st)) as [|Hn]; [done|].
      pose proof (al_out _ Hlinks _ _ Htwin Hn). lia. }
    destruct (decrease_key_linked plt
                (update_twin priority_of (Some parent_index) action (cost par + 1))
                _ _ _ _ (al_linked _ Hlinks) Htwin Hin eq_refl)
      as (c & h & Heq & _ & Hlh & _ & Hframe & _).
    rewrite Heq. intros (H1 & H2 & H3). do 3 (split; [done|]). simpl.
    rewrite (frame_length _ _ Hframe), length_alter.
    split; [destruct changed; lia|lia].
  - match goal with |- context [heap_insert _ (_ ++ [?c])] => set (child := c) end.
    pose proof (heap_insert_length (cache st ++ [child]) (min_heap st)
                  (length (cache st))) as Hlh.
    destruct (heap_insert_linked plt (cache st ++ [child]) (min_heap st)
                (length (cache st)))
      as (c & h & Heq & _ & _ & Hframe & _).
    { apply linked_app. apply Hlinks. }
    { rewrite lookup_app_r by done. rewrite Nat.sub_diag. by eexists. }
    { intros Hin. apply (linked_bound _ _ _ (al_linked _ Hlinks)) in Hin. lia. }
    rewrite Heq in Hlh |- *. simpl in Hlh.
    destruct (Z.eqb_spec (Z.of_nat (S (length (cache st)))) (state_count context));
      [done|].
    intros (H1 & H2 & H3). do 3 (split; [done|]). simpl.
    rewrite (frame_length _ _ Hframe), length_app. simpl.
    split; [destruct changed; lia|lia].
Qed.

Lemma astar_children_safe (st : search P) (parent_index : nat) (par : state_t P)
    (its : Z) (index : nat) (dirs : list Z) :
  astar_links st -> tree (cache st) -> cache st !! parent_index = Some par ->
  heap_index par < 0 ->
  0 <= free_bits st < Z.of_nat (length (cache st)) ->
  (forall k d, dirs !! k = Some d -> directions context !! (index + k)%nat = Some d) ->
  match astar_children plt priority_of context problem parent_index par
                       (wrap16 (cost par + 1)) its index dirs st with
  | Continue st' =>
      astar_links st' /\ tree (cache st')
      /\ 0 <= free_bits st' < Z.of_nat (length (cache st'))
      /\ (length (cache st') + length (min_heap st)
          = length (cache st) + length (min_heap st'))%nat
  | Return (Returned r) => True
  | Return _ => False
  end.
Proof using Hcount.
  clear priority_root. revert index st.
  induction dirs as [|d rest IH]; intros index st Hlinks Htree Hparent Hneg Hbits Hdirs.
  - simpl. done.
  - cbn [astar_children].
    assert (directions context !! index = Some d) as Hd.
    { specialize (Hdirs 0%nat d eq_refl). rewrite Nat.add_0_r in Hdirs. done. }
    pose proof (astar_child_safe st parent_index par its index d Hlinks Htree Hparent
                  Hneg Hbits Hd) as Hchild.
    destruct (astar_child _ _ _ _ _ _ _ _ _ _ st) as [st1|o]; [|done].
    destruct Hchild as (Hlinks1 & Htree1 & Hparent1 & Hbits1 & Hlen1).
    specialize (IH (S index) st1 Hlinks1 Htree1 Hparent1 Hneg Hbits1).
    destruct (astar_children _ _ _ _ _ _ _ _ _ _ st1) as [st2|o].
    + destruct IH as (H1 & H2 & H3 & H4).
      { intros k d' Hk. specialize (Hdirs (S k) d' Hk).
        replace (S index + k)%nat with (index + S k)%nat by lia. done. }
      do 3 (split; [done|]). lia.
    + apply IH. intros k d' Hk. specialize (Hdirs (S k) d' Hk).
      replace (S index + k)%nat with (index + S k)%nat by lia. done.
Qed.

Lemma astar_loop_returns (fuel : nat) (max_iterations its : Z) (st : search P) :
  astar_links st -> tree (cache st) ->
  0 <= free_bits st < Z.of_nat (length (cache st)) ->
  state_count context - 1
  <= Z.of_nat fuel + Z.of_nat (length (cache st)) - Z.of_nat (length (min_heap st)) ->
  exists r, astar_loop plt priority_of fuel context problem max_iterations its st
            = Returned r.
Proof using Hcount.
  clear priority_root. revert its st.
  induction fuel as [|fuel IH]; intros its st Hlinks Htree Hbits Hfuel;
    assert (Z.of_nat (length (cache st)) < state_count context) as Hlen
      by (destruct (tree_length _ _ _ _ Htree) as [|Hone]; [done|rewrite Hone; lia]);
    cbn [astar_loop]; destruct (min_heap st) as [|s0 rest] eqn:Hheap;
    try (eexists; reflexivity).
  { simpl in Hfuel. lia. }
  destruct (_ && _); [eexists; reflexivity|].
  destruct (heap_pop_linked plt (cache st) (min_heap st) (al_linked _ Hlinks)
              ltac:(rewrite Hheap; done))
    as (c & h & Heq & _ & Hlh & _ & _ & Hframe & _).
  destruct (astar_pop plt st) as [[parent_index st1]|] eqn:Hpop.
  2:{ unfold astar_pop in Hpop. rewrite Heq in Hpop. done. }
  destruct (astar_pop_tree plt context problem st st1 parent_index Hlinks Htree Hpop)
    as (Hlinks1 & Htree1 & parent & Hparent & Hneg).
  rewrite Hparent.
  unfold astar_pop in Hpop. rewrite Heq in Hpop. injection Hpop as _ <-.
  cbn [cache free_bits min_heap] in *.
  assert (length (alter (set_heap_index (-1)) (heap_at (min_heap st) 0) c)
          = length (cache st)) as Hlc
    by (rewrite length_alter; apply (frame_length _ _ Hframe)).
  pose proof (astar_children_safe _ parent_index parent (its + 1) 0
                (directions context) Hlinks1 Htree1 Hparent Hneg
                ltac:(cbn [cache free_bits]; rewrite Hlc; done) ltac:(done)) as Hch.
  destruct (astar_children _ _ _ _ _ _ _ _ _ _ _) as [st'|[r| |]];
    [|eexists; reflexivity|done|done].
  destruct Hch as (Hlinks' & Htree' & Hbits' & Hlen').
  cbn [cache min_heap] in Hlen'. rewrite Hlc in Hlen'.
  apply IH; [done|done|done|]. rewrite Hheap in Hlh. lia.
Qed.

Lemma solve_astar_returns (max_iterations : Z) :
  length (crates problem) = Z.to_nat (bitset_size context) ->
  exists r, solve_astar plt priority_root priority_of context problem max_iterations
            = Returned r.
Proof using Hcount.
  intros Hlc. unfold solve_astar.
  destruct (potentially_solvable problem); [|eexists; reflexivity].
  change (negb true) with false. cbv iota.
  destruct (Z.leb_spec (state_count context) 0); [lia|].
  destruct (astar_start_tree plt priority_root context problem Hlc) as [Hlinks Htree].
  apply astar_loop_returns; [done|done|simpl; lia|simpl; lia].
Qed.
End AStarSafe.

(** X22. On every parsed level, with a capacity of 1 to 65535 states,
    [solve_bfs] and [solve_astar] return a result for every iteration limit
    and, for [solve_astar], every way of computing and comparing the
    priorities: they write no state and no bitset outside the arenas of the
    context, follow no NULL parent, pop no empty heap, and end. *)
Theorem searches_return {P : Type} (plt : P -> P -> bool) (priority_root : Z -> P)
    (priority_of : Z -> Z -> P) (w h capacity : Z) (problem0 problem : problem_t)
    (level_str : string) (c : bool) (max_iterations : Z) :
  0 <= w <= 253 -> 0 <= h <= 253 -> 1 <= capacity < 65536 ->
  let context := create_context w h capacity in
  parse_problem context problem0 level_str = Some (problem, c) ->
  (exists r, solve_bfs context problem max_iterations = Returned r)
  /\ (exists r, solve_astar plt priority_root priority_of context problem
                            max_iterations = Returned r).
Proof.
  intros Hw Hh Hcap context Hparse.
  pose proof (create_context_ok w h capacity Hw Hh) as Hok. fold context in Hok.
  assert (2 <= state_count context <= 65536) as Hcount.
  { unfold context. rewrite create_context_state_count by lia. lia. }
  split.
  - destruct (potentially_solvable problem) eqn:Hps.
    + pose proof (parse_problem_ok context problem0 problem level_str c Hok Hparse
                    Hps) as Hpb.
      destruct (solve_bfs_optimal context problem Hok Hpb Hcount max_iterations Hps)
        as (r & Hr & _). eauto.
    + rewrite solve_bfs_unsolvable by done. eauto.
  - apply solve_astar_returns; [done|].
    apply (parse_problem_crates_length context problem0 problem level_str c Hok Hparse).
Qed.

Lemma searches_return_witness :
  parse_problem context_A_10 (allocate_problem context_A_10) "A.10"
  = Some (problem_A_10, true)
  /\ (exists r, solve_bfs context_A_10 problem_A_10 0 = Returned r)
  /\ (exists r, solve_astar Z.ltb (exact_root 1) (exact_priority 1 0) context_A_10
                            problem_A_10 0 = Returned r).
Proof.
  split; [exact parse_problem_A_10|].
  exact (searches_return Z.ltb (exact_root 1) (exact_priority 1 0) 4 1 10 _ _ _ _ 0
           ltac:(lia) ltac:(lia) ltac:(lia) parse_problem_A_10).
Defined.

(** ** parse_problem on a problem that was used before *)

(** The bitsets and the counts that [parse_level] leaves do not depend on
    the problem it is given. *)
Lemma parse_level_reuse (context : context_t) (p1 p2 : problem_t) (level_str : string) :
  context_ok context ->
  let st1 := parse_level context p1 level_str in
  let st2 := parse_level context p2 level_str in
  p_walls st1 = p_walls st2 /\ p_goals st1 = p_goals st2
  /\ p_crates st1 = p_crates st2
  /\ p_goal_count st1 = p_goal_count st2 /\ p_crate_count st1 = p_crate_count st2
  /\ p_player_count st1 = p_player_count st2
  /\ (p_player_count st1 = 1 -> p_player st1 = p_player st2).
Proof.
  intros Hok. cbv zeta.
  set (st1 := parse_level context p1 level_str).
  set (st2 := parse_level context p2 level_str).
  destruct (parse_level_lengths context Hok p1 level_str) as (Hlw1 & Hlg1 & Hlc1).
  destruct (parse_level_lengths context Hok p2 level_str) as (Hlw2 & Hlg2 & Hlc2).
  destruct (parse_level_wf context Hok p1 level_str) as (Hww1 & Hwg1 & Hwc1).
  destruct (parse_level_wf context Hok p2 level_str) as (Hww2 & Hwg2 & Hwc2).
  destruct (parse_level_counts context Hok p1 level_str) as (Hg1 & Hc1 & Hp1).
  destruct (parse_level_counts context Hok p2 level_str) as (Hg2 & Hc2 & Hp2).
  fold st1 in Hlw1, Hlg1, Hlc1, Hww1, Hwg1, Hwc1, Hg1, Hc1, Hp1.
  fold st2 in Hlw2, Hlg2, Hlc2, Hww2, Hwg2, Hwc2, Hg2, Hc2, Hp2.
  assert (forall q, 0 <= q ->
            get_bit (p_walls st1) q = get_bit (p_walls st2) q
            /\ get_bit (p_goals st1) q = get_bit (p_goals st2) q
            /\ get_bit (p_crates st1) q = get_bit (p_crates st2) q) as Hbits.
  { intros q Hq. destruct (interior_dec context q) as [Hi|Hni].
    - destruct (interior_cell_position context Hok q Hi) as (n & Hn & ->).
      unfold st1, st2.
      destruct (parse_level_cell context Hok p1 level_str n Hn) as (-> & -> & ->).
      destruct (parse_level_cell context Hok p2 level_str n Hn) as (-> & -> & ->).
      done.
    - unfold st1, st2.
      destruct (parse_level_border context Hok p1 level_str q Hq Hni) as (-> & -> & ->).
      destruct (parse_level_border context Hok p2 level_str q Hq Hni) as (-> & -> & ->).
      done. }
  split; [apply bitset_ext; [congruence|done|done|intros q Hq; apply Hbits; done]|].
  split; [apply bitset_ext; [congruence|done|done|intros q Hq; apply Hbits; done]|].
  split; [apply bitset_ext; [congruence|done|done|intros q Hq; apply Hbits; done]|].
  split; [congruence|]. split; [congruence|]. split; [congruence|].
  intros Hone.
  destruct (parse_level_player context Hok p1 level_str ltac:(fold st1; lia))
    as (n1 & a1 & Hn1 & Ht1 & Ha1 & Hpl1).
  destruct (parse_level_player context Hok p2 level_str ltac:(fold st2; lia))
    as (n2 & a2 & Hn2 & Ht2 & Ha2 & Hpl2).
  fold st1 in Hpl1. fold st2 in Hpl2. rewrite Hpl1, Hpl2.
  assert (count_chars is_player_char (parsed_tiles context level_str) = 1) as Hcount
    by congruence.
  pose proof (count_chars_unique is_player_char _ _ _ _ _ Hcount Ht1 Ha1 Ht2 Ha2).
  f_equal. lia.
Qed.

(** X23. A problem can be used again: for two problems whose buffers
    have the sizes that [allocate_problem] gives them for the context, what
    [parse_problem] leaves of a level string does not depend on what the
    problem held before, for the
    walls, the goals, the crates, the number of goals and the two flags;
    for the player when the level is compilable; and for the whole problem
    when the level is compilable and has no 2x2 deadlock, which is when the
    deadlock map is computed anew. *)
Theorem parse_problem_reuse (w h capacity : Z) (p1 p2 r1 r2 : problem_t)
    (level_str : string) (c1 c2 : bool) :
  0 <= w <= 253 -> 0 <= h <= 253 ->
  let context := create_context w h capacity in
  problem_allocated context p1 -> problem_allocated context p2 ->
  parse_problem context p1 level_str = Some (r1, c1) ->
  parse_problem context p2 level_str = Some (r2, c2) ->
  c1 = c2 /\ walls r1 = walls r2 /\ goals r1 = goals r2 /\ crates r1 = crates r2
  /\ goal_count r1 = goal_count r2
  /\ compilable r1 = compilable r2
  /\ potentially_solvable r1 = potentially_solvable r2
  /\ (c1 = true -> player r1 = player r2)
  /\ (c1 = true -> check_all_2x2_deadlock context r1 = false -> r1 = r2).
Proof.
  intros Hw Hh context _ _ Hparse1 Hparse2.
  pose proof (create_context_ok w h capacity Hw Hh) as Hok. fold context in Hok.
  destruct (parse_problem_spec context p1 level_str Hok)
    as (r1' & H1 & Hgc1 & Hpl1 & Hwl1 & Hgl1 & Hcr1 & Hcomp1 & Hps1 & Hgen1).
  rewrite Hparse1 in H1. injection H1 as <- Hc1.
  destruct (parse_problem_spec context p2 level_str Hok)
    as (r2' & H2 & Hgc2 & Hpl2 & Hwl2 & Hgl2 & Hcr2 & Hcomp2 & Hps2 & Hgen2).
  rewrite Hparse2 in H2. injection H2 as <- Hc2.
  destruct (parse_level_reuse context p1 p2 level_str Hok)
    as (Hw12 & Hg12 & Hc12 & Hgc12 & Hcc12 & Hpc12 & Hp12).
  assert (walls r1 = walls r2) as Hwalls by congruence.
  assert (goals r1 = goals r2) as Hgoals by congruence.
  assert (crates r1 = crates r2) as Hcrates by congruence.
  assert (goal_count r1 = goal_count r2) as Hgcount by congruence.
  assert (compilable r1 = compilable r2) as Hcomp.
  { rewrite Hcomp1, Hcomp2, Hg12, Hc12, Hgc12, Hcc12, Hpc12. done. }
  assert (compilable r1 = true -> player r1 = player r2) as Hplayer.
  { intros Ht. rewrite Hcomp1 in Ht. apply andb_true_iff in Ht as [Ht _].
    apply andb_true_iff in Ht as [Ht _]. apply Z.eqb_eq in Ht.
    rewrite Hpl1, Hpl2. apply Hp12. done. }
  pose proof (check_all_2x2_deadlock_ext context r1 r2 Hwalls Hgoals Hcrates) as H2x2.
  assert (compilable r1 = true -> check_all_2x2_deadlock context r1 = false ->
          deadlocks r1 = deadlocks r2 /\ heuristics r1 = heuristics r2) as Hmap.
  { intros Ht Hf.
    specialize (Hgen1 ltac:(rewrite Ht, Hf; done)).
    specialize (Hgen2 ltac:(rewrite <- Hcomp, <- H2x2, Ht, Hf; done)).
    unfold generate_deadlock_map in Hgen1, Hgen2.
    rewrite Hwalls, Hgoals, Hgen2 in Hgen1. injection Hgen1 as -> ->. done. }
  assert (potentially_solvable r1 = potentially_solvable r2) as Hps.
  { rewrite Hps1, Hps2, <- Hcomp, <- H2x2.
    destruct (compilable r1) eqn:Ht; [|done].
    destruct (check_all_2x2_deadlock context r1) eqn:Hf; [done|].
    destruct (Hmap eq_refl eq_refl) as [Hd _].
    unfold reach_result. rewrite Hwalls, Hgoals, Hcrates, Hd, (Hplayer eq_refl). done. }
  split; [congruence|]. do 6 (split; [done|]).
  split; [intros ->; apply Hplayer; congruence|].
  intros -> Hf. rewrite <- Hc1 in *.
  destruct (Hmap eq_refl Hf) as [Hd Hh'].
  specialize (Hplayer eq_refl).
  destruct r1, r2. simpl in *. congruence.
Qed.

Lemma parse_problem_reuse_witness :
  problem_allocated context_A_10 (allocate_problem context_A_10)
  /\ problem_allocated context_A_10 problem_A_10
  /\ exists r, parse_problem context_A_10 (allocate_problem context_A_10) "A10."
               = Some (r, true)
               /\ parse_problem context_A_10 problem_A_10 "A10." = Some (r, true)
               /\ potentially_solvable r = true.
Proof.
  assert (problem_allocated context_A_10 (allocate_problem context_A_10)) as Ha1
    by (repeat split; reflexivity).
  assert (problem_allocated context_A_10 problem_A_10) as Ha2
    by (repeat split; reflexivity).
  split; [exact Ha1|]. split; [exact Ha2|].
  destruct (parse_problem context_A_10 (allocate_problem context_A_10) "A10.")
    as [[r1 c1]|] eqn:Hfresh; [|vm_compute in Hfresh; discriminate Hfresh].
  destruct (parse_problem context_A_10 problem_A_10 "A10.") as [[r2 c2]|] eqn:Hagain;
    [|vm_compute in Hagain; discriminate Hagain].
  assert (c1 = true /\ potentially_solvable r1 = true
          /\ check_all_2x2_deadlock context_A_10 r1 = false) as (-> & Hps & H2x2).
  { vm_compute in Hfresh. injection Hfresh as <- <-. vm_compute. done. }
  destruct (parse_problem_reuse 4 1 10 (allocate_problem context_A_10) problem_A_10
              r1 r2 "A10." true c2 ltac:(lia) ltac:(lia) Ha1 Ha2 Hfresh Hagain)
    as (Hc & _ & _ & _ & _ & _ & _ & _ & Heq).
  exists r1. split; [reflexivity|]. split; [|exact Hps].
  rewrite <- Hc, <- (Heq eq_refl H2x2). reflexivity.
Defined.

(** ** The children of a state *)

(** X24. The heuristic of [solve_astar] is consistent: in a state of a
    parsed, potentially solvable level with no crate on a cell of the
    deadlock map and a sum that fits its 16 bits, a child that the searches
    generate has a heuristic that is at most one lower than its parent's;
    a move that pushes no crate keeps the heuristic, and a child with every
    crate on a goal has the heuristic 0. *)
Theorem heuristic_consistent (w h capacity : Z) (problem0 problem : problem_t)
    (level_str : string) (c : bool) (player : Z) (crates : list Z)
    (index : nat) (direction : Z) (player' : Z) (action : ascii) (changed : bool)
    (crates' : list Z) :
  0 <= w <= 253 -> 0 <= h <= 253 ->
  let context := create_context w h capacity in
  parse_problem context problem0 level_str = Some (problem, c) ->
  potentially_solvable problem = true ->
  state_ok context problem player crates ->
  safe_crates problem crates ->
  (area context - 1) * crate_count context crates < 65536 ->
  directions context !! index = Some direction ->
  make_child context problem player crates index direction
  = Child player' action changed crates' ->
  compute_heuristic context problem crates
  <= compute_heuristic context problem crates' + 1
  /\ (changed = false ->
      compute_heuristic context problem crates'
      = compute_heuristic context problem crates)
  /\ (goal_state context problem crates' = true ->
      compute_heuristic context problem crates' = 0).
Proof.
  intros Hw Hh context Hparse Hsolvable Hs Hsafe Hsum Hdir Hchild.
  pose proof (create_context_ok w h capacity Hw Hh) as Hok. fold context in Hok.
  pose proof (parse_problem_ok context problem0 problem level_str c Hok Hparse
                Hsolvable) as Hpb.
  assert (edge context problem (player, crates) (player', crates')) as Hedge.
  { exists index, direction, action, changed. done. }
  pose proof (edge_ok context problem Hok Hpb (player, crates) (player', crates') Hs Hedge) as Hs'.
  pose proof (edge_safe context problem Hok Hpb (player, crates) (player', crates') Hs Hsafe
                Hedge) as Hsafe'.
  pose proof (edge_count context problem Hok Hpb (player, crates) (player', crates') Hs Hedge) as Hcount.
  pose proof (edge_heuristic context problem Hok Hpb (player, crates) (player', crates') Hs Hedge) as Hcons.
  simpl in Hs', Hsafe', Hcount, Hcons.
  rewrite (compute_heuristic_sum context problem Hok Hpb player crates Hs Hsafe Hsum).
  rewrite (compute_heuristic_sum context problem Hok Hpb player' crates' Hs' Hsafe'
             ltac:(rewrite Hcount; done)).
  split; [done|]. split.
  - intros ->.
    destruct (make_child_cases context problem Hok Hpb _ _ _ _ _ _ _ _ Hs Hdir Hchild)
      as (_ & _ & _ & [[_ ->]|[Hc _]]); [done|done].
  - intros Hg. apply (goal_heuristic context problem Hok Hpb player' crates' Hs' Hg).
Qed.

Lemma heuristic_consistent_witness :
  parse_problem context_A_10 (allocate_problem context_A_10) "A.10"
  = Some (problem_A_10, true)
  /\ potentially_solvable problem_A_10 = true
  /\ make_child context_A_10 problem_A_10 (player problem_A_10) (crates problem_A_10)
                1 1 = Child 8 "r" false (crates problem_A_10)
  /\ compute_heuristic context_A_10 problem_A_10 (crates problem_A_10)
     <= compute_heuristic context_A_10 problem_A_10 (crates problem_A_10) + 1.
Proof.
  assert (potentially_solvable problem_A_10 = true) as Hps by (vm_compute; reflexivity).
  pose proof (create_context_ok 4 1 10 ltac:(lia) ltac:(lia)) as Hok.
  pose proof (parse_problem_ok context_A_10 _ _ _ _ Hok parse_problem_A_10 Hps) as Hpb.
  pose proof (initial_state_ok context_A_10 problem_A_10 Hpb) as Hs.
  assert (make_child context_A_10 problem_A_10 (player problem_A_10)
                     (crates problem_A_10) 1 1
          = Child 8 "r" false (crates problem_A_10)) as Hchild
    by (vm_compute; reflexivity).
  split; [exact parse_problem_A_10|]. split; [exact Hps|]. split; [exact Hchild|].
  destruct (heuristic_consistent 4 1 10 _ _ _ _ _ _ 1%nat 1 _ _ _ _ ltac:(lia)
              ltac:(lia) parse_problem_A_10 Hps Hs (po_safe _ _ Hpb)
              ltac:(vm_compute; reflexivity) eq_refl Hchild) as [Hle _].
  exact Hle.
Defined.

(** X25. Every child that the searches generate for a state is a move that
    [verify_solution] accepts from that state, with the same new player
    position and crates; its action is in lower case when no crate is
    pushed, where the crates are those of the parent, and in upper case
    when a crate is pushed. *)
Theorem make_child_legal (context : context_t) (problem : problem_t)
    (player : Z) (crates : list Z) (index : nat) (direction : Z)
    (player' : Z) (action : ascii) (changed : bool) (crates' : list Z) :
  directions context !! index = Some direction ->
  length crates = Z.to_nat (bitset_size context) ->
  make_child context problem player crates index direction
  = Child player' action changed crates' ->
  verify_step context problem player crates action = Some (player', crates')
  /\ is_lower action = negb changed
  /\ changed = get_bit crates player'
  /\ (changed = false -> crates' = crates).
Proof.
  intros Hdir Hlen Hchild.
  destruct (make_child_verify context problem player crates index direction player'
              action changed crates' Hdir Hlen Hchild) as [Hstep _].
  split; [done|].
  assert (index < 4)%nat as Hindex by (apply lookup_lt_Some in Hdir; simpl in Hdir; lia).
  unfold make_child in Hchild.
  destruct (get_bit (walls problem) _); [done|].
  destruct (get_bit crates (wrap16 (player + direction))) eqn:Hcrate.
  - destruct (_ || _); [done|]. destruct (check_single_2x2_deadlock _ _ _ _ _); [done|].
    injection Hchild as <- <- <- <-. rewrite Hcrate.
    split; [|done].
    destruct index as [|[|[|[|]]]]; try lia; reflexivity.
  - injection Hchild as <- <- <- <-. rewrite Hcrate.
    split; [|done].
    destruct index as [|[|[|[|]]]]; try lia; reflexivity.
Qed.

Lemma make_child_legal_witness :
  directions context_A_10 !! 1%nat = Some 1
  /\ make_child context_A_10 problem_A_10 8 (crates problem_A_10) 1 1
     = Child 9 "R" true (goals problem_A_10)
  /\ verify_step context_A_10 problem_A_10 8 (crates problem_A_10) "R"
     = Some (9, goals problem_A_10)
  /\ is_lower "R" = false.
Proof.
  assert (make_child context_A_10 problem_A_10 8 (crates problem_A_10) 1 1
          = Child 9 "R" true (goals problem_A_10)) as Hchild
    by (vm_compute; reflexivity).
  split; [reflexivity|]. split; [exact Hchild|].
  destruct (make_child_legal context_A_10 problem_A_10 8 (crates problem_A_10) 1 1
              9 "R" true (goals problem_A_10) eq_refl ltac:(vm_compute; reflexivity)
              Hchild) as (Hstep & Hlow & _).
  split; [exact Hstep|exact Hlow].
Defined.

(** ** The theorems on a small level *)

Lemma context_ok_A10 : context_ok context_A10.
Proof. apply create_context_ok; lia. Qed.

Lemma level_ok_A10 :
  level_ok context_A10 (walls problem_A10) (goals problem_A10) (crates problem_A10).
Proof.
  exact (parse_level_ok context_A10 context_ok_A10 (allocate_problem context_A10) "A10").
Qed.

Lemma parse_problem_cells_witness :
  0 <= 3 <= 253 /\ 0 <= 1 <= 253
  /\ get_bit (walls problem_A10) (cell_position context_A10 1) = false
  /\ get_bit (goals problem_A10) (cell_position context_A10 1) = false
  /\ get_bit (crates problem_A10) (cell_position context_A10 1) = true.
Proof.
  split; [lia|]. split; [lia|].
  destruct (parse_problem_cells 3 1 10 (allocate_problem context_A10) "A10")
    as (problem' & Hparse & Hcells & _); [lia|lia|].
  fold context_A10 in Hparse, Hcells. rewrite parse_problem_A10 in Hparse.
  injection Hparse as <- _. apply (Hcells 1). lia.
Defined.

Lemma parse_problem_compilable_witness :
  0 <= 3 <= 253 /\ 0 <= 1 <= 253
  /\ count_chars is_player_char (parsed_tiles context_A10 "A10") = 1
  /\ count_chars is_goal_char (parsed_tiles context_A10 "A10")
     = count_chars is_crate_char (parsed_tiles context_A10 "A10").
Proof.
  split; [lia|]. split; [lia|].
  destruct (parse_problem_compilable 3 1 10 (allocate_problem context_A10) "A10")
    as (problem' & Hparse & Hiff & _); [lia|lia|].
  fold context_A10 in Hparse, Hiff. rewrite parse_problem_A10 in Hparse.
  injection Hparse as <- Hc. symmetry in Hc.
  destruct (proj1 Hiff Hc) as (H1 & H2 & _). split; done.
Defined.

Lemma parse_problem_potentially_solvable_witness :
  0 <= 3 <= 253 /\ 0 <= 1 <= 253
  /\ potentially_solvable problem_A10
     = compilable problem_A10
       && negb (check_all_2x2_deadlock context_A10 problem_A10)
       && negb (bitset_covers_any (crates problem_A10) (deadlocks problem_A10)
                                  (bitset_size context_A10))
       && reach_result context_A10 problem_A10.
Proof.
  split; [lia|]. split; [lia|].
  destruct (parse_problem_potentially_solvable 3 1 10 (allocate_problem context_A10)
              "A10") as (problem' & Hparse & Hps & _); [lia|lia|].
  fold context_A10 in Hparse, Hps. rewrite parse_problem_A10 in Hparse.
  injection Hparse as <- _. exact Hps.
Defined.

Lemma generate_deadlock_map_correct_witness :
  context_ok context_A10
  /\ level_ok context_A10 (walls problem_A10) (goals problem_A10) (crates problem_A10)
  /\ exists deadlocks heuristics,
       generate_deadlock_map context_A10 problem_A10 = Some (deadlocks, heuristics)
       /\ cost_at heuristics 7 <= area context_A10.
Proof.
  split; [exact context_ok_A10|]. split; [exact level_ok_A10|].
  destruct (generate_deadlock_map_correct context_A10 problem_A10 context_ok_A10
              level_ok_A10) as (D & H & Hgen & Hcells).
  exists D, H. split; [done|]. apply (Hcells 7). vm_compute. split; congruence.
Defined.

Lemma check_reachability_correct_witness :
  context_ok context_A10
  /\ level_ok context_A10 (walls problem_A10) (goals problem_A10) (crates problem_A10)
  /\ interior context_A10 6
  /\ exists result,
       check_reachability context_A10 (crates problem_A10) (goals problem_A10)
                          (walls problem_A10) 6 = Some result
       /\ (result = true <->
           forall p, 0 <= p ->
             xorb (get_bit (crates problem_A10) p) (get_bit (goals problem_A10) p) = true ->
             reachable context_A10 (walls problem_A10) 6 p).
Proof.
  assert (interior context_A10 6) as Hin by (exists 1, 1; vm_compute; repeat split; congruence).
  split; [exact context_ok_A10|]. split; [exact level_ok_A10|]. split; [exact Hin|].
  exact (check_reachability_correct context_A10 _ _ _ 6 context_ok_A10 level_ok_A10 Hin).
Defined.
